(** * transfer_layout_pass: a shallow embedding of
      paddle/fluid/framework/ir/transfer_layout_pass.cc

    The pass walks the topologically sorted operators of an IR graph,
    selects the [fused_conv2d_add_act] operators that can run in NHWC,
    rewrites them and their weights in place, and inserts
    [transfer_layout] operators on every edge that crosses a layout
    boundary.

    Pointers to IR nodes are indices into an arena ([list Node]); the C++
    containers [unordered_set], [unordered_map] and [std::map] are stdpp's
    [gset] and [gmap]; every way the C++ code can abort (PADDLE_ENFORCE,
    glog CHECK, [unordered_map::at], undefined behaviour) is an [Error]
    returned together with the state reached so far. *)

From Stdlib Require Import ZArith Lia.
From stdpp Require Import base option list gmap sets strings.

Local Open Scope string_scope.
Local Open Scope list_scope.

(** ** Data model *)

(** [phi::DataLayout]; the pass only ever compares against [kNCHW] and
    [kNHWC], the other enumerators are kept because a tensor or a caller
    may carry them. *)
Inductive DataLayout :=
  | kAnyLayout | kNHWC | kNCHW | kNCDHW | kNDHWC | kMKLDNN.

#[global] Instance DataLayout_eq_dec : EqDecision DataLayout.
Proof. solve_decision. Defined.

(** [framework::Attribute], restricted to the alternatives the pass reads
    or writes.  A [float] is kept by its IEEE-754 bit pattern, so that
    [0.f] is [AttrFloat 0]. *)
Inductive Attribute :=
  | AttrBool (b : bool)
  | AttrInt (i : Z)
  | AttrFloat (bits : Z)
  | AttrString (s : string).

#[global] Instance Attribute_eq_dec : EqDecision Attribute.
Proof. solve_decision. Defined.

(** [framework::OpDesc]: type, named inputs and outputs, attributes and the
    owning block (a pointer, possibly null). *)
Record OpDesc := mkOpDesc {
  type_ : string;
  inputs_ : gmap string (list string);
  outputs_ : gmap string (list string);
  attrs_ : gmap string Attribute;
  block_ : option nat;
}.

(** [framework::VarDesc]. *)
Record VarDesc := mkVarDesc {
  var_name : string;
  var_shape : list Z;
  var_dtype : Z;
  var_persistable : bool;
}.

Inductive NodeDesc :=
  | NOp (d : OpDesc)
  | NVar (d : VarDesc).

(** [ir::Node].  [inputs] and [outputs] are the adjacency vectors; they may
    hold the same pointer several times. *)
Record Node := mkNode {
  name_ : string;
  desc : NodeDesc;
  inputs : list nat;
  outputs : list nat;
}.

(** [phi::DenseTensor], by its meta data: the pass never looks at the
    elements of a buffer. *)
Record DenseTensor := mkTensor {
  dims : list Z;
  layout : DataLayout;
}.

(** [framework::BlockDesc], by its variable table. *)
Abbreviation BlockDesc := (gmap string VarDesc).

Inductive Error :=
  | PreconditionNotMet   (* PADDLE_ENFORCE_NOT_NULL(graph, ...) *)
  | InvalidArgument      (* PADDLE_ENFORCE_EQ(graph->IsMainGraph(), ...) *)
  | Fatal                (* PADDLE_ENFORCE_NOT_NULL(scope, ...) *)
  | EnforceNotMet        (* an enforce inside a collaborator: Node::Op,
                            Node::Var, OpDesc::Input, PADDLE_GET *)
  | CheckFailed          (* CHECK_EQ, CHECK_NOTNULL *)
  | OutOfRange           (* unordered_map::at *)
  | Undefined.           (* null or dangling dereference, operator[] past
                            the end, begin() of an empty vector *)

#[global] Instance Error_eq_dec : EqDecision Error.
Proof. solve_decision. Defined.

Inductive outcome (A : Type) :=
  | Ok (a : A)
  | Raise (e : Error).
Arguments Ok {A} a.
Arguments Raise {A} e.

Definition obind {A B} (m : outcome A) (k : A → outcome B) : outcome B :=
  match m with
  | Ok a => k a
  | Raise e => Raise e
  end.

Declare Scope outcome_scope.
Delimit Scope outcome_scope with outcome.
Notation "'let?' x := m 'in' k" := (obind m (fun x => k))
  (at level 10, x pattern, m at level 100, k at level 200) : outcome_scope.

(** A direction request handed to [InsertLayoutTransOp]; the pass keeps no
    such record, the list of requests is ghost state used to state what
    the pass asked for. *)
Record Request := mkRequest {
  rq_prev : nat;
  rq_next : nat;
  rq_from : DataLayout;
  rq_to : DataLayout;
}.

(** Everything the third loop of the pass mutates: the graph's nodes, the
    block descriptors, the parameter scope, and the two locals [cache] and
    [vars_shape_nhwc]. *)
Record State := mkState {
  nodes : list Node;
  blocks : list BlockDesc;
  scope : gmap string DenseTensor;
  cache : gmap nat nat;
  vars_shape_nhwc : gset nat;
  requests : list Request;
}.

(** ** Collaborators of the pass (read-only part) *)

Definition node_at (ns : list Node) (p : nat) : outcome Node :=
  match ns !! p with
  | Some n => Ok n
  | None => Raise Undefined
  end.

Definition IsOp (n : Node) : bool :=
  match desc n with NOp _ => true | NVar _ => false end.

Definition IsVar (n : Node) : bool :=
  match desc n with NOp _ => false | NVar _ => true end.

(** [Node::Op()] and [Node::Var()] enforce the kind of the node. *)
Definition Op (n : Node) : outcome OpDesc :=
  match desc n with NOp d => Ok d | NVar _ => Raise EnforceNotMet end.

Definition Var (n : Node) : outcome VarDesc :=
  match desc n with NVar d => Ok d | NOp _ => Raise EnforceNotMet end.

(** [OpDesc::Input(name)] enforces that the slot exists. *)
Definition Input (d : OpDesc) (slot : string) : outcome (list string) :=
  match inputs_ d !! slot with
  | Some l => Ok l
  | None => Raise EnforceNotMet
  end.

Definition HasAttr (d : OpDesc) (key : string) : bool :=
  bool_decide (is_Some (attrs_ d !! key)).

(** [OpDesc::GetAttrIfExists<T>]: the default-constructed [T] when the
    attribute is absent, the stored value when it has type [T], an enforce
    failure otherwise. *)
Definition GetAttrIfExists_string (d : OpDesc) (key : string) : outcome string :=
  match attrs_ d !! key with
  | None => Ok ""
  | Some (AttrString s) => Ok s
  | Some _ => Raise EnforceNotMet
  end.

Definition GetAttrIfExists_bool (d : OpDesc) (key : string) : outcome bool :=
  match attrs_ d !! key with
  | None => Ok false
  | Some (AttrBool b) => Ok b
  | Some _ => Raise EnforceNotMet
  end.

Definition SetAttr (d : OpDesc) (key : string) (a : Attribute) : OpDesc :=
  mkOpDesc (type_ d) (inputs_ d) (outputs_ d) (<[key := a]> (attrs_ d)) (block_ d).

Definition SetType (d : OpDesc) (t : string) : OpDesc :=
  mkOpDesc t (inputs_ d) (outputs_ d) (attrs_ d) (block_ d).

Definition SetInput (d : OpDesc) (slot : string) (l : list string) : OpDesc :=
  mkOpDesc (type_ d) (<[slot := l]> (inputs_ d)) (outputs_ d) (attrs_ d) (block_ d).

Definition SetOutput (d : OpDesc) (slot : string) (l : list string) : OpDesc :=
  mkOpDesc (type_ d) (inputs_ d) (<[slot := l]> (outputs_ d)) (attrs_ d) (block_ d).

(** [std::replace] over one argument list. *)
Definition replace_name (old new : string) (l : list string) : list string :=
  (λ x, if decide (x = old) then new else x) <$> l.

(** [OpDesc::RenameInput]: every occurrence of [old] in every input slot. *)
Definition RenameInput (d : OpDesc) (old new : string) : OpDesc :=
  mkOpDesc (type_ d) (replace_name old new <$> inputs_ d) (outputs_ d)
           (attrs_ d) (block_ d).

Definition SetShape (v : VarDesc) (s : list Z) : VarDesc :=
  mkVarDesc (var_name v) s (var_dtype v) (var_persistable v).

Definition SetDataType (v : VarDesc) (t : Z) : VarDesc :=
  mkVarDesc (var_name v) (var_shape v) t (var_persistable v).

Definition SetPersistable (v : VarDesc) (b : bool) : VarDesc :=
  mkVarDesc (var_name v) (var_shape v) (var_dtype v) b.

(** [v[i]] on a [std::vector<int64_t>]; past the end it is undefined. *)
Definition at_index (s : list Z) (i : nat) : outcome Z :=
  match s !! i with
  | Some z => Ok z
  | None => Raise Undefined
  end.

(** Modelled from the spec: [framework::TransDataLayout] (data_layout_transform.h,
    not part of this file) for the NCHW to NHWC call of the pass; "physically
    convert its buffer from A to B": the result has the dimensions in the new
    order and carries the new layout tag.  It enforces a rank of four and
    one of the two supported directions. *)
Definition TransDataLayout (from to : DataLayout) (t : DenseTensor) : outcome DenseTensor :=
  match dims t with
  | [n; c; h; w] =>
      if decide (from = kNCHW ∧ to = kNHWC) then Ok (mkTensor [n; h; w; c] to)
      else if decide (from = kNHWC ∧ to = kNCHW) then Ok (mkTensor [n; w; c; h] to)
      else Raise EnforceNotMet
  | _ => Raise EnforceNotMet
  end.

(** [static_cast<int>] of an [int64_t]: the low 32 bits, two's complement. *)
Definition to_int (z : Z) : Z := ((z + 2 ^ 31) `mod` 2 ^ 32 - 2 ^ 31)%Z.

(** ** The state and error monad of the rewriting loop *)

Definition M (A : Type) : Type := State → outcome A * State.

Definition ret {A} (a : A) : M A := λ s, (Ok a, s).
Definition raise {A} (e : Error) : M A := λ s, (Raise e, s).
Definition bind {A B} (m : M A) (k : A → M B) : M B :=
  λ s, match m s with
       | (Ok a, s') => k a s'
       | (Raise e, s') => (Raise e, s')
       end.
Definition read {A} (f : State → outcome A) : M A := λ s, (f s, s).
Definition lift {A} (o : outcome A) : M A := λ s, (o, s).
Definition modify (f : State → State) : M unit := λ s, (Ok tt, f s).

Declare Scope pass_scope.
Delimit Scope pass_scope with pass.
Notation "'let*' x := m 'in' k" := (bind m (fun x => k))
  (at level 10, x pattern, m at level 100, k at level 200) : pass_scope.
Notation "m ;; k" := (bind m (fun _ => k))
  (at level 100, k at level 200, right associativity) : pass_scope.

Local Open Scope pass_scope.

(** A range-based [for] whose body may abort the pass. *)
Fixpoint for_each {A} (l : list A) (body : A → M unit) : M unit :=
  match l with
  | [] => ret tt
  | x :: rest => body x ;; for_each rest body
  end.

Definition when (b : bool) (m : M unit) : M unit := if b then m else ret tt.

Definition set_nodes (ns : list Node) (s : State) : State :=
  mkState ns (blocks s) (scope s) (cache s) (vars_shape_nhwc s) (requests s).
Definition set_blocks (bs : list BlockDesc) (s : State) : State :=
  mkState (nodes s) bs (scope s) (cache s) (vars_shape_nhwc s) (requests s).
Definition set_scope (sc : gmap string DenseTensor) (s : State) : State :=
  mkState (nodes s) (blocks s) sc (cache s) (vars_shape_nhwc s) (requests s).
Definition set_cache (c : gmap nat nat) (s : State) : State :=
  mkState (nodes s) (blocks s) (scope s) c (vars_shape_nhwc s) (requests s).
Definition set_vars_shape_nhwc (v : gset nat) (s : State) : State :=
  mkState (nodes s) (blocks s) (scope s) (cache s) v (requests s).
Definition set_requests (r : list Request) (s : State) : State :=
  mkState (nodes s) (blocks s) (scope s) (cache s) (vars_shape_nhwc s) r.

Definition get_node (p : nat) : M Node := read (λ s, node_at (nodes s) p).

Definition with_desc (d : NodeDesc) (n : Node) : Node :=
  mkNode (name_ n) d (inputs n) (outputs n).
Definition with_inputs (f : list nat → list nat) (n : Node) : Node :=
  mkNode (name_ n) (desc n) (f (inputs n)) (outputs n).
Definition with_outputs (f : list nat → list nat) (n : Node) : Node :=
  mkNode (name_ n) (desc n) (inputs n) (f (outputs n)).

(** Writing through a node pointer: the pointer has to be live, one node of
    the arena changes. *)
Definition update_node (p : nat) (f : Node → Node) : M unit :=
  let* _ := get_node p in
  modify (λ s, set_nodes (alter f p (nodes s)) s).

(** A mutating member function applied to [p->Op()], respectively to
    [p->Var()]. *)
Definition map_op (f : OpDesc → OpDesc) (n : Node) : Node :=
  match desc n with
  | NOp d => with_desc (NOp (f d)) n
  | NVar _ => n
  end.

Definition map_var (f : VarDesc → VarDesc) (n : Node) : Node :=
  match desc n with
  | NVar d => with_desc (NVar (f d)) n
  | NOp _ => n
  end.

Definition update_op (p : nat) (f : OpDesc → OpDesc) : M unit :=
  let* n := get_node p in
  let* _ := lift (Op n) in
  modify (λ s, set_nodes (alter (map_op f) p (nodes s)) s).

Definition update_var (p : nat) (f : VarDesc → VarDesc) : M unit :=
  let* n := get_node p in
  let* _ := lift (Var n) in
  modify (λ s, set_nodes (alter (map_var f) p (nodes s)) s).

(** Modelled from the spec: the macros [IR_NODE_LINK_TO] and [IR_NODE_UNLINK]
    of graph_pattern_detector.h ("LinkEdge(a,b)", "UnlinkEdge(a,b)"): the
    first pushes [b] on [a->outputs] and [a] on [b->inputs], the second
    erases every occurrence. *)
Definition IR_NODE_LINK_TO (a b : nat) : M unit :=
  update_node a (with_outputs (λ l, l ++ [b])) ;;
  update_node b (with_inputs (λ l, l ++ [a])).

Definition IR_NODE_UNLINK (a b : nat) : M unit :=
  update_node a (with_outputs (filter (λ x, x ≠ b))) ;;
  update_node b (with_inputs (filter (λ x, x ≠ a))).

(** Modelled from the spec: [Graph::CreateOpNode] and [Graph::CreateVarNode]
    ("CreateOperatorNode(descriptor)", "CreateValueNode(descriptor)"): a new
    node that owns a copy of the descriptor, named after the operator type,
    respectively the variable, and without edges. *)
Definition CreateOpNode (d : OpDesc) : M nat :=
  λ s, (Ok (length (nodes s)),
        set_nodes (nodes s ++ [mkNode (type_ d) (NOp d) [] []]) s).

Definition CreateVarNode (d : VarDesc) : M nat :=
  λ s, (Ok (length (nodes s)),
        set_nodes (nodes s ++ [mkNode (var_name d) (NVar d) [] []]) s).

(** Modelled from the spec: [BlockDesc::Var(name)] returns the variable of
    that name of the block, creating an empty one when there is none; the
    pointer it returns is the pair of the block and the name. *)
Definition BlockVar (b : nat) (x : string) : M unit :=
  λ s, match blocks s !! b with
       | None => (Raise Undefined, s)
       | Some vars =>
           match vars !! x with
           | Some _ => (Ok tt, s)
           | None => (Ok tt, set_blocks (<[b := <[x := mkVarDesc x [] 0 false]> vars]> (blocks s)) s)
           end
       end.

Definition get_block_var (b : nat) (x : string) : M VarDesc :=
  read (λ s, match blocks s !! b with
             | None => Raise Undefined
             | Some vars => match vars !! x with
                            | Some v => Ok v
                            | None => Raise Undefined
                            end
             end).

Definition update_block_var (b : nat) (x : string) (f : VarDesc → VarDesc) : M unit :=
  let* v := get_block_var b x in
  modify (λ s, set_blocks (alter (<[x := f v]>) b (blocks s)) s).

Definition cache_insert (k v : nat) : M unit :=
  modify (λ s, set_cache (<[k := v]> (cache s)) s).

(** [cache->at(k)] throws [std::out_of_range] on a missing key. *)
Definition cache_at (k : nat) : M nat :=
  read (λ s, match cache s !! k with
             | Some v => Ok v
             | None => Raise OutOfRange
             end).

(** [v.front()] of an empty vector is undefined. *)
Definition front (l : list nat) : outcome nat :=
  match l with
  | x :: _ => Ok x
  | [] => Raise Undefined
  end.

Definition log_request (r : Request) : M unit :=
  modify (λ s, set_requests (requests s ++ [r]) s).

(** The two shape permutations of the pass: lines 63-67 write
    [{n, h, w, c}] from a shape read as [n, c, h, w], lines 69-73 write
    [{n, c, h, w}] from a shape read as [n, h, w, c]. *)
Definition shape_nchw_to_nhwc (to_shape : list Z) : outcome (list Z) :=
  (let? n := at_index to_shape 0 in
   let? c := at_index to_shape 1 in
   let? h := at_index to_shape 2 in
   let? w := at_index to_shape 3 in
   Ok [n; h; w; c])%outcome.

Definition shape_nhwc_to_nchw (to_shape : list Z) : outcome (list Z) :=
  (let? n := at_index to_shape 0 in
   let? h := at_index to_shape 1 in
   let? w := at_index to_shape 2 in
   let? c := at_index to_shape 3 in
   Ok [n; c; h; w])%outcome.

(** Lines 253-255 and 266-268:
    [{from_shape[0], from_shape[2], from_shape[3], from_shape[1]}]. *)
Definition shape_0231 (from_shape : list Z) : outcome (list Z) :=
  (let? a := at_index from_shape 0 in
   let? b := at_index from_shape 2 in
   let? c := at_index from_shape 3 in
   let? d := at_index from_shape 1 in
   Ok [a; b; c; d])%outcome.

Section Pass.

(** [static_cast<int>] of a [phi::DataLayout]; the enumerator values are
    declared in paddle/common/layout.h. *)
Variable layout_int : DataLayout → Z.

(** The pass attribute read by [Get<bool>("use_cutlass")]. *)
Variable use_cutlass : bool.

(** [TopologySortOperations] of graph_helper.h, applied to the graph. *)
Variable TopologySortOperations : list Node → list nat.

(** ** InsertLayoutTransOp (lines 33-99) *)

Definition update_op_desc (from_layout to_layout : DataLayout)
    (d : OpDesc) (x_name out_name : string) : OpDesc :=
  let d := SetType d "transfer_layout" in
  let d := SetInput d "X" [x_name] in
  let d := SetOutput d "Out" [out_name] in
  let d := SetAttr d "src_layout" (AttrInt (layout_int from_layout)) in
  SetAttr d "dst_layout" (AttrInt (layout_int to_layout)).

(** Lines 54-78: the conversion operator and its output variable, created
    on a cache miss. *)
Definition create_transfer (prev_node : nat)
    (from_layout to_layout : DataLayout) (b : nat)
    (in_var_name out_var_name : string) : M unit :=
  let op_desc :=
    update_op_desc from_layout to_layout
      (mkOpDesc "" ∅ ∅ ∅ (Some b)) in_var_name out_var_name in
  let* op_node := CreateOpNode op_desc in
  BlockVar b out_var_name ;;
  update_block_var b out_var_name (λ v, SetPersistable v false) ;;
  let* pn := get_node prev_node in
  let* pv := lift (Var pn) in
  update_block_var b out_var_name (λ v, SetDataType v (var_dtype pv)) ;;
  let* pn := get_node prev_node in
  let* pv := lift (Var pn) in
  let to_shape := var_shape pv in
  let* shp := lift (if decide (from_layout = kNCHW)
                    then shape_nchw_to_nhwc to_shape
                    else shape_nhwc_to_nchw to_shape) in
  update_block_var b out_var_name (λ v, SetShape v shp) ;;
  let* op_out_var_desc := get_block_var b out_var_name in
  let* op_out_var_node := CreateVarNode op_out_var_desc in
  IR_NODE_LINK_TO op_node op_out_var_node ;;
  cache_insert prev_node op_out_var_node.

(** Lines 80-85: the consumer is renamed and wired to the cached output. *)
Definition relink (prev_node next_node : nat) : M unit :=
  let* pn := get_node prev_node in
  let* cv := cache_at prev_node in
  let* cn := get_node cv in
  update_op next_node (λ d, RenameInput d (name_ pn) (name_ cn)) ;;
  let* cv := cache_at prev_node in
  let* cn := get_node cv in
  let* op := lift (front (inputs cn)) in
  IR_NODE_LINK_TO prev_node op ;;
  let* cv := cache_at prev_node in
  IR_NODE_LINK_TO cv next_node ;;
  IR_NODE_UNLINK prev_node next_node.

(** The lambda [do_insert], lines 40-86. *)
Definition do_insert (prev_node next_node : nat)
    (from_layout to_layout : DataLayout) (block_desc : option nat)
    (in_var_name out_var_name : string) : M unit :=
  let* b := lift (match block_desc with
                  | Some b => Ok b
                  | None => Raise CheckFailed
                  end) in
  let* hit := read (λ s, Ok (cache s !! prev_node)) in
  (match hit with
   | Some _ => ret tt
   | None => create_transfer prev_node from_layout to_layout b
                             in_var_name out_var_name
   end) ;;
  relink prev_node next_node.

Definition InsertLayoutTransOp (prev_node next_node : nat)
    (from_layout to_layout : DataLayout) (block_desc : option nat) : M unit :=
  log_request (mkRequest prev_node next_node from_layout to_layout) ;;
  if decide (from_layout = kNCHW ∧ to_layout = kNHWC) then
    let* pn := get_node prev_node in
    let* pv := lift (Var pn) in
    let in_var_name := var_name pv in
    let out_var_name := in_var_name +:+ "_nchw_to_nhwc" in
    do_insert prev_node next_node from_layout to_layout block_desc
              in_var_name out_var_name
  else if decide (from_layout = kNHWC ∧ to_layout = kNCHW) then
    let* pn := get_node prev_node in
    let* pv := lift (Var pn) in
    let in_var_name := var_name pv in
    let out_var_name := in_var_name +:+ "_nhwc_to_nchw" in
    do_insert prev_node next_node from_layout to_layout block_desc
              in_var_name out_var_name
  else ret tt.

(** ** ApplyImpl (lines 103-306) *)

(** Folding a loop body that may abort and has no effect on the heap. *)
Fixpoint ofoldl {A B} (f : A → B → outcome A) (a : A) (l : list B) : outcome A :=
  match l with
  | [] => Ok a
  | x :: rest => (let? a' := f a x in ofoldl f a' rest)%outcome
  end.

Definition target_op_type : string := "fused_conv2d_add_act".

Definition CUDNN_ALIGNMENT : Z := 8.

(** [scope->FindLocalVar(name)->Get<phi::DenseTensor>()]; the pointer is null
    when the scope has no such variable. *)
Definition FindLocalVar (sc : gmap string DenseTensor) (x : string) : outcome DenseTensor :=
  match sc !! x with
  | Some t => Ok t
  | None => Raise Undefined
  end.

(** The loop of [cuDNNIsValid], lines 144-156.  [%] is C++'s truncating
    remainder, [Z.rem]. *)
Fixpoint cudnn_filters (sc : gmap string DenseTensor) (filter_names : list string)
    : outcome bool :=
  match filter_names with
  | [] => Ok true
  | filter_name :: rest =>
      (let? filter_tensor := FindLocalVar sc filter_name in
       if negb (bool_decide (length (dims filter_tensor) = 4)) then Raise CheckFailed
       else
         let? d0 := at_index (dims filter_tensor) 0 in
         let? d1 := at_index (dims filter_tensor) 1 in
         let oc := to_int d0 in
         let ic := to_int d1 in
         let cudnn_can_support :=
           bool_decide (Z.rem oc CUDNN_ALIGNMENT = 0%Z)
           && bool_decide (Z.rem ic CUDNN_ALIGNMENT = 0%Z) in
         if negb cudnn_can_support then Ok false
         else cudnn_filters sc rest)%outcome
  end.

Definition cuDNNIsValid (s : State) (op_node : nat) : outcome bool :=
  (let? n := node_at (nodes s) op_node in
   let? d := Op n in
   let? filter_names := Input d "Filter" in
   cudnn_filters (scope s) filter_names)%outcome.

Definition CutlassIsValid (s : State) (op_node : nat) : outcome bool :=
  (let? n := node_at (nodes s) op_node in
   let? op_desc := Op n in
   let? use_cudnn :=
     if HasAttr op_desc "use_cudnn"
     then GetAttrIfExists_bool op_desc "use_cudnn"
     else Ok true in
   let cutlass_enable := use_cutlass in
   Ok (negb use_cudnn && cutlass_enable))%outcome.

(** [weights_shared[filter_name].push_back(op_node)]. *)
Definition push_back (ws : gmap string (list nat)) (k : string) (p : nat)
    : gmap string (list nat) :=
  <[k := default [] (ws !! k) ++ [p]]> ws.

(** The body of the first loop, lines 169-190. *)
Definition classify_step (s : State)
    (acc : gmap string (list nat) * gset nat) (op_node : nat)
    : outcome (gmap string (list nat) * gset nat) :=
  (let? n := node_at (nodes s) op_node in
   if negb (IsOp n) then Raise CheckFailed
   else
     let? d := Op n in
     if decide (type_ d ≠ target_op_type) then Ok acc
     else
       let? data_format := GetAttrIfExists_string d "data_format" in
       if decide (data_format ≠ "NCHW") then Ok acc
       else
         let? filter_names := Input d "Filter" in
         let weights_shared :=
           foldl (λ ws filter_name, push_back ws filter_name op_node)
                 (fst acc) filter_names in
         let? cudnn := cuDNNIsValid s op_node in
         let? ok := if cudnn then Ok true else CutlassIsValid s op_node in
         Ok (weights_shared,
             if ok then {[op_node]} ∪ snd acc else snd acc))%outcome.

(** [weights_shared[filter_name]]; for a missing key [operator[]] creates
    an empty vector, which reads the same as no entry. *)
Definition shared_by (ws : gmap string (list nat)) (filter_name : string) : list nat :=
  default [] (ws !! filter_name).

(** Lines 198-206, for one filter name. *)
Definition invalidate (ws : gmap string (list nat)) (valid_ops : gset nat)
    (filter_name : string) : gset nat :=
  if existsb (λ node, bool_decide (node ∉ valid_ops)) (shared_by ws filter_name)
  then foldl (λ v node, v ∖ {[node]}) valid_ops (shared_by ws filter_name)
  else valid_ops.

(** The body of the second loop, lines 193-209. *)
Definition filter_step (s : State) (ws : gmap string (list nat))
    (valid_ops : gset nat) (op_node : nat) : outcome (gset nat) :=
  (let? n := node_at (nodes s) op_node in
   if negb (IsOp n) then Raise CheckFailed
   else if bool_decide (op_node ∈ valid_ops) then
     let? d := Op n in
     let? filter_names := Input d "Filter" in
     Ok (foldl (invalidate ws) valid_ops filter_names)
   else Ok valid_ops)%outcome.

(** Lines 218-229: the attributes of an operator that runs NHWC. *)
Definition commit_attrs (op_node : nat) : M unit :=
  let* n := get_node op_node in
  let* op_desc := lift (Op n) in
  let* cutlass := read (λ s, CutlassIsValid s op_node) in
  (if cutlass then
     when (negb (HasAttr op_desc "fuse_alpha"))
          (update_op op_node (λ d, SetAttr d "fuse_alpha" (AttrFloat 0)))
   else
     let* cudnn := read (λ s, cuDNNIsValid s op_node) in
     if cudnn then
       when (HasAttr op_desc "use_cudnn")
            (update_op op_node (λ d, SetAttr d "use_cudnn" (AttrBool true)))
     else ret tt) ;;
  update_op op_node (λ d, SetAttr d "data_format" (AttrString "NHWC")).

(** Lines 248-257: the declared shape of the filter's variable nodes. *)
Definition permute_filter_var (filter_name : string) (in_var_node : nat) : M unit :=
  let* n := get_node in_var_node in
  if negb (IsVar n) then raise CheckFailed
  else
    let* v := lift (Var n) in
    when (var_persistable v && bool_decide (var_name v = filter_name))
         (let* from_shape := lift (shape_0231 (var_shape v)) in
          update_var in_var_node (λ v, SetShape v from_shape)).

(** Lines 233-258, for one filter name. *)
Definition transfer_weight (op_node : nat) (filter_name : string) : M unit :=
  let* filter_tensor := read (λ s, FindLocalVar (scope s) filter_name) in
  if decide (layout filter_tensor = kNHWC) then ret tt
  else
    let* temp_tensor := lift (TransDataLayout kNCHW kNHWC filter_tensor) in
    modify (λ s, set_scope (<[filter_name := temp_tensor]> (scope s)) s) ;;
    let* n := get_node op_node in
    let op_inputs := inputs n in
    for_each op_inputs (permute_filter_var filter_name).

(** Lines 262-270, for one output. *)
Definition transfer_output (out_var_node : nat) : M unit :=
  let* n := get_node out_var_node in
  if negb (IsVar n) then raise CheckFailed
  else
    let* v := lift (Var n) in
    if var_persistable v then ret tt
    else
      let* from_shape := lift (shape_0231 (var_shape v)) in
      update_var out_var_node (λ v, SetShape v from_shape) ;;
      modify (λ s, set_vars_shape_nhwc ({[out_var_node]} ∪ vars_shape_nhwc s) s).

(** Lines 274-287, for one input of an operator that runs NHWC. *)
Definition transfer_input (block_desc : option nat) (op_node in_var_node : nat)
    : M unit :=
  let* n := get_node in_var_node in
  if negb (IsVar n) then raise CheckFailed
  else
    let* v := lift (Var n) in
    if var_persistable v then ret tt
    else
      let* recorded := read (λ s, Ok (bool_decide (in_var_node ∈ vars_shape_nhwc s))) in
      if recorded then ret tt
      else InsertLayoutTransOp in_var_node op_node kNCHW kNHWC block_desc.

(** Lines 290-302, for one input of an operator that stays NCHW. *)
Definition restore_input (block_desc : option nat) (op_node in_var_node : nat)
    : M unit :=
  let* n := get_node in_var_node in
  if negb (IsVar n) then raise CheckFailed
  else
    let* recorded := read (λ s, Ok (bool_decide (in_var_node ∈ vars_shape_nhwc s))) in
    when recorded
         (InsertLayoutTransOp in_var_node op_node kNHWC kNCHW block_desc).

(** The body of the third loop, lines 212-304. *)
Definition commit_step (valid_ops : gset nat) (block_desc : option nat)
    (op_node : nat) : M unit :=
  let* n := get_node op_node in
  if negb (IsOp n) then raise CheckFailed
  else if bool_decide (op_node ∈ valid_ops) then
    commit_attrs op_node ;;
    let* n := get_node op_node in
    let* op_desc := lift (Op n) in
    let* filter_names := lift (Input op_desc "Filter") in
    for_each filter_names (transfer_weight op_node) ;;
    let* n := get_node op_node in
    for_each (outputs n) transfer_output ;;
    let* n := get_node op_node in
    for_each (inputs n) (transfer_input block_desc op_node)
  else
    let* n := get_node op_node in
    for_each (inputs n) (restore_input block_desc op_node).

(** [ir::Graph], by what the pass uses: the nodes, [IsMainGraph()] and the
    scope returned by [param_scope()] (a pointer, possibly null). *)
Record Graph := mkGraph {
  g_nodes : list Node;
  g_main : bool;
  g_param_scope : option (gmap string DenseTensor);
}.

(** What a caller of the pass can observe afterwards: the graph behind the
    pointer it passed (none for a null pointer) and the block descriptors. *)
Record World := mkWorld {
  w_graph : option Graph;
  w_blocks : list BlockDesc;
}.

Definition initial_state (g : Graph) (sc : gmap string DenseTensor)
    (bs : list BlockDesc) : State :=
  mkState (g_nodes g) bs sc ∅ ∅ [].

Definition world_of (g : Graph) (s : State) : World :=
  mkWorld (Some (mkGraph (nodes s) (g_main g) (Some (scope s)))) (blocks s).

(** The first two loops: the operators that will run NHWC, with the index
    of shared filters. *)
Definition select_ops (s0 : State) (op_nodes : list nat)
    : outcome (gmap string (list nat) * gset nat) :=
  (let? classified := ofoldl (classify_step s0) (∅, ∅) op_nodes in
   let weights_shared := fst classified in
   let? valid_ops :=
     ofoldl (filter_step s0 weights_shared) (snd classified) op_nodes in
   Ok (weights_shared, valid_ops))%outcome.

(** The three loops, after the enforces and the topological sort; the value
    returned is the argument of [AddStatis]. *)
Definition run_loops (op_nodes : list nat) (block_desc : option nat) : M nat :=
  let* selected := read (λ s, select_ops s op_nodes) in
  let valid_ops := snd selected in
  for_each op_nodes (commit_step valid_ops block_desc) ;;
  ret (size valid_ops).

Definition ApplyImpl (w : World) : outcome nat * World :=
  match w_graph w with
  | None => (Raise PreconditionNotMet, w)
  | Some g =>
      let scope := g_param_scope g in
      if negb (g_main g) then (Raise InvalidArgument, w)
      else
        match scope with
        | None => (Raise Fatal, w)
        | Some sc =>
            let op_nodes := TopologySortOperations (g_nodes g) in
            match op_nodes with
            | [] => (Raise Undefined, w)
            | first :: _ =>
                let s := initial_state g sc (w_blocks w) in
                let '(r, s') :=
                  (let* n := get_node first in
                   let* d := lift (Op n) in
                   let block_desc := block_ d in
                   run_loops op_nodes block_desc) s in
                (r, world_of g s')
            end
        end
  end.

End Pass.

(** ** The properties of the specification, in its words *)

(** The three enforce failures of lines 104-119. *)
Definition precondition_error (e : Error) : Prop :=
  e = PreconditionNotMet ∨ e = InvalidArgument ∨ e = Fatal.

(** "null graph reference, graph is not the main/top-level graph, or null
    parameter scope". *)
Definition precondition_violated (w : World) : Prop :=
  w_graph w = None
  ∨ (∃ g, w_graph w = Some g ∧ g_main g = false)
  ∨ (∃ g, w_graph w = Some g ∧ g_param_scope g = None).

(** Predicate P1: every filter of the operator is a tensor of the scope
    whose dimensions 0 and 1 are both multiples of 8. *)
Definition aligned (sc : gmap string DenseTensor) (filter_name : string) : Prop :=
  ∃ t d0 d1, sc !! filter_name = Some t
             ∧ dims t !! 0 = Some d0 ∧ dims t !! 1 = Some d1
             ∧ (8 | d0)%Z ∧ (8 | d1)%Z.

Definition P1 (sc : gmap string DenseTensor) (d : OpDesc) : Prop :=
  ∃ filter_names, inputs_ d !! "Filter" = Some filter_names
                  ∧ ∀ f, f ∈ filter_names → aligned sc f.

(** Predicate P2: [use_cudnn] is explicitly false and the policy flag is
    set. *)
Definition P2 (use_cutlass : bool) (d : OpDesc) : Prop :=
  attrs_ d !! "use_cudnn" = Some (AttrBool false) ∧ use_cutlass = true.

(** Eligibility of section 4.1. *)
Definition eligible (use_cutlass : bool) (s : State) (p : nat) : Prop :=
  ∃ n d, nodes s !! p = Some n ∧ desc n = NOp d
         ∧ type_ d = target_op_type
         ∧ attrs_ d !! "data_format" = Some (AttrString "NCHW")
         ∧ (P1 (scope s) d ∨ P2 use_cutlass d).

(** The node arena after [IR_NODE_LINK_TO(a, b)], after [IR_NODE_UNLINK(a, b)]
    and after lines 80-85 of [InsertLayoutTransOp]: the consumer [next] is
    renamed, the producer [prev] is linked to the conversion operator [a],
    the conversion output [cv] to [next], and [prev] is unlinked from
    [next]. *)
Definition link (a b : nat) (ns : list Node) : list Node :=
  alter (with_inputs (λ l, l ++ [a])) b (alter (with_outputs (λ l, l ++ [b])) a ns).

Definition unlink (a b : nat) (ns : list Node) : list Node :=
  alter (with_inputs (filter (λ x, x ≠ a))) b
        (alter (with_outputs (filter (λ x, x ≠ b))) a ns).

Definition rewire (prev cv a next : nat) (old new : string) (ns : list Node)
    : list Node :=
  unlink prev next
    (link cv next
       (link prev a
          (alter (map_op (λ d, RenameInput d old new)) next ns))).

(** The descriptor of the conversion output after lines 57-74, from the
    variable table [vars] of the block. *)
Definition out_var_desc (vars : BlockDesc) (out_var_name : string)
    (dtype : Z) (shp : list Z) : VarDesc :=
  SetShape
    (SetDataType
       (SetPersistable (default (mkVarDesc out_var_name [] 0 false)
                                (vars !! out_var_name)) false)
       dtype)
    shp.

(** The permutation chosen at line 62. *)
Definition transfer_shape (from_layout : DataLayout) (to_shape : list Z)
    : outcome (list Z) :=
  if decide (from_layout = kNCHW) then shape_nchw_to_nhwc to_shape
  else shape_nhwc_to_nchw to_shape.

(** The two nodes created on a cache miss, and the arena with them. *)
Definition transfer_op_node (layout_int : DataLayout → Z)
    (from_layout to_layout : DataLayout) (b : nat)
    (in_var_name out_var_name : string) : Node :=
  let d := update_op_desc layout_int from_layout to_layout
             (mkOpDesc "" ∅ ∅ ∅ (Some b)) in_var_name out_var_name in
  mkNode (type_ d) (NOp d) [] [].

Definition transfer_var_node (vd : VarDesc) : Node :=
  mkNode (var_name vd) (NVar vd) [] [].

Definition with_transfer (ns : list Node) (opn varn : Node) : list Node :=
  link (length ns) (S (length ns)) ((ns ++ [opn]) ++ [varn]).

(** A consumer after lines 80-85: renamed, linked to the conversion output
    [cv] and unlinked from the producer [prev]. *)
Definition consumer_after (prev cv : nat) (old new : string) (n : Node) : Node :=
  with_inputs (λ l, filter (λ x, x ≠ prev) (l ++ [cv]))
              (map_op (λ d, RenameInput d old new) n).

(** The input slots [ins'] are the input slots [ins] with every reference
    to the name [old] replaced by [new]: the same slots, argument lists of
    the same length, position by position [new] where [old] stood and the
    name that stood there otherwise. *)
Definition renamed_slots (old new : string)
    (ins ins' : gmap string (list string)) : Prop :=
  dom ins' = dom ins
  ∧ ∀ slot args, ins !! slot = Some args →
      ∃ args', ins' !! slot = Some args'
        ∧ length args' = length args
        ∧ ∀ i a, args !! i = Some a →
            args' !! i = Some (if decide (a = old) then new else a).

(** The state [s'] reached from [s] once the consumers [done] of the
    producer [prev] have been served, in that order, by one conversion
    operator (descriptor [od], node [length (nodes s)]) and one conversion
    output (descriptor [vd], node [S (length (nodes s))]). *)
Record served (s : State) (prev : nat) (od : OpDesc) (vd : VarDesc)
    (old : string) (done : list nat) (s' : State) : Prop := mkServed {
  served_length : length (nodes s') = S (S (length (nodes s)));
  served_cache : cache s' = <[prev := S (length (nodes s))]> (cache s);
  served_scope : scope s' = scope s;
  served_vars : vars_shape_nhwc s' = vars_shape_nhwc s;
  served_op :
    nodes s' !! length (nodes s)
    = Some (mkNode (type_ od) (NOp od) (replicate (length done) prev)
                   [S (length (nodes s))]);
  served_out :
    nodes s' !! S (length (nodes s))
    = Some (mkNode (var_name vd) (NVar vd) [length (nodes s)] done);
  served_prev :
    nodes s' !! prev
    = with_outputs (λ l, filter (λ x, x ∉ done) l
                         ++ replicate (length done) (length (nodes s)))
        <$> nodes s !! prev;
  served_others :
    ∀ q, q < length (nodes s) → q ≠ prev →
      nodes s' !! q
      = if decide (q ∈ done)
        then consumer_after prev (S (length (nodes s))) old (var_name vd)
               <$> nodes s !! q
        else nodes s !! q;
}.

(** The two directions [InsertLayoutTransOp] acts on. *)
Definition valid_direction (from_layout to_layout : DataLayout) : Prop :=
  (from_layout = kNCHW ∧ to_layout = kNHWC)
  ∨ (from_layout = kNHWC ∧ to_layout = kNCHW).

Definition direction_suffix (from_layout : DataLayout) : string :=
  if decide (from_layout = kNCHW) then "_nchw_to_nhwc" else "_nhwc_to_nchw".

(** ** Example inputs *)

(** The enumerator values of paddle/common/layout.h. *)
Definition example_layout_int (l : DataLayout) : Z :=
  match l with
  | kAnyLayout => 0
  | kNHWC => 1
  | kNCHW => 2
  | kNCDHW => 3
  | kNDHWC => 4
  | kMKLDNN => 5
  end.

(** A sort that returns the operators in a given order. *)
Definition fixed_order (l : list nat) : list Node → list nat := λ _, l.

Definition op_node (type : string) (x : string) (filters : list string)
    (attrs : list (string * Attribute)) (ins outs : list nat) : Node :=
  mkNode type
    (NOp (mkOpDesc type {[ "Filter" := filters; "Input" := [x] ]} ∅
            (list_to_map attrs) (Some 0%nat)))
    ins outs.

Definition conv_node (x : string) (filters : list string)
    (attrs : list (string * Attribute)) (ins outs : list nat) : Node :=
  op_node "fused_conv2d_add_act" x filters
          (("data_format", AttrString "NCHW") :: attrs) ins outs.

Definition var_node (x : string) (shape : list Z) (persistable : bool)
    (ins outs : list nat) : Node :=
  mkNode x (NVar (mkVarDesc x shape 5 persistable)) ins outs.

(** One activation read by two operators. *)
Definition fanout_state : State :=
  mkState
    [ var_node "x" [1; 16; 32; 32]%Z false [] [1; 2];
      op_node "relu" "x" [] [] [0] [];
      op_node "relu" "x" [] [] [0] [] ]
    [∅] ∅ ∅ ∅ [].

(** The scenario of the specification: one convolution with an aligned
    filter and one activation input. *)
Definition single_conv_graph : Graph :=
  mkGraph
    [ conv_node "x" ["W"] [] [1; 2] [3];
      var_node "x" [1; 16; 32; 32]%Z false [] [0];
      var_node "W" [16; 16; 3; 3]%Z true [] [0];
      var_node "y" [1; 16; 32; 32]%Z false [0] [] ]
    true (Some {[ "W" := mkTensor [16; 16; 3; 3]%Z kNCHW ]}).

(** Three convolutions in a row: the first two share the aligned filter F1,
    the last two share the filter F2, whose 15 output channels no P1 accepts;
    the second runs on the alternate kernel, the third on neither. *)
Definition chain_scope : gmap string DenseTensor :=
  {[ "F1" := mkTensor [16; 16; 3; 3]%Z kNCHW;
     "F2" := mkTensor [15; 16; 3; 3]%Z kNCHW ]}.

Definition chain_graph : Graph :=
  mkGraph
    [ conv_node "x0" ["F1"] [] [3; 7] [4];
      conv_node "x1" ["F1"; "F2"] [("use_cudnn", AttrBool false)] [4; 7; 8] [5];
      conv_node "x2" ["F2"] [] [5; 8] [6];
      var_node "x0" [1; 16; 32; 32]%Z false [] [0];
      var_node "x1" [1; 16; 32; 32]%Z false [0] [1];
      var_node "x2" [1; 16; 32; 32]%Z false [1] [2];
      var_node "x3" [1; 15; 32; 32]%Z false [2] [];
      var_node "F1" [16; 16; 3; 3]%Z true [] [0; 1];
      var_node "F2" [15; 16; 3; 3]%Z true [] [1; 2] ]
    true (Some chain_scope).

(** Two convolutions in a row that read the filter W through two variable
    nodes of that name. *)
Definition two_filter_nodes_graph : Graph :=
  mkGraph
    [ conv_node "x0" ["W"] [] [2; 5] [3];
      conv_node "x1" ["W"] [] [3; 6] [4];
      var_node "x0" [1; 16; 32; 32]%Z false [] [0];
      var_node "x1" [1; 16; 32; 32]%Z false [0] [1];
      var_node "x2" [1; 16; 32; 32]%Z false [1] [];
      var_node "W" [16; 16; 3; 3]%Z true [] [0];
      var_node "W" [16; 16; 3; 3]%Z true [] [1] ]
    true (Some {[ "W" := mkTensor [16; 16; 3; 3]%Z kNCHW ]}).

(** One convolution with an aligned filter and [use_cudnn] false: with the
    policy flag set it satisfies both P1 and P2. *)
Definition both_paths_graph : Graph :=
  mkGraph
    [ conv_node "x0" ["W"] [("use_cudnn", AttrBool false)] [1; 3] [2];
      var_node "x0" [1; 16; 32; 32]%Z false [] [0];
      var_node "x1" [1; 16; 32; 32]%Z false [0] [];
      var_node "W" [16; 16; 3; 3]%Z true [] [0] ]
    true (Some {[ "W" := mkTensor [16; 16; 3; 3]%Z kNCHW ]}).

(** Two convolutions in a row that share the aligned filter W (one variable
    node) and carry [use_cudnn] false. *)
Definition shared_filter_graph : Graph :=
  mkGraph
    [ conv_node "x0" ["W"] [("use_cudnn", AttrBool false)] [2; 5] [3];
      conv_node "x1" ["W"] [("use_cudnn", AttrBool false)] [3; 5] [4];
      var_node "x0" [1; 16; 32; 32]%Z false [] [0];
      var_node "x1" [1; 16; 32; 32]%Z false [0] [1];
      var_node "x2" [1; 16; 32; 32]%Z false [1] [];
      var_node "W" [16; 16; 3; 3]%Z true [] [0; 1] ]
    true (Some {[ "W" := mkTensor [16; 16; 3; 3]%Z kNCHW ]}).

(** A main graph without any node. *)
Definition empty_graph : Graph := mkGraph [] true (Some ∅).

Definition world_with (g : Graph) : World := mkWorld (Some g) [∅].

(** Reading the world a run of the pass leaves behind. *)
Definition nodes_after (r : outcome nat * World) : list Node :=
  match w_graph (snd r) with
  | Some g => g_nodes g
  | None => []
  end.

Definition scope_after (r : outcome nat * World) : gmap string DenseTensor :=
  match w_graph (snd r) with
  | Some g => default ∅ (g_param_scope g)
  | None => ∅
  end.

Definition attr_of (ns : list Node) (p : nat) (key : string) : option Attribute :=
  match ns !! p with
  | Some n => match desc n with
              | NOp d => attrs_ d !! key
              | NVar _ => None
              end
  | None => None
  end.

Definition slot_of (ns : list Node) (p : nat) (slot : string)
    : option (list string) :=
  match ns !! p with
  | Some n => match desc n with
              | NOp d => inputs_ d !! slot
              | NVar _ => None
              end
  | None => None
  end.

Definition shape_of (ns : list Node) (p : nat) : option (list Z) :=
  match ns !! p with
  | Some n => match desc n with
              | NVar v => Some (var_shape v)
              | NOp _ => None
              end
  | None => None
  end.

(** "for all resource groups, either every member node is eligible or none
    is". *)
Definition consistent_sharing (weights_shared : gmap string (list nat))
    (valid_ops : gset nat) : Prop :=
  ∀ filter_name group, weights_shared !! filter_name = Some group →
    (∀ p, p ∈ group → p ∈ valid_ops) ∨ (∀ p, p ∈ group → p ∉ valid_ops).

(** A variable node after lines 251-256 for the filter [filter_name]. *)
Definition permuted_filter_node (filter_name : string) (vn : Node) : Node :=
  match desc vn with
  | NVar vd =>
      if var_persistable vd && bool_decide (var_name vd = filter_name)
      then match shape_0231 (var_shape vd) with
           | Ok shp => with_desc (NVar (SetShape vd shp)) vn
           | Raise _ => vn
           end
      else vn
  | NOp _ => vn
  end.

Definition both_paths_state : State :=
  initial_state both_paths_graph {[ "W" := mkTensor [16; 16; 3; 3]%Z kNCHW ]} [∅].

Definition shared_filter_state : State :=
  initial_state shared_filter_graph {[ "W" := mkTensor [16; 16; 3; 3]%Z kNCHW ]} [∅].

Definition two_filter_nodes_state : State :=
  initial_state two_filter_nodes_graph {[ "W" := mkTensor [16; 16; 3; 3]%Z kNCHW ]} [∅].

(** *** How the third loop may change the graph *)

Definition is_op_at (ns : list Node) (q : nat) : Prop :=
  ∃ n, ns !! q = Some n ∧ IsOp n = true.

Definition is_var_at (ns : list Node) (q : nat) : Prop :=
  ∃ n, ns !! q = Some n ∧ IsOp n = false.

(** While the operator [x] is being committed, the arena [ns] of [n0]
    original nodes followed by created ones becomes [ns']: nodes keep
    their kind, variables keep their inputs, operators keep their outputs,
    and the original operators other than [x] keep their inputs. *)
Definition rewired (n0 x : nat) (ns ns' : list Node) : Prop :=
  (length ns ≤ length ns')%nat
  ∧ ∀ q n, ns !! q = Some n →
      ∃ n', ns' !! q = Some n' ∧ IsOp n' = IsOp n
        ∧ (IsOp n = false → inputs n' = inputs n)
        ∧ (IsOp n = true →
             outputs n' = outputs n
             ∧ (q ≠ x → (q < n0)%nat → inputs n' = inputs n)).

(** Every cached conversion output is a variable whose first input is a
    created operator. *)
Definition cache_wf (n0 : nat) (s : State) : Prop :=
  ∀ p cv, cache s !! p = Some cv →
    ∃ cn a rest, nodes s !! cv = Some cn ∧ IsOp cn = false
      ∧ inputs cn = a :: rest ∧ (n0 ≤ a)%nat ∧ is_op_at (nodes s) a.

(** The effect of a part of the third loop that works for the operator
    [x]: the graph is rewired, the variables [V] may have been recorded,
    and requests satisfying [Q] may have been made. *)
Record tracked (n0 x : nat) (V : gset nat) (Q : Request → Prop)
    (s s' : State) : Prop := mkTracked {
  tr_nodes : rewired n0 x (nodes s) (nodes s');
  tr_wf : cache_wf n0 s → cache_wf n0 s';
  tr_vars_mono : vars_shape_nhwc s ⊆ vars_shape_nhwc s';
  tr_vars_bound : vars_shape_nhwc s' ⊆ vars_shape_nhwc s ∪ V;
  tr_requests : ∃ new, requests s' = requests s ++ new ∧ Forall Q new;
}.

(** The operators come in an order in which every producer of an input of
    an operator stands before that operator. *)
Definition topological (ns : list Node) (op_nodes : list nat) : Prop :=
  ∀ i j x y nx ny v,
    op_nodes !! i = Some x → op_nodes !! j = Some y →
    ns !! x = Some nx → ns !! y = Some ny →
    v ∈ outputs nx → v ∈ inputs ny → (i < j)%nat.

(** "a producer recorded as now-in-layout-B only ever receives B-to-A
    requests (from ineligible consumers), and a producer not so recorded
    only ever receives A-to-B requests (from eligible consumers)". *)
Definition direction_settled (valid_ops : gset nat) (recorded : gset nat)
    (rq : Request) : Prop :=
  (rq_prev rq ∈ recorded →
     rq_from rq = kNHWC ∧ rq_to rq = kNCHW ∧ rq_next rq ∉ valid_ops)
  ∧ (rq_prev rq ∉ recorded →
     rq_from rq = kNCHW ∧ rq_to rq = kNHWC ∧ rq_next rq ∈ valid_ops).

(** The effect of the parts of the third loop that edit descriptors and
    tensors only: no edge, no cache entry and no request changes, the
    variables [V] may have been recorded. *)
Record settled (V : gset nat) (s s' : State) : Prop := mkSettled {
  st_length : length (nodes s') = length (nodes s);
  st_nodes :
    ∀ q n, nodes s !! q = Some n →
      ∃ n', nodes s' !! q = Some n' ∧ IsOp n' = IsOp n
        ∧ inputs n' = inputs n ∧ outputs n' = outputs n;
  st_cache : cache s' = cache s;
  st_requests : requests s' = requests s;
  st_vars_mono : vars_shape_nhwc s ⊆ vars_shape_nhwc s';
  st_vars_bound : vars_shape_nhwc s' ⊆ vars_shape_nhwc s ∪ V;
}.

(** What the commit of the operator [x] (inputs [ins]) may ask for, given
    the variables [recorded] at the end of it. *)
Definition request_of (valid_ops : gset nat) (x : nat) (ins : list nat)
    (recorded : gset nat) (rq : Request) : Prop :=
  rq_next rq = x ∧ rq_prev rq ∈ ins
  ∧ (((x ∈ valid_ops) ∧ rq_from rq = kNCHW ∧ rq_to rq = kNHWC
      ∧ rq_prev rq ∉ recorded)
     ∨ ((x ∉ valid_ops) ∧ rq_from rq = kNHWC ∧ rq_to rq = kNCHW
        ∧ rq_prev rq ∈ recorded)).

(** The invariant of the third loop, started in [s0], after the operators
    [pre]: the cache is well formed, the operators keep their outputs, those
    still to come keep their inputs, every recorded variable is an output
    of an operator of [pre], and every request was made for an operator of
    [pre] and one of its inputs, in the direction that the recorded
    variables ask for. *)
Record commit_inv (valid_ops : gset nat) (s0 : State) (pre : list nat)
    (s : State) : Prop := mkCommitInv {
  ci_wf : cache_wf (length (nodes s0)) s;
  ci_length : (length (nodes s0) ≤ length (nodes s))%nat;
  ci_nodes :
    ∀ q n, nodes s0 !! q = Some n →
      ∃ n', nodes s !! q = Some n' ∧ IsOp n' = IsOp n
        ∧ (IsOp n = true →
             outputs n' = outputs n ∧ (q ∉ pre → inputs n' = inputs n));
  ci_vars :
    ∀ v, v ∈ vars_shape_nhwc s →
      ∃ y ny, y ∈ pre ∧ nodes s0 !! y = Some ny ∧ v ∈ outputs ny;
  ci_requests :
    ∀ rq, rq ∈ requests s →
      ∃ ny, rq_next rq ∈ pre ∧ nodes s0 !! rq_next rq = Some ny
        ∧ request_of valid_ops (rq_next rq) (inputs ny) (vars_shape_nhwc s) rq;
}.

Definition chain_state : State := initial_state chain_graph chain_scope [∅].

(** The operator [p] is of the targeted type, declares NCHW and names the
    filter [f]: what lines 172-185 ask of an operator before they enter it
    in [weights_shared] under [f]. *)
Definition reads_filter (s : State) (p : nat) (f : string) : Prop :=
  ∃ n d fs, nodes s !! p = Some n ∧ desc n = NOp d
    ∧ type_ d = target_op_type
    ∧ attrs_ d !! "data_format" = Some (AttrString "NCHW")
    ∧ inputs_ d !! "Filter" = Some fs ∧ f ∈ fs.

(** No operator names two different filters. *)
Definition one_filter_each (s : State) (op_nodes : list nat) : Prop :=
  ∀ p n d fs f f', p ∈ op_nodes → nodes s !! p = Some n → desc n = NOp d →
    inputs_ d !! "Filter" = Some fs → f ∈ fs → f' ∈ fs → f = f'.

(** *** What the third loop leaves alone *)

(** An operator descriptor after the pass: the type, the outputs and the
    block are the same, every input slot has as many names as before, and
    no attribute other than [fuse_alpha], [use_cudnn] and [data_format] has
    changed. *)
Definition same_op (d d' : OpDesc) : Prop :=
  type_ d' = type_ d ∧ outputs_ d' = outputs_ d ∧ block_ d' = block_ d
  ∧ (∀ slot, length <$> (inputs_ d' !! slot) = length <$> (inputs_ d !! slot))
  ∧ (∀ key, key ≠ "fuse_alpha" → key ≠ "use_cudnn" → key ≠ "data_format" →
       attrs_ d' !! key = attrs_ d !! key).

(** A variable descriptor after the pass: only the shape may differ. *)
Definition same_var (v v' : VarDesc) : Prop :=
  var_name v' = var_name v ∧ var_dtype v' = var_dtype v
  ∧ var_persistable v' = var_persistable v.

Definition same_identity (n n' : Node) : Prop :=
  name_ n' = name_ n
  ∧ match desc n, desc n' with
    | NOp d, NOp d' => same_op d d'
    | NVar v, NVar v' => same_var v v'
    | _, _ => False
    end.

Definition same_attrs (n n' : Node) : Prop :=
  match desc n, desc n' with
  | NOp d, NOp d' => attrs_ d' = attrs_ d
  | _, _ => True
  end.

(** The tensor [x] of the scope is the one it was, or it carried a layout
    other than NHWC and is now the result of its conversion. *)
Definition converted_once (sc sc' : gmap string DenseTensor) (x : string) : Prop :=
  sc' !! x = sc !! x
  ∨ ∃ t t', sc !! x = Some t ∧ layout t ≠ kNHWC
            ∧ TransDataLayout kNCHW kNHWC t = Ok t' ∧ sc' !! x = Some t'.

(** A node that the pass creates: a [transfer_layout] operator or a
    variable. *)
Definition created (n : Node) : Prop :=
  match desc n with
  | NOp d => type_ d = "transfer_layout"
  | NVar _ => True
  end.

(** What holds between a state of the third loop and a later one, [E]
    being the operators whose attributes may have been edited. *)
Record conserved (E : gset nat) (s s' : State) : Prop := mkConserved {
  cs_nodes :
    ∀ q n, nodes s !! q = Some n →
      ∃ n', nodes s' !! q = Some n' ∧ same_identity n n'
            ∧ (q ∉ E → same_attrs n n');
  cs_created :
    ∀ q n', nodes s' !! q = Some n' → (length (nodes s) ≤ q)%nat → created n';
  cs_scope : ∀ x, converted_once (scope s) (scope s') x;
  cs_blocks :
    length (blocks s') = length (blocks s)
    ∧ ∀ b vars, blocks s !! b = Some vars →
        ∃ vars', blocks s' !! b = Some vars' ∧ dom vars ⊆ dom vars';
  cs_vars : vars_shape_nhwc s ⊆ vars_shape_nhwc s';
}.

Definition conservative (E : gset nat) {A} (m : M A) : Prop :=
  ∀ s r s', m s = (r, s') → conserved E s s'.

(** The arena [ns'] still has every node of [ns], with its kind; a variable
    has the inputs it had and an operator the outputs it had. *)
Definition kept (ns ns' : list Node) : Prop :=
  ∀ q n, ns !! q = Some n →
    ∃ n', ns' !! q = Some n' ∧ IsOp n' = IsOp n
      ∧ (IsOp n = false → inputs n' = inputs n)
      ∧ (IsOp n = true → outputs n' = outputs n).

(** What the first two loops read of the operator [p]: an operator node;
    when it is of the targeted type, a [data_format] that is absent or a
    string; when that string is NCHW, a [Filter] slot whose names are
    tensors of rank four of the scope, and a [use_cudnn] that is absent or
    a boolean. *)
Definition analysable (s : State) (p : nat) : Prop :=
  ∃ n d, nodes s !! p = Some n ∧ desc n = NOp d
    ∧ (type_ d = target_op_type →
         (attrs_ d !! "data_format" = None
          ∨ ∃ fmt, attrs_ d !! "data_format" = Some (AttrString fmt))
         ∧ (attrs_ d !! "data_format" = Some (AttrString "NCHW") →
              (∃ fs, inputs_ d !! "Filter" = Some fs
                     ∧ ∀ f, f ∈ fs →
                         ∃ t, scope s !! f = Some t ∧ length (dims t) = 4%nat)
              ∧ (attrs_ d !! "use_cudnn" = None
                 ∨ ∃ b, attrs_ d !! "use_cudnn" = Some (AttrBool b)))).

(** From [s] to [s'] the arena has gained two nodes for every producer
    that the cache has gained. *)
Definition balance (s s' : State) : Prop :=
  (length (nodes s') + 2 * size (cache s)
   = length (nodes s) + 2 * size (cache s'))%nat.

(** A computation that, when it returns, has kept that balance. *)
Definition balanced {A} (m : M A) : Prop :=
  ∀ s a s', m s = (Ok a, s') → balance s s'.

(** *** Further example inputs *)

(** A convolution whose filter the scope does not hold. *)
Definition missing_filter_graph : Graph :=
  mkGraph
    [ conv_node "x" ["W"] [] [1] [2];
      var_node "x" [1; 16; 32; 32]%Z false [] [0];
      var_node "y" [1; 16; 32; 32]%Z false [0] [] ]
    true (Some ∅).

(** One activation read by two operators that are not convolutions. *)
Definition fanout_graph : Graph := mkGraph (nodes fanout_state) true (Some ∅).

(** A producer whose declared shape has two sizes. *)
Definition short_shape_state : State :=
  mkState
    [ var_node "x" [1; 16]%Z false [] [1];
      op_node "relu" "x" [] [] [0] [] ]
    [∅] ∅ ∅ ∅ [].

Definition single_conv_state : State :=
  initial_state single_conv_graph {[ "W" := mkTensor [16; 16; 3; 3]%Z kNCHW ]} [∅].

(** The variables of [s] that are not persistable and lie outside [S] are
    in [s'] with the descriptor they had. *)
Definition activations_kept (S : nat → Prop) (s s' : State) : Prop :=
  ∀ q n v, ¬ S q → nodes s !! q = Some n → desc n = NVar v →
    var_persistable v = false →
    ∃ n', nodes s' !! q = Some n' ∧ desc n' = NVar v.

Definition quiet (S : nat → Prop) {A} (m : M A) : Prop :=
  ∀ s r s', m s = (r, s') → activations_kept S s s'.

(** *** Graphs on which the pass runs through *)

(** The variable [y] has a declared shape of four sizes or more. *)
Definition ranked (s : State) (y : nat) : Prop :=
  ∃ n v, nodes s !! y = Some n ∧ desc n = NVar v
    ∧ (4 ≤ length (var_shape v))%nat.

Definition recorded_ranked (s : State) : Prop :=
  ∀ y, y ∈ vars_shape_nhwc s → ranked s y.

(** An input of a convolution with the filters [fs]: a variable that has
    four sizes or more when it is an activation or one of the filters. *)
Definition input_ok (fs : list string) (s : State) (y : nat) : Prop :=
  ∃ n v, nodes s !! y = Some n ∧ desc n = NVar v
    ∧ (var_persistable v = false ∨ var_name v ∈ fs →
       (4 ≤ length (var_shape v))%nat).

Definition output_ok (s : State) (y : nat) : Prop :=
  ∃ n v, nodes s !! y = Some n ∧ desc n = NVar v
    ∧ (var_persistable v = false → (4 ≤ length (var_shape v))%nat).

Definition filter_ok (s : State) (f : string) : Prop :=
  ∃ t, scope s !! f = Some t ∧ length (dims t) = 4%nat.

(** What the three loops need of the sorted operator [x]: an operator node
    between variable nodes; when it is of the targeted type, a [data_format]
    that is absent or a string; when that string is NCHW, a [use_cudnn] that
    is absent or a boolean, filters that are tensors of rank four of the
    scope, and four sizes or more in the shapes that the third loop
    permutes. *)
Definition op_ready (s : State) (x : nat) : Prop :=
  ∃ n d, nodes s !! x = Some n ∧ desc n = NOp d
    ∧ (∀ y, y ∈ inputs n → is_var_at (nodes s) y)
    ∧ (∀ y, y ∈ outputs n → is_var_at (nodes s) y)
    ∧ (type_ d = target_op_type →
         (attrs_ d !! "data_format" = None
          ∨ ∃ fmt, attrs_ d !! "data_format" = Some (AttrString fmt))
         ∧ (attrs_ d !! "data_format" = Some (AttrString "NCHW") →
              (attrs_ d !! "use_cudnn" = None
               ∨ ∃ b, attrs_ d !! "use_cudnn" = Some (AttrBool b))
              ∧ ∃ fs, inputs_ d !! "Filter" = Some fs
                  ∧ (∀ f, f ∈ fs → filter_ok s f)
                  ∧ (∀ y, y ∈ inputs n → input_ok fs s y)
                  ∧ (∀ y, y ∈ outputs n → output_ok s y))).

(** The operator [x] is of the targeted type and declares NCHW. *)
Definition targeted (s : State) (x : nat) : Prop :=
  ∃ n d, nodes s !! x = Some n ∧ desc n = NOp d
    ∧ type_ d = target_op_type
    ∧ attrs_ d !! "data_format" = Some (AttrString "NCHW").

(** A graph on which the pass runs through: the sorted operators are
    distinct and ready, and the first of them has a block. *)
Record runnable (g : Graph) (sc : gmap string DenseTensor)
    (bs : list BlockDesc) (op_nodes : list nat) : Prop := mkRunnable {
  rn_nodup : NoDup op_nodes;
  rn_block :
    ∃ first rest n d b,
      op_nodes = first :: rest ∧ g_nodes g !! first = Some n
      ∧ desc n = NOp d ∧ block_ d = Some b ∧ is_Some (bs !! b);
  rn_ready : ∀ x, x ∈ op_nodes → op_ready (initial_state g sc bs) x;
}.

(** While the operator [x] is committed, the node [q] goes from [n] to
    [n']: another operator keeps its descriptor, a variable its name and
    persistability, and four sizes or more stay four sizes or more. *)
Definition node_stable (x q : nat) (n n' : Node) : Prop :=
  match desc n, desc n' with
  | NOp d, NOp d' => q ≠ x → d' = d
  | NVar v, NVar v' =>
      var_name v' = var_name v ∧ var_persistable v' = var_persistable v
      ∧ ((4 ≤ length (var_shape v))%nat → (4 ≤ length (var_shape v'))%nat)
  | _, _ => False
  end.

Record stable (x : nat) (s s' : State) : Prop := mkStable {
  sb_nodes :
    ∀ q n, nodes s !! q = Some n →
      ∃ n', nodes s' !! q = Some n' ∧ node_stable x q n n';
  sb_recorded : recorded_ranked s → recorded_ranked s';
  sb_blocks : ∀ b, is_Some (blocks s !! b) → is_Some (blocks s' !! b);
  sb_scope : ∀ f, filter_ok s f → filter_ok s' f;
}.

Definition steady (x : nat) {A} (m : M A) : Prop :=
  ∀ s r s', m s = (r, s') → stable x s s'.

(** The invariant of the third loop on a runnable graph of [n0] nodes
    with the block [b], before the operators [todo]. *)
Record ready (valid_ops : gset nat) (n0 b : nat) (todo : list nat)
    (s : State) : Prop := mkReady {
  rd_wf : cache_wf n0 s;
  rd_len : (n0 ≤ length (nodes s))%nat;
  rd_block : is_Some (blocks s !! b);
  rd_recorded : recorded_ranked s;
  rd_ops : ∀ x, x ∈ todo → (x < n0)%nat ∧ op_ready s x;
  rd_valid : ∀ x, x ∈ todo → x ∈ valid_ops → targeted s x;
}.

(** *** The edges that cross a layout boundary *)

Definition persistable_at (s : State) (y : nat) : Prop :=
  ∃ n v, nodes s !! y = Some n ∧ desc n = NVar v ∧ var_persistable v = true.

(** Every input of a sorted operator is a node of the arena. *)
Definition closed_ops (ns : list Node) (op_nodes : list nat) : Prop :=
  ∀ x n y, x ∈ op_nodes → ns !! x = Some n → y ∈ inputs n →
    (y < length ns)%nat.

(** Every cached conversion output is a created variable whose first input
    is a created operator, and that operator reads the producer the entry
    is kept for; in [cache_fed_but prev] the operator of the entry of
    [prev] need not read [prev] yet (the state between lines 78 and 82). *)
Definition cache_fed_but (prev : option nat) (n0 : nat) (s : State) : Prop :=
  ∀ p cv, cache s !! p = Some cv →
    (n0 ≤ cv)%nat
    ∧ ∃ cn a rest an,
        nodes s !! cv = Some cn ∧ IsOp cn = false
        ∧ inputs cn = a :: rest ∧ (n0 ≤ a)%nat
        ∧ nodes s !! a = Some an ∧ IsOp an = true
        ∧ (prev ≠ Some p → p ∈ inputs an).

Definition cache_fed (n0 : nat) (s : State) : Prop := cache_fed_but None n0 s.

(** The inputs of the visited operator [x] that are nodes of the graph
    [s0] that the pass was given: each was an input of [x] in [s0]; when
    [x] runs NHWC it is a recorded variable or a persistable one, when [x]
    stays NCHW it is not recorded. *)
Definition boundary_ok (valid_ops : gset nat) (s0 s : State) (x : nat) : Prop :=
  ∀ nx y, nodes s !! x = Some nx → y ∈ inputs nx → (y < length (nodes s0))%nat →
    (∃ n0x, nodes s0 !! x = Some n0x ∧ y ∈ inputs n0x)
    ∧ (x ∈ valid_ops → y ∈ vars_shape_nhwc s ∨ persistable_at s y)
    ∧ (x ∉ valid_ops → y ∉ vars_shape_nhwc s).

(** The operator node [nx] reads the cached conversion of [y] in the place
    of [y]. *)
Definition rerouted (s : State) (nx : Node) (y : nat) : Prop :=
  (y ∉ inputs nx) ∧ ∃ cv, cache s !! y = Some cv ∧ cv ∈ inputs nx.

(** Every input that the operator [x] had in the graph [s0] is still an
    input of [x] or has been rerouted. *)
Definition replaced_ok (s0 s : State) (x : nat) : Prop :=
  ∀ n0x y, nodes s0 !! x = Some n0x → y ∈ inputs n0x →
    ∃ nx, nodes s !! x = Some nx ∧ (y ∈ inputs nx ∨ rerouted s nx y).

(** The input [y] of the operator node [nx] has been replaced by a
    conversion: [y] is no input of [nx] any more; in its place [nx] reads
    the variable [cv] that the cache keeps for [y], a node created by the
    pass (the graph it was given had [n0] nodes), whose producer [a] is a
    created [transfer_layout] operator that reads [y]. *)
Definition converted_for (n0 : nat) (s : State) (nx : Node) (y : nat) : Prop :=
  (y ∉ inputs nx)
  ∧ ∃ cv cn a rest an ad,
      cache s !! y = Some cv ∧ cv ∈ inputs nx ∧ (n0 ≤ cv)%nat
      ∧ nodes s !! cv = Some cn ∧ IsVar cn = true ∧ inputs cn = a :: rest
      ∧ (n0 ≤ a)%nat ∧ nodes s !! a = Some an ∧ desc an = NOp ad
      ∧ type_ ad = "transfer_layout" ∧ y ∈ inputs an.

(** The invariant of a loop of requests for the operator [x] that has
    handled the inputs [done] of [ins0], started with the cache [c0]: the
    inputs of [x] that are nodes of the graph [s0] are among [ins0], and
    those handled satisfy [P]; every input of [ins0] is still an input or
    has been rerouted. *)
Definition request_inv (P : State → nat → Prop) (s0 : State) (x : nat)
    (ins0 : list nat) (c0 : gmap nat nat) (done : list nat) (s : State) : Prop :=
  cache_fed (length (nodes s0)) s
  ∧ (length (nodes s0) ≤ length (nodes s))%nat
  ∧ (∀ p cv, c0 !! p = Some cv → cache s !! p = Some cv)
  ∧ ∃ nx, nodes s !! x = Some nx
      ∧ (∀ y, y ∈ inputs nx → (y < length (nodes s0))%nat →
           y ∈ ins0 ∧ (y ∈ done → P s y))
      ∧ (∀ y, y ∈ ins0 → y ∈ inputs nx ∨ rerouted s nx y).

(** The invariant of the third loop for the edges that cross a layout
    boundary. *)
Definition boundary_inv (valid_ops : gset nat) (s0 : State) (pre : list nat)
    (s : State) : Prop :=
  commit_inv valid_ops s0 pre s
  ∧ cache_fed (length (nodes s0)) s
  ∧ ∀ z, z ∈ pre → boundary_ok valid_ops s0 s z ∧ replaced_ok s0 s z.

(** The convolution of [single_conv_graph] in a block that declares its
    three variables. *)
Definition declared_vars : BlockDesc :=
  {[ "x" := mkVarDesc "x" [1; 16; 32; 32]%Z 5 false;
     "W" := mkVarDesc "W" [16; 16; 3; 3]%Z 5 true;
     "y" := mkVarDesc "y" [1; 16; 32; 32]%Z 5 false ]}.

Definition declared_world : World :=
  mkWorld (Some single_conv_graph) [declared_vars].

(** A convolution that lists the variable node of its filter twice among
    its inputs. *)
Definition twice_listed_state : State :=
  mkState
    [ conv_node "x" ["W"] [] [1; 2; 2] [3];
      var_node "x" [1; 8; 32; 32]%Z false [] [0];
      var_node "W" [16; 8; 3; 5]%Z true [] [0; 0];
      var_node "y" [1; 16; 32; 32]%Z false [0] [] ]
    [∅] {[ "W" := mkTensor [16; 8; 3; 5]%Z kNCHW ]} ∅ ∅ [].

(** ** Properties *)

Lemma shape_nchw_to_nhwc_4 (n c h w : Z) :
  shape_nchw_to_nhwc [n; c; h; w] = Ok [n; h; w; c].
Proof. reflexivity. Qed.

Lemma shape_nhwc_to_nchw_4 (n h w c : Z) :
  shape_nhwc_to_nchw [n; h; w; c] = Ok [n; c; h; w].
Proof. reflexivity. Qed.

Lemma shape_0231_4 (n c h w : Z) :
  shape_0231 [n; c; h; w] = Ok [n; h; w; c].
Proof. reflexivity. Qed.

(** C6: for every shape [N,C,H,W] with all four sizes at least 1, the
    NCHW-to-NHWC permutation gives [N,H,W,C] (in [InsertLayoutTransOp] and
    in the in-place edits of [ApplyImpl] alike), and the NHWC-to-NCHW
    permutation of that is the shape one started from. *)
Theorem shape_permutation_round_trip (n c h w : Z) :
  (1 ≤ n)%Z → (1 ≤ c)%Z → (1 ≤ h)%Z → (1 ≤ w)%Z →
  shape_nchw_to_nhwc [n; c; h; w] = Ok [n; h; w; c]
  ∧ shape_0231 [n; c; h; w] = Ok [n; h; w; c]
  ∧ obind (shape_nchw_to_nhwc [n; c; h; w]) shape_nhwc_to_nchw = Ok [n; c; h; w].
Proof. intros _ _ _ _. repeat split. Qed.

Lemma shape_permutation_round_trip_witness :
  obind (shape_nchw_to_nhwc [1; 16; 32; 32]%Z) shape_nhwc_to_nchw
  = Ok [1; 16; 32; 32]%Z.
Proof.
  apply (shape_permutation_round_trip 1 16 32 32); lia.
Defined.

Section PassProperties.

Variable layout_int : DataLayout → Z.
Variable use_cutlass : bool.
Variable TopologySortOperations : list Node → list nat.

(** C7: when the graph pointer is null, or the graph is not the main graph,
    or the parameter scope is null, the pass raises one of the three enforce
    errors and the world (graph, parameter scope, block descriptors) is the
    one it was given. *)
Theorem precondition_violation_leaves_world (w : World) :
  precondition_violated w →
  ∃ e, precondition_error e
       ∧ ApplyImpl layout_int use_cutlass TopologySortOperations w = (Raise e, w).
Proof.
  unfold precondition_violated, precondition_error, ApplyImpl.
  intros [Hnull | [(g & Hg & Hmain) | (g & Hg & Hscope)]].
  - rewrite Hnull. eauto.
  - rewrite Hg, Hmain. simpl. eauto 6.
  - rewrite Hg, Hscope. destruct (g_main g); simpl; eauto 6.
Qed.

(** C10: a world that passes the three enforces but whose sorted operator
    list is empty makes the pass dereference [op_nodes.cbegin()]: undefined
    behaviour, which is none of the precondition errors. *)
Theorem empty_operator_list_is_unguarded (w : World) (g : Graph)
    (sc : gmap string DenseTensor) :
  w_graph w = Some g → g_main g = true → g_param_scope g = Some sc →
  TopologySortOperations (g_nodes g) = [] →
  ApplyImpl layout_int use_cutlass TopologySortOperations w = (Raise Undefined, w)
  ∧ ¬ precondition_error Undefined.
Proof.
  intros Hg Hmain Hsc Hops. unfold ApplyImpl.
  rewrite Hg, Hmain, Hsc, Hops. simpl. split; [done |].
  unfold precondition_error. intros [? | [? | ?]]; discriminate.
Qed.

(** *** The first loop: classification *)

Lemma to_int_rem_8 (z : Z) :
  Z.rem (to_int z) CUDNN_ALIGNMENT = 0%Z ↔ (8 | z)%Z.
Proof.
  unfold to_int, CUDNN_ALIGNMENT.
  rewrite Z.rem_divide by lia.
  pose proof (Z.div_mod (z + 2 ^ 31) (2 ^ 32) ltac:(lia)) as Hdm.
  set (q := ((z + 2 ^ 31) `div` 2 ^ 32)%Z) in *.
  set (r := ((z + 2 ^ 31) `mod` 2 ^ 32)%Z) in *.
  split; intros [k Hk].
  - exists (k + 2 ^ 29 * q)%Z. lia.
  - exists (k - 2 ^ 29 * q)%Z. lia.
Qed.

Lemma cudnn_filters_true sc fs :
  cudnn_filters sc fs = Ok true → ∀ f, f ∈ fs → aligned sc f.
Proof.
  induction fs as [| g fs IH]; simpl; intros Hrun f Hf.
  - by apply elem_of_nil in Hf.
  - unfold FindLocalVar in Hrun.
    destruct (sc !! g) as [t |] eqn:Ht; simpl in Hrun; [| done].
    destruct (bool_decide (length (dims t) = 4)); simpl in Hrun; [| done].
    unfold at_index in Hrun.
    destruct (dims t !! 0) as [d0 |] eqn:H0; simpl in Hrun; [| done].
    destruct (dims t !! 1) as [d1 |] eqn:H1; simpl in Hrun; [| done].
    destruct (bool_decide (Z.rem (to_int d0) CUDNN_ALIGNMENT = 0%Z)) eqn:Ha;
      simpl in Hrun; [| done].
    destruct (bool_decide (Z.rem (to_int d1) CUDNN_ALIGNMENT = 0%Z)) eqn:Hb;
      simpl in Hrun; [| done].
    apply bool_decide_eq_true in Ha, Hb.
    apply to_int_rem_8 in Ha, Hb.
    apply elem_of_cons in Hf as [-> | Hf]; [| by apply IH].
    exists t, d0, d1. done.
Qed.

Lemma cudnn_filters_false sc fs :
  cudnn_filters sc fs = Ok false → ∃ f, f ∈ fs ∧ ¬ aligned sc f.
Proof.
  induction fs as [| g fs IH]; simpl; intros Hrun; [done |].
  unfold FindLocalVar in Hrun.
  destruct (sc !! g) as [t |] eqn:Ht; simpl in Hrun; [| done].
  destruct (bool_decide (length (dims t) = 4)); simpl in Hrun; [| done].
  unfold at_index in Hrun.
  destruct (dims t !! 0) as [d0 |] eqn:H0; simpl in Hrun; [| done].
  destruct (dims t !! 1) as [d1 |] eqn:H1; simpl in Hrun; [| done].
  destruct (bool_decide (Z.rem (to_int d0) CUDNN_ALIGNMENT = 0%Z)) eqn:Ha;
    simpl in Hrun.
  - destruct (bool_decide (Z.rem (to_int d1) CUDNN_ALIGNMENT = 0%Z)) eqn:Hb;
      simpl in Hrun.
    + destruct (IH Hrun) as (f & Hf & Hna). exists f. split; [by right | done].
    + exists g. split; [by left |].
      intros (t' & e0 & e1 & Ht' & He0 & He1 & _ & Hd1).
      apply bool_decide_eq_false in Hb. apply Hb, to_int_rem_8. congruence.
  - exists g. split; [by left |].
    intros (t' & e0 & e1 & Ht' & He0 & He1 & Hd0 & _).
    apply bool_decide_eq_false in Ha. apply Ha, to_int_rem_8. congruence.
Qed.

(** Under a run that did not abort, [cuDNNIsValid] decides P1. *)
Lemma cuDNNIsValid_P1 s p n d b :
  nodes s !! p = Some n → desc n = NOp d →
  cuDNNIsValid s p = Ok b →
  (b = true ↔ P1 (scope s) d).
Proof.
  intros Hn Hd. unfold cuDNNIsValid, node_at, Op, Input.
  rewrite Hn. simpl. rewrite Hd. simpl.
  destruct (inputs_ d !! "Filter") as [fs |] eqn:Hfs; simpl; [| done].
  intros Hrun. split.
  - intros ->. exists fs. split; [done |]. by apply cudnn_filters_true.
  - intros (fs' & Hfs' & Hall). destruct b; [done |].
    apply cudnn_filters_false in Hrun as (f & Hf & Hna).
    exfalso. apply Hna, Hall. congruence.
Qed.

(** Under a run that did not abort, [CutlassIsValid] decides P2. *)
Lemma CutlassIsValid_P2 s p n d b :
  nodes s !! p = Some n → desc n = NOp d →
  CutlassIsValid use_cutlass s p = Ok b →
  (b = true ↔ P2 use_cutlass d).
Proof.
  intros Hn Hd. unfold CutlassIsValid, node_at, Op, HasAttr, GetAttrIfExists_bool, P2.
  rewrite Hn. simpl. rewrite Hd. simpl.
  destruct (attrs_ d !! "use_cudnn") as [[[] | | |] |] eqn:Ha; simpl;
    try rewrite bool_decide_eq_true_2 by eauto;
    try rewrite bool_decide_eq_false_2 by (intros [? ?]; done);
    simpl; intros Hrun; try done; simplify_eq; split;
    try done; try (intros [? ?]; done).
Qed.

Lemma classify_step_valid s acc p acc' :
  classify_step use_cutlass s acc p = Ok acc' →
  (eligible use_cutlass s p ∧ snd acc' = {[p]} ∪ snd acc)
  ∨ (¬ eligible use_cutlass s p ∧ snd acc' = snd acc).
Proof.
  unfold classify_step, node_at.
  destruct (nodes s !! p) as [n |] eqn:Hn; simpl; [| done].
  unfold IsOp, Op. destruct (desc n) as [d | v] eqn:Hd; simpl; [| done].
  assert (Hnot : ∀ Q : Prop, (type_ d = target_op_type →
             attrs_ d !! "data_format" = Some (AttrString "NCHW") →
             (P1 (scope s) d ∨ P2 use_cutlass d) → Q) →
             eligible use_cutlass s p → Q).
  { intros Q HQ (n' & d' & Hn' & Hd' & Ht & Hf & HP).
    assert (n' = n) as -> by congruence.
    assert (d' = d) as -> by congruence. by apply HQ. }
  destruct (decide (type_ d ≠ target_op_type)) as [Hty | Hty].
  { intros [= <-]. right. split; [| done]. refine (Hnot False _). intros; congruence. }
  apply dec_stable in Hty.
  unfold GetAttrIfExists_string.
  destruct (attrs_ d !! "data_format") as [[| | | fmt] |] eqn:Hfmt; simpl;
    try done.
  2:{ intros [= <-]. right. split; [| done]. refine (Hnot False _). intros; congruence. }
  destruct (decide (fmt ≠ "NCHW")) as [Hne | Heq].
  { intros [= <-]. right. split; [| done]. refine (Hnot False _). intros; congruence. }
  apply dec_stable in Heq. subst fmt.
  unfold Input at 1.
  destruct (inputs_ d !! "Filter") as [fs |] eqn:Hfs; simpl; [| done].
  destruct (cuDNNIsValid s p) as [b1 |] eqn:Hc; simpl; [| done].
  pose proof (cuDNNIsValid_P1 _ _ _ _ _ Hn Hd Hc) as HP1.
  destruct b1; simpl.
  - intros [= <-]. left. split; [| done].
    exists n, d. repeat split; try done. left. by apply HP1.
  - destruct (CutlassIsValid use_cutlass s p) as [b2 |] eqn:Hk; simpl; [| done].
    pose proof (CutlassIsValid_P2 _ _ _ _ _ Hn Hd Hk) as HP2.
    intros [= <-]. destruct b2; simpl.
    + left. split; [| done].
      exists n, d. repeat split; try done. right. by apply HP2.
    + right. split; [| done]. refine (Hnot False _). intros _ _ [H1 | H2].
      * by apply HP1 in H1.
      * by apply HP2 in H2.
Qed.

Lemma ofoldl_app {A B} (f : A → B → outcome A) (a : A) (l1 l2 : list B) :
  ofoldl f a (l1 ++ l2) = obind (ofoldl f a l1) (λ a', ofoldl f a' l2).
Proof.
  revert a. induction l1 as [| x l1 IH]; intros a; simpl; [done |].
  destruct (f a x); simpl; [apply IH | done].
Qed.

(** Loop invariants for [ofoldl]: [I] relates the elements already visited
    with the accumulator. *)
Lemma ofoldl_invariant {A B} (f : A → B → outcome A) (I : list B → A → Prop)
    (l : list B) (a0 a : A) :
  I [] a0 →
  (∀ pre x a a', I pre a → f a x = Ok a' → I (pre ++ [x]) a') →
  ofoldl f a0 l = Ok a → I l a.
Proof.
  intros H0 Hstep.
  assert (Hgen : ∀ l pre a1, I pre a1 → ofoldl f a1 l = Ok a → I (pre ++ l) a).
  { clear l. induction l as [| x l IH]; intros pre a1 Hpre Hrun; simpl in Hrun.
    - rewrite app_nil_r. congruence.
    - destruct (f a1 x) as [a2 |] eqn:Hf; simpl in Hrun; [| done].
      replace (pre ++ x :: l) with ((pre ++ [x]) ++ l) by by rewrite <- app_assoc.
      eapply IH; [| done]. by eapply Hstep. }
  intros Hrun. by apply (Hgen l [] a0).
Qed.

(** C1: when the first loop runs to its end, an operator node is in
    [valid_ops] if and only if it is one of the visited operators, its type
    is [fused_conv2d_add_act], its [data_format] attribute is the string
    NCHW, and P1 or P2 holds of it. *)
Theorem classification_is_eligibility (s : State) (op_nodes : list nat)
    (weights_shared : gmap string (list nat)) (valid_ops : gset nat) :
  ofoldl (classify_step use_cutlass s) (∅, ∅) op_nodes
    = Ok (weights_shared, valid_ops) →
  ∀ p, p ∈ valid_ops ↔ p ∈ op_nodes ∧ eligible use_cutlass s p.
Proof.
  intros Hrun.
  pose (I := λ (pre : list nat) (acc : gmap string (list nat) * gset nat),
          ∀ p, p ∈ snd acc ↔ p ∈ pre ∧ eligible use_cutlass s p).
  change (I op_nodes (weights_shared, valid_ops)).
  eapply ofoldl_invariant; [| | exact Hrun].
  - intros p. simpl. split; [set_solver |]. intros [H _]. by apply elem_of_nil in H.
  - intros pre x acc acc' Hpre Hstep p.
    apply classify_step_valid in Hstep as [[Hel ->] | [Hnel ->]].
    + rewrite elem_of_union, elem_of_singleton, elem_of_app, list_elem_of_singleton.
      rewrite (Hpre p). split.
      * intros [-> | [? ?]]; auto.
      * intros [[? | ->] ?]; auto.
    + rewrite elem_of_app, list_elem_of_singleton, (Hpre p). split.
      * intros [? ?]; auto.
      * intros [[? | ->] ?]; [auto | done].
Qed.

(** *** Evaluating the monad *)

Lemma bind_eq {A B} (m : M A) (k : A → M B) (s s' : State) (a : A) :
  m s = (Ok a, s') → bind m k s = k a s'.
Proof. unfold bind. by intros ->. Qed.

Lemma bind_raise {A B} (m : M A) (k : A → M B) (s s' : State) (e : Error) :
  m s = (Raise e, s') → bind m k s = (Raise e, s').
Proof. unfold bind. by intros ->. Qed.

Lemma get_node_eq (s : State) (p : nat) (n : Node) :
  nodes s !! p = Some n → get_node p s = (Ok n, s).
Proof. unfold get_node, read, node_at. by intros ->. Qed.

Lemma update_node_eq (s : State) (p : nat) (f : Node → Node) :
  is_Some (nodes s !! p) →
  update_node p f s = (Ok tt, set_nodes (alter f p (nodes s)) s).
Proof.
  intros [n Hn]. unfold update_node.
  by rewrite (bind_eq _ _ _ _ _ (get_node_eq _ _ _ Hn)).
Qed.

Lemma update_op_eq (s : State) (p : nat) (f : OpDesc → OpDesc) (n : Node) (d : OpDesc) :
  nodes s !! p = Some n → desc n = NOp d →
  update_op p f s = (Ok tt, set_nodes (alter (map_op f) p (nodes s)) s).
Proof.
  intros Hn Hd. unfold update_op.
  rewrite (bind_eq _ _ _ _ _ (get_node_eq _ _ _ Hn)).
  unfold bind, lift, Op. by rewrite Hd.
Qed.

Lemma update_var_eq (s : State) (p : nat) (f : VarDesc → VarDesc) (n : Node) (d : VarDesc) :
  nodes s !! p = Some n → desc n = NVar d →
  update_var p f s = (Ok tt, set_nodes (alter (map_var f) p (nodes s)) s).
Proof.
  intros Hn Hd. unfold update_var.
  rewrite (bind_eq _ _ _ _ _ (get_node_eq _ _ _ Hn)).
  unfold bind, lift, Var. by rewrite Hd.
Qed.

Lemma alter_is_Some (f : Node → Node) (p q : nat) (ns : list Node) :
  is_Some (alter f p ns !! q) ↔ is_Some (ns !! q).
Proof. by rewrite !lookup_lt_is_Some, length_alter. Qed.

Lemma link_is_Some (a b q : nat) (ns : list Node) :
  is_Some (link a b ns !! q) ↔ is_Some (ns !! q).
Proof. unfold link. by rewrite !alter_is_Some. Qed.

Lemma unlink_is_Some (a b q : nat) (ns : list Node) :
  is_Some (unlink a b ns !! q) ↔ is_Some (ns !! q).
Proof. unfold unlink. by rewrite !alter_is_Some. Qed.

Lemma IR_NODE_LINK_TO_eq (s : State) (a b : nat) :
  is_Some (nodes s !! a) → is_Some (nodes s !! b) →
  IR_NODE_LINK_TO a b s = (Ok tt, set_nodes (link a b (nodes s)) s).
Proof.
  intros Ha Hb. unfold IR_NODE_LINK_TO.
  rewrite (bind_eq _ _ _ _ _ (update_node_eq _ _ _ Ha)).
  rewrite update_node_eq by by apply alter_is_Some.
  done.
Qed.

Lemma IR_NODE_UNLINK_eq (s : State) (a b : nat) :
  is_Some (nodes s !! a) → is_Some (nodes s !! b) →
  IR_NODE_UNLINK a b s = (Ok tt, set_nodes (unlink a b (nodes s)) s).
Proof.
  intros Ha Hb. unfold IR_NODE_UNLINK.
  rewrite (bind_eq _ _ _ _ _ (update_node_eq _ _ _ Ha)).
  rewrite update_node_eq by by apply alter_is_Some.
  done.
Qed.

(** *** InsertLayoutTransOp *)

Lemma cache_at_eq (s : State) (k v : nat) :
  cache s !! k = Some v → cache_at k s = (Ok v, s).
Proof. unfold cache_at, read. by intros ->. Qed.

Lemma relink_eq (s : State) (prev next cv a : nat) (pn cn nn : Node)
    (nd : OpDesc) (rest : list nat) :
  cache s !! prev = Some cv →
  nodes s !! prev = Some pn →
  nodes s !! cv = Some cn →
  inputs cn = a :: rest →
  is_Some (nodes s !! a) →
  nodes s !! next = Some nn →
  desc nn = NOp nd →
  relink prev next s
  = (Ok tt, set_nodes (rewire prev cv a next (name_ pn) (name_ cn) (nodes s)) s).
Proof.
  intros Hc Hp Hcv Hin Ha Hn Hd. unfold relink.
  rewrite (bind_eq _ _ _ _ _ (get_node_eq _ _ _ Hp)).
  rewrite (bind_eq _ _ _ _ _ (cache_at_eq _ _ _ Hc)).
  rewrite (bind_eq _ _ _ _ _ (get_node_eq _ _ _ Hcv)).
  rewrite (bind_eq _ _ _ _ _ (update_op_eq _ _ _ _ _ Hn Hd)).
  set (ns1 := alter _ next (nodes s)).
  assert (∃ cn', ns1 !! cv = Some cn' ∧ inputs cn' = a :: rest) as (cn' & Hcv' & Hin').
  { subst ns1. destruct (decide (next = cv)) as [-> | Hne].
    - rewrite list_lookup_alter_eq, Hcv. simpl. eexists; split; [done |].
      unfold map_op. by destruct (desc cn).
    - rewrite list_lookup_alter_ne by done. eauto. }
  rewrite (bind_eq _ _ (set_nodes ns1 s) (set_nodes ns1 s) cv) by by apply cache_at_eq.
  rewrite (bind_eq _ _ (set_nodes ns1 s) (set_nodes ns1 s) cn') by by apply get_node_eq.
  unfold lift at 1. unfold bind at 1. rewrite Hin'. simpl front. cbv iota beta.
  assert (Hp1 : is_Some (nodes (set_nodes ns1 s) !! prev))
    by (apply alter_is_Some; eauto).
  assert (Ha1 : is_Some (nodes (set_nodes ns1 s) !! a))
    by (by apply alter_is_Some).
  rewrite (bind_eq _ _ _ _ _ (IR_NODE_LINK_TO_eq _ _ _ Hp1 Ha1)).
  simpl nodes.
  set (ns2 := link prev a ns1).
  rewrite (bind_eq _ _ (set_nodes ns2 (set_nodes ns1 s)) (set_nodes ns2 (set_nodes ns1 s)) cv)
    by by apply cache_at_eq.
  assert (Hcv2 : is_Some (nodes (set_nodes ns2 (set_nodes ns1 s)) !! cv))
    by (apply link_is_Some; eauto).
  assert (Hn2 : is_Some (nodes (set_nodes ns2 (set_nodes ns1 s)) !! next))
    by (apply link_is_Some, alter_is_Some; eauto).
  assert (Hp2 : is_Some (ns2 !! prev))
    by (apply link_is_Some, alter_is_Some; eauto).
  rewrite (bind_eq _ _ _ _ _ (IR_NODE_LINK_TO_eq _ _ _ Hcv2 Hn2)).
  rewrite IR_NODE_UNLINK_eq by (simpl; apply link_is_Some; done).
  done.
Qed.

Lemma BlockVar_eq (s : State) (b : nat) (vars : BlockDesc) (x : string) :
  blocks s !! b = Some vars →
  ∃ bs vars', BlockVar b x s = (Ok tt, set_blocks bs s)
    ∧ bs !! b = Some vars'
    ∧ vars' !! x = Some (default (mkVarDesc x [] 0 false) (vars !! x))
    ∧ length bs = length (blocks s).
Proof.
  intros Hb. unfold BlockVar. rewrite Hb.
  destruct (vars !! x) as [v |] eqn:Hx.
  - exists (blocks s), vars. by destruct s.
  - exists (<[b := <[x := mkVarDesc x [] 0 false]> vars]> (blocks s)), (<[x := mkVarDesc x [] 0 false]> vars).
    split; [done |]. split.
    + apply list_lookup_insert_eq. by eapply lookup_lt_Some.
    + split; [by rewrite lookup_insert_eq | by rewrite length_insert].
Qed.

Lemma update_block_var_eq (s : State) (b : nat) (vars : BlockDesc) (x : string)
    (v : VarDesc) (f : VarDesc → VarDesc) :
  blocks s !! b = Some vars → vars !! x = Some v →
  ∃ bs vars', update_block_var b x f s = (Ok tt, set_blocks bs s)
    ∧ bs !! b = Some vars'
    ∧ vars' !! x = Some (f v)
    ∧ length bs = length (blocks s).
Proof.
  intros Hb Hx. unfold update_block_var, get_block_var, bind, read, modify.
  rewrite Hb, Hx.
  exists (alter (<[x := f v]>) b (blocks s)), (<[x := f v]> vars).
  split; [done |]. split.
  - by rewrite list_lookup_alter_eq, Hb.
  - split; [by rewrite lookup_insert_eq | by rewrite length_alter].
Qed.

Lemma create_transfer_eq (s : State) (prev b : nat) (from_layout to_layout : DataLayout)
    (in_var_name out_var_name : string) (vars : BlockDesc)
    (pn : Node) (pv : VarDesc) (shp : list Z) :
  blocks s !! b = Some vars →
  nodes s !! prev = Some pn →
  desc pn = NVar pv →
  transfer_shape from_layout (var_shape pv) = Ok shp →
  ∃ bs,
    create_transfer layout_int prev from_layout to_layout b in_var_name out_var_name s
    = (Ok tt,
       mkState
         (with_transfer (nodes s)
            (transfer_op_node layout_int from_layout to_layout b in_var_name out_var_name)
            (transfer_var_node (out_var_desc vars out_var_name (var_dtype pv) shp)))
         bs (scope s) (<[prev := S (length (nodes s))]> (cache s))
         (vars_shape_nhwc s) (requests s))
    ∧ length bs = length (blocks s).
Proof.
  intros Hb Hp Hd Hshp. unfold create_transfer.
  unfold CreateOpNode at 1. unfold bind at 1.
  set (opn := mkNode _ _ [] []).
  set (s1 := set_nodes (nodes s ++ [opn]) s).
  destruct (BlockVar_eq s1 b vars out_var_name Hb) as (bs2 & vars2 & HB2 & Hb2 & Hx2 & Hl2).
  rewrite (bind_eq _ _ _ _ _ HB2).
  set (s2 := set_blocks bs2 s1).
  destruct (update_block_var_eq s2 b vars2 out_var_name _ (λ v, SetPersistable v false) Hb2 Hx2)
    as (bs3 & vars3 & HB3 & Hb3 & Hx3 & Hl3).
  rewrite (bind_eq _ _ _ _ _ HB3).
  set (s3 := set_blocks bs3 s2).
  assert (Hp3 : nodes s3 !! prev = Some pn).
  { simpl. by apply lookup_app_l_Some. }
  rewrite (bind_eq _ _ _ _ _ (get_node_eq _ _ _ Hp3)).
  unfold lift at 1. unfold bind at 1. unfold Var at 1. rewrite Hd.
  destruct (update_block_var_eq s3 b vars3 out_var_name _
              (λ v, SetDataType v (var_dtype pv)) Hb3 Hx3)
    as (bs4 & vars4 & HB4 & Hb4 & Hx4 & Hl4).
  rewrite (bind_eq _ _ _ _ _ HB4).
  set (s4 := set_blocks bs4 s3).
  assert (Hp4 : nodes s4 !! prev = Some pn) by done.
  rewrite (bind_eq _ _ _ _ _ (get_node_eq _ _ _ Hp4)).
  unfold lift at 1. unfold bind at 1. unfold Var at 1. rewrite Hd.
  unfold transfer_shape in Hshp.
  unfold lift at 1. unfold bind at 1. rewrite Hshp.
  destruct (update_block_var_eq s4 b vars4 out_var_name _
              (λ v, SetShape v shp) Hb4 Hx4)
    as (bs5 & vars5 & HB5 & Hb5 & Hx5 & Hl5).
  rewrite (bind_eq _ _ _ _ _ HB5).
  set (s5 := set_blocks bs5 s4).
  unfold get_block_var at 1. unfold read at 1. unfold bind at 1.
  simpl blocks. rewrite Hb5, Hx5.
  unfold CreateVarNode at 1. unfold bind at 1.
  set (vd := SetShape _ shp).
  set (varn := mkNode (var_name vd) (NVar vd) [] []).
  set (s6 := set_nodes (nodes s5 ++ [varn]) s5).
  assert (Hlen : length (nodes s5) = S (length (nodes s))).
  { simpl. rewrite length_app. simpl. lia. }
  assert (Ha6 : is_Some (nodes s6 !! length (nodes s))).
  { apply lookup_lt_is_Some. simpl. rewrite !length_app. simpl. lia. }
  assert (Hv6 : is_Some (nodes s6 !! length (nodes s5))).
  { apply lookup_lt_is_Some. simpl. rewrite !length_app. simpl. lia. }
  change (length (nodes s1)) with (length (nodes s)) in *.
  rewrite (bind_eq _ _ _ _ _ (IR_NODE_LINK_TO_eq _ _ _ Ha6 Hv6)).
  exists bs5. split; [| simpl in *; congruence].
  unfold cache_insert, modify. simpl.
  replace (length (nodes s ++ [opn])) with (S (length (nodes s)))
    by (rewrite length_app; simpl; lia).
  reflexivity.
Qed.

(** The arena after lines 80-85, node by node. *)

Ltac through_alter :=
  repeat first
    [ rewrite list_lookup_alter_ne by congruence
    | rewrite list_lookup_alter_eq ].

Lemma rewire_length prev cv a next old new (ns : list Node) :
  length (rewire prev cv a next old new ns) = length ns.
Proof. unfold rewire, link, unlink. by rewrite !length_alter. Qed.

Lemma rewire_lookup_other prev cv a next old new (ns : list Node) (q : nat) :
  q ≠ prev → q ≠ cv → q ≠ a → q ≠ next →
  rewire prev cv a next old new ns !! q = ns !! q.
Proof. intros. unfold rewire, link, unlink. by through_alter. Qed.

Lemma rewire_lookup_next prev cv a next old new (ns : list Node) :
  next ≠ prev → next ≠ cv → next ≠ a →
  rewire prev cv a next old new ns !! next
  = (λ n, with_inputs (λ l, filter (λ x, x ≠ prev) (l ++ [cv]))
            (map_op (λ d, RenameInput d old new) n)) <$> ns !! next.
Proof.
  intros. unfold rewire, link, unlink. through_alter.
  by destruct (ns !! next).
Qed.

Lemma rewire_lookup_prev prev cv a next old new (ns : list Node) :
  prev ≠ next → prev ≠ cv → prev ≠ a →
  rewire prev cv a next old new ns !! prev
  = with_outputs (λ l, filter (λ x, x ≠ next) (l ++ [a])) <$> ns !! prev.
Proof.
  intros. unfold rewire, link, unlink. through_alter.
  by destruct (ns !! prev).
Qed.

Lemma rewire_lookup_op prev cv a next old new (ns : list Node) :
  a ≠ prev → a ≠ cv → a ≠ next →
  rewire prev cv a next old new ns !! a
  = with_inputs (λ l, l ++ [prev]) <$> ns !! a.
Proof. intros. unfold rewire, link, unlink. by through_alter. Qed.

Lemma rewire_lookup_out prev cv a next old new (ns : list Node) :
  cv ≠ prev → cv ≠ a → cv ≠ next →
  rewire prev cv a next old new ns !! cv
  = with_outputs (λ l, l ++ [next]) <$> ns !! cv.
Proof. intros. unfold rewire, link, unlink. by through_alter. Qed.

Lemma with_transfer_length (ns : list Node) (opn varn : Node) :
  length (with_transfer ns opn varn) = S (S (length ns)).
Proof.
  unfold with_transfer, link. rewrite !length_alter, !length_app. simpl. lia.
Qed.

Lemma with_transfer_lookup_old (ns : list Node) (opn varn : Node) (q : nat) :
  q < length ns → with_transfer ns opn varn !! q = ns !! q.
Proof.
  intros Hq. unfold with_transfer, link.
  rewrite !list_lookup_alter_ne by lia.
  rewrite !lookup_app_l by (rewrite ?length_app; simpl; lia). done.
Qed.

Lemma with_transfer_lookup_op (ns : list Node) (opn varn : Node) :
  with_transfer ns opn varn !! length ns
  = Some (with_outputs (λ l, l ++ [S (length ns)]) opn).
Proof.
  unfold with_transfer, link.
  rewrite list_lookup_alter_ne by lia. rewrite list_lookup_alter_eq.
  rewrite lookup_app_l by (rewrite length_app; simpl; lia).
  by rewrite list_lookup_middle.
Qed.

Lemma with_transfer_lookup_var (ns : list Node) (opn varn : Node) :
  with_transfer ns opn varn !! S (length ns)
  = Some (with_inputs (λ l, l ++ [length ns]) varn).
Proof.
  unfold with_transfer, link.
  rewrite list_lookup_alter_eq, list_lookup_alter_ne by lia.
  rewrite list_lookup_middle by (rewrite length_app; simpl; lia). done.
Qed.

Lemma filter_not_in_snoc (done : list nat) (c : nat) (l : list nat) :
  filter (λ x, x ≠ c) (filter (λ x, x ∉ done) l) = filter (λ x, x ∉ done ++ [c]) l.
Proof.
  rewrite list_filter_filter. apply list_filter_iff. intros x.
  rewrite elem_of_app, list_elem_of_singleton. tauto.
Qed.

Lemma filter_ne_replicate (c a k : nat) :
  a ≠ c → filter (λ x, x ≠ c) (replicate k a) = replicate k a.
Proof.
  intros Hne. induction k as [| k IH]; [done |]. simpl.
  rewrite filter_cons_True by done. by rewrite IH.
Qed.

Lemma served_relink (s s' : State) (prev c : nat) (od : OpDesc) (vd : VarDesc)
    (done : list nat) (pn nn : Node) (nd : OpDesc) :
  served s prev od vd (name_ pn) done s' →
  nodes s !! prev = Some pn →
  c ≠ prev → c ∉ done →
  nodes s !! c = Some nn → desc nn = NOp nd →
  ∃ s'', relink prev c s' = (Ok tt, s'')
         ∧ served s prev od vd (name_ pn) (done ++ [c]) s''
         ∧ blocks s'' = blocks s' ∧ requests s'' = requests s'.
Proof.
  intros [Hlen Hcache Hscope Hvars Hop Hout Hprev Hoth] Hp Hcp Hcd Hc Hd.
  assert (Hpl : prev < length (nodes s)) by by eapply lookup_lt_Some.
  assert (Hcl : c < length (nodes s)) by by eapply lookup_lt_Some.
  set (a := length (nodes s)) in *. set (v := S a) in *.
  rewrite Hp in Hprev. simpl in Hprev.
  pose proof (Hoth c Hcl Hcp) as Hc'. rewrite decide_False, Hc in Hc' by done.
  assert (Hcv : cache s' !! prev = Some v) by by rewrite Hcache, lookup_insert_eq.
  eexists. split.
  { eapply (relink_eq s' prev c v a); done. }
  split; [| done]. simpl.
  split; simpl; try done.
  - by rewrite rewire_length.
  - rewrite rewire_lookup_op by lia. fold a. rewrite Hop. simpl.
    unfold with_inputs. simpl. rewrite length_app, Nat.add_1_r.
    by rewrite replicate_S_end.
  - rewrite rewire_lookup_out by lia. fold v. by rewrite Hout.
  - rewrite rewire_lookup_prev by lia. rewrite Hprev, Hp. simpl.
    unfold with_outputs. simpl. f_equal. f_equal.
    rewrite !filter_app, filter_not_in_snoc.
    rewrite filter_ne_replicate by lia.
    rewrite filter_cons_True by lia. rewrite filter_nil.
    rewrite length_app, Nat.add_1_r, replicate_S_end. by rewrite <- app_assoc.
  - intros q Hq Hqp. destruct (decide (q = c)) as [-> | Hqc].
    + rewrite rewire_lookup_next by lia. rewrite Hc', Hc.
      rewrite decide_True by (apply elem_of_app; right; by left). done.
    + rewrite rewire_lookup_other by lia. rewrite (Hoth q Hq Hqp).
      apply decide_ext. rewrite elem_of_app, list_elem_of_singleton. tauto.
Qed.

Lemma served_set_requests (s s' : State) prev od vd old done (r : list Request) :
  served s prev od vd old done s' →
  served s prev od vd old done (set_requests r s').
Proof. intros []. by split. Qed.

Lemma filter_not_in_nil (l : list nat) : filter (λ x, x ∉ []) l = l.
Proof.
  induction l as [| x l IH]; [done |].
  rewrite filter_cons_True by apply not_elem_of_nil. by rewrite IH.
Qed.

Lemma create_transfer_served (s : State) (prev b : nat)
    (from_layout to_layout : DataLayout) (in_var_name out_var_name : string)
    (vars : BlockDesc) (pn : Node) (pv : VarDesc) (shp : list Z) :
  blocks s !! b = Some vars →
  nodes s !! prev = Some pn →
  desc pn = NVar pv →
  transfer_shape from_layout (var_shape pv) = Ok shp →
  ∃ s1,
    create_transfer layout_int prev from_layout to_layout b in_var_name out_var_name s
    = (Ok tt, s1)
    ∧ served s prev
        (update_op_desc layout_int from_layout to_layout
           (mkOpDesc "" ∅ ∅ ∅ (Some b)) in_var_name out_var_name)
        (out_var_desc vars out_var_name (var_dtype pv) shp)
        (name_ pn) [] s1
    ∧ length (blocks s1) = length (blocks s)
    ∧ requests s1 = requests s.
Proof.
  intros Hb Hp Hd Hshp.
  destruct (create_transfer_eq s prev b from_layout to_layout in_var_name
              out_var_name vars pn pv shp Hb Hp Hd Hshp) as (bs & Hrun & Hlen).
  eexists. split; [exact Hrun |]. split; [| done].
  assert (Hpl : prev < length (nodes s)) by by eapply lookup_lt_Some.
  split; simpl.
  - apply with_transfer_length.
  - done.
  - done.
  - done.
  - by rewrite with_transfer_lookup_op.
  - by rewrite with_transfer_lookup_var.
  - rewrite with_transfer_lookup_old, Hp by done. simpl.
    unfold with_outputs. rewrite filter_not_in_nil, app_nil_r. by destruct pn.
  - intros q Hq _. by rewrite with_transfer_lookup_old.
Qed.

Lemma InsertLayoutTransOp_unfold (s : State) (prev next : nat)
    (from_layout to_layout : DataLayout) (block_desc : option nat)
    (pn : Node) (pv : VarDesc) :
  valid_direction from_layout to_layout →
  nodes s !! prev = Some pn → desc pn = NVar pv →
  InsertLayoutTransOp layout_int prev next from_layout to_layout block_desc s
  = do_insert layout_int prev next from_layout to_layout block_desc
      (var_name pv) (var_name pv +:+ direction_suffix from_layout)
      (set_requests
         (requests s ++ [mkRequest prev next from_layout to_layout]) s).
Proof.
  intros Hdir Hp Hd. unfold InsertLayoutTransOp, log_request.
  unfold modify at 1. unfold bind at 1.
  set (s1 := set_requests _ s).
  assert (Hp1 : nodes s1 !! prev = Some pn) by done.
  unfold direction_suffix.
  destruct Hdir as [[-> ->] | [-> ->]].
  - rewrite decide_True by done.
    rewrite (bind_eq _ _ _ _ _ (get_node_eq _ _ _ Hp1)).
    unfold lift at 1. unfold bind at 1. unfold Var at 1. by rewrite Hd.
  - rewrite decide_False by (intros [? ?]; done).
    rewrite decide_True by done.
    rewrite (bind_eq _ _ _ _ _ (get_node_eq _ _ _ Hp1)).
    unfold lift at 1. unfold bind at 1. unfold Var at 1. by rewrite Hd.
Qed.

(** The first request for a producer creates the conversion and serves the
    consumer. *)
Lemma InsertLayoutTransOp_first (s : State) (prev c b : nat)
    (from_layout to_layout : DataLayout) (vars : BlockDesc)
    (pn nn : Node) (pv : VarDesc) (nd : OpDesc) (shp : list Z) :
  valid_direction from_layout to_layout →
  blocks s !! b = Some vars →
  cache s !! prev = None →
  nodes s !! prev = Some pn → desc pn = NVar pv →
  transfer_shape from_layout (var_shape pv) = Ok shp →
  nodes s !! c = Some nn → desc nn = NOp nd →
  ∃ s',
    InsertLayoutTransOp layout_int prev c from_layout to_layout (Some b) s = (Ok tt, s')
    ∧ served s prev
        (update_op_desc layout_int from_layout to_layout
           (mkOpDesc "" ∅ ∅ ∅ (Some b)) (var_name pv)
           (var_name pv +:+ direction_suffix from_layout))
        (out_var_desc vars (var_name pv +:+ direction_suffix from_layout)
                      (var_dtype pv) shp)
        (name_ pn) [c] s'
    ∧ length (blocks s') = length (blocks s)
    ∧ requests s' = requests s ++ [mkRequest prev c from_layout to_layout].
Proof.
  intros Hdir Hb Hmiss Hp Hd Hshp Hc Hcd.
  rewrite (InsertLayoutTransOp_unfold _ _ _ _ _ _ _ _ Hdir Hp Hd).
  set (s0 := set_requests _ s).
  unfold do_insert. unfold lift at 1. unfold bind at 1.
  unfold read at 1. unfold bind at 1. simpl cache. rewrite Hmiss.
  destruct (create_transfer_served s0 prev b from_layout to_layout (var_name pv)
              (var_name pv +:+ direction_suffix from_layout) vars pn pv shp
              Hb Hp Hd Hshp) as (s1 & Hrun & Hserved & Hbl & Hrq).
  rewrite (bind_eq _ _ _ _ _ Hrun).
  assert (Hcp : c ≠ prev) by (intros ->; congruence).
  destruct (served_relink s0 s1 prev c _ _ [] pn nn nd Hserved Hp Hcp
              ltac:(apply not_elem_of_nil) Hc Hcd)
    as (s2 & Hrun2 & Hserved2 & Hbl2 & Hrq2).
  exists s2. split; [exact Hrun2 |]. split.
  { destruct Hserved2. by split. }
  split; [by rewrite Hbl2, Hbl | by rewrite Hrq2, Hrq].
Qed.

(** A later request for the same producer hits the cache. *)
Lemma InsertLayoutTransOp_next (s s' : State) (prev c : nat)
    (from_layout to_layout : DataLayout) (block_desc : nat)
    (od : OpDesc) (vd : VarDesc) (done : list nat)
    (pn nn : Node) (pv : VarDesc) (nd : OpDesc) :
  valid_direction from_layout to_layout →
  served s prev od vd (name_ pn) done s' →
  nodes s !! prev = Some pn → desc pn = NVar pv →
  c ∉ done →
  nodes s !! c = Some nn → desc nn = NOp nd →
  ∃ s'',
    InsertLayoutTransOp layout_int prev c from_layout to_layout (Some block_desc) s'
    = (Ok tt, s'')
    ∧ served s prev od vd (name_ pn) (done ++ [c]) s''
    ∧ blocks s'' = blocks s'
    ∧ requests s'' = requests s' ++ [mkRequest prev c from_layout to_layout].
Proof.
  intros Hdir Hserved Hp Hd Hcd Hc Hcdesc.
  assert (∃ pn', nodes s' !! prev = Some pn' ∧ desc pn' = NVar pv)
    as (pn' & Hp' & Hd').
  { rewrite (served_prev _ _ _ _ _ _ _ Hserved), Hp. simpl. eauto. }
  rewrite (InsertLayoutTransOp_unfold _ _ _ _ _ _ _ _ Hdir Hp' Hd').
  set (s0 := set_requests _ s').
  unfold do_insert. unfold lift at 1. unfold bind at 1.
  unfold read at 1. unfold bind at 1. simpl cache.
  rewrite (served_cache _ _ _ _ _ _ _ Hserved), lookup_insert_eq.
  unfold ret at 1. unfold bind at 1.
  assert (Hcp : c ≠ prev) by (intros ->; congruence).
  destruct (served_relink s s0 prev c od vd done pn nn nd
              (served_set_requests _ _ _ _ _ _ _ _ Hserved) Hp Hcp Hcd Hc Hcdesc)
    as (s2 & Hrun2 & Hserved2 & Hbl2 & Hrq2).
  exists s2. done.
Qed.

(** [RenameInput] replaces the name in every slot, position by position. *)
Lemma RenameInput_renamed (d : OpDesc) (old new : string) :
  renamed_slots old new (inputs_ d) (inputs_ (RenameInput d old new)).
Proof.
  split; simpl.
  - apply dom_fmap_L.
  - intros slot args Hslot. exists (replace_name old new args).
    split; [by rewrite lookup_fmap, Hslot |].
    unfold replace_name. split; [apply length_fmap |].
    intros i a Hi. by rewrite list_lookup_fmap, Hi.
Qed.

Lemma consumer_after_desc (prev cv : nat) (old new : string) (n : Node)
    (d : OpDesc) :
  desc n = NOp d →
  desc (consumer_after prev cv old new n) = NOp (RenameInput d old new).
Proof. intros Hd. unfold consumer_after, map_op. by rewrite Hd. Qed.

Lemma consumer_after_inputs (prev cv : nat) (old new : string) (n : Node) :
  inputs (consumer_after prev cv old new n)
  = filter (λ x, x ≠ prev) (inputs n ++ [cv]).
Proof. unfold consumer_after, map_op. by destruct (desc n). Qed.

(** Serving the remaining consumers of a producer whose conversion exists. *)
Lemma serve_rest (s : State) (prev : nat) (from_layout to_layout : DataLayout)
    (block_desc : nat) (od : OpDesc) (vd : VarDesc) (pn : Node) (pv : VarDesc)
    (rest : list nat) :
  valid_direction from_layout to_layout →
  nodes s !! prev = Some pn → desc pn = NVar pv →
  (∀ c, c ∈ rest → ∃ nn, nodes s !! c = Some nn ∧ IsOp nn = true) →
  ∀ (done : list nat) (s' : State),
    NoDup (done ++ rest) →
    served s prev od vd (name_ pn) done s' →
    ∃ s'',
      for_each rest
        (λ c, InsertLayoutTransOp layout_int prev c from_layout to_layout
                (Some block_desc)) s'
      = (Ok tt, s'')
      ∧ served s prev od vd (name_ pn) (done ++ rest) s''
      ∧ blocks s'' = blocks s'
      ∧ requests s''
        = requests s' ++ ((λ c, mkRequest prev c from_layout to_layout) <$> rest).
Proof.
  intros Hdir Hp Hd. induction rest as [| c rest IH]; intros Hops done s' Hnd Hserved.
  - exists s'. rewrite !app_nil_r. done.
  - destruct (Hops c ltac:(by left)) as (nn & Hc & Hop).
    unfold IsOp in Hop. destruct (desc nn) as [nd |] eqn:Hcdesc; [| done].
    assert (Hcd : c ∉ done).
    { apply NoDup_app in Hnd as (_ & Hdisj & _). intros Hin.
      apply (Hdisj c Hin). by left. }
    destruct (InsertLayoutTransOp_next s s' prev c from_layout to_layout block_desc
                od vd done pn nn pv nd Hdir Hserved Hp Hd Hcd Hc Hcdesc)
      as (s1 & Hrun1 & Hserved1 & Hbl1 & Hrq1).
    destruct (IH ltac:(intros; apply Hops; by right) (done ++ [c]) s1
                ltac:(by rewrite <- app_assoc) Hserved1)
      as (s2 & Hrun2 & Hserved2 & Hbl2 & Hrq2).
    exists s2. simpl for_each. rewrite (bind_eq _ _ _ _ _ Hrun1).
    split; [exact Hrun2 |].
    rewrite <- app_assoc in Hserved2. split; [exact Hserved2 |].
    split; [congruence |].
    rewrite Hrq2, Hrq1, <- app_assoc. done.
Qed.

Lemma serve_consumers (s : State) (prev b : nat)
    (from_layout to_layout : DataLayout) (vars : BlockDesc)
    (pn : Node) (pv : VarDesc) (shp : list Z) (c : nat) (rest : list nat) :
  valid_direction from_layout to_layout →
  blocks s !! b = Some vars →
  cache s !! prev = None →
  nodes s !! prev = Some pn → desc pn = NVar pv →
  transfer_shape from_layout (var_shape pv) = Ok shp →
  NoDup (c :: rest) →
  (∀ c', c' ∈ c :: rest → ∃ nn, nodes s !! c' = Some nn ∧ IsOp nn = true) →
  ∃ s',
    for_each (c :: rest)
      (λ c, InsertLayoutTransOp layout_int prev c from_layout to_layout (Some b)) s
    = (Ok tt, s')
    ∧ served s prev
        (update_op_desc layout_int from_layout to_layout
           (mkOpDesc "" ∅ ∅ ∅ (Some b)) (var_name pv)
           (var_name pv +:+ direction_suffix from_layout))
        (out_var_desc vars (var_name pv +:+ direction_suffix from_layout)
                      (var_dtype pv) shp)
        (name_ pn) (c :: rest) s'.
Proof.
  intros Hdir Hb Hmiss Hp Hd Hshp Hnd Hops.
  destruct (Hops c ltac:(by left)) as (nn & Hc & Hop).
  unfold IsOp in Hop. destruct (desc nn) as [nd |] eqn:Hcdesc; [| done].
  destruct (InsertLayoutTransOp_first s prev c b from_layout to_layout vars
              pn nn pv nd shp Hdir Hb Hmiss Hp Hd Hshp Hc Hcdesc)
    as (s1 & Hrun1 & Hserved1 & _ & _).
  destruct (serve_rest s prev from_layout to_layout b _ _ pn pv rest Hdir Hp Hd
              ltac:(intros; apply Hops; by right) [c] s1 Hnd Hserved1)
    as (s2 & Hrun2 & Hserved2 & _ & _).
  exists s2. simpl for_each. rewrite (bind_eq _ _ _ _ _ Hrun1). done.
Qed.

(** C3: a producer without a cached conversion and with N consumers, all
    asking for the same direction, is served by exactly two new nodes, one
    [transfer_layout] operator and one output variable; the cache maps the
    producer to that variable, and in every input slot of every consumer
    each reference to the producer's name has become the name of the cached
    variable, the other references being as they were. *)
Theorem one_conversion_for_all_consumers (s : State) (prev b : nat)
    (from_layout to_layout : DataLayout) (vars : BlockDesc)
    (pn : Node) (pv : VarDesc) (shp : list Z) (consumers : list nat) :
  valid_direction from_layout to_layout →
  blocks s !! b = Some vars →
  cache s !! prev = None →
  nodes s !! prev = Some pn → desc pn = NVar pv →
  transfer_shape from_layout (var_shape pv) = Ok shp →
  consumers ≠ [] → NoDup consumers →
  (∀ c, c ∈ consumers → ∃ nn, nodes s !! c = Some nn ∧ IsOp nn = true) →
  ∃ s' opn od varn,
    for_each consumers
      (λ c, InsertLayoutTransOp layout_int prev c from_layout to_layout (Some b)) s
    = (Ok tt, s')
    ∧ drop (length (nodes s)) (nodes s') = [opn; varn]
    ∧ desc opn = NOp od ∧ type_ od = "transfer_layout"
    ∧ IsVar varn = true
    ∧ cache s' = <[prev := S (length (nodes s))]> (cache s)
    ∧ ∀ c nn nd, c ∈ consumers → nodes s !! c = Some nn → desc nn = NOp nd →
        ∃ nn' nd', nodes s' !! c = Some nn' ∧ desc nn' = NOp nd'
          ∧ renamed_slots (name_ pn) (name_ varn) (inputs_ nd) (inputs_ nd').
Proof.
  intros Hdir Hb Hmiss Hp Hd Hshp Hne Hnd Hops.
  destruct consumers as [| c rest]; [done |].
  destruct (serve_consumers s prev b from_layout to_layout vars pn pv shp c rest
              Hdir Hb Hmiss Hp Hd Hshp Hnd Hops) as (s' & Hrun & Hserved).
  destruct Hserved as [Hlen Hcache _ _ Hop Hout Hprev Hoth].
  eexists s', _, _, _. split; [exact Hrun |].
  split.
  { apply list_eq. intros i. rewrite lookup_drop.
    destruct i as [| [| i]].
    - rewrite Nat.add_0_r, Hop. done.
    - rewrite Nat.add_1_r, Hout. done.
    - simpl. apply lookup_ge_None. lia. }
  repeat split; try done.
  intros c' nn nd Hc' Hnn Hdesc.
  assert (c' ≠ prev) by (intros ->; congruence).
  rewrite Hoth by (done || by eapply lookup_lt_Some).
  rewrite decide_True, Hnn by done. simpl.
  eexists _, (RenameInput nd (name_ pn) _). split; [done |].
  split; [by rewrite (consumer_after_desc _ _ _ _ _ _ Hdesc) |].
  apply RenameInput_renamed.
Qed.

(** C9: every request, the first as well as those that hit the cache, adds
    one edge from the producer to the conversion operator and one edge from
    the conversion output to the consumer: after N requests for one
    producer the conversion operator has the producer N times among its
    inputs, and the producer has the conversion operator N times among its
    outputs. *)
Theorem parallel_edges_per_request (s : State) (prev b : nat)
    (from_layout to_layout : DataLayout) (vars : BlockDesc)
    (pn : Node) (pv : VarDesc) (shp : list Z) (consumers : list nat) :
  valid_direction from_layout to_layout →
  blocks s !! b = Some vars →
  cache s !! prev = None →
  nodes s !! prev = Some pn → desc pn = NVar pv →
  transfer_shape from_layout (var_shape pv) = Ok shp →
  consumers ≠ [] → NoDup consumers →
  (∀ c, c ∈ consumers → ∃ nn, nodes s !! c = Some nn ∧ IsOp nn = true) →
  ∃ s' pn' opn varn,
    for_each consumers
      (λ c, InsertLayoutTransOp layout_int prev c from_layout to_layout (Some b)) s
    = (Ok tt, s')
    ∧ nodes s' !! prev = Some pn'
    ∧ nodes s' !! length (nodes s) = Some opn
    ∧ nodes s' !! S (length (nodes s)) = Some varn
    ∧ IsOp opn = true
    ∧ inputs opn = replicate (length consumers) prev
    ∧ outputs pn'
      = filter (λ x, x ∉ consumers) (outputs pn)
        ++ replicate (length consumers) (length (nodes s))
    ∧ outputs varn = consumers
    ∧ ∀ c nn, c ∈ consumers → nodes s !! c = Some nn →
        ∃ nn', nodes s' !! c = Some nn'
               ∧ inputs nn'
                 = filter (λ x, x ≠ prev) (inputs nn) ++ [S (length (nodes s))].
Proof.
  intros Hdir Hb Hmiss Hp Hd Hshp Hne Hnd Hops.
  destruct consumers as [| c rest]; [done |].
  destruct (serve_consumers s prev b from_layout to_layout vars pn pv shp c rest
              Hdir Hb Hmiss Hp Hd Hshp Hnd Hops) as (s' & Hrun & Hserved).
  destruct Hserved as [Hlen Hcache _ _ Hop Hout Hprev Hoth].
  rewrite Hp in Hprev. simpl in Hprev.
  eexists s', _, _, _. split; [exact Hrun |].
  split; [exact Hprev |]. split; [exact Hop |]. split; [exact Hout |].
  repeat split; try done.
  intros c' nn Hc' Hnn.
  destruct (Hops c' Hc') as (nn0 & Hnn0 & Hisop).
  assert (c' ≠ prev).
  { intros ->. unfold IsOp in Hisop. destruct (desc nn0) eqn:?; congruence. }
  rewrite Hoth by (done || by eapply lookup_lt_Some).
  rewrite decide_True, Hnn by done. simpl. eexists. split; [done |].
  unfold consumer_after, map_op. destruct (desc nn); simpl;
    rewrite filter_app, filter_cons_True, filter_nil; try done;
    apply lookup_lt_Some in Hp; lia.
Qed.

(** *** Running backwards: what a finished computation went through *)

Lemma bind_inv {A B} (m : M A) (k : A → M B) (s s' : State) (r : outcome B) :
  bind m k s = (r, s') →
  (∃ a s1, m s = (Ok a, s1) ∧ k a s1 = (r, s'))
  ∨ (∃ e, m s = (Raise e, s') ∧ r = Raise e).
Proof.
  unfold bind. destruct (m s) as [[a | e] s1]; intros H.
  - left. eauto.
  - right. exists e. by simplify_eq.
Qed.

Lemma bind_ok_inv {A B} (m : M A) (k : A → M B) (s s' : State) (b : B) :
  bind m k s = (Ok b, s') →
  ∃ a s1, m s = (Ok a, s1) ∧ k a s1 = (Ok b, s').
Proof.
  intros H. apply bind_inv in H as [H | (e & _ & He)]; [done | discriminate].
Qed.

Lemma get_node_inv (p : nat) (s s' : State) (r : outcome Node) :
  get_node p s = (r, s') →
  s' = s ∧ match r with
           | Ok n => nodes s !! p = Some n
           | Raise _ => nodes s !! p = None
           end.
Proof.
  unfold get_node, read, node_at. destruct (nodes s !! p); intros [= <- <-]; done.
Qed.

Lemma lift_inv {A} (o : outcome A) (s s' : State) (r : outcome A) :
  lift o s = (r, s') → s' = s ∧ r = o.
Proof. unfold lift. by intros [= <- <-]. Qed.

Lemma read_inv {A} (f : State → outcome A) (s s' : State) (r : outcome A) :
  read f s = (r, s') → s' = s ∧ r = f s.
Proof. unfold read. by intros [= <- <-]. Qed.

Lemma update_op_inv (p : nat) (f : OpDesc → OpDesc) (s s' : State) (r : outcome unit) :
  update_op p f s = (r, s') →
  match r with
  | Ok _ => ∃ n d, nodes s !! p = Some n ∧ desc n = NOp d
                   ∧ s' = set_nodes (alter (map_op f) p (nodes s)) s
  | Raise _ => s' = s
  end.
Proof.
  unfold update_op. intros H.
  apply bind_inv in H as [(n & s1 & Hn & H) | (e & Hn & ->)];
    apply get_node_inv in Hn as [-> Hn]; [| done].
  apply bind_inv in H as [(d & s1 & Hd & H) | (e & Hd & ->)];
    apply lift_inv in Hd as [-> Hd]; [| done].
  unfold modify in H. simplify_eq. exists n, d.
  unfold Op in Hd. destruct (desc n); by simplify_eq.
Qed.

Lemma update_var_inv (p : nat) (f : VarDesc → VarDesc) (s s' : State) (r : outcome unit) :
  update_var p f s = (r, s') →
  match r with
  | Ok _ => ∃ n d, nodes s !! p = Some n ∧ desc n = NVar d
                   ∧ s' = set_nodes (alter (map_var f) p (nodes s)) s
  | Raise _ => s' = s
  end.
Proof.
  unfold update_var. intros H.
  apply bind_inv in H as [(n & s1 & Hn & H) | (e & Hn & ->)];
    apply get_node_inv in Hn as [-> Hn]; [| done].
  apply bind_inv in H as [(d & s1 & Hd & H) | (e & Hd & ->)];
    apply lift_inv in Hd as [-> Hd]; [| done].
  unfold modify in H. simplify_eq. exists n, d.
  unfold Var in Hd. destruct (desc n); by simplify_eq.
Qed.

(** *** The attributes of a committed operator *)

(** C5, as the code has it: a committed operator for which P2 holds takes
    the alternate-kernel path, whether or not P1 holds as well: [fuse_alpha]
    gets the default 0.0 when it is absent and [use_cudnn] stays false.  An
    operator for which P2 does not hold never gets [fuse_alpha]; when it
    qualified by P1 in the scope [sc0] it was classified in, its filter
    tensors are still the ones of [sc0], and [use_cudnn] is present,
    [use_cudnn] is set to true.  In every case [data_format] becomes NHWC. *)
Theorem commit_attrs_by_path (s s' : State) (op : nat) (n : Node) (d : OpDesc) :
  nodes s !! op = Some n → desc n = NOp d →
  commit_attrs use_cutlass op s = (Ok tt, s') →
  ∃ d', nodes s' !! op = Some (with_desc (NOp d') n)
    ∧ attrs_ d' !! "data_format" = Some (AttrString "NHWC")
    ∧ (P2 use_cutlass d →
         attrs_ d' !! "fuse_alpha"
         = Some (default (AttrFloat 0) (attrs_ d !! "fuse_alpha"))
         ∧ attrs_ d' !! "use_cudnn" = Some (AttrBool false))
    ∧ (¬ P2 use_cutlass d →
         attrs_ d' !! "fuse_alpha" = attrs_ d !! "fuse_alpha")
    ∧ (∀ sc0, ¬ P2 use_cutlass d → P1 sc0 d →
         (∀ fs f, inputs_ d !! "Filter" = Some fs → f ∈ fs →
            scope s !! f = sc0 !! f) →
         is_Some (attrs_ d !! "use_cudnn") →
         attrs_ d' !! "use_cudnn" = Some (AttrBool true)).
Proof.
  intros Hn Hd Hrun.
  cut (∃ d', nodes s' !! op = Some (with_desc (NOp d') n)
         ∧ attrs_ d' !! "data_format" = Some (AttrString "NHWC")
         ∧ (P2 use_cutlass d →
              attrs_ d' !! "fuse_alpha"
              = Some (default (AttrFloat 0) (attrs_ d !! "fuse_alpha"))
              ∧ attrs_ d' !! "use_cudnn" = Some (AttrBool false))
         ∧ (¬ P2 use_cutlass d →
              attrs_ d' !! "fuse_alpha" = attrs_ d !! "fuse_alpha")
         ∧ (¬ P2 use_cutlass d → P1 (scope s) d →
              is_Some (attrs_ d !! "use_cudnn") →
              attrs_ d' !! "use_cudnn" = Some (AttrBool true))).
  { intros (d' & H1 & H2 & H3 & H4 & H5). exists d'.
    split; [done |]. split; [done |]. split; [done |]. split; [done |].
    intros sc0 HnP2 HP1 Hsame Hcudnn. apply H5; [done | | done].
    destruct HP1 as (fs & Hfs & Hal). exists fs. split; [done |].
    intros f Hf. destruct (Hal f Hf) as (t & e0 & e1 & Ht & Hrest).
    exists t, e0, e1. split; [| done]. by rewrite (Hsame fs f Hfs Hf). }
  unfold commit_attrs in Hrun.
  rewrite (bind_eq _ _ _ _ _ (get_node_eq _ _ _ Hn)) in Hrun.
  unfold lift at 1 in Hrun. unfold bind at 1 in Hrun. unfold Op at 1 in Hrun.
  rewrite Hd in Hrun.
  apply bind_ok_inv in Hrun as (cut & s1 & Hcut & Hrun).
  apply read_inv in Hcut as [-> Hcut]. symmetry in Hcut.
  pose proof (CutlassIsValid_P2 _ _ _ _ _ Hn Hd Hcut) as HP2.
  apply bind_ok_inv in Hrun as ([] & s1 & Hbranch & Hfmt).
  assert (Hmid : ∃ d1, nodes s1 !! op = Some (with_desc (NOp d1) n)
            ∧ scope s1 = scope s
            ∧ (P2 use_cutlass d →
                 attrs_ d1 !! "fuse_alpha"
                 = Some (default (AttrFloat 0) (attrs_ d !! "fuse_alpha"))
                 ∧ attrs_ d1 !! "use_cudnn" = Some (AttrBool false))
            ∧ (¬ P2 use_cutlass d →
                 attrs_ d1 !! "fuse_alpha" = attrs_ d !! "fuse_alpha")
            ∧ (¬ P2 use_cutlass d → P1 (scope s) d →
                 is_Some (attrs_ d !! "use_cudnn") →
                 attrs_ d1 !! "use_cudnn" = Some (AttrBool true))).
  { destruct cut.
    - assert (HP : P2 use_cutlass d) by by apply HP2.
      unfold when, HasAttr in Hbranch.
      destruct (attrs_ d !! "fuse_alpha") as [fa |] eqn:Hfa.
      + rewrite bool_decide_eq_true_2 in Hbranch by eauto. simpl in Hbranch.
        unfold ret in Hbranch. simplify_eq. exists d.
        split; [by destruct n; simpl in * ; subst |].
        split; [done |]. split; [| split; done].
        intros _. split; [done | apply HP].
      + rewrite bool_decide_eq_false_2 in Hbranch by (intros [? ?]; done).
        simpl in Hbranch.
        apply update_op_inv in Hbranch as (n' & d' & Hn' & Hd' & ->).
        simplify_eq. exists (SetAttr d "fuse_alpha" (AttrFloat 0)).
        simpl. rewrite list_lookup_alter_eq, Hn. simpl.
        unfold map_op. rewrite Hd.
        split; [done |]. split; [done |]. split; [| split; done].
        intros _. simpl. rewrite lookup_insert_eq.
        rewrite lookup_insert_ne by done. split; [done | apply HP].
    - assert (HP : ¬ P2 use_cutlass d) by (intros HP%HP2; done).
      apply bind_ok_inv in Hbranch as (cud & s2 & Hcud & Hbranch).
      apply read_inv in Hcud as [-> Hcud]. symmetry in Hcud.
      pose proof (cuDNNIsValid_P1 _ _ _ _ _ Hn Hd Hcud) as HP1.
      destruct cud.
      + unfold when, HasAttr in Hbranch.
        destruct (attrs_ d !! "use_cudnn") as [uc |] eqn:Huc.
        * rewrite bool_decide_eq_true_2 in Hbranch by eauto.
          apply update_op_inv in Hbranch as (n' & d' & Hn' & Hd' & ->).
          simplify_eq. exists (SetAttr d "use_cudnn" (AttrBool true)).
          simpl. rewrite list_lookup_alter_eq, Hn. simpl.
          unfold map_op. rewrite Hd.
          split; [done |]. split; [done |]. split; [done |].
          split; intros; simpl.
          -- by rewrite lookup_insert_ne.
          -- by rewrite lookup_insert_eq.
        * rewrite bool_decide_eq_false_2 in Hbranch by (intros [? ?]; done).
          unfold ret in Hbranch. simplify_eq. exists d.
          split; [by destruct n; simpl in *; subst |].
          split; [done |]. split; [done |]. split; [done |].
          intros _ _ [? ?]. done.
      + unfold ret in Hbranch. simplify_eq. exists d.
        split; [by destruct n; simpl in *; subst |].
        split; [done |]. split; [done |]. split; [done |].
        intros _ H1%HP1. done. }
  destruct Hmid as (d1 & Hn1 & Hsc1 & Ha & Hb & Hc).
  apply update_op_inv in Hfmt as (n' & d' & Hn' & Hd' & ->).
  rewrite Hn1 in Hn'. simplify_eq. simpl in Hd'. simplify_eq.
  exists (SetAttr d' "data_format" (AttrString "NHWC")).
  simpl. rewrite list_lookup_alter_eq, Hn1. simpl.
  split; [done |]. split; [by rewrite lookup_insert_eq |].
  rewrite !lookup_insert_ne by done. done.
Qed.

(** *** The weights of a committed operator *)

Lemma for_each_cons_ok {A} (x : A) (l : list A) (body : A → M unit) (s s' : State) :
  for_each (x :: l) body s = (Ok tt, s') →
  ∃ s1, body x s = (Ok tt, s1) ∧ for_each l body s1 = (Ok tt, s').
Proof.
  simpl. intros H. apply bind_ok_inv in H as ([] & s1 & H1 & H2). eauto.
Qed.

Lemma permute_filter_var_ok (f : string) (v : nat) (s s' : State) :
  permute_filter_var f v s = (Ok tt, s') →
  s' = set_nodes (nodes s') s
  ∧ ∃ vn vd, nodes s !! v = Some vn ∧ desc vn = NVar vd
      ∧ nodes s' = <[v := permuted_filter_node f vn]> (nodes s)
      ∧ (var_persistable vd = true → var_name vd = f →
           ∃ shp, shape_0231 (var_shape vd) = Ok shp).
Proof.
  unfold permute_filter_var. intros H.
  apply bind_ok_inv in H as (vn & s1 & Hvn & H).
  apply get_node_inv in Hvn as [-> Hvn].
  unfold IsVar in H. destruct (desc vn) as [| vd] eqn:Hd; simpl in H.
  { unfold raise in H. done. }
  unfold lift at 1 in H. unfold bind at 1 in H. unfold Var at 1 in H.
  rewrite Hd in H.
  assert (Hsame : ∀ x, x = vn → <[v := x]> (nodes s) = nodes s).
  { intros x ->. by apply list_insert_id. }
  unfold when in H.
  destruct (var_persistable vd && bool_decide (var_name vd = f)) eqn:Hmatch.
  - apply bind_ok_inv in H as (shp & s1 & Hshp & H).
    apply lift_inv in Hshp as [-> Hshp].
    apply update_var_inv in H as (vn' & vd' & Hvn' & Hd' & ->).
    simplify_eq. split; [by destruct s |].
    exists vn, vd. split; [done |]. split; [done |]. split; [| eauto].
    simpl. unfold permuted_filter_node. rewrite Hd, Hmatch, <- Hshp.
    apply list_eq. intros q. destruct (decide (q = v)) as [-> | Hne].
    + rewrite list_lookup_alter_eq, list_lookup_insert_eq, Hvn
        by by eapply lookup_lt_Some.
      simpl. unfold map_var. by rewrite Hd.
    + by rewrite list_lookup_alter_ne, list_lookup_insert_ne.
  - unfold ret in H. simplify_eq. split; [by destruct s' |].
    exists vn, vd. split; [done |]. split; [done |]. split.
    + symmetry. apply Hsame. unfold permuted_filter_node. by rewrite Hd, Hmatch.
    + intros Hp Hname. rewrite Hp in Hmatch. simpl in Hmatch.
      by rewrite bool_decide_eq_true_2 in Hmatch.
Qed.

Lemma permuted_filter_node_idle (f : string) (vn : Node) (k : nat) :
  permuted_filter_node f vn = vn →
  Nat.iter k (permuted_filter_node f) vn = vn.
Proof. intros Hid. induction k as [| k IH]; [done |]. simpl. by rewrite IH. Qed.

(** Lines 249-257 edit a variable node once for each time it stands in the
    input list. *)
Lemma permute_filter_loop (f : string) (ins : list nat) :
  ∀ s s', for_each ins (permute_filter_var f) s = (Ok tt, s') →
    s' = set_nodes (nodes s') s
    ∧ ∀ q, nodes s' !! q
           = Nat.iter (count_occ Nat.eq_dec ins q) (permuted_filter_node f)
             <$> nodes s !! q.
Proof.
  induction ins as [| v ins IH]; intros s s' Hrun.
  - simpl in Hrun. unfold ret in Hrun. simplify_eq. split; [by destruct s' |].
    intros q. simpl. by destruct (nodes s' !! q).
  - apply for_each_cons_ok in Hrun as (s1 & Hv & Hrest).
    apply permute_filter_var_ok in Hv as (Hs1 & vn & vd & Hvn & Hd & Hnodes & _).
    destruct (IH s1 s' Hrest) as (Hs' & Hlook).
    split.
    { rewrite Hs', Hs1. by destruct s. }
    intros q. rewrite Hlook, Hnodes.
    destruct (decide (q = v)) as [-> | Hne].
    + rewrite count_occ_cons_eq by done.
      rewrite list_lookup_insert_eq by by eapply lookup_lt_Some.
      rewrite Hvn. simpl. by rewrite <- Nat.iter_succ_r.
    + rewrite count_occ_cons_neq by done. by rewrite list_lookup_insert_ne.
Qed.

Lemma permute_filter_loop_shapes (f : string) (ins : list nat) :
  ∀ s s', for_each ins (permute_filter_var f) s = (Ok tt, s') →
    ∀ v vn vd, v ∈ ins → nodes s !! v = Some vn → desc vn = NVar vd →
      var_persistable vd = true → var_name vd = f →
      ∃ shp, shape_0231 (var_shape vd) = Ok shp.
Proof.
  induction ins as [| x ins IH]; intros s s' Hrun v vn vd Hv Hvn Hd Hp Hname.
  - by apply elem_of_nil in Hv.
  - apply for_each_cons_ok in Hrun as (s1 & Hx & Hrest).
    apply permute_filter_var_ok in Hx as (Hs1 & xn & xd & Hxn & Hxd & Hnodes & Hshp).
    destruct (decide (v = x)) as [-> | Hne].
    + assert (xn = vn) as -> by congruence.
      assert (xd = vd) as -> by congruence. by apply Hshp.
    + apply elem_of_cons in Hv as [? | Hv]; [done |].
      apply (IH s1 s' Hrest v vn vd); try done.
      by rewrite Hnodes, list_lookup_insert_ne.
Qed.

Lemma listed_once_elem_of (l : list nat) (v : nat) :
  count_occ Nat.eq_dec l v = 1 → v ∈ l.
Proof.
  intros Hc. apply list_elem_of_In, (count_occ_In Nat.eq_dec). lia.
Qed.

(** C4, as the code has it: for a filter of a committed operator whose
    buffer is not in NHWC when the operator reaches it, the buffer is
    converted and the declared shape of every persistable input variable
    node of this operator that carries the filter's name and is listed once
    among the operator's inputs is permuted [n,c,h,w] -> [n,h,w,c], every
    node that is not such an input being left as it was; when the buffer
    is already in NHWC nothing at all is done, the shapes of the operator's
    variable nodes included. *)
Theorem transfer_weight_converts_or_skips (s s' : State) (op : nat) (n : Node)
    (f : string) :
  nodes s !! op = Some n →
  transfer_weight op f s = (Ok tt, s') →
  ∃ t, scope s !! f = Some t
    ∧ (layout t = kNHWC → s' = s)
    ∧ (layout t ≠ kNHWC →
        ∃ d0 d1 d2 d3, dims t = [d0; d1; d2; d3]
          ∧ scope s' = <[f := mkTensor [d0; d2; d3; d1] kNHWC]> (scope s)
          ∧ (∀ v vn vd, count_occ Nat.eq_dec (inputs n) v = 1 →
               nodes s !! v = Some vn → desc vn = NVar vd →
               var_persistable vd = true → var_name vd = f →
               ∃ e0 e1 e2 e3,
                 var_shape vd !! 0 = Some e0 ∧ var_shape vd !! 1 = Some e1
                 ∧ var_shape vd !! 2 = Some e2 ∧ var_shape vd !! 3 = Some e3
                 ∧ nodes s' !! v
                   = Some (with_desc (NVar (SetShape vd [e0; e2; e3; e1])) vn))
          ∧ (∀ v vn vd, nodes s !! v = Some vn → desc vn = NVar vd →
               v ∉ inputs n ∨ var_persistable vd = false ∨ var_name vd ≠ f →
               nodes s' !! v = Some vn)).
Proof.
  intros Hn Hrun. unfold transfer_weight in Hrun.
  apply bind_ok_inv in Hrun as (t & s1 & Ht & Hrun).
  apply read_inv in Ht as [-> Ht]. symmetry in Ht.
  unfold FindLocalVar in Ht. destruct (scope s !! f) as [t' |] eqn:Hsc; [| done].
  simplify_eq. exists t. split; [done |].
  destruct (decide (layout t = kNHWC)) as [Hl | Hl].
  { unfold ret in Hrun. simplify_eq. split; done. }
  split; [done |]. intros _.
  apply bind_ok_inv in Hrun as (temp & s1 & Htemp & Hrun).
  apply lift_inv in Htemp as [-> Htemp]. symmetry in Htemp.
  unfold TransDataLayout in Htemp.
  destruct (dims t) as [| d0 [| d1 [| d2 [| d3 [| ? ?]]]]] eqn:Hdims; try done.
  rewrite decide_True in Htemp by done. simplify_eq.
  exists d0, d1, d2, d3. split; [done |].
  apply bind_ok_inv in Hrun as ([] & s1 & Hmod & Hrun).
  unfold modify in Hmod. simplify_eq.
  set (s1 := set_scope _ s) in *.
  assert (Hn1 : nodes s1 !! op = Some n) by done.
  rewrite (bind_eq _ _ _ _ _ (get_node_eq _ _ _ Hn1)) in Hrun.
  pose proof (permute_filter_loop_shapes f (inputs n) s1 s' Hrun) as Hshapes.
  destruct (permute_filter_loop f (inputs n) s1 s' Hrun) as (Hs' & Hlook).
  split; [by rewrite Hs' |]. split.
  - intros v vn vd Honce Hvn Hd Hp Hname.
    destruct (Hshapes v vn vd (listed_once_elem_of _ _ Honce) Hvn Hd Hp Hname)
      as (shp & Hshp).
    unfold shape_0231, at_index in Hshp.
    destruct (var_shape vd !! 0) as [e0 |] eqn:H0; simpl in Hshp; [| done].
    destruct (var_shape vd !! 2) as [e2 |] eqn:H2; simpl in Hshp; [| done].
    destruct (var_shape vd !! 3) as [e3 |] eqn:H3; simpl in Hshp; [| done].
    destruct (var_shape vd !! 1) as [e1 |] eqn:H1; simpl in Hshp; [| done].
    exists e0, e1, e2, e3. repeat split; try done.
    rewrite Hlook, Honce. simpl in Hvn |- *. rewrite Hvn. simpl.
    unfold permuted_filter_node. rewrite Hd, Hp.
    rewrite bool_decide_eq_true_2 by done. simpl.
    unfold shape_0231, at_index. by rewrite H0, H2, H3, H1.
  - intros v vn vd Hvn Hd Hcase. rewrite Hlook.
    simpl in Hvn |- *. rewrite Hvn. simpl. f_equal.
    destruct Hcase as [Hnotin | Hcase].
    + replace (count_occ Nat.eq_dec (inputs n) v) with 0; [done |].
      symmetry. apply (count_occ_not_In Nat.eq_dec).
      by rewrite <- list_elem_of_In.
    + apply permuted_filter_node_idle. unfold permuted_filter_node. rewrite Hd.
      destruct Hcase as [-> | Hname]; [done |].
      rewrite bool_decide_eq_false_2 by done. by rewrite andb_false_r.
Qed.

End PassProperties.

Section CommitLoop.

Variable layout_int : DataLayout → Z.
Variable use_cutlass : bool.

(** *** The third loop keeps the edges it does not own *)

Lemma rewired_refl (n0 x : nat) (ns : list Node) : rewired n0 x ns ns.
Proof. split; [done |]. intros q n Hq. exists n. done. Qed.

Lemma rewired_trans (n0 x : nat) (ns1 ns2 ns3 : list Node) :
  rewired n0 x ns1 ns2 → rewired n0 x ns2 ns3 → rewired n0 x ns1 ns3.
Proof.
  intros [Hl1 H1] [Hl2 H2]. split; [lia |].
  intros q n Hq.
  destruct (H1 q n Hq) as (n' & Hq' & Hk & Hv & Ho).
  destruct (H2 q n' Hq') as (n'' & Hq'' & Hk' & Hv' & Ho').
  exists n''. split; [done |]. split; [congruence |]. split.
  - intros Hvar. rewrite Hv' by congruence. by apply Hv.
  - intros Hop. destruct (Ho Hop) as [Hout Hin].
    destruct (Ho' ltac:(congruence)) as [Hout' Hin'].
    split; [congruence |]. intros ? ?. rewrite Hin', Hin; done.
Qed.

Lemma rewired_is_op (n0 x : nat) (ns ns' : list Node) (q : nat) :
  rewired n0 x ns ns' → is_op_at ns q → is_op_at ns' q.
Proof.
  intros [_ H] (n & Hq & Hop). destruct (H q n Hq) as (n' & Hq' & Hk & _).
  exists n'. split; [done | congruence].
Qed.

Lemma rewired_is_var (n0 x : nat) (ns ns' : list Node) (q : nat) :
  rewired n0 x ns ns' → is_var_at ns q → is_var_at ns' q.
Proof.
  intros [_ H] (n & Hq & Hop). destruct (H q n Hq) as (n' & Hq' & Hk & _).
  exists n'. split; [done | congruence].
Qed.

(** Rewriting a node without touching its kind and its edges. *)
Lemma rewired_alter_desc (n0 x p : nat) (g : Node → Node) (ns : list Node) :
  (∀ n, IsOp (g n) = IsOp n ∧ inputs (g n) = inputs n ∧ outputs (g n) = outputs n) →
  rewired n0 x ns (alter g p ns).
Proof.
  intros Hg. split; [by rewrite length_alter |].
  intros q n Hq. destruct (decide (p = q)) as [-> | Hne].
  - rewrite list_lookup_alter_eq, Hq. simpl. exists (g n).
    destruct (Hg n) as (Hk & Hi & Ho). rewrite Hk, Hi, Ho. done.
  - rewrite list_lookup_alter_ne by done. exists n. done.
Qed.

Lemma map_op_keeps (f : OpDesc → OpDesc) (n : Node) :
  IsOp (map_op f n) = IsOp n ∧ inputs (map_op f n) = inputs n
  ∧ outputs (map_op f n) = outputs n.
Proof. by destruct n as [? [|] ? ?]. Qed.

Lemma map_var_keeps (f : VarDesc → VarDesc) (n : Node) :
  IsOp (map_var f n) = IsOp n ∧ inputs (map_var f n) = inputs n
  ∧ outputs (map_var f n) = outputs n.
Proof. by destruct n as [? [|] ? ?]. Qed.

(** The outputs of a variable may change. *)
Lemma rewired_alter_outputs (n0 x a : nat) (f : list nat → list nat) (ns : list Node) :
  is_var_at ns a → rewired n0 x ns (alter (with_outputs f) a ns).
Proof.
  intros (na & Ha & Hvar). split; [by rewrite length_alter |].
  intros q n Hq. destruct (decide (a = q)) as [-> | Hne].
  - rewrite list_lookup_alter_eq, Hq. simpl. eexists. split; [done |].
    assert (n = na) as -> by congruence.
    unfold IsOp, with_outputs in *. simpl. split; [done |]. split; [done |].
    intros ?. congruence.
  - rewrite list_lookup_alter_ne by done. exists n. done.
Qed.

(** The inputs of the operator being committed and of created operators may
    change. *)
Lemma rewired_alter_inputs (n0 x b : nat) (f : list nat → list nat) (ns : list Node) :
  is_op_at ns b → b = x ∨ (n0 ≤ b)%nat →
  rewired n0 x ns (alter (with_inputs f) b ns).
Proof.
  intros (nb & Hb & Hop) Hwhere. split; [by rewrite length_alter |].
  intros q n Hq. destruct (decide (b = q)) as [-> | Hne].
  - rewrite list_lookup_alter_eq, Hq. simpl. eexists. split; [done |].
    assert (n = nb) as -> by congruence.
    unfold IsOp, with_inputs in *. simpl. split; [done |]. split.
    + intros ?. congruence.
    + intros _. split; [done |]. intros ? ?. lia.
  - rewrite list_lookup_alter_ne by done. exists n. done.
Qed.

Lemma rewired_app (n0 x : nat) (ns extra : list Node) :
  rewired n0 x ns (ns ++ extra).
Proof.
  split; [rewrite length_app; lia |].
  intros q n Hq. exists n. split; [by apply lookup_app_l_Some | done].
Qed.

Lemma cache_wf_rewired (n0 x : nat) (s s' : State) :
  rewired n0 x (nodes s) (nodes s') → cache s' = cache s →
  cache_wf n0 s → cache_wf n0 s'.
Proof.
  intros Hr Hc Hwf p cv Hp. rewrite Hc in Hp.
  destruct (Hwf p cv Hp) as (cn & a & rest & Hcv & Hvar & Hin & Ha & Hop).
  destruct Hr as [Hlen Hr'].
  destruct (Hr' cv cn Hcv) as (cn' & Hcv' & Hk & Hv & _).
  exists cn', a, rest. split; [done |]. split; [congruence |].
  split; [by rewrite Hv |]. split; [done |].
  by eapply rewired_is_op.
Qed.

Lemma tracked_refl (n0 x : nat) (V : gset nat) (Q : Request → Prop) (s : State) :
  tracked n0 x V Q s s.
Proof.
  split; [apply rewired_refl | done | done | set_solver |].
  exists []. by rewrite app_nil_r.
Qed.

Lemma tracked_trans (n0 x : nat) (V : gset nat) (Q : Request → Prop)
    (s1 s2 s3 : State) :
  tracked n0 x V Q s1 s2 → tracked n0 x V Q s2 s3 → tracked n0 x V Q s1 s3.
Proof.
  intros [Hn1 Hw1 Hm1 Hb1 (new1 & Hr1 & HQ1)] [Hn2 Hw2 Hm2 Hb2 (new2 & Hr2 & HQ2)].
  split.
  - by eapply rewired_trans.
  - auto.
  - set_solver.
  - set_solver.
  - exists (new1 ++ new2). split; [by rewrite Hr2, Hr1, app_assoc |].
    by apply Forall_app.
Qed.

Lemma tracked_weaken (n0 x : nat) (V V' : gset nat) (Q Q' : Request → Prop)
    (s s' : State) :
  V ⊆ V' → (∀ rq, Q rq → Q' rq) →
  tracked n0 x V Q s s' → tracked n0 x V' Q' s s'.
Proof.
  intros HV HQ [Hn Hw Hm Hb (new & Hr & HQn)].
  split; try done; [set_solver |].
  exists new. split; [done |]. eapply Forall_impl; eauto.
Qed.

(** A step that only rewires nodes. *)
Lemma tracked_nodes (n0 x : nat) (V : gset nat) (Q : Request → Prop)
    (s : State) (ns : list Node) :
  rewired n0 x (nodes s) ns → tracked n0 x V Q s (set_nodes ns s).
Proof.
  intros Hr. split; simpl; [done | | done | set_solver |].
  - by apply (cache_wf_rewired n0 x s (set_nodes ns s)).
  - exists []. by rewrite app_nil_r.
Qed.

Lemma update_node_inv (p : nat) (f : Node → Node) (s s' : State) (r : outcome unit) :
  update_node p f s = (r, s') →
  (r = Ok tt ∧ is_Some (nodes s !! p)
   ∧ s' = set_nodes (alter f p (nodes s)) s)
  ∨ (∃ e, r = Raise e ∧ s' = s).
Proof.
  unfold update_node. intros H.
  apply bind_inv in H as [(n & s1 & Hn & H) | (e & Hn & ->)];
    apply get_node_inv in Hn as [-> Hn]; [| right; eauto].
  unfold modify in H. simplify_eq. left. eauto.
Qed.

Lemma IR_NODE_LINK_TO_tracked (n0 x a b : nat) (V : gset nat) (Q : Request → Prop)
    (s s' : State) (r : outcome unit) :
  is_var_at (nodes s) a → is_op_at (nodes s) b → b = x ∨ (n0 ≤ b)%nat →
  IR_NODE_LINK_TO a b s = (r, s') → tracked n0 x V Q s s'.
Proof.
  intros Ha Hb Hwhere H. unfold IR_NODE_LINK_TO in H.
  apply bind_inv in H as [([] & s1 & H1 & H) | (e & H1 & ->)];
    apply update_node_inv in H1 as [(? & _ & ->) | (e' & ? & ->)];
    try done; try apply tracked_refl.
  pose proof (rewired_alter_outputs n0 x a (λ l, l ++ [b]) (nodes s) Ha) as Hr1.
  apply update_node_inv in H as [(_ & _ & ->) | (e' & ? & ->)].
  - simpl. replace (set_nodes _ (set_nodes _ s))
      with (set_nodes (alter (with_inputs (λ l, l ++ [a])) b
                         (alter (with_outputs (λ l, l ++ [b])) a (nodes s))) s)
      by done.
    apply tracked_nodes. eapply rewired_trans; [exact Hr1 |].
    apply rewired_alter_inputs; [| done]. by eapply rewired_is_op.
  - by apply tracked_nodes.
Qed.

Lemma IR_NODE_UNLINK_tracked (n0 x a b : nat) (V : gset nat) (Q : Request → Prop)
    (s s' : State) (r : outcome unit) :
  is_var_at (nodes s) a → is_op_at (nodes s) b → b = x ∨ (n0 ≤ b)%nat →
  IR_NODE_UNLINK a b s = (r, s') → tracked n0 x V Q s s'.
Proof.
  intros Ha Hb Hwhere H. unfold IR_NODE_UNLINK in H.
  apply bind_inv in H as [([] & s1 & H1 & H) | (e & H1 & ->)];
    apply update_node_inv in H1 as [(? & _ & ->) | (e' & ? & ->)];
    try done; try apply tracked_refl.
  pose proof (rewired_alter_outputs n0 x a (filter (λ y, y ≠ b)) (nodes s) Ha) as Hr1.
  apply update_node_inv in H as [(_ & _ & ->) | (e' & ? & ->)].
  - simpl. replace (set_nodes _ (set_nodes _ s))
      with (set_nodes (alter (with_inputs (filter (λ y, y ≠ a))) b
                         (alter (with_outputs (filter (λ y, y ≠ b))) a (nodes s))) s)
      by done.
    apply tracked_nodes. eapply rewired_trans; [exact Hr1 |].
    apply rewired_alter_inputs; [| done]. by eapply rewired_is_op.
  - by apply tracked_nodes.
Qed.

Lemma update_op_tracked (n0 x p : nat) (f : OpDesc → OpDesc) (V : gset nat)
    (Q : Request → Prop) (s s' : State) (r : outcome unit) :
  update_op p f s = (r, s') → tracked n0 x V Q s s'.
Proof.
  intros H. apply update_op_inv in H. destruct r.
  - destruct H as (n & d & _ & _ & ->). apply tracked_nodes.
    apply rewired_alter_desc, map_op_keeps.
  - subst. apply tracked_refl.
Qed.

Lemma update_var_tracked (n0 x p : nat) (f : VarDesc → VarDesc) (V : gset nat)
    (Q : Request → Prop) (s s' : State) (r : outcome unit) :
  update_var p f s = (r, s') → tracked n0 x V Q s s'.
Proof.
  intros H. apply update_var_inv in H. destruct r.
  - destruct H as (n & d & _ & _ & ->). apply tracked_nodes.
    apply rewired_alter_desc, map_var_keeps.
  - subst. apply tracked_refl.
Qed.

Lemma cache_at_inv (k : nat) (s s' : State) (r : outcome nat) :
  cache_at k s = (r, s') →
  s' = s ∧ match r with
           | Ok v => cache s !! k = Some v
           | Raise _ => cache s !! k = None
           end.
Proof.
  unfold cache_at. intros H. apply read_inv in H as [-> ->].
  split; [done |]. by destruct (cache s !! k).
Qed.

Lemma relink_tracked (n0 x prev : nat) (V : gset nat) (Q : Request → Prop)
    (s s' : State) (r : outcome unit) :
  cache_wf n0 s → is_var_at (nodes s) prev →
  relink prev x s = (r, s') → tracked n0 x V Q s s'.
Proof.
  intros Hwf Hprev H. unfold relink in H.
  apply bind_inv in H as [(pn & s1 & Hm & H) | (e & Hm & ->)];
    apply get_node_inv in Hm as [-> Hpn]; [| apply tracked_refl].
  apply bind_inv in H as [(cv & s1 & Hm & H) | (e & Hm & ->)];
    apply cache_at_inv in Hm as [-> Hcv]; [| apply tracked_refl].
  apply bind_inv in H as [(cn & s1 & Hm & H) | (e & Hm & ->)];
    apply get_node_inv in Hm as [-> Hcn]; [| apply tracked_refl].
  apply bind_inv in H as [([] & s1 & Hm & H) | (e & Hm & ->)].
  2:{ by eapply update_op_tracked. }
  pose proof (update_op_tracked n0 x x _ V Q _ _ _ Hm) as T1.
  apply update_op_inv in Hm as (nx & dx & Hnx & Hdx & Hs1).
  assert (Hx : is_op_at (nodes s) x).
  { exists nx. split; [done |]. unfold IsOp. by rewrite Hdx. }
  clear Hs1.
  assert (Hwf1 : cache_wf n0 s1) by by apply (tr_wf _ _ _ _ _ _ T1).
  apply bind_inv in H as [(cv1 & s2 & Hm & H) | (e & Hm & ->)];
    apply cache_at_inv in Hm as [-> Hcv1]; [| done].
  destruct (Hwf1 _ _ Hcv1) as (cn1 & a & rest & Hcn1 & Hvar1 & Hin1 & Ha & Hop1).
  apply bind_inv in H as [(cn1' & s2 & Hm & H) | (e & Hm & ->)];
    apply get_node_inv in Hm as [-> Hcn1']; [| done].
  assert (cn1' = cn1) as -> by congruence.
  apply bind_inv in H as [(a' & s2 & Hm & H) | (e & Hm & ->)];
    apply lift_inv in Hm as [-> Hfront]; [| done].
  rewrite Hin1 in Hfront. simpl in Hfront. simplify_eq.
  assert (Hprev1 : is_var_at (nodes s1) prev).
  { eapply rewired_is_var; [apply (tr_nodes _ _ _ _ _ _ T1) | done]. }
  apply bind_inv in H as [([] & s2 & Hm & H) | (e & Hm & ->)].
  2:{ eapply tracked_trans; [exact T1 |].
      eapply IR_NODE_LINK_TO_tracked; [exact Hprev1 | exact Hop1 | by right | done]. }
  pose proof (IR_NODE_LINK_TO_tracked n0 x prev a V Q s1 s2 _
                Hprev1 Hop1 ltac:(by right) Hm) as T2.
  assert (Hwf2 : cache_wf n0 s2) by by apply (tr_wf _ _ _ _ _ _ T2).
  assert (T12 : tracked n0 x V Q s s2) by by eapply tracked_trans.
  apply bind_inv in H as [(cv2 & s3 & Hm' & H) | (e & Hm' & ->)];
    apply cache_at_inv in Hm' as [-> Hcv2]; [| done].
  destruct (Hwf2 _ _ Hcv2) as (cn2 & a2 & rest2 & Hcn2 & Hvar2 & _).
  assert (Hx2 : is_op_at (nodes s2) x).
  { eapply rewired_is_op; [apply (tr_nodes _ _ _ _ _ _ T12) | done]. }
  assert (Hcv2v : is_var_at (nodes s2) cv2) by (exists cn2; done).
  apply bind_inv in H as [([] & s3 & Hm' & H) | (e & Hm' & ->)].
  2:{ eapply tracked_trans; [exact T12 |].
      eapply IR_NODE_LINK_TO_tracked; [exact Hcv2v | exact Hx2 | by left | done]. }
  pose proof (IR_NODE_LINK_TO_tracked n0 x cv2 x V Q s2 s3 _
                Hcv2v Hx2 ltac:(by left) Hm') as T3.
  assert (T13 : tracked n0 x V Q s s3) by by eapply tracked_trans.
  eapply tracked_trans; [exact T13 |].
  eapply IR_NODE_UNLINK_tracked; [| | by left | exact H].
  - eapply rewired_is_var; [apply (tr_nodes _ _ _ _ _ _ T13) | done].
  - eapply rewired_is_op; [apply (tr_nodes _ _ _ _ _ _ T13) | done].
Qed.

Lemma BlockVar_inv (b : nat) (x : string) (s s' : State) (r : outcome unit) :
  BlockVar b x s = (r, s') → ∃ bs, s' = set_blocks bs s.
Proof.
  unfold BlockVar. destruct (blocks s !! b) as [vars |].
  - destruct (vars !! x); intros [= <- <-]; [exists (blocks s); by destruct s | eauto].
  - intros [= <- <-]. exists (blocks s). by destruct s.
Qed.

Lemma update_block_var_inv (b : nat) (x : string) (f : VarDesc → VarDesc)
    (s s' : State) (r : outcome unit) :
  update_block_var b x f s = (r, s') → ∃ bs, s' = set_blocks bs s.
Proof.
  unfold update_block_var. intros H.
  apply bind_inv in H as [(v & s1 & Hm & H) | (e & Hm & ->)];
    apply read_inv in Hm as [-> _].
  - unfold modify in H. simplify_eq. eauto.
  - exists (blocks s). by destruct s.
Qed.

Lemma rewired_extends (n0 x : nat) (ns ns' : list Node) :
  (length ns ≤ length ns')%nat →
  (∀ q n, ns !! q = Some n → ns' !! q = Some n) →
  rewired n0 x ns ns'.
Proof.
  intros Hlen Hold. split; [done |]. intros q n Hq. exists n.
  split; [by apply Hold | done].
Qed.

Lemma cache_wf_extends (n0 : nat) (s s' : State) :
  (∀ q n, nodes s !! q = Some n → nodes s' !! q = Some n) →
  cache s' = cache s → cache_wf n0 s → cache_wf n0 s'.
Proof.
  intros Hold Hc Hwf p cv Hp. rewrite Hc in Hp.
  destruct (Hwf p cv Hp) as (cn & a & rest & Hcv & Hvar & Hin & Ha & an & Han & Hop).
  exists cn, a, rest. split; [by apply Hold |]. split; [done |].
  split; [done |]. split; [done |]. exists an. split; [by apply Hold | done].
Qed.

(** A cache miss adds two nodes at the end of the arena and one cache
    entry; whatever happens on the way, the nodes that were there are not
    touched. *)
Lemma create_transfer_tracked (n0 x prev b : nat) (from_layout to_layout : DataLayout)
    (in_var_name out_var_name : string) (V : gset nat) (Q : Request → Prop)
    (s s' : State) (r : outcome unit) :
  (n0 ≤ length (nodes s))%nat →
  create_transfer layout_int prev from_layout to_layout b in_var_name out_var_name s
  = (r, s') →
  tracked n0 x V Q s s'.
Proof.
  intros Hn0 H. unfold create_transfer in H.
  unfold CreateOpNode at 1 in H. unfold bind at 1 in H.
  set (opn := mkNode _ _ [] []) in H.
  assert (Hopn : IsOp opn = true) by done.
  set (a := length (nodes s)) in *.
  assert (Hgrown : ∀ bs, tracked n0 x V Q s
            (set_blocks bs (set_nodes (nodes s ++ [opn]) s))).
  { intros bs. split; simpl; [apply rewired_app | | done | set_solver |].
    - apply cache_wf_extends; [| done]. intros q n Hq. by apply lookup_app_l_Some.
    - exists []. by rewrite app_nil_r. }
  assert (Hstart : set_nodes (nodes s ++ [opn]) s
                   = set_blocks (blocks s) (set_nodes (nodes s ++ [opn]) s))
    by done.
  rewrite Hstart in H. clear Hstart. generalize dependent (blocks s). intros bs0 H.
  apply bind_inv in H as [([] & s1 & Hm & H) | (e & Hm & ->)];
    apply BlockVar_inv in Hm as [bs1 ->]; [| apply Hgrown].
  apply bind_inv in H as [([] & s1 & Hm & H) | (e & Hm & ->)];
    apply update_block_var_inv in Hm as [bs2 ->]; [| apply Hgrown].
  apply bind_inv in H as [(pn & s1 & Hm & H) | (e & Hm & ->)];
    apply get_node_inv in Hm as [-> _]; [| apply Hgrown].
  apply bind_inv in H as [(pv & s1 & Hm & H) | (e & Hm & ->)];
    apply lift_inv in Hm as [-> _]; [| apply Hgrown].
  apply bind_inv in H as [([] & s1 & Hm & H) | (e & Hm & ->)];
    apply update_block_var_inv in Hm as [bs3 ->]; [| apply Hgrown].
  apply bind_inv in H as [(pn' & s1 & Hm & H) | (e & Hm & ->)];
    apply get_node_inv in Hm as [-> _]; [| apply Hgrown].
  apply bind_inv in H as [(pv' & s1 & Hm & H) | (e & Hm & ->)];
    apply lift_inv in Hm as [-> _]; [| apply Hgrown].
  apply bind_inv in H as [(shp & s1 & Hm & H) | (e & Hm & ->)];
    apply lift_inv in Hm as [-> _]; [| apply Hgrown].
  apply bind_inv in H as [([] & s1 & Hm & H) | (e & Hm & ->)];
    apply update_block_var_inv in Hm as [bs4 ->]; [| apply Hgrown].
  apply bind_inv in H as [(vd & s1 & Hm & H) | (e & Hm & ->)];
    apply read_inv in Hm as [-> _]; [| apply Hgrown].
  unfold CreateVarNode at 1 in H. unfold bind at 1 in H. simpl in H.
  set (varn := mkNode (var_name vd) (NVar vd) [] []) in H.
  set (ns2 := (nodes s ++ [opn]) ++ [varn]) in H.
  assert (Hlen2 : length ns2 = S (S a)).
  { unfold ns2. rewrite !length_app. simpl. lia. }
  assert (Hold2 : ∀ q n, nodes s !! q = Some n → ns2 !! q = Some n).
  { intros q n Hq. unfold ns2. by apply lookup_app_l_Some, lookup_app_l_Some. }
  assert (Hlen1 : length (nodes s ++ [opn]) = S a).
  { rewrite length_app. simpl. lia. }
  rewrite Hlen1 in H.
  assert (Hpartial : ∀ (g : Node → Node) bs,
            tracked n0 x V Q s
              (mkState (alter g a ns2) bs (scope s) (cache s)
                       (vars_shape_nhwc s) (requests s))).
  { intros g bs. split; simpl; [| | done | set_solver |].
    - apply rewired_extends; [rewrite length_alter; lia |].
      intros q n Hq. rewrite list_lookup_alter_ne; [by apply Hold2 |].
      apply lookup_lt_Some in Hq. fold a in Hq. lia.
    - apply cache_wf_extends; [| done]. simpl. intros q n Hq.
      rewrite list_lookup_alter_ne; [by apply Hold2 |].
      apply lookup_lt_Some in Hq. fold a in Hq. lia.
    - exists []. by rewrite app_nil_r. }
  apply bind_inv in H as [([] & s1 & Hm & H) | (e & Hm & ->)].
  2:{ unfold IR_NODE_LINK_TO in Hm.
      apply bind_inv in Hm as [([] & s1 & H1 & Hm) | (e1 & H1 & ?)];
        apply update_node_inv in H1 as [(? & _ & ->) | (e' & ? & ->)]; try done.
      - apply update_node_inv in Hm as [(? & _ & ->) | (e' & ? & ->)]; [done |].
        apply Hpartial.
      - replace (set_nodes ns2 _)
          with (mkState (alter id a ns2) bs4 (scope s) (cache s)
                        (vars_shape_nhwc s) (requests s)); [apply Hpartial |].
        unfold set_nodes. simpl. f_equal. apply list_alter_id. done. }
  rewrite IR_NODE_LINK_TO_eq in Hm; simpl.
  2:{ apply lookup_lt_is_Some. rewrite Hlen2. lia. }
  2:{ apply lookup_lt_is_Some. rewrite Hlen2. lia. }
  simplify_eq. unfold cache_insert, modify in H. simplify_eq. simpl.
  change (link a (S a) ns2) with (with_transfer (nodes s) opn varn).
  clear Hpartial Hold2 Hlen2 Hlen1 Hgrown. subst a.
  split; simpl; [| | done | set_solver |].
  - apply rewired_extends; [rewrite with_transfer_length; lia |].
    intros q n Hq. rewrite with_transfer_lookup_old; [done |].
    by eapply lookup_lt_Some.
  - intros Hwf p cv Hp. simpl in Hp.
    destruct (decide (p = prev)) as [-> | Hne].
    + rewrite lookup_insert_eq in Hp. simplify_eq.
      eexists _, (length (nodes s)), []. simpl. rewrite with_transfer_lookup_var.
      split; [done |]. split; [done |]. split; [done |]. split; [done |].
      eexists. rewrite with_transfer_lookup_op. split; done.
    + rewrite lookup_insert_ne in Hp by done.
      destruct (Hwf p cv Hp) as (cn & a' & rest & Hcv & Hvar & Hin & Ha & an & Han & Hop).
      exists cn, a', rest. simpl.
      rewrite with_transfer_lookup_old by by eapply lookup_lt_Some.
      split; [done |]. split; [done |]. split; [done |]. split; [done |].
      exists an. rewrite with_transfer_lookup_old by by eapply lookup_lt_Some. done.
  - exists []. by rewrite app_nil_r.
Qed.

Lemma do_insert_tracked (n0 x prev : nat) (from_layout to_layout : DataLayout)
    (block_desc : option nat) (in_var_name out_var_name : string)
    (V : gset nat) (Q : Request → Prop) (s s' : State) (r : outcome unit) :
  cache_wf n0 s → (n0 ≤ length (nodes s))%nat → is_var_at (nodes s) prev →
  do_insert layout_int prev x from_layout to_layout block_desc
            in_var_name out_var_name s = (r, s') →
  tracked n0 x V Q s s'.
Proof.
  intros Hwf Hn0 Hprev H. unfold do_insert in H.
  apply bind_inv in H as [(b & s1 & Hm & H) | (e & Hm & ->)];
    apply lift_inv in Hm as [-> _]; [| apply tracked_refl].
  apply bind_inv in H as [(hit & s1 & Hm & H) | (e & Hm & ->)];
    apply read_inv in Hm as [-> _]; [| apply tracked_refl].
  apply bind_inv in H as [([] & s1 & Hm & H) | (e & Hm & ->)].
  - assert (T1 : tracked n0 x V Q s s1).
    { destruct hit.
      - unfold ret in Hm. simplify_eq. apply tracked_refl.
      - by eapply create_transfer_tracked. }
    eapply tracked_trans; [exact T1 |].
    eapply relink_tracked; [| | exact H].
    + by apply (tr_wf _ _ _ _ _ _ T1).
    + eapply rewired_is_var; [apply (tr_nodes _ _ _ _ _ _ T1) | done].
  - destruct hit.
    + unfold ret in Hm. done.
    + by eapply create_transfer_tracked.
Qed.

(** A request is logged and served without touching the edges of the
    operators still to come. *)
Lemma InsertLayoutTransOp_tracked (n0 x prev : nat)
    (from_layout to_layout : DataLayout) (block_desc : option nat)
    (Q : Request → Prop) (s s' : State) (r : outcome unit) :
  cache_wf n0 s → (n0 ≤ length (nodes s))%nat →
  Q (mkRequest prev x from_layout to_layout) →
  InsertLayoutTransOp layout_int prev x from_layout to_layout block_desc s = (r, s') →
  tracked n0 x ∅ Q s s'.
Proof.
  intros Hwf Hn0 HQ H. unfold InsertLayoutTransOp, log_request in H.
  unfold modify at 1 in H. unfold bind at 1 in H.
  set (s1 := set_requests _ s) in H.
  assert (T0 : tracked n0 x ∅ Q s s1).
  { split; simpl; [apply rewired_refl | done | done | set_solver |].
    eexists. split; [done |]. by apply Forall_singleton. }
  assert (Hbody : ∀ out_suffix,
            (let* pn := get_node prev in
             let* pv := lift (Var pn) in
             do_insert layout_int prev x from_layout to_layout block_desc
                       (var_name pv) (var_name pv +:+ out_suffix)) s1 = (r, s') →
            tracked n0 x ∅ Q s s').
  { intros sfx Hb.
    apply bind_inv in Hb as [(pn & s2 & Hm & Hb) | (e & Hm & ->)];
      apply get_node_inv in Hm as [-> Hpn]; [| done].
    apply bind_inv in Hb as [(pv & s2 & Hm & Hb) | (e & Hm & ->)];
      apply lift_inv in Hm as [-> Hpv]; [| done].
    eapply tracked_trans; [exact T0 |].
    eapply do_insert_tracked; [| | | exact Hb]; try done.
    exists pn. split; [done |]. unfold Var in Hpv. unfold IsOp.
    by destruct (desc pn). }
  destruct (decide (from_layout = kNCHW ∧ to_layout = kNHWC)); [by eapply Hbody |].
  destruct (decide (from_layout = kNHWC ∧ to_layout = kNCHW)); [by eapply Hbody |].
  unfold ret in H. by simplify_eq.
Qed.

Lemma for_each_invariant {A} (I : State → Prop) (l : list A) (body : A → M unit) :
  (∀ y s r s', y ∈ l → I s → body y s = (r, s') → I s') →
  ∀ s r s', I s → for_each l body s = (r, s') → I s'.
Proof.
  induction l as [| y l IH]; intros Hbody s r s' HI H; simpl in H.
  - unfold ret in H. by simplify_eq.
  - apply bind_inv in H as [([] & s1 & Hm & H) | (e & Hm & ->)].
    + eapply (IH ltac:(intros; eapply Hbody; [by right | done | done])); [| exact H].
      eapply Hbody; [by left | done | done].
    + eapply Hbody; [by left | done | done].
Qed.

(** *** The parts of a commit that leave the edges alone *)

Lemma settled_refl (V : gset nat) (s : State) : settled V s s.
Proof. split; try done; [| set_solver]. intros q n Hq. exists n. done. Qed.

Lemma settled_trans (V : gset nat) (s1 s2 s3 : State) :
  settled V s1 s2 → settled V s2 s3 → settled V s1 s3.
Proof.
  intros [Hl1 Hn1 Hc1 Hr1 Hm1 Hb1] [Hl2 Hn2 Hc2 Hr2 Hm2 Hb2].
  split.
  - congruence.
  - intros q n Hq. destruct (Hn1 q n Hq) as (n' & Hq' & Hk & Hi & Ho).
    destruct (Hn2 q n' Hq') as (n'' & Hq'' & Hk' & Hi' & Ho').
    exists n''. split; [done |]. split; [congruence |]. split; congruence.
  - congruence.
  - congruence.
  - clear Hn1 Hn2. set_solver.
  - clear Hn1 Hn2. set_solver.
Qed.

Lemma settled_weaken (V V' : gset nat) (s s' : State) :
  V ⊆ V' → settled V s s' → settled V' s s'.
Proof. intros HV []. split; try done. set_solver. Qed.

Lemma settled_alter (V : gset nat) (s : State) (p : nat) (g : Node → Node) :
  (∀ n, IsOp (g n) = IsOp n ∧ inputs (g n) = inputs n ∧ outputs (g n) = outputs n) →
  settled V s (set_nodes (alter g p (nodes s)) s).
Proof.
  intros Hg. split; simpl; try done; [by rewrite length_alter | | set_solver].
  intros q n Hq. destruct (decide (p = q)) as [-> | Hne].
  - rewrite list_lookup_alter_eq, Hq. simpl. exists (g n).
    destruct (Hg n) as (Hk & Hi & Ho). done.
  - rewrite list_lookup_alter_ne by done. exists n. done.
Qed.

Lemma settled_tracked (n0 x : nat) (V : gset nat) (Q : Request → Prop) (s s' : State) :
  settled V s s' → tracked n0 x V Q s s'.
Proof.
  intros [Hl Hn Hc Hr Hm Hb].
  assert (Hrew : rewired n0 x (nodes s) (nodes s')).
  { split; [lia |]. intros q n Hq.
    destruct (Hn q n Hq) as (n' & Hq' & Hk & Hi & Ho). exists n'. done. }
  split; try done.
  - by apply (cache_wf_rewired n0 x).
  - exists []. by rewrite app_nil_r.
Qed.

Lemma update_op_settled (p : nat) (f : OpDesc → OpDesc) (V : gset nat)
    (s s' : State) (r : outcome unit) :
  update_op p f s = (r, s') → settled V s s'.
Proof.
  intros H. apply update_op_inv in H. destruct r.
  - destruct H as (n & d & _ & _ & ->). apply settled_alter, map_op_keeps.
  - subst. apply settled_refl.
Qed.

Lemma update_var_settled (p : nat) (f : VarDesc → VarDesc) (V : gset nat)
    (s s' : State) (r : outcome unit) :
  update_var p f s = (r, s') → settled V s s'.
Proof.
  intros H. apply update_var_inv in H. destruct r.
  - destruct H as (n & d & _ & _ & ->). apply settled_alter, map_var_keeps.
  - subst. apply settled_refl.
Qed.

Lemma when_settled (b : bool) (m : M unit) (V : gset nat) (s s' : State)
    (r : outcome unit) :
  (m s = (r, s') → settled V s s') →
  when b m s = (r, s') → settled V s s'.
Proof.
  intros Hm. destruct b; simpl; [done |].
  unfold ret. intros [= <- <-]. apply settled_refl.
Qed.

Lemma commit_attrs_settled (op : nat) (V : gset nat) (s s' : State) (r : outcome unit) :
  commit_attrs use_cutlass op s = (r, s') → settled V s s'.
Proof.
  intros H. unfold commit_attrs in H.
  apply bind_inv in H as [(n & s1 & Hm & H) | (e & Hm & ->)];
    apply get_node_inv in Hm as [-> _]; [| apply settled_refl].
  apply bind_inv in H as [(d & s1 & Hm & H) | (e & Hm & ->)];
    apply lift_inv in Hm as [-> _]; [| apply settled_refl].
  apply bind_inv in H as [(cut & s1 & Hm & H) | (e & Hm & ->)];
    apply read_inv in Hm as [-> _]; [| apply settled_refl].
  assert (Hbranch : ∀ r1 s1,
            (if cut
             then when (negb (HasAttr d "fuse_alpha"))
                    (update_op op (λ d, SetAttr d "fuse_alpha" (AttrFloat 0)))
             else let* cudnn := read (λ s, cuDNNIsValid s op) in
                  if cudnn
                  then when (HasAttr d "use_cudnn")
                         (update_op op (λ d, SetAttr d "use_cudnn" (AttrBool true)))
                  else ret tt) s = (r1, s1) →
            settled V s s1).
  { intros r1 s1 Hb. destruct cut.
    - eapply when_settled; [| exact Hb]. apply update_op_settled.
    - apply bind_inv in Hb as [(cud & s2 & Hm & Hb) | (e & Hm & ->)];
        apply read_inv in Hm as [-> _]; [| apply settled_refl].
      destruct cud.
      + eapply when_settled; [| exact Hb]. apply update_op_settled.
      + unfold ret in Hb. simplify_eq. apply settled_refl. }
  apply bind_inv in H as [([] & s1 & Hm & H) | (e & Hm & ->)].
  - eapply settled_trans; [by eapply Hbranch |]. by eapply update_op_settled.
  - by eapply Hbranch.
Qed.

Lemma for_each_settled {A} (V : gset nat) (l : list A) (body : A → M unit) :
  (∀ y s r s', y ∈ l → body y s = (r, s') → settled V s s') →
  ∀ s r s', for_each l body s = (r, s') → settled V s s'.
Proof.
  intros Hbody s r s' H.
  apply (for_each_invariant (settled V s) l body) with (s := s) (r := r);
    [| apply settled_refl | done].
  intros y s1 r1 s2 Hy HI Hrun. eapply settled_trans; [exact HI |].
  by eapply Hbody.
Qed.

Lemma permute_filter_var_settled (f : string) (v : nat) (V : gset nat)
    (s s' : State) (r : outcome unit) :
  permute_filter_var f v s = (r, s') → settled V s s'.
Proof.
  intros H. unfold permute_filter_var in H.
  apply bind_inv in H as [(n & s1 & Hm & H) | (e & Hm & ->)];
    apply get_node_inv in Hm as [-> _]; [| apply settled_refl].
  destruct (negb (IsVar n)).
  { unfold raise in H. simplify_eq. apply settled_refl. }
  apply bind_inv in H as [(vd & s1 & Hm & H) | (e & Hm & ->)];
    apply lift_inv in Hm as [-> _]; [| apply settled_refl].
  eapply when_settled; [| exact H]. intros Hw.
  apply bind_inv in Hw as [(shp & s1 & Hm & Hw) | (e & Hm & ->)];
    apply lift_inv in Hm as [-> _]; [| apply settled_refl].
  by eapply update_var_settled.
Qed.

Lemma transfer_weight_settled (op : nat) (f : string) (V : gset nat)
    (s s' : State) (r : outcome unit) :
  transfer_weight op f s = (r, s') → settled V s s'.
Proof.
  intros H. unfold transfer_weight in H.
  apply bind_inv in H as [(t & s1 & Hm & H) | (e & Hm & ->)];
    apply read_inv in Hm as [-> _]; [| apply settled_refl].
  destruct (decide (layout t = kNHWC)) as [Hl | Hl].
  { unfold ret in H. simplify_eq. apply settled_refl. }
  apply bind_inv in H as [(temp & s1 & Hm & H) | (e & Hm & ->)];
    apply lift_inv in Hm as [-> _]; [| apply settled_refl].
  unfold modify at 1 in H. unfold bind at 1 in H.
  set (s1 := set_scope _ s) in H.
  assert (T1 : settled V s s1).
  { split; simpl; try done; [| set_solver]. intros q n Hq. exists n. done. }
  apply bind_inv in H as [(n & s2 & Hm & H) | (e & Hm & ->)];
    apply get_node_inv in Hm as [-> _]; [| done].
  eapply settled_trans; [exact T1 |].
  eapply for_each_settled; [| exact H].
  intros. by eapply permute_filter_var_settled.
Qed.

Lemma transfer_output_settled (out : nat) (s s' : State) (r : outcome unit) :
  transfer_output out s = (r, s') → settled {[out]} s s'.
Proof.
  intros H. unfold transfer_output in H.
  apply bind_inv in H as [(n & s1 & Hm & H) | (e & Hm & ->)];
    apply get_node_inv in Hm as [-> _]; [| apply settled_refl].
  destruct (negb (IsVar n)).
  { unfold raise in H. simplify_eq. apply settled_refl. }
  apply bind_inv in H as [(vd & s1 & Hm & H) | (e & Hm & ->)];
    apply lift_inv in Hm as [-> _]; [| apply settled_refl].
  destruct (var_persistable vd).
  { unfold ret in H. simplify_eq. apply settled_refl. }
  apply bind_inv in H as [(shp & s1 & Hm & H) | (e & Hm & ->)];
    apply lift_inv in Hm as [-> _]; [| apply settled_refl].
  apply bind_inv in H as [([] & s1 & Hm & H) | (e & Hm & ->)].
  2:{ by eapply update_var_settled. }
  eapply settled_trans; [by eapply update_var_settled |].
  unfold modify in H. simplify_eq.
  split; simpl; try done; [| set_solver | set_solver].
  intros q n' Hq. exists n'. done.
Qed.

(** *** The requests of one commit *)

Lemma tracked_vars_eq (n0 x : nat) (Q : Request → Prop) (s s' : State) :
  tracked n0 x ∅ Q s s' → vars_shape_nhwc s' = vars_shape_nhwc s.
Proof. intros [_ _ Hm Hb _]. set_solver. Qed.

Lemma transfer_input_tracked (n0 x y : nat) (block_desc : option nat)
    (Q : Request → Prop) (s s' : State) (r : outcome unit) :
  cache_wf n0 s → (n0 ≤ length (nodes s))%nat →
  (y ∉ vars_shape_nhwc s → Q (mkRequest y x kNCHW kNHWC)) →
  transfer_input layout_int block_desc x y s = (r, s') →
  tracked n0 x ∅ Q s s'.
Proof.
  intros Hwf Hn0 HQ H. unfold transfer_input in H.
  apply bind_inv in H as [(n & s1 & Hm & H) | (e & Hm & ->)];
    apply get_node_inv in Hm as [-> _]; [| apply tracked_refl].
  destruct (negb (IsVar n)).
  { unfold raise in H. simplify_eq. apply tracked_refl. }
  apply bind_inv in H as [(vd & s1 & Hm & H) | (e & Hm & ->)];
    apply lift_inv in Hm as [-> _]; [| apply tracked_refl].
  destruct (var_persistable vd).
  { unfold ret in H. simplify_eq. apply tracked_refl. }
  apply bind_inv in H as [(rec & s1 & Hm & H) | (e & Hm & ->)];
    apply read_inv in Hm as [-> Hrec]; [| apply tracked_refl].
  simplify_eq.
  destruct (bool_decide (y ∈ vars_shape_nhwc s)) eqn:Hy.
  { unfold ret in H. simplify_eq. apply tracked_refl. }
  apply bool_decide_eq_false in Hy.
  eapply InsertLayoutTransOp_tracked; [done | done | by apply HQ | exact H].
Qed.

Lemma restore_input_tracked (n0 x y : nat) (block_desc : option nat)
    (Q : Request → Prop) (s s' : State) (r : outcome unit) :
  cache_wf n0 s → (n0 ≤ length (nodes s))%nat →
  (y ∈ vars_shape_nhwc s → Q (mkRequest y x kNHWC kNCHW)) →
  restore_input layout_int block_desc x y s = (r, s') →
  tracked n0 x ∅ Q s s'.
Proof.
  intros Hwf Hn0 HQ H. unfold restore_input in H.
  apply bind_inv in H as [(n & s1 & Hm & H) | (e & Hm & ->)];
    apply get_node_inv in Hm as [-> _]; [| apply tracked_refl].
  destruct (negb (IsVar n)).
  { unfold raise in H. simplify_eq. apply tracked_refl. }
  apply bind_inv in H as [(rec & s1 & Hm & H) | (e & Hm & ->)];
    apply read_inv in Hm as [-> Hrec]; [| apply tracked_refl].
  simplify_eq.
  destruct (bool_decide (y ∈ vars_shape_nhwc s)) eqn:Hy; simpl in H.
  2:{ unfold ret in H. simplify_eq. apply tracked_refl. }
  apply bool_decide_eq_true in Hy.
  eapply InsertLayoutTransOp_tracked; [done | done | by apply HQ | exact H].
Qed.

(** A loop of requests for the operator [x], all satisfying [Q] as long as
    no variable is recorded in between. *)
Lemma request_loop_tracked (n0 x : nat) (Q : Request → Prop) (ins : list nat)
    (body : nat → M unit) (s s' : State) (r : outcome unit) :
  (∀ y s1 r1 s2, y ∈ ins →
     cache_wf n0 s1 → (n0 ≤ length (nodes s1))%nat →
     vars_shape_nhwc s1 = vars_shape_nhwc s →
     body y s1 = (r1, s2) → tracked n0 x ∅ Q s1 s2) →
  cache_wf n0 s → (n0 ≤ length (nodes s))%nat →
  for_each ins body s = (r, s') →
  tracked n0 x ∅ Q s s'.
Proof.
  intros Hbody Hwf Hn0 H.
  apply (for_each_invariant (tracked n0 x ∅ Q s) ins body) with (s := s) (r := r);
    [| apply tracked_refl | done].
  intros y s1 r1 s2 Hy HI Hrun. eapply tracked_trans; [exact HI |].
  eapply Hbody; [done | | | | exact Hrun].
  - by apply (tr_wf _ _ _ _ _ _ HI).
  - destruct (tr_nodes _ _ _ _ _ _ HI) as [Hlen _]. lia.
  - by eapply tracked_vars_eq.
Qed.

Lemma commit_step_tracked (n0 x : nat) (valid_ops : gset nat)
    (block_desc : option nat) (n : Node) (s s' : State) (r : outcome unit) :
  cache_wf n0 s → (n0 ≤ length (nodes s))%nat →
  nodes s !! x = Some n →
  commit_step layout_int use_cutlass valid_ops block_desc x s = (r, s') →
  tracked n0 x
    (if decide (x ∈ valid_ops) then list_to_set (outputs n) else ∅)
    (request_of valid_ops x (inputs n) (vars_shape_nhwc s'))
    s s'.
Proof.
  intros Hwf Hn0 Hx H. unfold commit_step in H.
  rewrite (bind_eq _ _ _ _ _ (get_node_eq _ _ _ Hx)) in H.
  destruct (negb (IsOp n)).
  { unfold raise in H. simplify_eq. apply tracked_refl. }
  destruct (bool_decide (x ∈ valid_ops)) eqn:Hvalid.
  - apply bool_decide_eq_true in Hvalid. rewrite decide_True by done.
    set (V := list_to_set (outputs n) : gset nat).
    (* attributes *)
    apply bind_inv in H as [([] & s1 & Hm & H) | (e & Hm & ->)].
    2:{ apply settled_tracked. by eapply commit_attrs_settled. }
    pose proof (commit_attrs_settled _ V _ _ _ Hm) as S1. clear Hm.
    destruct (st_nodes _ _ _ S1 x n Hx) as (n1 & Hx1 & _ & Hi1 & Ho1).
    rewrite (bind_eq _ _ _ _ _ (get_node_eq _ _ _ Hx1)) in H.
    apply bind_inv in H as [(d1 & s2 & Hm & H) | (e & Hm & ->)];
      apply lift_inv in Hm as [-> _]; [| by apply settled_tracked].
    apply bind_inv in H as [(fs & s2 & Hm & H) | (e & Hm & ->)];
      apply lift_inv in Hm as [-> _]; [| by apply settled_tracked].
    (* weights *)
    apply bind_inv in H as [([] & s2 & Hm & H) | (e & Hm & ->)].
    2:{ apply settled_tracked. eapply settled_trans; [exact S1 |].
        eapply for_each_settled; [| exact Hm].
        intros. by eapply transfer_weight_settled. }
    assert (S2 : settled V s s2).
    { eapply settled_trans; [exact S1 |].
      eapply for_each_settled; [| exact Hm].
      intros. by eapply transfer_weight_settled. }
    clear Hm S1 Hx1 Hi1 Ho1 n1.
    destruct (st_nodes _ _ _ S2 x n Hx) as (n2 & Hx2 & _ & Hi2 & Ho2).
    rewrite (bind_eq _ _ _ _ _ (get_node_eq _ _ _ Hx2)) in H.
    (* outputs *)
    assert (Houts : ∀ r3 s3, for_each (outputs n2) transfer_output s2 = (r3, s3) →
              settled V s2 s3).
    { intros r3 s3 Hm. eapply for_each_settled; [| exact Hm].
      intros y sa ra sb Hy Hrun. eapply settled_weaken; [| by eapply transfer_output_settled].
      unfold V. rewrite <- Ho2. set_solver. }
    apply bind_inv in H as [([] & s3 & Hm & H) | (e & Hm & ->)].
    2:{ apply settled_tracked. eapply settled_trans; [exact S2 |]. by eapply Houts. }
    assert (S3 : settled V s s3).
    { eapply settled_trans; [exact S2 |]. by eapply Houts. }
    clear Hm Houts S2 Hx2 Hi2 Ho2 n2.
    destruct (st_nodes _ _ _ S3 x n Hx) as (n3 & Hx3 & _ & Hi3 & Ho3).
    rewrite (bind_eq _ _ _ _ _ (get_node_eq _ _ _ Hx3)) in H.
    rewrite Hi3 in H.
    (* inputs *)
    assert (T3 : tracked n0 x V
              (request_of valid_ops x (inputs n) (vars_shape_nhwc s3)) s s3)
      by by apply settled_tracked.
    assert (T4 : tracked n0 x ∅
              (request_of valid_ops x (inputs n) (vars_shape_nhwc s3)) s3 s').
    { eapply request_loop_tracked; [| | | exact H].
      - intros y s4 r4 s5 Hy Hwf4 Hn4 Hv4 Hrun.
        eapply transfer_input_tracked; [done | done | | exact Hrun].
        intros Hnot. split; [done |]. split; [done |]. left.
        rewrite <- Hv4. done.
      - by apply (tr_wf _ _ _ _ _ _ T3).
      - rewrite (st_length _ _ _ S3). done. }
    rewrite (tracked_vars_eq _ _ _ _ _ T4).
    eapply tracked_trans; [exact T3 |].
    eapply tracked_weaken; [| | exact T4]; [set_solver | done].
  - apply bool_decide_eq_false in Hvalid. rewrite decide_False by done.
    rewrite (bind_eq _ _ _ _ _ (get_node_eq _ _ _ Hx)) in H.
    assert (T : tracked n0 x ∅
              (request_of valid_ops x (inputs n) (vars_shape_nhwc s)) s s').
    { eapply request_loop_tracked; [| done | done | exact H].
      intros y s4 r4 s5 Hy Hwf4 Hn4 Hv4 Hrun.
      eapply restore_input_tracked; [done | done | | exact Hrun].
      intros Hin. split; [done |]. split; [done |]. right.
      rewrite <- Hv4. done. }
    rewrite (tracked_vars_eq _ _ _ _ _ T). done.
Qed.

(** *** The third loop as a whole *)

Lemma commit_inv_start (valid_ops : gset nat) (s0 : State) :
  cache s0 = ∅ → vars_shape_nhwc s0 = ∅ → requests s0 = [] →
  commit_inv valid_ops s0 [] s0.
Proof.
  intros Hc Hv Hr. split.
  - intros p cv Hp. rewrite Hc in Hp. by rewrite lookup_empty in Hp.
  - done.
  - intros q n Hq. exists n. done.
  - intros v Hin. rewrite Hv in Hin. set_solver.
  - intros rq Hin. rewrite Hr in Hin. by apply elem_of_nil in Hin.
Qed.

Lemma commit_inv_step (valid_ops : gset nat) (block_desc : option nat)
    (s0 s s' : State) (op_nodes pre post : list nat) (x : nat) (r : outcome unit) :
  NoDup op_nodes →
  (∀ op, op ∈ op_nodes → is_op_at (nodes s0) op) →
  topological (nodes s0) op_nodes →
  op_nodes = pre ++ x :: post →
  commit_inv valid_ops s0 pre s →
  commit_step layout_int use_cutlass valid_ops block_desc x s = (r, s') →
  commit_inv valid_ops s0 (pre ++ [x]) s'.
Proof.
  intros Hnd Hops Htopo Hsplit [Hwf Hlen Hnodes Hvars Hreqs] Hrun.
  assert (Hx_pre : x ∉ pre).
  { rewrite Hsplit in Hnd. apply NoDup_app in Hnd as (_ & Hdisj & _).
    intros Hin. apply (Hdisj x Hin). by left. }
  destruct (Hops x) as (nx0 & Hx0 & Hop0).
  { rewrite Hsplit. apply elem_of_app. right. by left. }
  destruct (Hnodes x nx0 Hx0) as (n & Hx & Hk & Hedges).
  destruct (Hedges Hop0) as [Hout Hin]. specialize (Hin Hx_pre).
  pose proof (commit_step_tracked (length (nodes s0)) x valid_ops block_desc
                n s s' r Hwf Hlen Hx Hrun) as [Hrew Hwf' Hmono Hbound (new & Hnew & HQ)].
  rewrite Hout, Hin in *.
  assert (Hfresh : ∀ v, v ∈ vars_shape_nhwc s' → v ∉ vars_shape_nhwc s →
            x ∈ valid_ops ∧ v ∈ outputs nx0).
  { intros v Hv Hnv. apply Hbound in Hv. apply elem_of_union in Hv as [? | Hv]; [done |].
    destruct (decide (x ∈ valid_ops)); [| set_solver].
    split; [done |]. by apply elem_of_list_to_set in Hv. }
  split.
  - auto.
  - destruct Hrew as [Hl _]. lia.
  - intros q nq Hq. destruct (Hnodes q nq Hq) as (n' & Hq' & Hk' & He').
    destruct Hrew as [_ Hrew].
    destruct (Hrew q n' Hq') as (n'' & Hq'' & Hk'' & _ & Ho'').
    exists n''. split; [done |]. split; [congruence |].
    intros Hisop. destruct (He' Hisop) as [Ho1 Hi1].
    destruct (Ho'' ltac:(congruence)) as [Ho2 Hi2].
    split; [congruence |]. intros Hnotin.
    rewrite Hi2, Hi1; try done.
    + intros Hpre. apply Hnotin, elem_of_app. by left.
    + intros ->. apply Hnotin, elem_of_app. right. by left.
    + by eapply lookup_lt_Some.
  - intros v Hv. destruct (decide (v ∈ vars_shape_nhwc s)) as [Hold | Hnew'].
    + destruct (Hvars v Hold) as (y & ny & Hy & Hny & Hvy).
      exists y, ny. split; [apply elem_of_app; by left | done].
    + destruct (Hfresh v Hv Hnew') as [_ Hvx].
      exists x, nx0. split; [apply elem_of_app; right; by left | done].
  - intros rq Hrq. rewrite Hnew in Hrq. apply elem_of_app in Hrq as [Hold | Hnew'].
    + destruct (Hreqs rq Hold) as (ny & Hy & Hny & Hnext & Hprev & Hdir).
      exists ny. split; [apply elem_of_app; by left |]. split; [done |].
      split; [done |]. split; [done |].
      destruct Hdir as [(Hv & Hf & Ht & Hnot) | (Hv & Hf & Ht & Hrec)].
      * left. repeat split; try done. intros Hnow.
        destruct (Hfresh _ Hnow Hnot) as [_ Hprod].
        apply list_elem_of_lookup in Hy as [i Hi].
        assert (Hi' : op_nodes !! i = Some (rq_next rq)).
        { rewrite Hsplit. by apply lookup_app_l_Some. }
        assert (Hj : op_nodes !! length pre = Some x).
        { rewrite Hsplit. by apply list_lookup_middle. }
        pose proof (Htopo _ _ _ _ _ _ _ Hj Hi' Hx0 Hny Hprod Hprev) as Hlt.
        apply lookup_lt_Some in Hi. lia.
      * right. repeat split; try done. by apply Hmono.
    + rewrite Forall_forall in HQ. specialize (HQ rq Hnew').
      destruct HQ as (Hnext & Hprev & Hdir).
      exists nx0. rewrite Hnext.
      split; [apply elem_of_app; right; by left |]. split; [done |].
      split; [done |]. split; [done |]. done.
Qed.

Lemma commit_loop_invariant (valid_ops : gset nat) (block_desc : option nat)
    (s0 : State) (op_nodes : list nat) :
  NoDup op_nodes →
  (∀ op, op ∈ op_nodes → is_op_at (nodes s0) op) →
  topological (nodes s0) op_nodes →
  ∀ post pre s r s',
    op_nodes = pre ++ post →
    commit_inv valid_ops s0 pre s →
    for_each post (commit_step layout_int use_cutlass valid_ops block_desc) s = (r, s') →
    ∃ pre', commit_inv valid_ops s0 pre' s'.
Proof.
  intros Hnd Hops Htopo. induction post as [| x post IH]; intros pre s r s' Hsplit Hinv H.
  - simpl in H. unfold ret in H. simplify_eq. eauto.
  - simpl in H. apply bind_inv in H as [([] & s1 & Hm & H) | (e & Hm & ->)].
    + eapply (IH (pre ++ [x])); [by rewrite <- app_assoc | | exact H].
      by eapply commit_inv_step.
    + exists (pre ++ [x]). by eapply commit_inv_step.
Qed.

Lemma request_of_settled (valid_ops : gset nat) (x : nat) (ins : list nat)
    (recorded : gset nat) (rq : Request) :
  request_of valid_ops x ins recorded rq →
  direction_settled valid_ops recorded rq.
Proof.
  intros (Hnext & _ & [(Hv & Hf & Ht & Hnot) | (Hv & Hf & Ht & Hrec)]);
    split; intros ?; try done; rewrite Hnext; done.
Qed.

(** C8: when the operators come in topological order, every request the
    third loop makes, up to its end or up to the point where it aborts,
    goes the way the recorded variables ask for: from NHWC to NCHW for an
    ineligible consumer when the producer is recorded, from NCHW to NHWC for
    an eligible consumer when it is not; two requests for one producer have
    one direction, so that no cache entry is used for a direction other
    than the one it was created for. *)
Theorem request_directions_are_settled (s0 s' : State) (op_nodes : list nat)
    (valid_ops : gset nat) (block_desc : option nat) (r : outcome unit) :
  NoDup op_nodes →
  (∀ op, op ∈ op_nodes → is_op_at (nodes s0) op) →
  topological (nodes s0) op_nodes →
  cache s0 = ∅ → vars_shape_nhwc s0 = ∅ → requests s0 = [] →
  for_each op_nodes (commit_step layout_int use_cutlass valid_ops block_desc) s0
  = (r, s') →
  (∀ rq, rq ∈ requests s' →
     direction_settled valid_ops (vars_shape_nhwc s') rq)
  ∧ (∀ rq1 rq2, rq1 ∈ requests s' → rq2 ∈ requests s' →
       rq_prev rq1 = rq_prev rq2 →
       rq_from rq1 = rq_from rq2 ∧ rq_to rq1 = rq_to rq2).
Proof.
  intros Hnd Hops Htopo Hc Hv Hr Hrun.
  destruct (commit_loop_invariant valid_ops block_desc s0 op_nodes Hnd Hops Htopo
              op_nodes [] s0 r s' eq_refl
              (commit_inv_start valid_ops s0 Hc Hv Hr) Hrun)
    as (pre & [_ _ _ _ Hreqs]).
  assert (Hall : ∀ rq, rq ∈ requests s' →
            direction_settled valid_ops (vars_shape_nhwc s') rq).
  { intros rq Hrq. destruct (Hreqs rq Hrq) as (ny & _ & _ & Hof).
    by eapply request_of_settled. }
  split; [exact Hall |].
  intros rq1 rq2 H1 H2 Hsame.
  destruct (Hall rq1 H1) as [Hin1 Hout1]. destruct (Hall rq2 H2) as [Hin2 Hout2].
  destruct (decide (rq_prev rq1 ∈ vars_shape_nhwc s')) as [Hrec | Hnot].
  - destruct (Hin1 Hrec) as (-> & -> & _).
    rewrite Hsame in Hrec. destruct (Hin2 Hrec) as (-> & -> & _). done.
  - destruct (Hout1 Hnot) as (-> & -> & _).
    rewrite Hsame in Hnot. destruct (Hout2 Hnot) as (-> & -> & _). done.
Qed.

End CommitLoop.

(** ** Further properties of the pass *)

Section PassBehaviour.

Variable layout_int : DataLayout → Z.
Variable use_cutlass : bool.
Variable TopologySortOperations : list Node → list nat.

(** *** Shapes of other ranks *)

(** The three permutations read the first four sizes of a shape and write
    four: they are defined exactly on the shapes of rank four or more, and
    every size after the fourth is dropped. *)
Theorem shape_permutations_use_four_sizes (l l' : list Z) :
  (shape_0231 l = Ok l'
   ↔ ∃ a b c d rest, l = a :: b :: c :: d :: rest ∧ l' = [a; c; d; b])
  ∧ (shape_nchw_to_nhwc l = Ok l'
     ↔ ∃ a b c d rest, l = a :: b :: c :: d :: rest ∧ l' = [a; c; d; b])
  ∧ (shape_nhwc_to_nchw l = Ok l'
     ↔ ∃ a b c d rest, l = a :: b :: c :: d :: rest ∧ l' = [a; d; b; c]).
Proof.
  unfold shape_0231, shape_nchw_to_nhwc, shape_nhwc_to_nchw, at_index.
  destruct l as [| a [| b [| c [| d rest]]]]; simpl;
    (split; [| split]); split;
    try (intros [= <-]; by eexists _, _, _, _, _);
    try done;
    try (intros (? & ? & ? & ? & ? & ? & ?); by simplify_eq).
Qed.

(** *** Failures of the analysis *)

(** The first two loops only read: when one of them aborts (an operator
    node that is a variable, an attribute of the wrong type, a filter that
    the scope does not hold or whose rank is not four), the pass ends with
    an error and the world is the one it was given. *)
Theorem analysis_failure_leaves_world (w : World) (g : Graph)
    (sc : gmap string DenseTensor) (e : Error) :
  w_graph w = Some g → g_main g = true → g_param_scope g = Some sc →
  select_ops use_cutlass (initial_state g sc (w_blocks w))
             (TopologySortOperations (g_nodes g)) = Raise e →
  ∃ e', ApplyImpl layout_int use_cutlass TopologySortOperations w = (Raise e', w).
Proof.
  intros Hg Hmain Hsc Hsel. unfold ApplyImpl. rewrite Hg, Hmain, Hsc. simpl.
  destruct (TopologySortOperations (g_nodes g)) as [| first rest] eqn:Hops;
    [eauto |].
  assert (Hw : world_of g (initial_state g sc (w_blocks w)) = w).
  { destruct w as [wg wb]. destruct g as [gn gm gs]. simpl in *. by subst. }
  set (s0 := initial_state g sc (w_blocks w)) in *.
  unfold bind, get_node, read, node_at, lift, run_loops.
  destruct (nodes s0 !! first) as [n |]; [| rewrite Hw; eauto].
  destruct (Op n) as [d |]; [| rewrite Hw; eauto].
  unfold bind, read. rewrite Hsel, Hw. eauto.
Qed.

(** *** The second loop *)

Lemma foldl_erase (l : list nat) (v : gset nat) :
  foldl (λ v node, v ∖ {[node]}) v l = v ∖ list_to_set l.
Proof.
  revert v. induction l as [| x l IH]; intros v; simpl.
  - set_solver.
  - rewrite IH. set_solver.
Qed.

(** One test of lines 198-206: either every operator of the group is
    valid and nothing changes, or the whole group is erased. *)
Lemma invalidate_cases (ws : gmap string (list nat)) (v : gset nat) (f : string) :
  (invalidate ws v f = v ∧ ∀ q, q ∈ shared_by ws f → q ∈ v)
  ∨ (invalidate ws v f = v ∖ list_to_set (shared_by ws f)
     ∧ ∃ q, q ∈ shared_by ws f ∧ q ∉ v).
Proof.
  unfold invalidate.
  destruct (existsb _ (shared_by ws f)) eqn:Hex.
  - right. rewrite foldl_erase. split; [done |].
    apply existsb_exists in Hex as (q & Hq & Hnv).
    exists q. split; [by apply list_elem_of_In |].
    by apply bool_decide_eq_true in Hnv.
  - left. split; [done |]. intros q Hq.
    destruct (decide (q ∈ v)) as [| Hnv]; [done |].
    assert (existsb (λ node, bool_decide (node ∉ v)) (shared_by ws f) = true);
      [| congruence].
    apply existsb_exists. exists q. split; [by apply list_elem_of_In |].
    by apply bool_decide_eq_true.
Qed.

Lemma invalidate_subset (ws : gmap string (list nat)) (v : gset nat) (f : string) :
  invalidate ws v f ⊆ v.
Proof. destruct (invalidate_cases ws v f) as [[-> _] | [-> _]]; set_solver. Qed.

Lemma invalidate_loop_subset (ws : gmap string (list nat)) (fs : list string)
    (v : gset nat) :
  foldl (invalidate ws) v fs ⊆ v.
Proof.
  revert v. induction fs as [| f fs IH]; intros v; simpl; [done |].
  etrans; [apply IH | apply invalidate_subset].
Qed.

Lemma filter_step_ok (s : State) (ws : gmap string (list nat)) (v v' : gset nat)
    (p : nat) :
  filter_step s ws v p = Ok v' →
  ((p ∉ v) ∧ v' = v)
  ∨ ((p ∈ v) ∧ ∃ n d fs, nodes s !! p = Some n ∧ desc n = NOp d
              ∧ inputs_ d !! "Filter" = Some fs
              ∧ v' = foldl (invalidate ws) v fs).
Proof.
  unfold filter_step, node_at.
  destruct (nodes s !! p) as [n |] eqn:Hn; simpl; [| done].
  unfold IsOp, Op. destruct (desc n) as [d |] eqn:Hd; simpl; [| done].
  destruct (bool_decide (p ∈ v)) eqn:Hp.
  - apply bool_decide_eq_true in Hp. unfold Input.
    destruct (inputs_ d !! "Filter") as [fs |] eqn:Hfs; simpl; [| done].
    intros [= <-]. right. split; [done |]. by exists n, d, fs.
  - apply bool_decide_eq_false in Hp. intros [= <-]. by left.
Qed.

Lemma filter_loop_subset (s : State) (ws : gmap string (list nat))
    (op_nodes : list nat) (v v' : gset nat) :
  ofoldl (filter_step s ws) v op_nodes = Ok v' → v' ⊆ v.
Proof.
  intros Hrun.
  apply (ofoldl_invariant (filter_step s ws) (λ _ acc, acc ⊆ v) op_nodes v v');
    [done | | done].
  intros pre x a a' Ha Hstep.
  apply filter_step_ok in Hstep as [[_ ->] | (_ & n & d & fs & _ & _ & _ & ->)];
    [done |].
  etrans; [apply invalidate_loop_subset | done].
Qed.

Lemma classify_valid_sound (s : State) (op_nodes : list nat)
    (ws : gmap string (list nat)) (v : gset nat) :
  ofoldl (classify_step use_cutlass s) (∅, ∅) op_nodes = Ok (ws, v) →
  ∀ p, p ∈ v → p ∈ op_nodes ∧ eligible use_cutlass s p.
Proof.
  intros Hrun.
  pose (I := λ (pre : list nat) (acc : gmap string (list nat) * gset nat),
          ∀ p, p ∈ snd acc → p ∈ pre ∧ eligible use_cutlass s p).
  change (I op_nodes (ws, v)).
  eapply ofoldl_invariant; [| | exact Hrun].
  - intros p Hp. simpl in Hp. set_solver.
  - intros pre x acc acc' Hpre Hstep p Hp.
    apply classify_step_valid in Hstep as [[Hel Heq] | [_ Heq]];
      rewrite Heq in Hp.
    + apply elem_of_union in Hp as [Hp | Hp].
      * apply elem_of_singleton in Hp as ->.
        split; [apply elem_of_app; right; by left | done].
      * destruct (Hpre p Hp). split; [apply elem_of_app; by left | done].
    + destruct (Hpre p Hp). split; [apply elem_of_app; by left | done].
Qed.

Lemma select_ops_inv (s : State) (op_nodes : list nat)
    (ws : gmap string (list nat)) (valid : gset nat) :
  select_ops use_cutlass s op_nodes = Ok (ws, valid) →
  ∃ v0, ofoldl (classify_step use_cutlass s) (∅, ∅) op_nodes = Ok (ws, v0)
        ∧ ofoldl (filter_step s ws) v0 op_nodes = Ok valid.
Proof.
  unfold select_ops.
  destruct (ofoldl (classify_step use_cutlass s) (∅, ∅) op_nodes)
    as [[ws0 v0] |] eqn:Hc; simpl; [| done].
  destruct (ofoldl (filter_step s ws0) v0 op_nodes) as [v1 |] eqn:Hf;
    simpl; [| done].
  intros [= <- <-]. exists v0. done.
Qed.

Lemma select_ops_sound (s : State) (op_nodes : list nat)
    (ws : gmap string (list nat)) (valid : gset nat) :
  select_ops use_cutlass s op_nodes = Ok (ws, valid) →
  ∀ p, p ∈ valid → p ∈ op_nodes ∧ eligible use_cutlass s p.
Proof.
  intros Hsel p Hp. apply select_ops_inv in Hsel as (v0 & Hc & Hf).
  apply (classify_valid_sound s op_nodes ws v0 Hc).
  by apply (filter_loop_subset s ws op_nodes v0 valid Hf).
Qed.

(** The second loop only erases: every operator that the third loop
    commits is one of the sorted operators and is eligible in the sense
    of the first loop. *)
Theorem committed_operators_are_eligible (s : State) (op_nodes : list nat)
    (ws : gmap string (list nat)) (valid : gset nat) :
  select_ops use_cutlass s op_nodes = Ok (ws, valid) →
  ∀ p, p ∈ valid → p ∈ op_nodes ∧ eligible use_cutlass s p.
Proof. apply select_ops_sound. Qed.

(** *** A graph without eligible operators *)

Lemma restore_loop_idle (block_desc : option nat) (x : nat) (ins : list nat)
    (s : State) :
  vars_shape_nhwc s = ∅ →
  (∀ y, y ∈ ins → is_var_at (nodes s) y) →
  for_each ins (restore_input layout_int block_desc x) s = (Ok tt, s).
Proof.
  intros Hv. induction ins as [| y ins IH]; intros Hins; simpl; [done |].
  destruct (Hins y ltac:(by left)) as (n & Hy & Hvar).
  assert (Hstep : restore_input layout_int block_desc x y s = (Ok tt, s)).
  { unfold restore_input.
    rewrite (bind_eq _ _ _ _ _ (get_node_eq _ _ _ Hy)).
    unfold IsVar. unfold IsOp in Hvar. destruct (desc n); [done |]. simpl.
    unfold read at 1. unfold bind at 1.
    rewrite bool_decide_eq_false_2 by (rewrite Hv; set_solver). done. }
  rewrite (bind_eq _ _ _ _ _ Hstep). apply IH.
  intros; apply Hins; by right.
Qed.

Lemma commit_loop_idle (valid_ops : gset nat) (block_desc : option nat)
    (op_nodes : list nat) (s : State) :
  vars_shape_nhwc s = ∅ →
  (∀ x, x ∈ op_nodes →
     (x ∉ valid_ops)
     ∧ ∃ n, nodes s !! x = Some n ∧ IsOp n = true
            ∧ ∀ y, y ∈ inputs n → is_var_at (nodes s) y) →
  for_each op_nodes (commit_step layout_int use_cutlass valid_ops block_desc) s
  = (Ok tt, s).
Proof.
  intros Hv. induction op_nodes as [| x ops IH]; intros Hops; simpl; [done |].
  destruct (Hops x ltac:(by left)) as (Hx & n & Hn & Hop & Hins).
  assert (Hstep : commit_step layout_int use_cutlass valid_ops block_desc x s
                  = (Ok tt, s)).
  { unfold commit_step.
    rewrite (bind_eq _ _ _ _ _ (get_node_eq _ _ _ Hn)). rewrite Hop. simpl.
    rewrite bool_decide_eq_false_2 by done.
    rewrite (bind_eq _ _ _ _ _ (get_node_eq _ _ _ Hn)).
    by apply restore_loop_idle. }
  rewrite (bind_eq _ _ _ _ _ Hstep). apply IH.
  intros; apply Hops; by right.
Qed.

(** When the analysis runs through and finds no eligible operator, the
    pass reports zero converted operators and leaves the world as it was:
    no attribute, shape or tensor changes and no conversion is inserted. *)
Theorem nothing_eligible_nothing_changes (w : World) (g : Graph)
    (sc : gmap string DenseTensor)
    (ws : gmap string (list nat)) (valid : gset nat) :
  w_graph w = Some g → g_main g = true → g_param_scope g = Some sc →
  TopologySortOperations (g_nodes g) ≠ [] →
  select_ops use_cutlass (initial_state g sc (w_blocks w))
             (TopologySortOperations (g_nodes g)) = Ok (ws, valid) →
  (∀ p, p ∈ TopologySortOperations (g_nodes g) →
     ¬ eligible use_cutlass (initial_state g sc (w_blocks w)) p) →
  (∀ x, x ∈ TopologySortOperations (g_nodes g) →
     ∃ n, g_nodes g !! x = Some n ∧ IsOp n = true
          ∧ ∀ y, y ∈ inputs n → is_var_at (g_nodes g) y) →
  ApplyImpl layout_int use_cutlass TopologySortOperations w = (Ok 0, w).
Proof.
  intros Hg Hmain Hsc Hne Hsel Hnone Hwell.
  assert (Hempty : valid = ∅).
  { apply set_eq. intros p. split; [| set_solver]. intros Hp.
    destruct (select_ops_sound _ _ _ _ Hsel p Hp) as [Hin Hel].
    by destruct (Hnone p Hin). }
  subst valid.
  unfold ApplyImpl. rewrite Hg, Hmain, Hsc. simpl.
  destruct (TopologySortOperations (g_nodes g)) as [| first rest] eqn:Hops;
    [done |].
  assert (Hw : world_of g (initial_state g sc (w_blocks w)) = w).
  { destruct w as [wg wb]. destruct g as [gn gm gs]. simpl in *. by subst. }
  set (s0 := initial_state g sc (w_blocks w)) in *.
  destruct (Hwell first ltac:(by left)) as (n & Hn & Hop & _).
  rewrite (bind_eq _ _ s0 s0 n) by by apply get_node_eq.
  unfold IsOp in Hop. unfold lift at 1. unfold bind at 1. unfold Op at 1.
  destruct (desc n) as [d |] eqn:Hd; [| done].
  unfold run_loops.
  rewrite (bind_eq _ _ s0 s0 (ws, ∅)) by (unfold read; by rewrite Hsel).
  cbn [snd].
  rewrite (bind_eq _ _ s0 s0 tt).
  - unfold ret. by rewrite Hw.
  - apply commit_loop_idle; [done |].
    intros x Hx. split; [set_solver |]. by apply Hwell.
Qed.

(** *** The index of shared filters *)

Lemma shared_by_push_back (ws : gmap string (list nat)) (k f : string) (p q : nat) :
  q ∈ shared_by (push_back ws k p) f ↔ q ∈ shared_by ws f ∨ (f = k ∧ q = p).
Proof.
  unfold shared_by, push_back. destruct (decide (k = f)) as [-> | Hne].
  - rewrite lookup_insert_eq. simpl. rewrite elem_of_app, list_elem_of_singleton.
    naive_solver.
  - rewrite lookup_insert_ne by done. naive_solver.
Qed.

Lemma shared_by_push_all (fs : list string) (ws : gmap string (list nat))
    (f : string) (p q : nat) :
  q ∈ shared_by (foldl (λ ws k, push_back ws k p) ws fs) f
  ↔ q ∈ shared_by ws f ∨ (f ∈ fs ∧ q = p).
Proof.
  revert ws. induction fs as [| k fs IH]; intros ws; simpl.
  - split; [by left |]. intros [? | [H _]]; [done | by apply elem_of_nil in H].
  - rewrite IH, shared_by_push_back, elem_of_cons. naive_solver.
Qed.

Lemma classify_step_shared (s : State) (acc acc' : gmap string (list nat) * gset nat)
    (x : nat) :
  classify_step use_cutlass s acc x = Ok acc' →
  ∀ f q, q ∈ shared_by (fst acc') f
         ↔ q ∈ shared_by (fst acc) f ∨ (q = x ∧ reads_filter s x f).
Proof.
  unfold classify_step, node_at.
  destruct (nodes s !! x) as [n |] eqn:Hn; simpl; [| done].
  unfold IsOp, Op. destruct (desc n) as [d | v] eqn:Hd; simpl; [| done].
  assert (Hnot : ∀ f, (type_ d = target_op_type →
             attrs_ d !! "data_format" = Some (AttrString "NCHW") → False) →
             ¬ reads_filter s x f).
  { intros f HQ (n' & d' & fs & Hn' & Hd' & Ht & Hf & _).
    assert (n' = n) as -> by congruence.
    assert (d' = d) as -> by congruence. by apply HQ. }
  destruct (decide (type_ d ≠ target_op_type)) as [Hty | Hty].
  { intros [= <-] f q. specialize (Hnot f). naive_solver. }
  apply dec_stable in Hty.
  unfold GetAttrIfExists_string.
  destruct (attrs_ d !! "data_format") as [[| | | fmt] |] eqn:Hfmt; simpl;
    try done.
  2:{ intros [= <-] f q. specialize (Hnot f). naive_solver. }
  destruct (decide (fmt ≠ "NCHW")) as [Hne | Heq].
  { intros [= <-] f q. specialize (Hnot f). naive_solver. }
  apply dec_stable in Heq. subst fmt.
  unfold Input at 1.
  destruct (inputs_ d !! "Filter") as [fs |] eqn:Hfs; simpl; [| done].
  destruct (cuDNNIsValid s x) as [b1 |]; simpl; [| done].
  assert (Hgoal : ∀ f q,
            q ∈ shared_by (foldl (λ ws k, push_back ws k x) acc.1 fs) f
            ↔ q ∈ shared_by acc.1 f ∨ q = x ∧ reads_filter s x f).
  { intros f q. rewrite shared_by_push_all. split.
    - intros [? | [Hf ->]]; [by left | right]. split; [done |].
      by exists n, d, fs.
    - intros [? | [-> (n' & d' & fs' & Hn' & Hd' & _ & _ & Hfs' & Hf)]];
        [by left | right].
      assert (n' = n) as -> by congruence.
      assert (d' = d) as -> by congruence.
      assert (fs' = fs) as -> by congruence. done. }
  destruct b1; simpl.
  - intros [= <-]. exact Hgoal.
  - destruct (CutlassIsValid use_cutlass s x) as [b2 |]; simpl; [| done].
    intros [= <-]. exact Hgoal.
Qed.

Lemma classify_shared (s : State) (op_nodes : list nat)
    (ws : gmap string (list nat)) (v : gset nat) :
  ofoldl (classify_step use_cutlass s) (∅, ∅) op_nodes = Ok (ws, v) →
  ∀ f q, q ∈ shared_by ws f ↔ q ∈ op_nodes ∧ reads_filter s q f.
Proof.
  intros Hrun.
  pose (I := λ (pre : list nat) (acc : gmap string (list nat) * gset nat),
          ∀ f q, q ∈ shared_by (fst acc) f ↔ q ∈ pre ∧ reads_filter s q f).
  change (I op_nodes (ws, v)).
  eapply ofoldl_invariant; [| | exact Hrun].
  - intros f q. unfold shared_by. simpl. rewrite lookup_empty. simpl.
    split; [by intros ?%elem_of_nil | by intros [?%elem_of_nil _]].
  - intros pre x acc acc' Hpre Hstep f q.
    rewrite (classify_step_shared s acc acc' x Hstep f q), (Hpre f q).
    rewrite elem_of_app, list_elem_of_singleton. naive_solver.
Qed.

(** After the first loop, the vector filed under a filter name holds
    exactly the sorted operators of the targeted type that declare NCHW and
    name that filter, eligible or not. *)
Theorem sharing_index_lists_readers (s : State) (op_nodes : list nat)
    (ws : gmap string (list nat)) (valid : gset nat) :
  select_ops use_cutlass s op_nodes = Ok (ws, valid) →
  ∀ f q, q ∈ shared_by ws f ↔ q ∈ op_nodes ∧ reads_filter s q f.
Proof.
  intros Hsel. apply select_ops_inv in Hsel as (v0 & Hc & _).
  by eapply classify_shared.
Qed.

(** *** Sharing without chains *)

(** The tests of one operator's filters, when the groups of different
    filters have no operator in common: an operator that was erased lies in
    a group that is erased as a whole, and every group that was tested ends
    up whole or erased. *)
Lemma invalidate_loop_groups (ws : gmap string (list nat)) :
  (∀ f f' q, q ∈ shared_by ws f → q ∈ shared_by ws f' → f = f') →
  ∀ fs v,
    (∀ q, q ∈ v → q ∉ foldl (invalidate ws) v fs →
       ∃ g, g ∈ fs ∧ q ∈ shared_by ws g
            ∧ ∀ m, m ∈ shared_by ws g → m ∉ foldl (invalidate ws) v fs)
    ∧ (∀ g, g ∈ fs →
         (∀ m, m ∈ shared_by ws g → m ∈ foldl (invalidate ws) v fs)
         ∨ (∀ m, m ∈ shared_by ws g → m ∉ foldl (invalidate ws) v fs)).
Proof.
  intros Hdisj. induction fs as [| f fs IH]; intros v; simpl.
  - split; [done |]. intros g Hg. by apply elem_of_nil in Hg.
  - destruct (IH (invalidate ws v f)) as [IH2 IH3].
    pose proof (invalidate_loop_subset ws fs (invalidate ws v f)) as Hsub.
    set (v1 := invalidate ws v f) in *.
    set (v' := foldl (invalidate ws) v1 fs) in *.
    assert (Hremoved : ∀ q, q ∈ v → q ∉ v' →
              ∃ g, g ∈ f :: fs ∧ q ∈ shared_by ws g
                   ∧ ∀ m, m ∈ shared_by ws g → m ∉ v').
    { intros q Hq Hnq. destruct (decide (q ∈ v1)) as [Hq1 | Hq1].
      - destruct (IH2 q Hq1 Hnq) as (g & Hg & Hqg & Hall).
        exists g. split; [by right | done].
      - exists f. split; [by left |].
        destruct (invalidate_cases ws v f) as [[Heq _] | [Heq _]];
          fold v1 in Heq; rewrite Heq in Hq1; [done |].
        split; [set_solver |].
        intros m Hm Hm'. apply Hsub in Hm'. rewrite Heq in Hm'. set_solver. }
    split; [exact Hremoved |].
    intros g Hg. apply elem_of_cons in Hg as [-> | Hg]; [| by apply IH3].
    destruct (invalidate_cases ws v f) as [[Heq Hall] | [Heq _]];
      fold v1 in Heq.
    + destruct (decide (Forall (λ m, m ∈ v') (shared_by ws f))) as [Hin | Hout].
      * left. intros m Hm. rewrite Forall_forall in Hin. by apply Hin.
      * right. apply not_Forall_Exists in Hout; [| apply _].
        apply Exists_exists in Hout as (m0 & Hm0 & Hm0').
        destruct (Hremoved m0 (Hall m0 Hm0) Hm0') as (g & _ & Hm0g & Hnone).
        by rewrite (Hdisj f g m0 Hm0 Hm0g).
    + right. intros m Hm Hm'. apply Hsub in Hm'. rewrite Heq in Hm'. set_solver.
Qed.

Lemma filter_loop_groups (s : State) (ws : gmap string (list nat))
    (op_nodes : list nat) (v valid : gset nat) :
  (∀ f f' q, q ∈ shared_by ws f → q ∈ shared_by ws f' → f = f') →
  (∀ f q, q ∈ shared_by ws f → reads_filter s q f) →
  ofoldl (filter_step s ws) v op_nodes = Ok valid →
  ∀ f p q, p ∈ op_nodes → p ∈ valid →
    p ∈ shared_by ws f → q ∈ shared_by ws f → q ∈ valid.
Proof.
  intros Hdisj Hreads Hrun.
  apply (ofoldl_invariant (filter_step s ws)
           (λ pre acc, ∀ f p q, p ∈ pre → p ∈ acc →
              p ∈ shared_by ws f → q ∈ shared_by ws f → q ∈ acc)
           op_nodes v valid); [| | done].
  - intros f p q Hp. by apply elem_of_nil in Hp.
  - intros pre x a a' Hpre Hstep f p q Hp Hpa Hpf Hqf.
    apply elem_of_app in Hp as [Hp | Hp].
    + apply filter_step_ok in Hstep
        as [[_ ->] | (_ & n & d & fs & _ & _ & _ & ->)]; [by eapply Hpre |].
      pose proof (invalidate_loop_subset ws fs a) as Hsub.
      destruct (invalidate_loop_groups ws Hdisj fs a) as [H2 _].
      assert (Hq : q ∈ a) by (eapply Hpre; eauto).
      destruct (decide (q ∈ foldl (invalidate ws) a fs)) as [| Hnq]; [done |].
      destruct (H2 q Hq Hnq) as (g & _ & Hqg & Hnone).
      rewrite <- (Hdisj f g q Hqf Hqg) in Hnone. by destruct (Hnone p Hpf).
    + apply list_elem_of_singleton in Hp as ->.
      apply filter_step_ok in Hstep
        as [[Hnx ->] | (_ & n & d & fs & Hn & Hd & Hfs & ->)]; [done |].
      destruct (Hreads f x Hpf) as (n' & d' & fs' & Hn' & Hd' & _ & _ & Hfs' & Hf).
      assert (n' = n) as -> by congruence.
      assert (d' = d) as -> by congruence.
      assert (fs' = fs) as -> by congruence.
      destruct (invalidate_loop_groups ws Hdisj fs a) as [_ H3].
      destruct (H3 f Hf) as [Hall | Hnone]; [by apply Hall |].
      by destruct (Hnone x Hpf).
Qed.

(** When no operator names two different filters, so that sharing cannot
    chain, the single pass of the second loop is enough: afterwards the
    operators filed under a filter name are all valid or all erased. *)
Theorem sharing_without_chains_is_consistent (s : State) (op_nodes : list nat)
    (ws : gmap string (list nat)) (valid : gset nat) :
  one_filter_each s op_nodes →
  select_ops use_cutlass s op_nodes = Ok (ws, valid) →
  consistent_sharing ws valid.
Proof.
  intros Hone Hsel.
  pose proof Hsel as Hsel'.
  apply select_ops_inv in Hsel' as (v0 & Hc & Hf).
  pose proof (classify_shared s op_nodes ws v0 Hc) as Hshared.
  assert (Hdisj : ∀ f f' q, q ∈ shared_by ws f → q ∈ shared_by ws f' → f = f').
  { intros f f' q Hq Hq'.
    apply Hshared in Hq as [Hin (n & d & fs & Hn & Hd & _ & _ & Hfs & Hmem)].
    apply Hshared in Hq' as [_ (n' & d' & fs' & Hn' & Hd' & _ & _ & Hfs' & Hmem')].
    assert (n' = n) as -> by congruence.
    assert (d' = d) as -> by congruence.
    assert (fs' = fs) as -> by congruence.
    by eapply Hone. }
  assert (Hreads : ∀ f q, q ∈ shared_by ws f → reads_filter s q f).
  { intros f q Hq. by apply Hshared in Hq as [_ ?]. }
  pose proof (filter_loop_groups s ws op_nodes v0 valid Hdisj Hreads Hf) as Hgroups.
  intros f group Hgroup.
  assert (Hsb : shared_by ws f = group) by (unfold shared_by; by rewrite Hgroup).
  destruct (decide (Exists (λ p, p ∈ valid) group)) as [Hex | Hno].
  - left. apply Exists_exists in Hex as (p & Hp & Hpv).
    intros q Hq. apply (Hgroups f p q); try (by rewrite Hsb); [| done].
    rewrite <- Hsb in Hp. by apply Hshared in Hp as [? _].
  - right. intros p Hp Hpv. apply Hno, Exists_exists. eauto.
Qed.

(** *** What the third loop leaves alone *)

Lemma same_op_refl (d : OpDesc) : same_op d d.
Proof. by repeat split. Qed.

Lemma same_op_trans (d1 d2 d3 : OpDesc) :
  same_op d1 d2 → same_op d2 d3 → same_op d1 d3.
Proof.
  intros (Ht & Ho & Hb & Hi & Ha) (Ht' & Ho' & Hb' & Hi' & Ha').
  split; [congruence |]. split; [congruence |]. split; [congruence |]. split.
  - intros slot. by rewrite Hi', Hi.
  - intros key ? ? ?. rewrite Ha', Ha; done.
Qed.

Lemma same_identity_refl (n : Node) : same_identity n n.
Proof.
  split; [done |]. destruct (desc n); [apply same_op_refl | done].
Qed.

Lemma same_identity_trans (n1 n2 n3 : Node) :
  same_identity n1 n2 → same_identity n2 n3 → same_identity n1 n3.
Proof.
  intros [Hn H12] [Hn' H23]. split; [congruence |].
  destruct (desc n1), (desc n2), (desc n3); try done.
  - by eapply same_op_trans.
  - destruct H12 as (? & ? & ?), H23 as (? & ? & ?). repeat split; congruence.
Qed.

Lemma same_attrs_refl (n : Node) : same_attrs n n.
Proof. unfold same_attrs. by destruct (desc n). Qed.

Lemma same_attrs_trans (n1 n2 n3 : Node) :
  same_identity n1 n2 → same_attrs n1 n2 → same_attrs n2 n3 → same_attrs n1 n3.
Proof.
  intros [_ Hk]. unfold same_attrs.
  destruct (desc n1), (desc n2), (desc n3); try done. congruence.
Qed.

Lemma same_identity_created (n n' : Node) :
  same_identity n n' → created n → created n'.
Proof.
  intros [_ Hk]. unfold created.
  destruct (desc n), (desc n'); try done. destruct Hk as (-> & _). done.
Qed.

Lemma TransDataLayout_layout (from to : DataLayout) (t t' : DenseTensor) :
  TransDataLayout from to t = Ok t' → layout t' = to.
Proof.
  unfold TransDataLayout.
  destruct (dims t) as [| n [| c [| h [| w [| ? ?]]]]]; try done.
  repeat case_decide; intros [= <-]; done.
Qed.

Lemma converted_once_trans (sc1 sc2 sc3 : gmap string DenseTensor) (x : string) :
  converted_once sc1 sc2 x → converted_once sc2 sc3 x → converted_once sc1 sc3 x.
Proof.
  intros [H12 | (t & t' & H1 & Hl & Hc & H2)] [H23 | (u & u' & H2' & Hl' & Hc' & H3)].
  - left. congruence.
  - right. exists u, u'. rewrite <- H12. done.
  - right. exists t, t'. rewrite H23. done.
  - apply TransDataLayout_layout in Hc. congruence.
Qed.

Lemma conserved_refl (E : gset nat) (s : State) : conserved E s s.
Proof.
  split.
  - intros q n Hq. exists n. split; [done |].
    split; [apply same_identity_refl | intros _; apply same_attrs_refl].
  - intros q n' Hq Hle. apply lookup_lt_Some in Hq. lia.
  - intros x. by left.
  - split; [done |]. intros b vars Hb. by exists vars.
  - done.
Qed.

Lemma conserved_trans (E : gset nat) (s1 s2 s3 : State) :
  conserved E s1 s2 → conserved E s2 s3 → conserved E s1 s3.
Proof.
  intros [Hn Hc Hs Hb Hv] [Hn' Hc' Hs' Hb' Hv']. split.
  - intros q n Hq.
    destruct (Hn q n Hq) as (n2 & Hq2 & Hi2 & Ha2).
    destruct (Hn' q n2 Hq2) as (n3 & Hq3 & Hi3 & Ha3).
    exists n3. split; [done |]. split; [by eapply same_identity_trans |].
    intros HE. eapply same_attrs_trans; eauto.
  - intros q n3 Hq3 Hle.
    destruct (decide (length (nodes s2) ≤ q)%nat) as [Hnew | Hold].
    + by eapply Hc'.
    + destruct (lookup_lt_is_Some_2 (nodes s2) q ltac:(lia)) as [n2 Hq2].
      destruct (Hn' q n2 Hq2) as (n3' & Hq3' & Hi3 & _).
      assert (n3' = n3) as -> by congruence.
      eapply same_identity_created; [exact Hi3 |]. by eapply Hc.
  - intros x. by eapply converted_once_trans.
  - destruct Hb as [Hl Hb], Hb' as [Hl' Hb']. split; [congruence |].
    intros b vars Hbv. destruct (Hb b vars Hbv) as (vars2 & Hb2 & Hd2).
    destruct (Hb' b vars2 Hb2) as (vars3 & Hb3 & Hd3).
    exists vars3. split; [done | set_solver].
  - set_solver.
Qed.

Lemma conserved_mono (E E' : gset nat) (s s' : State) :
  E ⊆ E' → conserved E s s' → conserved E' s s'.
Proof.
  intros HE [Hn Hc Hs Hb Hv]. split; try done.
  intros q n Hq. destruct (Hn q n Hq) as (n' & Hq' & Hi & Ha).
  exists n'. split; [done |]. split; [done |]. intros Hnot. apply Ha. set_solver.
Qed.

(** The combinators of the monad. *)
Lemma conservative_ret (E : gset nat) {A} (a : A) : conservative E (ret a).
Proof. intros s r s' [= <- <-]. apply conserved_refl. Qed.

Lemma conservative_raise (E : gset nat) {A} (e : Error) :
  conservative E (raise (A := A) e).
Proof. intros s r s' [= <- <-]. apply conserved_refl. Qed.

Lemma conservative_read (E : gset nat) {A} (f : State → outcome A) :
  conservative E (read f).
Proof. intros s r s' [= <- <-]. apply conserved_refl. Qed.

Lemma conservative_lift (E : gset nat) {A} (o : outcome A) :
  conservative E (lift o).
Proof. intros s r s' [= <- <-]. apply conserved_refl. Qed.

Lemma conservative_modify (E : gset nat) (f : State → State) :
  (∀ s, conserved E s (f s)) → conservative E (modify f).
Proof. intros Hf s r s' [= <- <-]. apply Hf. Qed.

Lemma conservative_bind (E : gset nat) {A B} (m : M A) (k : A → M B) :
  conservative E m → (∀ a, conservative E (k a)) → conservative E (bind m k).
Proof.
  intros Hm Hk s r s' H.
  apply bind_inv in H as [(a & s1 & Hma & Hka) | (e & Hme & ->)].
  - eapply conserved_trans; [by eapply Hm | by eapply Hk].
  - by eapply Hm.
Qed.

Lemma conservative_when (E : gset nat) (b : bool) (m : M unit) :
  conservative E m → conservative E (when b m).
Proof. intros Hm. destruct b; [done | apply conservative_ret]. Qed.

Lemma conservative_for_each (E : gset nat) {A} (l : list A) (body : A → M unit) :
  (∀ y, conservative E (body y)) → conservative E (for_each l body).
Proof.
  intros Hbody. induction l as [| y l IH]; simpl.
  - apply conservative_ret.
  - apply conservative_bind; [apply Hbody | intros _; apply IH].
Qed.

Lemma conservative_mono (E E' : gset nat) {A} (m : M A) :
  E ⊆ E' → conservative E m → conservative E' m.
Proof. intros HE Hm s r s' H. eapply conserved_mono; [done | by eapply Hm]. Qed.

(** The writes of the pass. *)
Lemma conserved_alter (E : gset nat) (s : State) (p : nat) (f : Node → Node) :
  (∀ n, same_identity n (f n)) →
  p ∈ E ∨ (∀ n, same_attrs n (f n)) →
  conserved E s (set_nodes (alter f p (nodes s)) s).
Proof.
  intros Hf Ha. split; simpl.
  - intros q n Hq. destruct (decide (q = p)) as [-> | Hne].
    + exists (f n). rewrite list_lookup_alter_eq, Hq. split; [done |].
      split; [apply Hf |]. intros HE. destruct Ha as [? | Ha]; [done | apply Ha].
    + exists n. rewrite list_lookup_alter_ne by done. split; [done |].
      split; [apply same_identity_refl | intros _; apply same_attrs_refl].
  - intros q n' Hq Hle. apply lookup_lt_Some in Hq. rewrite length_alter in Hq. lia.
  - intros x. by left.
  - split; [done |]. intros b vars Hb. by exists vars.
  - done.
Qed.

Lemma conserved_append (E : gset nat) (s : State) (n : Node) :
  created n → conserved E s (set_nodes (nodes s ++ [n]) s).
Proof.
  intros Hn. split; simpl.
  - intros q m Hq. exists m. split; [by apply lookup_app_l_Some |].
    split; [apply same_identity_refl | intros _; apply same_attrs_refl].
  - intros q n' Hq Hle. apply lookup_app_Some in Hq as [Hq | [_ Hq]].
    + apply lookup_lt_Some in Hq. lia.
    + apply list_lookup_singleton_Some in Hq as [_ <-]. done.
  - intros x. by left.
  - split; [done |]. intros b vars Hb. by exists vars.
  - done.
Qed.

Lemma conserved_set_blocks (E : gset nat) (s : State) (bs : list BlockDesc) :
  length bs = length (blocks s) →
  (∀ b vars, blocks s !! b = Some vars →
     ∃ vars', bs !! b = Some vars' ∧ dom vars ⊆ dom vars') →
  conserved E s (set_blocks bs s).
Proof.
  intros Hl Hb. split; simpl; try done.
  - intros q n Hq. exists n. split; [done |].
    split; [apply same_identity_refl | intros _; apply same_attrs_refl].
  - intros q n' Hq Hle. apply lookup_lt_Some in Hq. lia.
  - intros x. by left.
Qed.

Lemma conserved_set_scope (E : gset nat) (s : State) (f : string)
    (t t' : DenseTensor) :
  scope s !! f = Some t → layout t ≠ kNHWC →
  TransDataLayout kNCHW kNHWC t = Ok t' →
  conserved E s (set_scope (<[f := t']> (scope s)) s).
Proof.
  intros Hf Hl Hc. split; simpl; try done.
  - intros q n Hq. exists n. split; [done |].
    split; [apply same_identity_refl | intros _; apply same_attrs_refl].
  - intros q n' Hq Hle. apply lookup_lt_Some in Hq. lia.
  - intros x. destruct (decide (x = f)) as [-> | Hne].
    + right. exists t, t'. by rewrite lookup_insert_eq.
    + left. by rewrite lookup_insert_ne.
  - split; [done |]. intros b vars Hb. by exists vars.
Qed.

Lemma conserved_other (E : gset nat) (s : State) (c : gmap nat nat)
    (v : gset nat) (r : list Request) :
  vars_shape_nhwc s ⊆ v →
  conserved E s (mkState (nodes s) (blocks s) (scope s) c v r).
Proof.
  intros Hv. split; simpl; try done.
  - intros q n Hq. exists n. split; [done |].
    split; [apply same_identity_refl | intros _; apply same_attrs_refl].
  - intros q n' Hq Hle. apply lookup_lt_Some in Hq. lia.
  - intros x. by left.
  - split; [done |]. intros b vars Hb. by exists vars.
Qed.

Lemma same_identity_edges (g : Node → Node) (n : Node) :
  name_ (g n) = name_ n → desc (g n) = desc n → same_identity n (g n).
Proof.
  intros Hn Hd. split; [done |]. rewrite Hd.
  destruct (desc n); [apply same_op_refl | done].
Qed.

Lemma same_attrs_edges (g : Node → Node) (n : Node) :
  desc (g n) = desc n → same_attrs n (g n).
Proof. intros Hd. unfold same_attrs. rewrite Hd. by destruct (desc n). Qed.

Lemma same_identity_map_op (f : OpDesc → OpDesc) (n : Node) :
  (∀ d, same_op d (f d)) → same_identity n (map_op f n).
Proof.
  intros Hf. unfold map_op.
  destruct (desc n) as [d | v] eqn:Hd.
  - split; [done |]. simpl. rewrite Hd. apply Hf.
  - apply same_identity_refl.
Qed.

Lemma same_attrs_map_op (f : OpDesc → OpDesc) (n : Node) :
  (∀ d, attrs_ (f d) = attrs_ d) → same_attrs n (map_op f n).
Proof.
  intros Hf. unfold map_op, same_attrs.
  destruct (desc n) as [d | v] eqn:Hd; simpl; [apply Hf | done].
Qed.

Lemma same_identity_map_var (f : VarDesc → VarDesc) (n : Node) :
  (∀ v, same_var v (f v)) → same_identity n (map_var f n).
Proof.
  intros Hf. unfold map_var.
  destruct (desc n) as [d | v] eqn:Hd.
  - apply same_identity_refl.
  - split; [done |]. simpl. rewrite Hd. apply Hf.
Qed.

Lemma same_attrs_map_var (f : VarDesc → VarDesc) (n : Node) :
  same_attrs n (map_var f n).
Proof.
  unfold map_var, same_attrs. destruct (desc n) as [d | v] eqn:Hd; simpl; [| done].
  by rewrite Hd.
Qed.

Lemma same_op_RenameInput (d : OpDesc) (old new : string) :
  same_op d (RenameInput d old new).
Proof.
  split; [done |]. split; [done |]. split; [done |]. split; [| done].
  intros slot. simpl. rewrite lookup_fmap.
  destruct (inputs_ d !! slot) as [l |]; simpl; [| done].
  unfold replace_name. by rewrite length_fmap.
Qed.

Lemma same_op_SetAttr (d : OpDesc) (key : string) (a : Attribute) :
  key = "fuse_alpha" ∨ key = "use_cudnn" ∨ key = "data_format" →
  same_op d (SetAttr d key a).
Proof.
  intros Hk. split; [done |]. split; [done |]. split; [done |]. split; [done |].
  intros k H1 H2 H3. simpl. apply lookup_insert_ne.
  destruct Hk as [-> | [-> | ->]]; done.
Qed.

Lemma conservative_update_node (E : gset nat) (p : nat) (g : Node → Node) :
  (∀ n, name_ (g n) = name_ n) → (∀ n, desc (g n) = desc n) →
  conservative E (update_node p g).
Proof.
  intros Hn Hd. unfold update_node.
  apply conservative_bind; [apply conservative_read | intros _].
  apply conservative_modify. intros s. apply conserved_alter.
  - intros n. by apply same_identity_edges.
  - right. intros n. by apply same_attrs_edges.
Qed.

Lemma conservative_IR_NODE_LINK_TO (E : gset nat) (a b : nat) :
  conservative E (IR_NODE_LINK_TO a b).
Proof.
  unfold IR_NODE_LINK_TO.
  apply conservative_bind; [| intros _]; by apply conservative_update_node.
Qed.

Lemma conservative_IR_NODE_UNLINK (E : gset nat) (a b : nat) :
  conservative E (IR_NODE_UNLINK a b).
Proof.
  unfold IR_NODE_UNLINK.
  apply conservative_bind; [| intros _]; by apply conservative_update_node.
Qed.

Lemma conservative_rename (E : gset nat) (p : nat) (old new : string) :
  conservative E (update_op p (λ d, RenameInput d old new)).
Proof.
  unfold update_op.
  apply conservative_bind; [apply conservative_read | intros n].
  apply conservative_bind; [apply conservative_lift | intros _].
  apply conservative_modify. intros s. apply conserved_alter.
  - intros m. apply same_identity_map_op. intros d. apply same_op_RenameInput.
  - right. intros m. by apply same_attrs_map_op.
Qed.

Lemma conservative_set_attr (E : gset nat) (p : nat) (key : string) (a : Attribute) :
  p ∈ E →
  key = "fuse_alpha" ∨ key = "use_cudnn" ∨ key = "data_format" →
  conservative E (update_op p (λ d, SetAttr d key a)).
Proof.
  intros Hp Hk. unfold update_op.
  apply conservative_bind; [apply conservative_read | intros n].
  apply conservative_bind; [apply conservative_lift | intros _].
  apply conservative_modify. intros s. apply conserved_alter.
  - intros m. apply same_identity_map_op. intros d. by apply same_op_SetAttr.
  - by left.
Qed.

Lemma conservative_set_shape (E : gset nat) (p : nat) (shp : list Z) :
  conservative E (update_var p (λ v, SetShape v shp)).
Proof.
  unfold update_var.
  apply conservative_bind; [apply conservative_read | intros n].
  apply conservative_bind; [apply conservative_lift | intros _].
  apply conservative_modify. intros s. apply conserved_alter.
  - intros m. by apply same_identity_map_var.
  - right. intros m. apply same_attrs_map_var.
Qed.

Lemma conservative_CreateOpNode (E : gset nat) (d : OpDesc) :
  type_ d = "transfer_layout" → conservative E (CreateOpNode d).
Proof. intros Ht s r s' [= <- <-]. by apply conserved_append. Qed.

Lemma conservative_CreateVarNode (E : gset nat) (d : VarDesc) :
  conservative E (CreateVarNode d).
Proof. intros s r s' [= <- <-]. by apply conserved_append. Qed.

Lemma conservative_BlockVar (E : gset nat) (b : nat) (x : string) :
  conservative E (BlockVar b x).
Proof.
  intros s r s' H. unfold BlockVar in H.
  destruct (blocks s !! b) as [vars |] eqn:Hb;
    [destruct (vars !! x) eqn:Hx |]; simplify_eq; try apply conserved_refl.
  apply conserved_set_blocks; [by rewrite length_insert |].
  intros b' vars' Hb'. destruct (decide (b' = b)) as [-> | Hne].
  - eexists. rewrite list_lookup_insert_eq by by eapply lookup_lt_Some.
    split; [done |]. assert (vars' = vars) as -> by congruence. set_solver.
  - exists vars'. by rewrite list_lookup_insert_ne.
Qed.

Lemma conservative_update_block_var (E : gset nat) (b : nat) (x : string)
    (f : VarDesc → VarDesc) :
  conservative E (update_block_var b x f).
Proof.
  unfold update_block_var.
  apply conservative_bind; [apply conservative_read | intros v].
  apply conservative_modify. intros s.
  apply conserved_set_blocks; [by rewrite length_alter |].
  intros b' vars' Hb'. destruct (decide (b' = b)) as [-> | Hne].
  - eexists. rewrite list_lookup_alter_eq, Hb'. split; [done |]. set_solver.
  - exists vars'. by rewrite list_lookup_alter_ne.
Qed.

Lemma conservative_cache_insert (E : gset nat) (k v : nat) :
  conservative E (cache_insert k v).
Proof. apply conservative_modify. intros s. by apply conserved_other. Qed.

Lemma conservative_log_request (E : gset nat) (rq : Request) :
  conservative E (log_request rq).
Proof. apply conservative_modify. intros s. by apply conserved_other. Qed.

Lemma conservative_record (E : gset nat) (y : nat) :
  conservative E
    (modify (λ s, set_vars_shape_nhwc ({[y]} ∪ vars_shape_nhwc s) s)).
Proof. apply conservative_modify. intros s. apply conserved_other. set_solver. Qed.

Create HintDb conservative.

#[local] Hint Resolve conservative_IR_NODE_LINK_TO conservative_IR_NODE_UNLINK
  conservative_rename conservative_set_shape conservative_CreateVarNode
  conservative_BlockVar conservative_update_block_var conservative_cache_insert
  conservative_log_request conservative_record : conservative.

(** One step through a computation of the pass. *)
Ltac conservative_step :=
  lazymatch goal with
  | |- conservative _ (bind _ _) => apply conservative_bind; [| intros ?]
  | |- conservative _ (ret _) => apply conservative_ret
  | |- conservative _ (raise _) => apply conservative_raise
  | |- conservative _ (read _) => apply conservative_read
  | |- conservative _ (lift _) => apply conservative_lift
  | |- conservative _ (get_node _) => apply conservative_read
  | |- conservative _ (cache_at _) => apply conservative_read
  | |- conservative _ (get_block_var _ _) => apply conservative_read
  | |- conservative _ (when _ _) => apply conservative_when
  | |- conservative _ (for_each _ _) => apply conservative_for_each; intros ?
  | |- conservative _ (if ?b then _ else _) => destruct b
  | |- conservative _ (match ?x with _ => _ end) => destruct x
  | |- conservative _ _ => solve [eauto with conservative]
  end.

Lemma conservative_create_transfer (E : gset nat) (prev b : nat)
    (from_layout to_layout : DataLayout) (in_var_name out_var_name : string) :
  conservative E (create_transfer layout_int prev from_layout to_layout b
                                  in_var_name out_var_name).
Proof.
  unfold create_transfer.
  apply conservative_bind; [by apply conservative_CreateOpNode | intros ?].
  repeat conservative_step.
Qed.

Lemma conservative_relink (E : gset nat) (prev next : nat) :
  conservative E (relink prev next).
Proof. unfold relink. repeat conservative_step. Qed.

Lemma conservative_InsertLayoutTransOp (E : gset nat) (prev next : nat)
    (from_layout to_layout : DataLayout) (block_desc : option nat) :
  conservative E (InsertLayoutTransOp layout_int prev next from_layout to_layout
                                      block_desc).
Proof.
  pose proof conservative_create_transfer. pose proof conservative_relink.
  unfold InsertLayoutTransOp, do_insert. repeat conservative_step.
Qed.

Lemma conservative_commit_attrs (x : nat) :
  conservative {[x]} (commit_attrs use_cutlass x).
Proof.
  assert (∀ key a, key = "fuse_alpha" ∨ key = "use_cudnn" ∨ key = "data_format" →
            conservative {[x]} (update_op x (λ d, SetAttr d key a))).
  { intros. apply conservative_set_attr; [set_solver | done]. }
  unfold commit_attrs. repeat conservative_step.
Qed.

Lemma conservative_permute_filter_var (E : gset nat) (f : string) (y : nat) :
  conservative E (permute_filter_var f y).
Proof. unfold permute_filter_var. repeat conservative_step. Qed.

Lemma conservative_transfer_weight (E : gset nat) (x : nat) (f : string) :
  conservative E (transfer_weight x f).
Proof.
  intros s r s' H. unfold transfer_weight in H.
  apply bind_inv in H as [(t & s1 & Hm & H) | (e & Hm & ->)];
    apply read_inv in Hm as [-> Ht]; [| apply conserved_refl].
  assert (Hf : scope s !! f = Some t).
  { unfold FindLocalVar in Ht. by destruct (scope s !! f); simplify_eq. }
  destruct (decide (layout t = kNHWC)) as [| Hl].
  { unfold ret in H. simplify_eq. apply conserved_refl. }
  apply bind_inv in H as [(t' & s1 & Hm & H) | (e & Hm & ->)];
    apply lift_inv in Hm as [-> Hc]; [| apply conserved_refl].
  apply bind_inv in H as [([] & s1 & Hm & H) | (e & Hm & ->)];
    unfold modify in Hm; simplify_eq.
  eapply conserved_trans; [by eapply conserved_set_scope |].
  revert H. generalize (set_scope (<[f:=t']> (scope s)) s). intros s1 H.
  assert (Hrest : conservative E
            (let* n := get_node x in for_each (inputs n) (permute_filter_var f))).
  { pose proof conservative_permute_filter_var. repeat conservative_step. }
  by eapply Hrest.
Qed.

Lemma conservative_transfer_output (E : gset nat) (y : nat) :
  conservative E (transfer_output y).
Proof. unfold transfer_output. repeat conservative_step. Qed.

Lemma conservative_transfer_input (E : gset nat) (block_desc : option nat)
    (x y : nat) :
  conservative E (transfer_input layout_int block_desc x y).
Proof.
  pose proof conservative_InsertLayoutTransOp.
  unfold transfer_input. repeat conservative_step.
Qed.

Lemma conservative_restore_input (E : gset nat) (block_desc : option nat)
    (x y : nat) :
  conservative E (restore_input layout_int block_desc x y).
Proof.
  pose proof conservative_InsertLayoutTransOp.
  unfold restore_input. repeat conservative_step.
Qed.

(** Committing an operator edits no attribute of another operator, and
    none at all when the operator is not valid. *)
Lemma conservative_commit_step (valid_ops : gset nat) (block_desc : option nat)
    (x : nat) :
  conservative valid_ops
    (commit_step layout_int use_cutlass valid_ops block_desc x).
Proof.
  pose proof conservative_transfer_weight. pose proof conservative_transfer_output.
  pose proof conservative_transfer_input. pose proof conservative_restore_input.
  unfold commit_step.
  apply conservative_bind; [apply conservative_read | intros n].
  destruct (negb (IsOp n)); [apply conservative_raise |].
  destruct (bool_decide (x ∈ valid_ops)) eqn:Hx.
  - apply bool_decide_eq_true in Hx.
    apply (conservative_mono {[x]}); [set_solver |].
    apply conservative_bind; [apply conservative_commit_attrs | intros _].
    repeat conservative_step.
  - repeat conservative_step.
Qed.

(** From the world that the pass is given to the one that it leaves,
    whatever the outcome: the pass aborts in the initial state, or the
    third loop has ended or aborted and the outcome is that of the loop. *)
Lemma ApplyImpl_inv (w : World) (g : Graph) :
  w_graph w = Some g →
  ∃ s' : State,
    nodes_after (ApplyImpl layout_int use_cutlass TopologySortOperations w) = nodes s'
    ∧ scope_after (ApplyImpl layout_int use_cutlass TopologySortOperations w) = scope s'
    ∧ w_blocks (snd (ApplyImpl layout_int use_cutlass TopologySortOperations w))
      = blocks s'
    ∧ ((s' = initial_state g (default ∅ (g_param_scope g)) (w_blocks w)
        ∧ ∃ e, fst (ApplyImpl layout_int use_cutlass TopologySortOperations w)
               = Raise e)
       ∨ ∃ ws valid_ops block_desc r,
           select_ops use_cutlass
             (initial_state g (default ∅ (g_param_scope g)) (w_blocks w))
             (TopologySortOperations (g_nodes g)) = Ok (ws, valid_ops)
           ∧ for_each (TopologySortOperations (g_nodes g))
               (commit_step layout_int use_cutlass valid_ops block_desc)
               (initial_state g (default ∅ (g_param_scope g)) (w_blocks w))
             = (r, s')
           ∧ fst (ApplyImpl layout_int use_cutlass TopologySortOperations w)
             = (let? _ := r in Ok (size valid_ops))%outcome).
Proof.
  intros Hg.
  set (s0 := initial_state g (default ∅ (g_param_scope g)) (w_blocks w)).
  assert (Hstay : ∀ e,
            ApplyImpl layout_int use_cutlass TopologySortOperations w = (Raise e, w) →
            ∃ s' : State,
              nodes_after (ApplyImpl layout_int use_cutlass TopologySortOperations w)
              = nodes s'
              ∧ scope_after (ApplyImpl layout_int use_cutlass TopologySortOperations w)
                = scope s'
              ∧ w_blocks (snd (ApplyImpl layout_int use_cutlass TopologySortOperations w))
                = blocks s'
              ∧ ((s' = s0
                  ∧ ∃ e, fst (ApplyImpl layout_int use_cutlass TopologySortOperations w)
                         = Raise e)
                 ∨ ∃ ws valid_ops block_desc r,
                     select_ops use_cutlass s0 (TopologySortOperations (g_nodes g))
                     = Ok (ws, valid_ops)
                     ∧ for_each (TopologySortOperations (g_nodes g))
                         (commit_step layout_int use_cutlass valid_ops block_desc) s0
                       = (r, s')
                     ∧ fst (ApplyImpl layout_int use_cutlass TopologySortOperations w)
                       = (let? _ := r in Ok (size valid_ops))%outcome)).
  { intros e ->. exists s0. unfold nodes_after, scope_after. simpl. rewrite Hg.
    split; [done |]. split; [done |]. split; [done |]. left. eauto. }
  unfold ApplyImpl in *. rewrite Hg in *.
  destruct (g_main g) eqn:Hmain; simpl in *; [| by eapply Hstay].
  destruct (g_param_scope g) as [sc |] eqn:Hsc; simpl in *; [| by eapply Hstay].
  destruct (TopologySortOperations (g_nodes g)) as [| first rest] eqn:Hops;
    [by eapply Hstay |].
  clear Hstay. fold s0.
  destruct ((let* n := get_node first in
             let* d := lift (Op n) in
             run_loops layout_int use_cutlass (first :: rest) (block_ d)) s0)
    as [r s'] eqn:Hrun.
  exists s'. split; [done |]. split; [done |]. split; [done |]. simpl.
  apply bind_inv in Hrun as [(n & s1 & Hm & Hrun) | (e & Hm & ->)];
    apply get_node_inv in Hm as [-> _]; [| left; eauto].
  apply bind_inv in Hrun as [(d & s1 & Hm & Hrun) | (e & Hm & ->)];
    apply lift_inv in Hm as [-> _]; [| left; eauto].
  unfold run_loops in Hrun.
  apply bind_inv in Hrun as [([ws valid] & s1 & Hm & Hrun) | (e & Hm & ->)];
    apply read_inv in Hm as [-> Hsel]; [| left; eauto].
  right. exists ws, valid, (block_ d). simpl in Hrun.
  apply bind_inv in Hrun as [([] & s1 & Hm & Hrun) | (e & Hm & ->)].
  - unfold ret in Hrun. simplify_eq. exists (Ok tt). done.
  - exists (Raise e). done.
Qed.

Lemma ApplyImpl_conserved (w : World) (g : Graph) :
  w_graph w = Some g →
  ∃ (valid_ops : gset nat) (s' : State),
    nodes_after (ApplyImpl layout_int use_cutlass TopologySortOperations w) = nodes s'
    ∧ scope_after (ApplyImpl layout_int use_cutlass TopologySortOperations w) = scope s'
    ∧ w_blocks (snd (ApplyImpl layout_int use_cutlass TopologySortOperations w))
      = blocks s'
    ∧ conserved valid_ops
        (initial_state g (default ∅ (g_param_scope g)) (w_blocks w)) s'
    ∧ (valid_ops = ∅
       ∨ ∃ ws, select_ops use_cutlass
                 (initial_state g (default ∅ (g_param_scope g)) (w_blocks w))
                 (TopologySortOperations (g_nodes g)) = Ok (ws, valid_ops)).
Proof.
  intros Hg.
  destruct (ApplyImpl_inv w g Hg)
    as (s' & Hn & Hs & Hb & [[-> _] | (ws & valid & block & r & Hsel & Hrun & _)]).
  - exists ∅, (initial_state g (default ∅ (g_param_scope g)) (w_blocks w)).
    repeat (split; [done |]).
    split; [apply conserved_refl | by left].
  - exists valid, s'. repeat (split; [done |]). split.
    + revert Hrun. apply conservative_for_each. intros x.
      apply conservative_commit_step.
    + right. eauto.
Qed.

(** Whatever the outcome of the pass, every node of the graph is still
    there under its name and with its kind; an operator has its type, its
    outputs, its block, as many names in every input slot and the
    attributes it had, [fuse_alpha], [use_cudnn] and [data_format] apart; a
    variable has its name, its data type and its persistability. *)
Theorem nodes_keep_their_identity (w : World) (g : Graph) (q : nat) (n : Node) :
  w_graph w = Some g → g_nodes g !! q = Some n →
  ∃ n', nodes_after (ApplyImpl layout_int use_cutlass TopologySortOperations w) !! q
        = Some n'
        ∧ same_identity n n'.
Proof.
  intros Hg Hq.
  destruct (ApplyImpl_conserved w g Hg) as (valid & s' & -> & _ & _ & Hcons & _).
  destruct (cs_nodes _ _ _ Hcons q n Hq) as (n' & Hq' & Hid & _). eauto.
Qed.

(** Whatever the outcome of the pass, a node that it has added to the
    graph is a [transfer_layout] operator or a variable. *)
Theorem added_nodes_are_conversions (w : World) (g : Graph) (q : nat) (n' : Node) :
  w_graph w = Some g →
  nodes_after (ApplyImpl layout_int use_cutlass TopologySortOperations w) !! q
  = Some n' →
  (length (g_nodes g) ≤ q)%nat →
  created n'.
Proof.
  intros Hg Hq Hle.
  destruct (ApplyImpl_conserved w g Hg) as (valid & s' & Hn & _ & _ & Hcons & _).
  rewrite Hn in Hq. by eapply (cs_created _ _ _ Hcons).
Qed.

(** Whatever the outcome of the pass, every tensor of the scope is the one
    it was or the result of one conversion to NHWC of a tensor that was not
    tagged NHWC: no tensor is converted twice, however many operators name
    it as a filter. *)
Theorem tensors_are_converted_at_most_once (w : World) (g : Graph) (x : string) :
  w_graph w = Some g →
  converted_once (default ∅ (g_param_scope g))
    (scope_after (ApplyImpl layout_int use_cutlass TopologySortOperations w)) x.
Proof.
  intros Hg.
  destruct (ApplyImpl_conserved w g Hg) as (valid & s' & _ & -> & _ & Hcons & _).
  apply (cs_scope _ _ _ Hcons x).
Qed.

(** Whatever the outcome of the pass, an operator that the first two
    loops do not select, be it ineligible or erased for a filter that it
    shares, has the attributes it had. *)
Theorem unselected_operators_keep_their_attributes (w : World) (g : Graph)
    (q : nat) (n : Node) (d : OpDesc) :
  w_graph w = Some g → g_nodes g !! q = Some n → desc n = NOp d →
  (∀ ws valid_ops,
     select_ops use_cutlass
       (initial_state g (default ∅ (g_param_scope g)) (w_blocks w))
       (TopologySortOperations (g_nodes g)) = Ok (ws, valid_ops) →
     q ∉ valid_ops) →
  ∃ n' d',
    nodes_after (ApplyImpl layout_int use_cutlass TopologySortOperations w) !! q
    = Some n'
    ∧ desc n' = NOp d' ∧ attrs_ d' = attrs_ d.
Proof.
  intros Hg Hq Hd Hnot.
  destruct (ApplyImpl_conserved w g Hg) as (valid & s' & -> & _ & _ & Hcons & Hsel).
  destruct (cs_nodes _ _ _ Hcons q n Hq) as (n' & Hq' & [_ Hid] & Hattrs).
  assert (Hq_valid : q ∉ valid).
  { destruct Hsel as [-> | [ws Hsel]]; [set_solver | by eapply Hnot]. }
  specialize (Hattrs Hq_valid). unfold same_attrs in Hattrs.
  rewrite Hd in Hid, Hattrs. destruct (desc n') as [d' |] eqn:Hd'; [| done].
  eauto.
Qed.

(** Whatever the outcome of the pass, there are as many blocks as before
    and every variable of a block is still declared in it. *)
Theorem block_variables_are_never_removed (w : World) (b : nat) (vars : BlockDesc) :
  w_blocks w !! b = Some vars →
  length (w_blocks (snd (ApplyImpl layout_int use_cutlass TopologySortOperations w)))
  = length (w_blocks w)
  ∧ ∃ vars',
      w_blocks (snd (ApplyImpl layout_int use_cutlass TopologySortOperations w)) !! b
      = Some vars'
      ∧ dom vars ⊆ dom vars'.
Proof.
  intros Hb. destruct (w_graph w) as [g |] eqn:Hg.
  - destruct (ApplyImpl_conserved w g Hg) as (valid & s' & _ & _ & -> & Hcons & _).
    destruct (cs_blocks _ _ _ Hcons) as [Hl Hbs]. split; [done |].
    by apply Hbs.
  - unfold ApplyImpl. rewrite Hg. simpl. split; [done |]. by exists vars.
Qed.

(** *** The edges that the pass leaves alone *)

Lemma kept_refl (ns : list Node) : kept ns ns.
Proof. intros q n Hq. by exists n. Qed.

Lemma kept_trans (ns1 ns2 ns3 : list Node) :
  kept ns1 ns2 → kept ns2 ns3 → kept ns1 ns3.
Proof.
  intros H12 H23 q n Hq.
  destruct (H12 q n Hq) as (n2 & Hq2 & Hk2 & Hi2 & Ho2).
  destruct (H23 q n2 Hq2) as (n3 & Hq3 & Hk3 & Hi3 & Ho3).
  exists n3. split; [done |]. split; [congruence |].
  split; intros Hk.
  - rewrite Hi3, Hi2; congruence.
  - rewrite Ho3, Ho2; congruence.
Qed.

Lemma rewired_kept (n0 x : nat) (ns ns' : list Node) :
  rewired n0 x ns ns' → kept ns ns'.
Proof.
  intros [_ Hr] q n Hq. destruct (Hr q n Hq) as (n' & Hq' & Hk & Hi & Ho).
  exists n'. split; [done |]. split; [done |]. split; [done |].
  intros Hop. by destruct (Ho Hop).
Qed.

Lemma commit_loop_kept (valid_ops : gset nat) (block_desc : option nat)
    (op_nodes : list nat) (s0 s' : State) (r : outcome unit) :
  cache s0 = ∅ →
  for_each op_nodes (commit_step layout_int use_cutlass valid_ops block_desc) s0
  = (r, s') →
  kept (nodes s0) (nodes s').
Proof.
  intros Hc Hrun.
  set (I := λ s : State,
         cache_wf (length (nodes s0)) s
         ∧ (length (nodes s0) ≤ length (nodes s))%nat
         ∧ kept (nodes s0) (nodes s)).
  assert (Hend : I s'); [| by destruct Hend as (_ & _ & ?)].
  eapply (for_each_invariant I); [| | exact Hrun].
  - intros x s r1 s1 _ (Hwf & Hlen & Hk) Hstep.
    destruct (nodes s !! x) as [n |] eqn:Hx.
    + destruct (commit_step_tracked layout_int use_cutlass (length (nodes s0)) x
                  valid_ops block_desc n s s1 r1 Hwf Hlen Hx Hstep)
        as [Hrew Hwf1 _ _ _].
      split; [auto |]. split; [destruct Hrew; lia |].
      eapply kept_trans; [exact Hk | by eapply rewired_kept].
    + unfold commit_step in Hstep.
      apply bind_inv in Hstep as [(n & s2 & Hm & _) | (e & Hm & _)];
        apply get_node_inv in Hm as [-> Hm]; [congruence | done].
  - split; [| split; [done | apply kept_refl]].
    intros p cv Hp. rewrite Hc in Hp. by rewrite lookup_empty in Hp.
Qed.

(** Whatever the outcome of the pass, every node of the graph is still
    there and of its kind; a variable has the inputs it had, so that no
    variable gets another producer, and an operator has the outputs it had:
    the conversions are put on the input side of the operators only. *)
Theorem producers_and_outputs_are_kept (w : World) (g : Graph) (q : nat) (n : Node) :
  w_graph w = Some g → g_nodes g !! q = Some n →
  ∃ n', nodes_after (ApplyImpl layout_int use_cutlass TopologySortOperations w) !! q
        = Some n'
        ∧ IsOp n' = IsOp n
        ∧ (IsOp n = false → inputs n' = inputs n)
        ∧ (IsOp n = true → outputs n' = outputs n).
Proof.
  intros Hg Hq.
  destruct (ApplyImpl_inv w g Hg)
    as (s' & -> & _ & _ & [[-> _] | (ws & valid & block & r & _ & Hrun & _)]).
  - by exists n.
  - apply (commit_loop_kept valid block _ _ s' r) in Hrun; [| done].
    by apply Hrun.
Qed.

(** *** Graphs on which the analysis runs through *)

Lemma cudnn_filters_total (sc : gmap string DenseTensor) (fs : list string) :
  (∀ f, f ∈ fs → ∃ t, sc !! f = Some t ∧ length (dims t) = 4%nat) →
  ∃ b, cudnn_filters sc fs = Ok b.
Proof.
  induction fs as [| f fs IH]; intros Hfs; simpl; [eauto |].
  destruct (Hfs f ltac:(by left)) as (t & Ht & Hrank).
  unfold FindLocalVar. rewrite Ht. simpl.
  rewrite bool_decide_eq_true_2 by done. simpl.
  destruct (dims t) as [| d0 [| d1 rest]]; try done. simpl.
  destruct (negb _); [eauto |].
  apply IH. intros; apply Hfs; by right.
Qed.

Lemma classify_step_total (s : State) (acc : gmap string (list nat) * gset nat)
    (p : nat) :
  analysable s p → ∃ acc', classify_step use_cutlass s acc p = Ok acc'.
Proof.
  intros (n & d & Hn & Hd & Htarget).
  unfold classify_step, node_at. rewrite Hn. simpl.
  unfold IsOp, Op. rewrite Hd. simpl.
  destruct (decide (type_ d ≠ target_op_type)) as [| Ht]; [eauto |].
  apply dec_stable in Ht. destruct (Htarget Ht) as [Hfmt Hnchw].
  unfold GetAttrIfExists_string.
  destruct Hfmt as [Hfmt | [fmt Hfmt]]; rewrite Hfmt; simpl.
  { eauto. }
  destruct (decide (fmt ≠ "NCHW")) as [| Hf]; [eauto |].
  apply dec_stable in Hf. subst fmt.
  destruct (Hnchw Hfmt) as [(fs & Hfs & Htensors) Hcudnn].
  unfold Input. rewrite Hfs. simpl.
  unfold cuDNNIsValid, node_at, Op, Input. rewrite Hn. simpl. rewrite Hd. simpl.
  rewrite Hfs. simpl.
  destruct (cudnn_filters_total (scope s) fs Htensors) as [b ->]. simpl.
  destruct b; simpl; [eauto |].
  unfold CutlassIsValid, node_at, Op. rewrite Hn. simpl. rewrite Hd. simpl.
  unfold HasAttr, GetAttrIfExists_bool.
  destruct Hcudnn as [Hc | [b Hc]]; rewrite Hc.
  - rewrite bool_decide_eq_false_2 by (by intros [? ?]). simpl. eauto.
  - rewrite bool_decide_eq_true_2 by eauto. simpl. eauto.
Qed.

Lemma filter_step_total (s : State) (ws : gmap string (list nat)) (v : gset nat)
    (p : nat) :
  analysable s p → (p ∈ v → eligible use_cutlass s p) →
  ∃ v', filter_step s ws v p = Ok v'.
Proof.
  intros (n & d & Hn & Hd & Htarget) Hel.
  unfold filter_step, node_at. rewrite Hn. simpl.
  unfold IsOp, Op. rewrite Hd. simpl.
  destruct (bool_decide (p ∈ v)) eqn:Hp; [| eauto].
  apply bool_decide_eq_true in Hp.
  destruct (Hel Hp) as (n' & d' & Hn' & Hd' & Ht & Hfmt & _).
  assert (n' = n) as -> by congruence.
  assert (d' = d) as -> by congruence.
  destruct (Htarget Ht) as [_ Hnchw].
  destruct (Hnchw Hfmt) as [(fs & Hfs & _) _].
  unfold Input. rewrite Hfs. simpl. eauto.
Qed.

Lemma ofoldl_total {A B} (f : A → B → outcome A) (P : A → Prop) (l : list B) :
  (∀ a x, x ∈ l → P a → ∃ a', f a x = Ok a' ∧ P a') →
  ∀ a, P a → ∃ a', ofoldl f a l = Ok a'.
Proof.
  induction l as [| x l IH]; intros Hf a Ha; simpl; [eauto |].
  destruct (Hf a x ltac:(by left) Ha) as (a1 & -> & Ha1). simpl.
  apply IH; [| done]. intros a2 y Hy. apply Hf. by right.
Qed.

Lemma select_ops_total (s : State) (op_nodes : list nat) :
  (∀ p, p ∈ op_nodes → analysable s p) →
  ∃ ws valid, select_ops use_cutlass s op_nodes = Ok (ws, valid).
Proof.
  intros Hops. unfold select_ops.
  destruct (ofoldl_total (classify_step use_cutlass s) (λ _, True) op_nodes)
    with (a := (∅ : gmap string (list nat), ∅ : gset nat))
    as [[ws v0] Hc]; [| done |].
  { intros a x Hx _. destruct (classify_step_total s a x (Hops x Hx)) as [a' ->].
    eauto. }
  rewrite Hc. simpl.
  destruct (ofoldl_total (filter_step s ws)
              (λ v, ∀ p, p ∈ v → eligible use_cutlass s p) op_nodes)
    with (a := v0) as [valid Hf].
  - intros v x Hx Hv.
    destruct (filter_step_total s ws v x (Hops x Hx) (Hv x)) as [v' Hstep].
    exists v'. split; [done |]. intros p Hp. apply Hv.
    apply filter_step_ok in Hstep as [[_ ->] | (_ & n & d & fs & _ & _ & _ & ->)];
      [done |].
    by apply (invalidate_loop_subset ws fs v).
  - intros p Hp. by destruct (classify_valid_sound s op_nodes ws v0 Hc p Hp).
  - rewrite Hf. simpl. eauto.
Qed.

(** The first two loops run through on a graph whose sorted operators are
    operator nodes that carry what the loops read: they return the index
    of shared filters and the set of operators to commit. *)
Theorem analysis_runs_through (s : State) (op_nodes : list nat) :
  (∀ p, p ∈ op_nodes → analysable s p) →
  ∃ ws valid, select_ops use_cutlass s op_nodes = Ok (ws, valid).
Proof. apply select_ops_total. Qed.

(** *** Requests that do not follow the pattern of the third loop *)

(** A request for a producer whose conversion exists is served by that
    conversion, whatever direction it names: after a first request from
    [from1] to [to1] and a second one from [from2] to [to2], the second has
    created no node, no block variable and no cache entry, and both
    consumers read the output [cv] of the one conversion from [from1] to
    [to1]: [cv] is among their inputs, and in their input slots every
    reference to the producer's name has become the name of [cv]. *)
Theorem cached_conversion_serves_any_direction (s : State) (prev c1 c2 b b' : nat)
    (from1 to1 from2 to2 : DataLayout) (vars : BlockDesc)
    (pn n1 n2 : Node) (pv : VarDesc) (d1 d2 : OpDesc) (shp : list Z) :
  valid_direction from1 to1 → valid_direction from2 to2 →
  blocks s !! b = Some vars →
  cache s !! prev = None →
  nodes s !! prev = Some pn → desc pn = NVar pv →
  transfer_shape from1 (var_shape pv) = Ok shp →
  nodes s !! c1 = Some n1 → desc n1 = NOp d1 →
  nodes s !! c2 = Some n2 → desc n2 = NOp d2 →
  c1 ≠ c2 →
  ∃ s1 s2,
    InsertLayoutTransOp layout_int prev c1 from1 to1 (Some b) s = (Ok tt, s1)
    ∧ InsertLayoutTransOp layout_int prev c2 from2 to2 (Some b') s1 = (Ok tt, s2)
    ∧ blocks s2 = blocks s1
    ∧ length (nodes s2) = length (nodes s1)
    ∧ cache s2 = cache s1
    ∧ served s prev
        (update_op_desc layout_int from1 to1
           (mkOpDesc "" ∅ ∅ ∅ (Some b)) (var_name pv)
           (var_name pv +:+ direction_suffix from1))
        (out_var_desc vars (var_name pv +:+ direction_suffix from1)
                      (var_dtype pv) shp)
        (name_ pn) [c1; c2] s2
    ∧ ∃ cv varn n1' n2' d1' d2',
        cache s2 !! prev = Some cv ∧ nodes s2 !! cv = Some varn
        ∧ nodes s2 !! c1 = Some n1' ∧ desc n1' = NOp d1'
        ∧ nodes s2 !! c2 = Some n2' ∧ desc n2' = NOp d2'
        ∧ cv ∈ inputs n1' ∧ cv ∈ inputs n2'
        ∧ renamed_slots (name_ pn) (name_ varn) (inputs_ d1) (inputs_ d1')
        ∧ renamed_slots (name_ pn) (name_ varn) (inputs_ d2) (inputs_ d2').
Proof.
  intros Hdir1 Hdir2 Hb Hmiss Hp Hd Hshp Hc1 Hd1 Hc2 Hd2 Hne.
  destruct (InsertLayoutTransOp_first layout_int s prev c1 b from1 to1 vars
              pn n1 pv d1 shp Hdir1 Hb Hmiss Hp Hd Hshp Hc1 Hd1)
    as (s1 & Hrun1 & Hserved1 & _ & _).
  assert (Hnew : c2 ∉ [c1]) by (apply not_elem_of_cons; set_solver).
  destruct (InsertLayoutTransOp_next layout_int s s1 prev c2 from2 to2 b'
              _ _ [c1] pn n2 pv d2 Hdir2 Hserved1 Hp Hd Hnew Hc2 Hd2)
    as (s2 & Hrun2 & Hserved2 & Hbl2 & _).
  exists s1, s2.
  split; [done |]. split; [done |]. split; [done |].
  split; [by rewrite (served_length _ _ _ _ _ _ _ Hserved1),
                     (served_length _ _ _ _ _ _ _ Hserved2) |].
  split; [by rewrite (served_cache _ _ _ _ _ _ _ Hserved1),
                     (served_cache _ _ _ _ _ _ _ Hserved2) |].
  split; [done |].
  destruct Hserved2 as [_ Hcache _ _ _ Hout _ Hoth].
  assert (Hp1 : c1 ≠ prev) by (intros ->; congruence).
  assert (Hp2 : c2 ≠ prev) by (intros ->; congruence).
  pose proof (Hoth c1 ltac:(by eapply lookup_lt_Some) Hp1) as H1.
  pose proof (Hoth c2 ltac:(by eapply lookup_lt_Some) Hp2) as H2.
  rewrite decide_True, Hc1 in H1 by set_solver.
  rewrite decide_True, Hc2 in H2 by set_solver.
  simpl in H1, H2.
  eexists (S (length (nodes s))), _, _, _,
    (RenameInput d1 (name_ pn) _), (RenameInput d2 (name_ pn) _).
  split; [by rewrite Hcache, lookup_insert_eq |].
  split; [exact Hout |].
  split; [exact H1 |].
  split; [by rewrite (consumer_after_desc _ _ _ _ _ _ Hd1) |].
  split; [exact H2 |].
  split; [by rewrite (consumer_after_desc _ _ _ _ _ _ Hd2) |].
  assert (Hin : ∀ n, S (length (nodes s))
                     ∈ filter (λ x, x ≠ prev) (inputs n ++ [S (length (nodes s))])).
  { intros n. apply list_elem_of_filter. split.
    - apply lookup_lt_Some in Hp. lia.
    - apply elem_of_app. right. by left. }
  split; [rewrite consumer_after_inputs; apply Hin |].
  split; [rewrite consumer_after_inputs; apply Hin |].
  split; apply RenameInput_renamed.
Qed.

(** [CHECK_NOTNULL(block_desc)] stands inside [do_insert]: without a block,
    a request in one of the two supported directions is aborted before
    anything is created, also when the cache holds the conversion, and a
    request in another direction returns without a check; neither changes
    the graph, the blocks or the cache. *)
Theorem null_block_aborts_supported_requests (s : State) (prev next : nat)
    (from_layout to_layout : DataLayout) (pn : Node) (pv : VarDesc) :
  nodes s !! prev = Some pn → desc pn = NVar pv →
  ∃ r s',
    InsertLayoutTransOp layout_int prev next from_layout to_layout None s = (r, s')
    ∧ nodes s' = nodes s ∧ blocks s' = blocks s ∧ cache s' = cache s
    ∧ (valid_direction from_layout to_layout → r = Raise CheckFailed)
    ∧ (¬ valid_direction from_layout to_layout → r = Ok tt).
Proof.
  intros Hp Hd.
  destruct (decide (from_layout = kNCHW ∧ to_layout = kNHWC)) as [H1 | H1];
    [| destruct (decide (from_layout = kNHWC ∧ to_layout = kNCHW)) as [H2 | H2]].
  - assert (Hdir : valid_direction from_layout to_layout) by by left.
    rewrite (InsertLayoutTransOp_unfold layout_int s prev next from_layout to_layout
               None pn pv Hdir Hp Hd).
    eexists _, _. split; [reflexivity |]. simpl. done.
  - assert (Hdir : valid_direction from_layout to_layout) by by right.
    rewrite (InsertLayoutTransOp_unfold layout_int s prev next from_layout to_layout
               None pn pv Hdir Hp Hd).
    eexists _, _. split; [reflexivity |]. simpl. done.
  - unfold InsertLayoutTransOp, log_request. unfold modify at 1. unfold bind at 1.
    rewrite decide_False by done. rewrite decide_False by done.
    eexists _, _. split; [reflexivity |]. simpl.
    repeat (split; [done |]). split; [| done].
    intros [? | ?]; done.
Qed.

Lemma short_shape_is_undefined (from_layout : DataLayout) (l : list Z) :
  (length l < 4)%nat → transfer_shape from_layout l = Raise Undefined.
Proof.
  intros Hl. unfold transfer_shape, shape_nchw_to_nhwc, shape_nhwc_to_nchw.
  destruct l as [| a [| b [| c [| d rest]]]]; simpl in Hl; try lia;
    by destruct (decide (from_layout = kNCHW)).
Qed.

(** The first request for a producer reads four sizes of its declared
    shape: when the shape has fewer, the read at lines 63-66 or 69-72 goes
    past its end. *)
Theorem short_shape_aborts_first_request (s : State) (prev next b : nat)
    (from_layout to_layout : DataLayout) (vars : BlockDesc)
    (pn : Node) (pv : VarDesc) :
  valid_direction from_layout to_layout →
  blocks s !! b = Some vars →
  cache s !! prev = None →
  nodes s !! prev = Some pn → desc pn = NVar pv →
  (length (var_shape pv) < 4)%nat →
  fst (InsertLayoutTransOp layout_int prev next from_layout to_layout (Some b) s)
  = Raise Undefined.
Proof.
  intros Hdir Hb Hmiss Hp Hd Hshort.
  rewrite (InsertLayoutTransOp_unfold layout_int s prev next from_layout to_layout
             (Some b) pn pv Hdir Hp Hd).
  set (s0 := set_requests _ s).
  unfold do_insert. unfold lift at 1. unfold bind at 1.
  unfold read at 1. unfold bind at 1. simpl cache. rewrite Hmiss.
  assert (Hfail : ∃ s1, create_transfer layout_int prev from_layout to_layout b
             (var_name pv) (var_name pv +:+ direction_suffix from_layout) s0
           = (Raise Undefined, s1)).
  { unfold create_transfer.
    unfold CreateOpNode at 1. unfold bind at 1.
    set (opn := mkNode _ _ [] []).
    set (s1 := set_nodes (nodes s0 ++ [opn]) s0).
    destruct (BlockVar_eq s1 b vars (var_name pv +:+ direction_suffix from_layout) Hb)
      as (bs2 & vars2 & HB2 & Hb2 & Hx2 & Hl2).
    rewrite (bind_eq _ _ _ _ _ HB2).
    set (s2 := set_blocks bs2 s1).
    destruct (update_block_var_eq s2 b vars2 _ _ (λ v, SetPersistable v false) Hb2 Hx2)
      as (bs3 & vars3 & HB3 & Hb3 & Hx3 & Hl3).
    rewrite (bind_eq _ _ _ _ _ HB3).
    set (s3 := set_blocks bs3 s2).
    assert (Hp3 : nodes s3 !! prev = Some pn).
    { simpl. by apply lookup_app_l_Some. }
    rewrite (bind_eq _ _ _ _ _ (get_node_eq _ _ _ Hp3)).
    unfold lift at 1. unfold bind at 1. unfold Var at 1. rewrite Hd.
    destruct (update_block_var_eq s3 b vars3 _ _
                (λ v, SetDataType v (var_dtype pv)) Hb3 Hx3)
      as (bs4 & vars4 & HB4 & Hb4 & Hx4 & Hl4).
    rewrite (bind_eq _ _ _ _ _ HB4).
    set (s4 := set_blocks bs4 s3).
    assert (Hp4 : nodes s4 !! prev = Some pn) by done.
    rewrite (bind_eq _ _ _ _ _ (get_node_eq _ _ _ Hp4)).
    unfold lift at 1. unfold bind at 1. unfold Var at 1. rewrite Hd.
    pose proof (short_shape_is_undefined from_layout _ Hshort) as Hshp.
    unfold transfer_shape in Hshp.
    unfold lift at 1. unfold bind at 1. rewrite Hshp. eauto. }
  destruct Hfail as [s1 Hfail].
  unfold bind at 1. by rewrite Hfail.
Qed.

(** What the first request for a producer declares: a [transfer_layout]
    operator of the block of the pass that reads the producer by name and
    writes the variable named after the producer and the direction, with
    the two layouts as integer attributes; and that variable, not
    persistable, of the producer's data type and with the permuted
    shape. *)
Theorem conversion_is_declared_from_the_producer (s : State) (prev next b : nat)
    (from_layout to_layout : DataLayout) (vars : BlockDesc)
    (pn nn : Node) (pv : VarDesc) (nd : OpDesc) (shp : list Z) :
  valid_direction from_layout to_layout →
  blocks s !! b = Some vars →
  cache s !! prev = None →
  nodes s !! prev = Some pn → desc pn = NVar pv →
  transfer_shape from_layout (var_shape pv) = Ok shp →
  nodes s !! next = Some nn → desc nn = NOp nd →
  ∃ s' opn od varn vd,
    InsertLayoutTransOp layout_int prev next from_layout to_layout (Some b) s
    = (Ok tt, s')
    ∧ nodes s' !! length (nodes s) = Some opn
    ∧ name_ opn = "transfer_layout" ∧ desc opn = NOp od
    ∧ type_ od = "transfer_layout" ∧ block_ od = Some b
    ∧ inputs_ od = {[ "X" := [var_name pv] ]}
    ∧ outputs_ od = {[ "Out" := [var_name pv +:+ direction_suffix from_layout] ]}
    ∧ attrs_ od = {[ "src_layout" := AttrInt (layout_int from_layout);
                     "dst_layout" := AttrInt (layout_int to_layout) ]}
    ∧ nodes s' !! S (length (nodes s)) = Some varn
    ∧ name_ varn = var_name vd ∧ desc varn = NVar vd
    ∧ var_persistable vd = false ∧ var_dtype vd = var_dtype pv
    ∧ var_shape vd = shp
    ∧ (vars !! (var_name pv +:+ direction_suffix from_layout) = None →
       var_name vd = var_name pv +:+ direction_suffix from_layout).
Proof.
  intros Hdir Hb Hmiss Hp Hd Hshp Hc Hcd.
  destruct (InsertLayoutTransOp_first layout_int s prev next b from_layout to_layout
              vars pn nn pv nd shp Hdir Hb Hmiss Hp Hd Hshp Hc Hcd)
    as (s' & Hrun & Hserved & _ & _).
  destruct Hserved as [_ _ _ _ Hop Hout _ _].
  eexists s', _, _, _,
    (out_var_desc vars (var_name pv +:+ direction_suffix from_layout)
                  (var_dtype pv) shp).
  split; [exact Hrun |].
  split; [exact Hop |]. simpl.
  do 6 (split; [done |]).
  split.
  { rewrite <- insert_empty. by apply insert_insert_ne. }
  split; [exact Hout |]. simpl.
  do 5 (split; [done |]).
  intros Hfresh. unfold out_var_desc. rewrite Hfresh. done.
Qed.

(** *** The operators that the pass has committed *)

Lemma conservative_commit_step_one (valid_ops : gset nat) (block_desc : option nat)
    (x : nat) :
  conservative {[x]} (commit_step layout_int use_cutlass valid_ops block_desc x).
Proof.
  pose proof conservative_transfer_weight. pose proof conservative_transfer_output.
  pose proof conservative_transfer_input. pose proof conservative_restore_input.
  unfold commit_step.
  apply conservative_bind; [apply conservative_read | intros n].
  destruct (negb (IsOp n)); [apply conservative_raise |].
  destruct (bool_decide (x ∈ valid_ops)).
  - apply conservative_bind; [apply conservative_commit_attrs | intros _].
    repeat conservative_step.
  - repeat conservative_step.
Qed.

Lemma conserved_attr (E : gset nat) (s s' : State) (x : nat) (key : string)
    (a : Attribute) :
  conserved E s s' → x ∉ E →
  attr_of (nodes s) x key = Some a → attr_of (nodes s') x key = Some a.
Proof.
  intros Hcons Hx. unfold attr_of.
  destruct (nodes s !! x) as [n |] eqn:Hn; [| done].
  destruct (cs_nodes _ _ _ Hcons x n Hn) as (n' & -> & [_ Hid] & Hattrs).
  specialize (Hattrs Hx). unfold same_attrs in Hattrs.
  destruct (desc n) as [d |]; [| done].
  destruct (desc n') as [d' |]; [| done]. by rewrite Hattrs.
Qed.

Lemma commit_attrs_sets_format (x : nat) (s s' : State) :
  commit_attrs use_cutlass x s = (Ok tt, s') →
  attr_of (nodes s') x "data_format" = Some (AttrString "NHWC").
Proof.
  intros H. unfold commit_attrs in H.
  apply bind_ok_inv in H as (n & s1 & _ & H).
  apply bind_ok_inv in H as (d & s2 & _ & H).
  apply bind_ok_inv in H as (cutlass & s3 & _ & H).
  apply bind_ok_inv in H as ([] & s4 & _ & H).
  apply update_op_inv in H as (n4 & d4 & Hn4 & Hd4 & ->).
  unfold attr_of. simpl. rewrite list_lookup_alter_eq, Hn4. simpl.
  unfold map_op. rewrite Hd4. simpl. by rewrite lookup_insert_eq.
Qed.

Lemma commit_step_sets_format (valid_ops : gset nat) (block_desc : option nat)
    (x : nat) (s s' : State) :
  x ∈ valid_ops →
  commit_step layout_int use_cutlass valid_ops block_desc x s = (Ok tt, s') →
  attr_of (nodes s') x "data_format" = Some (AttrString "NHWC").
Proof.
  intros Hx H. unfold commit_step in H.
  apply bind_ok_inv in H as (n & s1 & Hm & H).
  apply get_node_inv in Hm as [-> _].
  destruct (negb (IsOp n)); [done |].
  rewrite bool_decide_eq_true_2 in H by done.
  apply bind_ok_inv in H as ([] & s1 & Hattrs & H).
  apply commit_attrs_sets_format in Hattrs.
  eapply (conserved_attr ∅); [| set_solver | exact Hattrs].
  revert H. generalize s1 (Ok tt : outcome unit) s'.
  pose proof conservative_transfer_weight. pose proof conservative_transfer_output.
  pose proof conservative_transfer_input.
  change (conservative ∅
            (let* n := get_node x in
             let* op_desc := lift (Op n) in
             let* filter_names := lift (Input op_desc "Filter") in
             for_each filter_names (transfer_weight x) ;;
             let* n := get_node x in
             for_each (outputs n) transfer_output ;;
             let* n := get_node x in
             for_each (inputs n) (transfer_input layout_int block_desc x))).
  repeat conservative_step.
Qed.

Lemma commit_loop_sets_format (valid_ops : gset nat) (block_desc : option nat)
    (op_nodes : list nat) :
  ∀ s s',
    for_each op_nodes (commit_step layout_int use_cutlass valid_ops block_desc) s
    = (Ok tt, s') →
    ∀ p, p ∈ valid_ops →
      p ∈ op_nodes ∨ attr_of (nodes s) p "data_format" = Some (AttrString "NHWC") →
      attr_of (nodes s') p "data_format" = Some (AttrString "NHWC").
Proof.
  induction op_nodes as [| x ops IH]; intros s s' H p Hp Hin.
  - simpl in H. unfold ret in H. simplify_eq.
    destruct Hin as [Hin | ?]; [by apply elem_of_nil in Hin | done].
  - apply for_each_cons_ok in H as (s1 & Hstep & Hrest).
    apply (IH s1 s' Hrest p Hp).
    destruct (decide (p = x)) as [-> | Hne].
    + right. by eapply commit_step_sets_format.
    + destruct Hin as [Hin | Hold].
      * left. apply elem_of_cons in Hin as [? | ?]; done.
      * right. eapply (conserved_attr {[x]}); [| set_solver | exact Hold].
        by eapply conservative_commit_step_one.
Qed.

(** When the pass returns, the number it reports is the number of
    operators that the first two loops selected, and each of them declares
    the data format NHWC. *)
Theorem committed_operators_declare_nhwc (w : World) (g : Graph)
    (ws : gmap string (list nat)) (valid_ops : gset nat) (k : nat) :
  w_graph w = Some g →
  select_ops use_cutlass
    (initial_state g (default ∅ (g_param_scope g)) (w_blocks w))
    (TopologySortOperations (g_nodes g)) = Ok (ws, valid_ops) →
  fst (ApplyImpl layout_int use_cutlass TopologySortOperations w) = Ok k →
  k = size valid_ops
  ∧ ∀ p, p ∈ valid_ops →
      attr_of (nodes_after (ApplyImpl layout_int use_cutlass TopologySortOperations w))
              p "data_format"
      = Some (AttrString "NHWC").
Proof.
  intros Hg Hsel Hok.
  destruct (ApplyImpl_inv w g Hg)
    as (s' & -> & _ & _ & [[_ [e He]] | (ws' & valid' & block & r & Hsel' & Hrun & Hr)]).
  { congruence. }
  rewrite Hsel in Hsel'. simplify_eq.
  rewrite Hok in Hr. destruct r as [[] |]; simpl in Hr; [| done].
  split; [congruence |].
  intros p Hp. eapply commit_loop_sets_format; [exact Hrun | done |].
  left. by destruct (select_ops_sound _ _ _ _ Hsel p Hp).
Qed.

(** *** One conversion for every producer *)

Lemma balance_refl (s : State) : balance s s.
Proof. by unfold balance. Qed.

Lemma balance_trans (s1 s2 s3 : State) :
  balance s1 s2 → balance s2 s3 → balance s1 s3.
Proof. unfold balance. lia. Qed.

Lemma balance_still (s s' : State) :
  length (nodes s') = length (nodes s) → cache s' = cache s → balance s s'.
Proof. unfold balance. by intros -> ->. Qed.

Lemma balanced_ret {A} (a : A) : balanced (ret a).
Proof. intros s a' s' [= <- <-]. apply balance_refl. Qed.

Lemma balanced_raise {A} (e : Error) : balanced (raise (A := A) e).
Proof. by intros s a s' [=]. Qed.

Lemma balanced_read {A} (f : State → outcome A) : balanced (read f).
Proof. intros s a s' H. apply read_inv in H as [-> _]. apply balance_refl. Qed.

Lemma balanced_lift {A} (o : outcome A) : balanced (lift o).
Proof. intros s a s' H. apply lift_inv in H as [-> _]. apply balance_refl. Qed.

Lemma balanced_modify (f : State → State) :
  (∀ s, length (nodes (f s)) = length (nodes s) ∧ cache (f s) = cache s) →
  balanced (modify f).
Proof.
  intros Hf s a s' H. unfold modify in H. simplify_eq.
  destruct (Hf s). by apply balance_still.
Qed.

Lemma balanced_bind {A B} (m : M A) (k : A → M B) :
  balanced m → (∀ a, balanced (k a)) → balanced (bind m k).
Proof.
  intros Hm Hk s b s' H. apply bind_ok_inv in H as (a & s1 & Hma & Hka).
  eapply balance_trans; [by eapply Hm | by eapply Hk].
Qed.

Lemma balanced_when (b : bool) (m : M unit) : balanced m → balanced (when b m).
Proof. intros Hm. destruct b; [done | apply balanced_ret]. Qed.

Lemma balanced_for_each {A} (l : list A) (body : A → M unit) :
  (∀ y, balanced (body y)) → balanced (for_each l body).
Proof.
  intros Hbody. induction l as [| y l IH]; simpl.
  - apply balanced_ret.
  - apply balanced_bind; [apply Hbody | intros _; apply IH].
Qed.

Lemma balanced_update_node (p : nat) (f : Node → Node) : balanced (update_node p f).
Proof.
  unfold update_node. apply balanced_bind; [apply balanced_read | intros _].
  apply balanced_modify. intros s. simpl. by rewrite length_alter.
Qed.

Lemma balanced_update_op (p : nat) (f : OpDesc → OpDesc) : balanced (update_op p f).
Proof.
  unfold update_op. apply balanced_bind; [apply balanced_read | intros n].
  apply balanced_bind; [apply balanced_lift | intros _].
  apply balanced_modify. intros s. simpl. by rewrite length_alter.
Qed.

Lemma balanced_update_var (p : nat) (f : VarDesc → VarDesc) : balanced (update_var p f).
Proof.
  unfold update_var. apply balanced_bind; [apply balanced_read | intros n].
  apply balanced_bind; [apply balanced_lift | intros _].
  apply balanced_modify. intros s. simpl. by rewrite length_alter.
Qed.

Lemma balanced_IR_NODE_LINK_TO (a b : nat) : balanced (IR_NODE_LINK_TO a b).
Proof.
  unfold IR_NODE_LINK_TO.
  apply balanced_bind; [| intros _]; apply balanced_update_node.
Qed.

Lemma balanced_IR_NODE_UNLINK (a b : nat) : balanced (IR_NODE_UNLINK a b).
Proof.
  unfold IR_NODE_UNLINK.
  apply balanced_bind; [| intros _]; apply balanced_update_node.
Qed.

Lemma balanced_log_request (rq : Request) : balanced (log_request rq).
Proof. by apply balanced_modify. Qed.

Lemma balanced_record (y : nat) :
  balanced (modify (λ s, set_vars_shape_nhwc ({[y]} ∪ vars_shape_nhwc s) s)).
Proof. by apply balanced_modify. Qed.

Lemma balanced_set_scope (f : string) (t : DenseTensor) :
  balanced (modify (λ s, set_scope (<[f := t]> (scope s)) s)).
Proof. by apply balanced_modify. Qed.

Create HintDb balanced.

#[local] Hint Resolve balanced_update_op balanced_update_var
  balanced_IR_NODE_LINK_TO balanced_IR_NODE_UNLINK balanced_log_request
  balanced_record balanced_set_scope : balanced.

Ltac balanced_step :=
  lazymatch goal with
  | |- balanced (bind _ _) => apply balanced_bind; [| intros ?]
  | |- balanced (ret _) => apply balanced_ret
  | |- balanced (raise _) => apply balanced_raise
  | |- balanced (read _) => apply balanced_read
  | |- balanced (lift _) => apply balanced_lift
  | |- balanced (get_node _) => apply balanced_read
  | |- balanced (cache_at _) => apply balanced_read
  | |- balanced (when _ _) => apply balanced_when
  | |- balanced (for_each _ _) => apply balanced_for_each; intros ?
  | |- balanced (if ?b then _ else _) => destruct b
  | |- balanced (match ?x with _ => _ end) => destruct x
  | |- balanced _ => solve [eauto with balanced]
  end.

Lemma balanced_relink (prev next : nat) : balanced (relink prev next).
Proof. unfold relink. repeat balanced_step. Qed.

Lemma IR_NODE_LINK_TO_ok (a b : nat) (s s' : State) :
  IR_NODE_LINK_TO a b s = (Ok tt, s') →
  length (nodes s') = length (nodes s) ∧ cache s' = cache s.
Proof.
  intros H. unfold IR_NODE_LINK_TO in H.
  apply bind_ok_inv in H as ([] & s1 & H1 & H2).
  apply update_node_inv in H1 as [(_ & _ & ->) | (e & ? & _)]; [| done].
  apply update_node_inv in H2 as [(_ & _ & ->) | (e & ? & _)]; [| done].
  simpl. by rewrite !length_alter.
Qed.

(** A cache miss that runs through adds two nodes and one cache entry. *)
Lemma create_transfer_ok (prev b : nat) (from_layout to_layout : DataLayout)
    (in_var_name out_var_name : string) (s s' : State) :
  create_transfer layout_int prev from_layout to_layout b in_var_name out_var_name s
  = (Ok tt, s') →
  length (nodes s') = S (S (length (nodes s)))
  ∧ ∃ v, cache s' = <[prev := v]> (cache s).
Proof.
  intros H. unfold create_transfer in H.
  unfold CreateOpNode at 1 in H. unfold bind at 1 in H.
  set (opn := mkNode _ _ [] []) in H.
  assert (Hstart : set_nodes (nodes s ++ [opn]) s
                   = set_blocks (blocks s) (set_nodes (nodes s ++ [opn]) s))
    by done.
  rewrite Hstart in H. clear Hstart. generalize dependent (blocks s). intros bs0 H.
  apply bind_ok_inv in H as ([] & s1 & Hm & H).
  apply BlockVar_inv in Hm as [bs1 ->].
  apply bind_ok_inv in H as ([] & s1 & Hm & H).
  apply update_block_var_inv in Hm as [bs2 ->].
  apply bind_ok_inv in H as (pn & s1 & Hm & H).
  apply get_node_inv in Hm as [-> _].
  apply bind_ok_inv in H as (pv & s1 & Hm & H).
  apply lift_inv in Hm as [-> _].
  apply bind_ok_inv in H as ([] & s1 & Hm & H).
  apply update_block_var_inv in Hm as [bs3 ->].
  apply bind_ok_inv in H as (pn' & s1 & Hm & H).
  apply get_node_inv in Hm as [-> _].
  apply bind_ok_inv in H as (pv' & s1 & Hm & H).
  apply lift_inv in Hm as [-> _].
  apply bind_ok_inv in H as (shp & s1 & Hm & H).
  apply lift_inv in Hm as [-> _].
  apply bind_ok_inv in H as ([] & s1 & Hm & H).
  apply update_block_var_inv in Hm as [bs4 ->].
  apply bind_ok_inv in H as (vd & s1 & Hm & H).
  apply read_inv in Hm as [-> _].
  unfold CreateVarNode at 1 in H. unfold bind at 1 in H. simpl in H.
  apply bind_ok_inv in H as ([] & s1 & Hm & H).
  apply IR_NODE_LINK_TO_ok in Hm as [Hlen Hcache]. simpl in Hlen, Hcache.
  unfold cache_insert, modify in H. simplify_eq. simpl.
  rewrite !length_app in Hlen. simpl in Hlen.
  split; [lia |]. rewrite Hcache. eauto.
Qed.

Lemma balanced_do_insert (prev next : nat) (from_layout to_layout : DataLayout)
    (block_desc : option nat) (in_var_name out_var_name : string) :
  balanced (do_insert layout_int prev next from_layout to_layout block_desc
                      in_var_name out_var_name).
Proof.
  intros s a s' H. unfold do_insert in H.
  apply bind_ok_inv in H as (b & s1 & Hm & H). apply lift_inv in Hm as [-> _].
  apply bind_ok_inv in H as (hit & s1 & Hm & H). apply read_inv in Hm as [-> Hhit].
  apply bind_ok_inv in H as ([] & s1 & Hm & H).
  apply balanced_relink in H.
  eapply balance_trans; [| exact H].
  destruct hit as [cv |].
  - unfold ret in Hm. simplify_eq. apply balance_refl.
  - apply create_transfer_ok in Hm as [Hlen [v Hc]].
    unfold balance. rewrite Hlen, Hc.
    rewrite map_size_insert_None by congruence. lia.
Qed.

Lemma balanced_InsertLayoutTransOp (prev next : nat)
    (from_layout to_layout : DataLayout) (block_desc : option nat) :
  balanced (InsertLayoutTransOp layout_int prev next from_layout to_layout
                                block_desc).
Proof.
  pose proof balanced_do_insert.
  unfold InsertLayoutTransOp. repeat balanced_step.
Qed.

Lemma balanced_commit_step (valid_ops : gset nat) (block_desc : option nat)
    (x : nat) :
  balanced (commit_step layout_int use_cutlass valid_ops block_desc x).
Proof.
  pose proof balanced_InsertLayoutTransOp.
  unfold commit_step, commit_attrs, transfer_weight, permute_filter_var,
    transfer_output, transfer_input, restore_input.
  repeat balanced_step.
Qed.

(** When the third loop runs through, it has added two nodes, a conversion
    operator and its output, for every producer in its cache, however many
    operators read that producer. *)
Theorem two_nodes_for_every_converted_producer (valid_ops : gset nat)
    (block_desc : option nat) (op_nodes : list nat) (s0 s' : State) :
  cache s0 = ∅ →
  for_each op_nodes (commit_step layout_int use_cutlass valid_ops block_desc) s0
  = (Ok tt, s') →
  length (nodes s') = (length (nodes s0) + 2 * size (cache s'))%nat.
Proof.
  intros Hc Hrun.
  assert (Hb : balance s0 s').
  { revert Hrun. apply balanced_for_each. intros x. apply balanced_commit_step. }
  unfold balance in Hb. rewrite Hc, map_size_empty in Hb. lia.
Qed.

(** *** The shapes that the pass leaves alone *)

Lemma activations_kept_refl (S : nat → Prop) (s : State) : activations_kept S s s.
Proof. intros q n v _ Hq Hd _. by exists n. Qed.

Lemma activations_kept_trans (S : nat → Prop) (s1 s2 s3 : State) :
  activations_kept S s1 s2 → activations_kept S s2 s3 → activations_kept S s1 s3.
Proof.
  intros H12 H23 q n v HS Hq Hd Hp.
  destruct (H12 q n v HS Hq Hd Hp) as (n2 & Hq2 & Hd2).
  by apply (H23 q n2 v HS Hq2 Hd2 Hp).
Qed.

Lemma activations_kept_mono (S S' : nat → Prop) (s s' : State) :
  (∀ q, S q → S' q) → activations_kept S s s' → activations_kept S' s s'.
Proof. intros HS H q n v HS'. apply H. intros Hq. by apply HS', HS. Qed.

Lemma activations_kept_same_nodes (S : nat → Prop) (s s' : State) :
  nodes s' = nodes s → activations_kept S s s'.
Proof. intros Hn q n v _ Hq Hd _. exists n. by rewrite Hn. Qed.

Lemma activations_kept_append (S : nat → Prop) (s : State) (m : Node) :
  activations_kept S s (set_nodes (nodes s ++ [m]) s).
Proof.
  intros q n v _ Hq Hd _. exists n. split; [| done]. simpl.
  by apply lookup_app_l_Some.
Qed.

Lemma activations_kept_alter (S : nat → Prop) (s : State) (p : nat) (f : Node → Node) :
  (∀ n v, nodes s !! p = Some n → desc n = NVar v → var_persistable v = false →
     S p ∨ desc (f n) = NVar v) →
  activations_kept S s (set_nodes (alter f p (nodes s)) s).
Proof.
  intros Hf q n v HS Hq Hd Hp. simpl.
  destruct (decide (q = p)) as [-> | Hne].
  - exists (f n). rewrite list_lookup_alter_eq, Hq. split; [done |].
    by destruct (Hf n v Hq Hd Hp).
  - exists n. by rewrite list_lookup_alter_ne.
Qed.

Lemma quiet_ret (S : nat → Prop) {A} (a : A) : quiet S (ret a).
Proof. intros s r s' [= <- <-]. apply activations_kept_refl. Qed.

Lemma quiet_raise (S : nat → Prop) {A} (e : Error) : quiet S (raise (A := A) e).
Proof. intros s r s' [= <- <-]. apply activations_kept_refl. Qed.

Lemma quiet_read (S : nat → Prop) {A} (f : State → outcome A) : quiet S (read f).
Proof. intros s r s' [= <- <-]. apply activations_kept_refl. Qed.

Lemma quiet_lift (S : nat → Prop) {A} (o : outcome A) : quiet S (lift o).
Proof. intros s r s' [= <- <-]. apply activations_kept_refl. Qed.

Lemma quiet_modify (S : nat → Prop) (f : State → State) :
  (∀ s, nodes (f s) = nodes s) → quiet S (modify f).
Proof.
  intros Hf s r s' H. unfold modify in H. simplify_eq.
  by apply activations_kept_same_nodes.
Qed.

Lemma quiet_bind (S : nat → Prop) {A B} (m : M A) (k : A → M B) :
  quiet S m → (∀ a, quiet S (k a)) → quiet S (bind m k).
Proof.
  intros Hm Hk s r s' H.
  apply bind_inv in H as [(a & s1 & Hma & Hka) | (e & Hme & ->)].
  - eapply activations_kept_trans; [by eapply Hm | by eapply Hk].
  - by eapply Hm.
Qed.

Lemma quiet_when (S : nat → Prop) (b : bool) (m : M unit) :
  quiet S m → quiet S (when b m).
Proof. intros Hm. destruct b; [done | apply quiet_ret]. Qed.

Lemma quiet_for_each_in (S : nat → Prop) {A} (l : list A) (body : A → M unit) :
  (∀ y, y ∈ l → quiet S (body y)) → quiet S (for_each l body).
Proof.
  induction l as [| y l IH]; intros Hbody; simpl.
  - apply quiet_ret.
  - apply quiet_bind; [apply Hbody; by left | intros _].
    apply IH. intros; apply Hbody; by right.
Qed.

Lemma quiet_for_each (S : nat → Prop) {A} (l : list A) (body : A → M unit) :
  (∀ y, quiet S (body y)) → quiet S (for_each l body).
Proof. intros Hbody. apply quiet_for_each_in. auto. Qed.

Lemma quiet_mono (S S' : nat → Prop) {A} (m : M A) :
  (∀ q, S q → S' q) → quiet S m → quiet S' m.
Proof. intros HS Hm s r s' H. eapply activations_kept_mono; [done | by eapply Hm]. Qed.

Lemma quiet_update_node (S : nat → Prop) (p : nat) (g : Node → Node) :
  (∀ n, desc (g n) = desc n) → quiet S (update_node p g).
Proof.
  intros Hg. unfold update_node. apply quiet_bind; [apply quiet_read | intros _].
  intros s r s' H. unfold modify in H. simplify_eq.
  apply activations_kept_alter. intros n v _ Hd _. right. by rewrite Hg.
Qed.

Lemma quiet_IR_NODE_LINK_TO (S : nat → Prop) (a b : nat) :
  quiet S (IR_NODE_LINK_TO a b).
Proof.
  unfold IR_NODE_LINK_TO. apply quiet_bind; [| intros _]; by apply quiet_update_node.
Qed.

Lemma quiet_IR_NODE_UNLINK (S : nat → Prop) (a b : nat) :
  quiet S (IR_NODE_UNLINK a b).
Proof.
  unfold IR_NODE_UNLINK. apply quiet_bind; [| intros _]; by apply quiet_update_node.
Qed.

Lemma quiet_update_op (S : nat → Prop) (p : nat) (f : OpDesc → OpDesc) :
  quiet S (update_op p f).
Proof.
  unfold update_op. apply quiet_bind; [apply quiet_read | intros n].
  apply quiet_bind; [apply quiet_lift | intros _].
  intros s r s' H. unfold modify in H. simplify_eq.
  apply activations_kept_alter. intros m v _ Hd _. right.
  unfold map_op. by rewrite Hd.
Qed.

Lemma quiet_update_var_in (S : nat → Prop) (p : nat) (f : VarDesc → VarDesc) :
  S p → quiet S (update_var p f).
Proof.
  intros Hp. unfold update_var. apply quiet_bind; [apply quiet_read | intros n].
  apply quiet_bind; [apply quiet_lift | intros _].
  intros s r s' H. unfold modify in H. simplify_eq.
  apply activations_kept_alter. intros. by left.
Qed.

Lemma quiet_CreateOpNode (S : nat → Prop) (d : OpDesc) : quiet S (CreateOpNode d).
Proof. intros s r s' [= <- <-]. apply activations_kept_append. Qed.

Lemma quiet_CreateVarNode (S : nat → Prop) (d : VarDesc) : quiet S (CreateVarNode d).
Proof. intros s r s' [= <- <-]. apply activations_kept_append. Qed.

Lemma quiet_BlockVar (S : nat → Prop) (b : nat) (x : string) : quiet S (BlockVar b x).
Proof.
  intros s r s' H. apply BlockVar_inv in H as [bs ->].
  by apply activations_kept_same_nodes.
Qed.

Lemma quiet_update_block_var (S : nat → Prop) (b : nat) (x : string)
    (f : VarDesc → VarDesc) :
  quiet S (update_block_var b x f).
Proof.
  intros s r s' H. apply update_block_var_inv in H as [bs ->].
  by apply activations_kept_same_nodes.
Qed.

Lemma quiet_cache_insert (S : nat → Prop) (k v : nat) : quiet S (cache_insert k v).
Proof. by apply quiet_modify. Qed.

Lemma quiet_log_request (S : nat → Prop) (rq : Request) : quiet S (log_request rq).
Proof. by apply quiet_modify. Qed.

Lemma quiet_record (S : nat → Prop) (y : nat) :
  quiet S (modify (λ s, set_vars_shape_nhwc ({[y]} ∪ vars_shape_nhwc s) s)).
Proof. by apply quiet_modify. Qed.

Lemma quiet_set_scope (S : nat → Prop) (f : string) (t : DenseTensor) :
  quiet S (modify (λ s, set_scope (<[f := t]> (scope s)) s)).
Proof. by apply quiet_modify. Qed.

(** Lines 251-256 write the shape of persistable variables only. *)
Lemma quiet_permute_filter_var (S : nat → Prop) (f : string) (y : nat) :
  quiet S (permute_filter_var f y).
Proof.
  intros s r s' H. unfold permute_filter_var in H.
  apply bind_inv in H as [(n & s1 & Hm & H) | (e & Hm & ->)];
    apply get_node_inv in Hm as [-> Hn]; [| apply activations_kept_refl].
  destruct (negb (IsVar n)).
  { unfold raise in H. simplify_eq. apply activations_kept_refl. }
  apply bind_inv in H as [(v & s1 & Hm & H) | (e & Hm & ->)];
    apply lift_inv in Hm as [-> Hv]; [| apply activations_kept_refl].
  destruct (var_persistable v && bool_decide (var_name v = f)) eqn:Hc; simpl in H.
  - apply andb_true_iff in Hc as [Hp _].
    apply bind_inv in H as [(shp & s1 & Hm & H) | (e & Hm & ->)];
      apply lift_inv in Hm as [-> _]; [| apply activations_kept_refl].
    apply update_var_inv in H. destruct r; [| subst; apply activations_kept_refl].
    destruct H as (n' & v' & Hn' & Hd' & ->).
    apply activations_kept_alter. intros n'' v'' Hn'' Hd'' Hp''.
    unfold Var in Hv. simplify_eq. rewrite Hd'' in Hv. simplify_eq. congruence.
  - unfold ret in H. simplify_eq. apply activations_kept_refl.
Qed.

Create HintDb quiet.

#[local] Hint Resolve quiet_IR_NODE_LINK_TO quiet_IR_NODE_UNLINK quiet_update_op
  quiet_CreateOpNode quiet_CreateVarNode quiet_BlockVar quiet_update_block_var
  quiet_cache_insert quiet_log_request quiet_record quiet_set_scope
  quiet_permute_filter_var : quiet.

Ltac quiet_step :=
  lazymatch goal with
  | |- quiet _ (bind _ _) => apply quiet_bind; [| intros ?]
  | |- quiet _ (ret _) => apply quiet_ret
  | |- quiet _ (raise _) => apply quiet_raise
  | |- quiet _ (read _) => apply quiet_read
  | |- quiet _ (lift _) => apply quiet_lift
  | |- quiet _ (get_node _) => apply quiet_read
  | |- quiet _ (cache_at _) => apply quiet_read
  | |- quiet _ (get_block_var _ _) => apply quiet_read
  | |- quiet _ (when _ _) => apply quiet_when
  | |- quiet _ (for_each _ _) => apply quiet_for_each; intros ?
  | |- quiet _ (if ?b then _ else _) => destruct b
  | |- quiet _ (match ?x with _ => _ end) => destruct x
  | |- quiet _ _ => solve [eauto with quiet]
  end.

Lemma quiet_InsertLayoutTransOp (S : nat → Prop) (prev next : nat)
    (from_layout to_layout : DataLayout) (block_desc : option nat) :
  quiet S (InsertLayoutTransOp layout_int prev next from_layout to_layout block_desc).
Proof.
  unfold InsertLayoutTransOp, do_insert, create_transfer, relink.
  repeat quiet_step.
Qed.

Lemma quiet_commit_attrs (S : nat → Prop) (x : nat) :
  quiet S (commit_attrs use_cutlass x).
Proof. unfold commit_attrs. repeat quiet_step. Qed.

Lemma quiet_transfer_weight (S : nat → Prop) (x : nat) (f : string) :
  quiet S (transfer_weight x f).
Proof. unfold transfer_weight. repeat quiet_step. Qed.

Lemma quiet_transfer_output (S : nat → Prop) (y : nat) :
  S y → quiet S (transfer_output y).
Proof.
  intros Hy. pose proof (quiet_update_var_in S y) as Hupd.
  unfold transfer_output. repeat quiet_step.
Qed.

Lemma quiet_transfer_input (S : nat → Prop) (block_desc : option nat) (x y : nat) :
  quiet S (transfer_input layout_int block_desc x y).
Proof.
  pose proof quiet_InsertLayoutTransOp. unfold transfer_input. repeat quiet_step.
Qed.

Lemma quiet_restore_input (S : nat → Prop) (block_desc : option nat) (x y : nat) :
  quiet S (restore_input layout_int block_desc x y).
Proof.
  pose proof quiet_InsertLayoutTransOp. unfold restore_input. repeat quiet_step.
Qed.

(** Committing the operator [x] writes the shape of no variable that is
    neither persistable nor an output of [x], and of none at all when [x]
    is not valid. *)
Lemma commit_step_quiet (valid_ops : gset nat) (block_desc : option nat)
    (x : nat) (n : Node) (s s' : State) (r : outcome unit) :
  nodes s !! x = Some n →
  commit_step layout_int use_cutlass valid_ops block_desc x s = (r, s') →
  activations_kept (λ q, (x ∈ valid_ops) ∧ q ∈ outputs n) s s'.
Proof.
  intros Hx H. set (S := λ q, (x ∈ valid_ops) ∧ q ∈ outputs n).
  pose proof quiet_transfer_weight. pose proof quiet_transfer_input.
  pose proof quiet_restore_input.
  unfold commit_step in H.
  rewrite (bind_eq _ _ _ _ _ (get_node_eq _ _ _ Hx)) in H.
  destruct (negb (IsOp n)).
  { unfold raise in H. simplify_eq. apply activations_kept_refl. }
  destruct (bool_decide (x ∈ valid_ops)) eqn:Hvalid.
  - apply bool_decide_eq_true in Hvalid.
    apply bind_inv in H as [([] & s1 & Hm & H) | (e & Hm & ->)];
      [| by eapply quiet_commit_attrs].
    pose proof (quiet_commit_attrs S x _ _ _ Hm) as Q1.
    pose proof (commit_attrs_settled use_cutlass x ∅ _ _ _ Hm) as S1. clear Hm.
    destruct (st_nodes _ _ _ S1 x n Hx) as (n1 & Hx1 & _ & _ & _).
    rewrite (bind_eq _ _ _ _ _ (get_node_eq _ _ _ Hx1)) in H.
    apply bind_inv in H as [(d1 & s2 & Hm & H) | (e & Hm & ->)];
      apply lift_inv in Hm as [-> _]; [| done].
    apply bind_inv in H as [(fs & s2 & Hm & H) | (e & Hm & ->)];
      apply lift_inv in Hm as [-> _]; [| done].
    assert (Hweights : ∀ r2 s2,
              for_each fs (transfer_weight x) s1 = (r2, s2) →
              activations_kept S s s2 ∧ settled ∅ s s2).
    { intros r2 s2 Hm. split.
      - eapply activations_kept_trans; [exact Q1 |].
        revert Hm. apply quiet_for_each. intros f. apply quiet_transfer_weight.
      - eapply settled_trans; [exact S1 |].
        eapply for_each_settled; [| exact Hm].
        intros. by eapply transfer_weight_settled. }
    apply bind_inv in H as [([] & s2 & Hm & H) | (e & Hm & ->)];
      [| by eapply Hweights].
    destruct (Hweights _ _ Hm) as [Q2 S2]. clear Hm Hweights Q1 S1 Hx1 n1.
    destruct (st_nodes _ _ _ S2 x n Hx) as (n2 & Hx2 & _ & _ & Ho2).
    rewrite (bind_eq _ _ _ _ _ (get_node_eq _ _ _ Hx2)) in H.
    eapply activations_kept_trans; [exact Q2 |].
    revert H. generalize s2 r s'.
    change (quiet S
              (for_each (outputs n2) transfer_output ;;
               let* n := get_node x in
               for_each (inputs n) (transfer_input layout_int block_desc x))).
    apply quiet_bind; [| intros _; repeat quiet_step].
    apply quiet_for_each_in. intros y Hy. apply quiet_transfer_output.
    split; [done | by rewrite <- Ho2].
  - revert H. generalize s r s'.
    change (quiet S
              (let* n := get_node x in
               for_each (inputs n) (restore_input layout_int block_desc x))).
    repeat quiet_step.
Qed.

Lemma ofoldl_ok_each {A B} (f : A → B → outcome A) (l : list B) :
  ∀ a a', ofoldl f a l = Ok a' → ∀ x, x ∈ l → ∃ a1 a2, f a1 x = Ok a2.
Proof.
  induction l as [| y l IH]; intros a a' H x Hx; [by apply elem_of_nil in Hx |].
  simpl in H. destruct (f a y) as [a1 |] eqn:Hf; simpl in H; [| done].
  apply elem_of_cons in Hx as [-> | Hx]; [eauto | by eapply IH].
Qed.

(** The first loop checks every sorted operator to be an operator node. *)
Lemma select_ops_ops (s : State) (op_nodes : list nat)
    (ws : gmap string (list nat)) (valid : gset nat) :
  select_ops use_cutlass s op_nodes = Ok (ws, valid) →
  ∀ x, x ∈ op_nodes → is_op_at (nodes s) x.
Proof.
  intros Hsel x Hx. apply select_ops_inv in Hsel as (v0 & Hc & _).
  destruct (ofoldl_ok_each _ _ _ _ Hc x Hx) as (a1 & a2 & Hstep).
  unfold classify_step, node_at in Hstep.
  destruct (nodes s !! x) as [n |] eqn:Hn; simpl in Hstep; [| done].
  exists n. split; [done |]. by destruct (IsOp n).
Qed.

Lemma commit_loop_quiet (valid_ops : gset nat) (block_desc : option nat)
    (op_nodes : list nat) (s0 s' : State) (r : outcome unit) :
  cache s0 = ∅ →
  (∀ x, x ∈ op_nodes → is_op_at (nodes s0) x) →
  for_each op_nodes (commit_step layout_int use_cutlass valid_ops block_desc) s0
  = (r, s') →
  activations_kept
    (λ q, ∃ x nx, (x ∈ valid_ops) ∧ nodes s0 !! x = Some nx ∧ q ∈ outputs nx)
    s0 s'.
Proof.
  intros Hc Hops Hrun.
  set (S := λ q, ∃ x nx, (x ∈ valid_ops) ∧ nodes s0 !! x = Some nx ∧ q ∈ outputs nx).
  set (I := λ s : State,
         cache_wf (length (nodes s0)) s
         ∧ (length (nodes s0) ≤ length (nodes s))%nat
         ∧ kept (nodes s0) (nodes s)
         ∧ activations_kept S s0 s).
  assert (Hend : I s'); [| by destruct Hend as (_ & _ & _ & ?)].
  eapply (for_each_invariant I); [| | exact Hrun].
  - intros x s r1 s1 Hx_in (Hwf & Hlen & Hk & Hq) Hstep.
    destruct (Hops x Hx_in) as (n0 & Hx0 & Hop0).
    destruct (Hk x n0 Hx0) as (n & Hx & _ & _ & Houts). specialize (Houts Hop0).
    destruct (commit_step_tracked layout_int use_cutlass (length (nodes s0)) x
                valid_ops block_desc n s s1 r1 Hwf Hlen Hx Hstep)
      as [Hrew Hwf1 _ _ _].
    split; [auto |]. split; [destruct Hrew; lia |].
    split; [eapply kept_trans; [exact Hk | by eapply rewired_kept] |].
    eapply activations_kept_trans; [exact Hq |].
    eapply activations_kept_mono; [| by eapply commit_step_quiet].
    intros q [Hvalid Hout]. exists x, n0. by rewrite <- Houts.
  - split; [| split; [done | split; [apply kept_refl | apply activations_kept_refl]]].
    intros p cv Hp. rewrite Hc in Hp. by rewrite lookup_empty in Hp.
Qed.

(** Whatever the outcome of the pass, a variable that is not persistable
    and is not an output of an operator that the first two loops select
    has the descriptor it had, its declared shape included. *)
Theorem unrelated_activations_keep_their_shape (w : World) (g : Graph)
    (q : nat) (n : Node) (v : VarDesc) :
  w_graph w = Some g → g_nodes g !! q = Some n → desc n = NVar v →
  var_persistable v = false →
  (∀ ws valid_ops x nx,
     select_ops use_cutlass
       (initial_state g (default ∅ (g_param_scope g)) (w_blocks w))
       (TopologySortOperations (g_nodes g)) = Ok (ws, valid_ops) →
     x ∈ valid_ops → g_nodes g !! x = Some nx → q ∉ outputs nx) →
  ∃ n', nodes_after (ApplyImpl layout_int use_cutlass TopologySortOperations w) !! q
        = Some n'
        ∧ desc n' = NVar v.
Proof.
  intros Hg Hq Hd Hp Hnot.
  destruct (ApplyImpl_inv w g Hg)
    as (s' & -> & _ & _ & [[-> _] | (ws & valid & block & r & Hsel & Hrun & _)]).
  - by exists n.
  - apply (commit_loop_quiet valid block _ _ s' r) in Hrun;
      [| done | by eapply select_ops_ops].
    apply (Hrun q n v); try done.
    intros (x & nx & Hx & Hnx & Hout). by eapply Hnot.
Qed.

(** *** Graphs on which the pass runs through *)

Lemma node_stable_refl (x q : nat) (n : Node) : node_stable x q n n.
Proof. unfold node_stable. by destruct (desc n). Qed.

Lemma node_stable_trans (x q : nat) (n1 n2 n3 : Node) :
  node_stable x q n1 n2 → node_stable x q n2 n3 → node_stable x q n1 n3.
Proof.
  unfold node_stable. destruct (desc n1), (desc n2), (desc n3); try done.
  - intros H12 H23 Hq. rewrite H23, H12; done.
  - intros (? & ? & ?) (? & ? & ?). split; [congruence |]. split; [congruence | auto].
Qed.

Lemma node_stable_ranked (x : nat) (s s' : State) (y : nat) :
  (∀ q n, nodes s !! q = Some n →
     ∃ n', nodes s' !! q = Some n' ∧ node_stable x q n n') →
  ranked s y → ranked s' y.
Proof.
  intros Hn (n & v & Hy & Hd & Hr). destruct (Hn y n Hy) as (n' & Hy' & Hst).
  unfold node_stable in Hst. rewrite Hd in Hst.
  destruct (desc n') as [| v'] eqn:Hd'; [done |].
  destruct Hst as (_ & _ & Hrank). exists n', v'. auto.
Qed.

Lemma stable_intro (x : nat) (s s' : State) :
  (∀ q n, nodes s !! q = Some n →
     ∃ n', nodes s' !! q = Some n' ∧ node_stable x q n n') →
  (∀ y, y ∈ vars_shape_nhwc s' → y ∈ vars_shape_nhwc s ∨ ranked s' y) →
  (∀ b, is_Some (blocks s !! b) → is_Some (blocks s' !! b)) →
  (∀ f, filter_ok s f → filter_ok s' f) →
  stable x s s'.
Proof.
  intros Hn Hv Hb Hs. split; try done.
  intros Hrec y Hy. destruct (Hv y Hy) as [Hold | ?]; [| done].
  eapply node_stable_ranked; [exact Hn | by apply Hrec].
Qed.

Lemma stable_refl (x : nat) (s : State) : stable x s s.
Proof.
  split; try done. intros q n Hq. exists n. split; [done | apply node_stable_refl].
Qed.

Lemma stable_trans (x : nat) (s1 s2 s3 : State) :
  stable x s1 s2 → stable x s2 s3 → stable x s1 s3.
Proof.
  intros [Hn Hr Hb Hs] [Hn' Hr' Hb' Hs']. split; auto.
  intros q n Hq. destruct (Hn q n Hq) as (n2 & Hq2 & H12).
  destruct (Hn' q n2 Hq2) as (n3 & Hq3 & H23).
  exists n3. split; [done | by eapply node_stable_trans].
Qed.

Lemma stable_alter (x : nat) (s : State) (p : nat) (f : Node → Node) :
  (∀ n, node_stable x p n (f n)) →
  stable x s (set_nodes (alter f p (nodes s)) s).
Proof.
  intros Hf. apply stable_intro; simpl; try done; [| by left].
  intros q n Hq. destruct (decide (q = p)) as [-> | Hne].
  - exists (f n). by rewrite list_lookup_alter_eq, Hq.
  - exists n. rewrite list_lookup_alter_ne by done.
    split; [done | apply node_stable_refl].
Qed.

Lemma stable_append (x : nat) (s : State) (m : Node) :
  stable x s (set_nodes (nodes s ++ [m]) s).
Proof.
  apply stable_intro; simpl; try done; [| by left].
  intros q n Hq. exists n. split; [by apply lookup_app_l_Some | apply node_stable_refl].
Qed.

Lemma stable_set_blocks (x : nat) (s : State) (bs : list BlockDesc) :
  length bs = length (blocks s) → stable x s (set_blocks bs s).
Proof.
  intros Hl. apply stable_intro; simpl; try done.
  - intros q n Hq. exists n. split; [done | apply node_stable_refl].
  - by left.
  - intros b Hb. apply lookup_lt_is_Some. rewrite Hl. by apply lookup_lt_is_Some.
Qed.

Lemma stable_other (x : nat) (s : State) (c : gmap nat nat) (r : list Request) :
  stable x s (mkState (nodes s) (blocks s) (scope s) c (vars_shape_nhwc s) r).
Proof.
  apply stable_intro; simpl; try done; [| by left].
  intros q n Hq. exists n. split; [done | apply node_stable_refl].
Qed.

Lemma steady_ret (x : nat) {A} (a : A) : steady x (ret a).
Proof. intros s r s' [= <- <-]. apply stable_refl. Qed.

Lemma steady_raise (x : nat) {A} (e : Error) : steady x (raise (A := A) e).
Proof. intros s r s' [= <- <-]. apply stable_refl. Qed.

Lemma steady_read (x : nat) {A} (f : State → outcome A) : steady x (read f).
Proof. intros s r s' [= <- <-]. apply stable_refl. Qed.

Lemma steady_lift (x : nat) {A} (o : outcome A) : steady x (lift o).
Proof. intros s r s' [= <- <-]. apply stable_refl. Qed.

Lemma steady_bind (x : nat) {A B} (m : M A) (k : A → M B) :
  steady x m → (∀ a, steady x (k a)) → steady x (bind m k).
Proof.
  intros Hm Hk s r s' H.
  apply bind_inv in H as [(a & s1 & Hma & Hka) | (e & Hme & ->)].
  - eapply stable_trans; [by eapply Hm | by eapply Hk].
  - by eapply Hm.
Qed.

Lemma steady_when (x : nat) (b : bool) (m : M unit) :
  steady x m → steady x (when b m).
Proof. intros Hm. destruct b; [done | apply steady_ret]. Qed.

Lemma steady_for_each (x : nat) {A} (l : list A) (body : A → M unit) :
  (∀ y, steady x (body y)) → steady x (for_each l body).
Proof.
  intros Hbody. induction l as [| y l IH]; simpl.
  - apply steady_ret.
  - apply steady_bind; [apply Hbody | intros _; apply IH].
Qed.

Lemma steady_update_node (x p : nat) (g : Node → Node) :
  (∀ n, desc (g n) = desc n) → steady x (update_node p g).
Proof.
  intros Hg. unfold update_node. apply steady_bind; [apply steady_read | intros _].
  intros s r s' H. unfold modify in H. simplify_eq.
  apply stable_alter. intros n. unfold node_stable. rewrite Hg.
  by destruct (desc n).
Qed.

Lemma steady_IR_NODE_LINK_TO (x a b : nat) : steady x (IR_NODE_LINK_TO a b).
Proof.
  unfold IR_NODE_LINK_TO. apply steady_bind; [| intros _]; by apply steady_update_node.
Qed.

Lemma steady_IR_NODE_UNLINK (x a b : nat) : steady x (IR_NODE_UNLINK a b).
Proof.
  unfold IR_NODE_UNLINK. apply steady_bind; [| intros _]; by apply steady_update_node.
Qed.

(** The pass edits the descriptor of the operator that it commits only. *)
Lemma steady_update_op (x : nat) (f : OpDesc → OpDesc) : steady x (update_op x f).
Proof.
  unfold update_op. apply steady_bind; [apply steady_read | intros n].
  apply steady_bind; [apply steady_lift | intros _].
  intros s r s' H. unfold modify in H. simplify_eq.
  apply stable_alter. intros m. unfold node_stable, map_op.
  destruct (desc m) eqn:Hd; simpl; [done | by rewrite Hd].
Qed.

Lemma steady_set_shape (x p : nat) (shp : list Z) :
  length shp = 4%nat → steady x (update_var p (λ v, SetShape v shp)).
Proof.
  intros Hl. unfold update_var. apply steady_bind; [apply steady_read | intros n].
  apply steady_bind; [apply steady_lift | intros _].
  intros s r s' H. unfold modify in H. simplify_eq.
  apply stable_alter. intros m. unfold node_stable, map_var.
  destruct (desc m) eqn:Hd; simpl; [by rewrite Hd |].
  split; [done |]. split; [done |]. intros _. by rewrite Hl.
Qed.

Lemma steady_CreateOpNode (x : nat) (d : OpDesc) : steady x (CreateOpNode d).
Proof. intros s r s' [= <- <-]. apply stable_append. Qed.

Lemma steady_CreateVarNode (x : nat) (d : VarDesc) : steady x (CreateVarNode d).
Proof. intros s r s' [= <- <-]. apply stable_append. Qed.

Lemma steady_BlockVar (x b : nat) (v : string) : steady x (BlockVar b v).
Proof.
  intros s r s' H. unfold BlockVar in H.
  destruct (blocks s !! b) as [vars |] eqn:Hb;
    [destruct (vars !! v) eqn:Hv |]; simplify_eq; try apply stable_refl.
  apply stable_set_blocks. by rewrite length_insert.
Qed.

Lemma steady_update_block_var (x b : nat) (v : string) (f : VarDesc → VarDesc) :
  steady x (update_block_var b v f).
Proof.
  unfold update_block_var. apply steady_bind; [apply steady_read | intros vd].
  intros s r s' H. unfold modify in H. simplify_eq.
  apply stable_set_blocks. by rewrite length_alter.
Qed.

Lemma steady_cache_insert (x k v : nat) : steady x (cache_insert k v).
Proof. intros s r s' H. unfold cache_insert, modify in H. simplify_eq. apply stable_other. Qed.

Lemma steady_log_request (x : nat) (rq : Request) : steady x (log_request rq).
Proof. intros s r s' H. unfold log_request, modify in H. simplify_eq. apply stable_other. Qed.

Lemma shape_0231_length (l l' : list Z) : shape_0231 l = Ok l' → length l' = 4%nat.
Proof.
  unfold shape_0231, at_index.
  destruct l as [| a [| b [| c [| d rest]]]]; simpl; try done. by intros [= <-].
Qed.

Lemma TransDataLayout_rank (from to : DataLayout) (t t' : DenseTensor) :
  TransDataLayout from to t = Ok t' → length (dims t') = 4%nat.
Proof.
  unfold TransDataLayout.
  destruct (dims t) as [| n [| c [| h [| w [| ? ?]]]]]; try done.
  repeat case_decide; intros [= <-]; done.
Qed.

Create HintDb steady.

#[local] Hint Resolve steady_IR_NODE_LINK_TO steady_IR_NODE_UNLINK steady_update_op
  steady_CreateOpNode steady_CreateVarNode steady_BlockVar steady_update_block_var
  steady_cache_insert steady_log_request : steady.

Ltac steady_step :=
  lazymatch goal with
  | |- steady _ (bind _ _) => apply steady_bind; [| intros ?]
  | |- steady _ (ret _) => apply steady_ret
  | |- steady _ (raise _) => apply steady_raise
  | |- steady _ (read _) => apply steady_read
  | |- steady _ (lift _) => apply steady_lift
  | |- steady _ (get_node _) => apply steady_read
  | |- steady _ (cache_at _) => apply steady_read
  | |- steady _ (get_block_var _ _) => apply steady_read
  | |- steady _ (when _ _) => apply steady_when
  | |- steady _ (for_each _ _) => apply steady_for_each; intros ?
  | |- steady _ (if ?b then _ else _) => destruct b
  | |- steady _ (match ?x with _ => _ end) => destruct x
  | |- steady _ _ => solve [eauto with steady]
  end.

Lemma steady_InsertLayoutTransOp (x prev : nat)
    (from_layout to_layout : DataLayout) (block_desc : option nat) :
  steady x (InsertLayoutTransOp layout_int prev x from_layout to_layout block_desc).
Proof.
  unfold InsertLayoutTransOp, do_insert, create_transfer, relink.
  repeat steady_step.
Qed.

Lemma steady_commit_attrs (x : nat) : steady x (commit_attrs use_cutlass x).
Proof. unfold commit_attrs. repeat steady_step. Qed.

Lemma steady_permute_filter_var (x : nat) (f : string) (y : nat) :
  steady x (permute_filter_var f y).
Proof.
  intros s r s' H. unfold permute_filter_var in H.
  apply bind_inv in H as [(n & s1 & Hm & H) | (e & Hm & ->)];
    apply get_node_inv in Hm as [-> Hn]; [| apply stable_refl].
  destruct (negb (IsVar n)).
  { unfold raise in H. simplify_eq. apply stable_refl. }
  apply bind_inv in H as [(v & s1 & Hm & H) | (e & Hm & ->)];
    apply lift_inv in Hm as [-> Hv]; [| apply stable_refl].
  destruct (var_persistable v && bool_decide (var_name v = f)); simpl in H.
  - apply bind_inv in H as [(shp & s1 & Hm & H) | (e & Hm & ->)];
      apply lift_inv in Hm as [-> Hshp]; [| apply stable_refl].
    symmetry in Hshp. apply shape_0231_length in Hshp.
    by eapply steady_set_shape.
  - unfold ret in H. simplify_eq. apply stable_refl.
Qed.

Lemma steady_transfer_weight (x : nat) (f : string) : steady x (transfer_weight x f).
Proof.
  intros s r s' H. unfold transfer_weight in H.
  apply bind_inv in H as [(t & s1 & Hm & H) | (e & Hm & ->)];
    apply read_inv in Hm as [-> Ht]; [| apply stable_refl].
  destruct (decide (layout t = kNHWC)) as [| Hl].
  { unfold ret in H. simplify_eq. apply stable_refl. }
  apply bind_inv in H as [(t' & s1 & Hm & H) | (e & Hm & ->)];
    apply lift_inv in Hm as [-> Hc]; [| apply stable_refl].
  symmetry in Hc. apply TransDataLayout_rank in Hc.
  apply bind_inv in H as [([] & s1 & Hm & H) | (e & Hm & ->)];
    unfold modify in Hm; simplify_eq.
  eapply stable_trans.
  - apply (stable_intro x s (set_scope (<[f:=t']> (scope s)) s)); simpl; try done.
    + intros q n Hq. exists n. split; [done | apply node_stable_refl].
    + by left.
    + intros g (tg & Hg & Hr). destruct (decide (g = f)) as [-> | Hne].
      * exists t'. simpl. by rewrite lookup_insert_eq.
      * exists tg. simpl. by rewrite lookup_insert_ne.
  - revert H. generalize (set_scope (<[f:=t']> (scope s)) s) r s'.
    change (steady x
              (let* n := get_node x in for_each (inputs n) (permute_filter_var f))).
    pose proof steady_permute_filter_var. repeat steady_step.
Qed.

Lemma steady_transfer_output (x y : nat) : steady x (transfer_output y).
Proof.
  intros s r s' H. unfold transfer_output in H.
  apply bind_inv in H as [(n & s1 & Hm & H) | (e & Hm & ->)];
    apply get_node_inv in Hm as [-> Hn]; [| apply stable_refl].
  destruct (negb (IsVar n)).
  { unfold raise in H. simplify_eq. apply stable_refl. }
  apply bind_inv in H as [(v & s1 & Hm & H) | (e & Hm & ->)];
    apply lift_inv in Hm as [-> Hv]; [| apply stable_refl].
  destruct (var_persistable v).
  { unfold ret in H. simplify_eq. apply stable_refl. }
  apply bind_inv in H as [(shp & s1 & Hm & H) | (e & Hm & ->)];
    apply lift_inv in Hm as [-> Hshp]; [| apply stable_refl].
  symmetry in Hshp. apply shape_0231_length in Hshp.
  apply bind_inv in H as [([] & s1 & Hm & H) | (e & Hm & ->)];
    [| by eapply steady_set_shape].
  pose proof (steady_set_shape x y shp Hshp _ _ _ Hm) as St.
  apply update_var_inv in Hm as (n' & v' & Hn' & Hd' & ->).
  unfold modify in H. injection H as <- <-.
  eapply stable_trans; [exact St |].
  apply stable_intro; simpl; try done.
  - intros q m Hq. exists m. split; [done | apply node_stable_refl].
  - intros z Hz. apply elem_of_union in Hz as [Hz | Hz]; [| by left].
    apply elem_of_singleton in Hz as ->. right.
    eexists _, _. simpl. rewrite list_lookup_alter_eq, Hn'. simpl.
    split; [done |]. unfold map_var. rewrite Hd'. simpl. split; [done |].
    simpl. by rewrite Hshp.
Qed.

Lemma steady_commit_step (valid_ops : gset nat) (block_desc : option nat) (x : nat) :
  steady x (commit_step layout_int use_cutlass valid_ops block_desc x).
Proof.
  pose proof steady_commit_attrs. pose proof steady_transfer_weight.
  pose proof steady_transfer_output. pose proof steady_InsertLayoutTransOp.
  unfold commit_step, transfer_input, restore_input.
  repeat steady_step.
Qed.

(** What a stable step keeps of a node. *)
Lemma stable_is_var (x : nat) (s s' : State) (y : nat) :
  stable x s s' → is_var_at (nodes s) y → is_var_at (nodes s') y.
Proof.
  intros [Hn _ _ _] (n & Hy & Hk). destruct (Hn y n Hy) as (n' & Hy' & Hst).
  exists n'. split; [done |]. unfold node_stable in Hst. unfold IsOp in *.
  destruct (desc n), (desc n'); done.
Qed.

Lemma stable_is_op (x : nat) (s s' : State) (y : nat) :
  stable x s s' → is_op_at (nodes s) y → is_op_at (nodes s') y.
Proof.
  intros [Hn _ _ _] (n & Hy & Hk). destruct (Hn y n Hy) as (n' & Hy' & Hst).
  exists n'. split; [done |]. unfold node_stable in Hst. unfold IsOp in *.
  destruct (desc n), (desc n'); done.
Qed.

Lemma stable_input_ok (x : nat) (fs : list string) (s s' : State) (y : nat) :
  stable x s s' → input_ok fs s y → input_ok fs s' y.
Proof.
  intros [Hn _ _ _] (n & v & Hy & Hd & Hr). destruct (Hn y n Hy) as (n' & Hy' & Hst).
  unfold node_stable in Hst. rewrite Hd in Hst.
  destruct (desc n') as [| v'] eqn:Hd'; [done |].
  destruct Hst as (Hname & Hpers & Hrank). exists n', v'.
  split; [done |]. split; [done |]. rewrite Hname, Hpers. auto.
Qed.

Lemma stable_output_ok (x : nat) (s s' : State) (y : nat) :
  stable x s s' → output_ok s y → output_ok s' y.
Proof.
  intros [Hn _ _ _] (n & v & Hy & Hd & Hr). destruct (Hn y n Hy) as (n' & Hy' & Hst).
  unfold node_stable in Hst. rewrite Hd in Hst.
  destruct (desc n') as [| v'] eqn:Hd'; [done |].
  destruct Hst as (Hname & Hpers & Hrank). exists n', v'.
  split; [done |]. split; [done |]. rewrite Hpers. auto.
Qed.

Lemma stable_op_desc (x : nat) (s s' : State) (q : nat) (n : Node) (d : OpDesc) :
  stable x s s' → q ≠ x → nodes s !! q = Some n → desc n = NOp d →
  ∃ n', nodes s' !! q = Some n' ∧ desc n' = NOp d.
Proof.
  intros [Hn _ _ _] Hq Hy Hd. destruct (Hn q n Hy) as (n' & Hy' & Hst).
  unfold node_stable in Hst. rewrite Hd in Hst.
  destruct (desc n') as [d' |] eqn:Hd'; [| done].
  exists n'. split; [done |]. by rewrite Hd', (Hst Hq).
Qed.

(** *** Steps that run through *)

Lemma for_each_succeeds {A} (I : State → Prop) (l : list A) (body : A → M unit) :
  (∀ y s, y ∈ l → I s → ∃ s', body y s = (Ok tt, s') ∧ I s') →
  ∀ s, I s → ∃ s', for_each l body s = (Ok tt, s') ∧ I s'.
Proof.
  induction l as [| y l IH]; intros Hbody s HI; simpl.
  - by exists s.
  - destruct (Hbody y s ltac:(by left) HI) as (s1 & Hrun & HI1).
    rewrite (bind_eq _ _ _ _ _ Hrun).
    apply IH; [| done]. intros; apply Hbody; [by right | done].
Qed.

Lemma long_shape_0231 (l : list Z) :
  (4 ≤ length l)%nat → ∃ l', shape_0231 l = Ok l'.
Proof.
  intros Hl. destruct l as [| a [| b [| c [| d rest]]]]; simpl in Hl; try lia.
  by eexists.
Qed.

Lemma long_shape_transfers (from_layout : DataLayout) (l : list Z) :
  (4 ≤ length l)%nat → ∃ l', transfer_shape from_layout l = Ok l'.
Proof.
  intros Hl. destruct l as [| a [| b [| c [| d rest]]]]; simpl in Hl; try lia.
  unfold transfer_shape. destruct (decide (from_layout = kNCHW)); by eexists.
Qed.

Lemma TransDataLayout_total (t : DenseTensor) :
  length (dims t) = 4%nat → ∃ t', TransDataLayout kNCHW kNHWC t = Ok t'.
Proof.
  intros Hl. unfold TransDataLayout.
  destruct (dims t) as [| n [| c [| h [| w [| ? ?]]]]]; try done.
  rewrite decide_True by done. by eexists.
Qed.

Lemma update_op_succeeds (p : nat) (f : OpDesc → OpDesc) (s : State) :
  is_op_at (nodes s) p → ∃ s', update_op p f s = (Ok tt, s').
Proof.
  intros (n & Hn & Hop). unfold IsOp in Hop.
  destruct (desc n) as [d |] eqn:Hd; [| done].
  eexists. by eapply update_op_eq.
Qed.

Lemma when_update_op_succeeds (b : bool) (p : nat) (f : OpDesc → OpDesc) (s : State) :
  is_op_at (nodes s) p →
  ∃ s', when b (update_op p f) s = (Ok tt, s') ∧ is_op_at (nodes s') p.
Proof.
  intros Hp. destruct b; simpl; [| by exists s].
  destruct (update_op_succeeds p f s Hp) as [s' Hrun]. exists s'. split; [done |].
  eapply stable_is_op; [| exact Hp]. apply (steady_update_op p f _ _ _ Hrun).
Qed.

Lemma commit_attrs_succeeds (s : State) (x : nat) (n : Node) (d : OpDesc)
    (fs : list string) :
  nodes s !! x = Some n → desc n = NOp d →
  attrs_ d !! "use_cudnn" = None
  ∨ (∃ b, attrs_ d !! "use_cudnn" = Some (AttrBool b)) →
  inputs_ d !! "Filter" = Some fs →
  (∀ f, f ∈ fs → filter_ok s f) →
  ∃ s', commit_attrs use_cutlass x s = (Ok tt, s').
Proof.
  intros Hn Hd Hc Hfs Htensors.
  assert (Hop : is_op_at (nodes s) x).
  { exists n. split; [done |]. unfold IsOp. by rewrite Hd. }
  unfold commit_attrs.
  rewrite (bind_eq _ _ _ _ _ (get_node_eq _ _ _ Hn)).
  unfold lift at 1. unfold bind at 1. unfold Op at 1. rewrite Hd.
  assert (Hcut : ∃ c, CutlassIsValid use_cutlass s x = Ok c).
  { unfold CutlassIsValid, node_at, Op. rewrite Hn. simpl. rewrite Hd. simpl.
    unfold HasAttr, GetAttrIfExists_bool.
    destruct Hc as [Hc | [b Hc]]; rewrite Hc.
    - rewrite bool_decide_eq_false_2 by (by intros [? ?]). simpl. eauto.
    - rewrite bool_decide_eq_true_2 by eauto. simpl. eauto. }
  destruct Hcut as [c Hcut].
  unfold read at 1. unfold bind at 1. rewrite Hcut.
  assert (Hfirst : ∃ s1,
            (if c
             then when (negb (HasAttr d "fuse_alpha"))
                    (update_op x (λ d, SetAttr d "fuse_alpha" (AttrFloat 0)))
             else
               let* cudnn := read (λ s, cuDNNIsValid s x) in
               if cudnn
               then when (HasAttr d "use_cudnn")
                      (update_op x (λ d, SetAttr d "use_cudnn" (AttrBool true)))
               else ret tt) s = (Ok tt, s1)
            ∧ is_op_at (nodes s1) x).
  { destruct c; [by apply when_update_op_succeeds |].
    assert (Hcudnn : ∃ b, cuDNNIsValid s x = Ok b).
    { unfold cuDNNIsValid, node_at, Op, Input. rewrite Hn. simpl. rewrite Hd. simpl.
      rewrite Hfs. simpl. by apply cudnn_filters_total. }
    destruct Hcudnn as [b Hcudnn].
    unfold read at 1. unfold bind at 1. rewrite Hcudnn.
    destruct b; [by apply when_update_op_succeeds | by exists s]. }
  destruct Hfirst as (s1 & Hrun & Hop1).
  rewrite (bind_eq _ _ _ _ _ Hrun). by apply update_op_succeeds.
Qed.

Lemma permute_filter_var_succeeds (fs : list string) (f : string) (y : nat)
    (s : State) :
  f ∈ fs → input_ok fs s y → ∃ s', permute_filter_var f y s = (Ok tt, s').
Proof.
  intros Hf (n & v & Hn & Hd & Hrank). unfold permute_filter_var.
  rewrite (bind_eq _ _ _ _ _ (get_node_eq _ _ _ Hn)).
  unfold IsVar. rewrite Hd. simpl.
  unfold lift at 1. unfold bind at 1. unfold Var at 1. rewrite Hd.
  destruct (var_persistable v && bool_decide (var_name v = f)) eqn:Hc; simpl;
    [| by eexists].
  apply andb_true_iff in Hc as [_ Hname]. apply bool_decide_eq_true in Hname.
  destruct (long_shape_0231 (var_shape v)) as [shp Hshp].
  { apply Hrank. right. by rewrite Hname. }
  unfold lift at 1. unfold bind at 1. rewrite Hshp.
  eexists. by eapply update_var_eq.
Qed.

Lemma transfer_weight_succeeds (fs : list string) (x : nat) (f : string)
    (n : Node) (s : State) :
  f ∈ fs → filter_ok s f → nodes s !! x = Some n →
  (∀ y, y ∈ inputs n → input_ok fs s y) →
  ∃ s', transfer_weight x f s = (Ok tt, s').
Proof.
  intros Hf (t & Ht & Hrank) Hn Hins. unfold transfer_weight.
  unfold read at 1. unfold bind at 1. unfold FindLocalVar. rewrite Ht.
  destruct (decide (layout t = kNHWC)); [by eexists |].
  destruct (TransDataLayout_total t Hrank) as [t' Hconv].
  unfold lift at 1. unfold bind at 1. rewrite Hconv.
  unfold modify at 1. unfold bind at 1.
  set (s1 := set_scope _ s).
  assert (Hn1 : nodes s1 !! x = Some n) by done.
  rewrite (bind_eq _ _ _ _ _ (get_node_eq _ _ _ Hn1)).
  destruct (for_each_succeeds (λ s, ∀ y, y ∈ inputs n → input_ok fs s y)
              (inputs n) (permute_filter_var f)) with (s := s1)
    as (s2 & Hrun & _); [| done | by exists s2].
  intros y s2 Hy HI.
  destruct (permute_filter_var_succeeds fs f y s2 Hf (HI y Hy)) as [s3 Hrun].
  exists s3. split; [done |]. intros z Hz.
  eapply stable_input_ok; [| by apply HI].
  apply (steady_permute_filter_var x f y _ _ _ Hrun).
Qed.

Lemma transfer_output_succeeds (y : nat) (s : State) :
  output_ok s y → ∃ s', transfer_output y s = (Ok tt, s').
Proof.
  intros (n & v & Hn & Hd & Hrank). unfold transfer_output.
  rewrite (bind_eq _ _ _ _ _ (get_node_eq _ _ _ Hn)).
  unfold IsVar. rewrite Hd. simpl.
  unfold lift at 1. unfold bind at 1. unfold Var at 1. rewrite Hd.
  destruct (var_persistable v) eqn:Hp; [by eexists |].
  destruct (long_shape_0231 (var_shape v)) as [shp Hshp]; [by apply Hrank |].
  unfold lift at 1. unfold bind at 1. rewrite Hshp.
  rewrite (bind_eq _ _ _ _ _ (update_var_eq _ _ _ _ _ Hn Hd)).
  by eexists.
Qed.

(** A request in a supported direction for a producer of four sizes or
    more is served, from the cache or by a new conversion. *)
Lemma InsertLayoutTransOp_succeeds (n0 : nat) (s : State) (prev next b : nat)
    (from_layout to_layout : DataLayout) :
  valid_direction from_layout to_layout →
  is_Some (blocks s !! b) → cache_wf n0 s →
  ranked s prev → is_op_at (nodes s) next →
  ∃ s', InsertLayoutTransOp layout_int prev next from_layout to_layout (Some b) s
        = (Ok tt, s').
Proof.
  intros Hdir [vars Hb] Hwf (pn & pv & Hp & Hd & Hrank) (nn & Hnext & Hop).
  unfold IsOp in Hop. destruct (desc nn) as [nd |] eqn:Hnd; [| done].
  destruct (cache s !! prev) as [cv |] eqn:Hcache.
  - rewrite (InsertLayoutTransOp_unfold layout_int s prev next from_layout to_layout
               (Some b) pn pv Hdir Hp Hd).
    set (s0 := set_requests _ s).
    unfold do_insert. unfold lift at 1. unfold bind at 1.
    unfold read at 1. unfold bind at 1. simpl cache. rewrite Hcache.
    unfold ret at 1. unfold bind at 1.
    destruct (Hwf prev cv Hcache) as (cn & a & rest & Hcv & _ & Hin & _ & an & Ha & _).
    eexists. eapply (relink_eq s0 prev next cv a pn cn nn nd rest); done.
  - destruct (long_shape_transfers from_layout (var_shape pv) Hrank) as [shp Hshp].
    destruct (InsertLayoutTransOp_first layout_int s prev next b from_layout to_layout
                vars pn nn pv nd shp Hdir Hb Hcache Hp Hd Hshp Hnext Hnd)
      as (s' & Hrun & _).
    by exists s'.
Qed.

Lemma transfer_input_succeeds (n0 : nat) (fs : list string) (b x y : nat)
    (s : State) :
  is_Some (blocks s !! b) → cache_wf n0 s →
  input_ok fs s y → is_op_at (nodes s) x →
  ∃ s', transfer_input layout_int (Some b) x y s = (Ok tt, s').
Proof.
  intros Hb Hwf (n & v & Hn & Hd & Hrank) Hx. unfold transfer_input.
  rewrite (bind_eq _ _ _ _ _ (get_node_eq _ _ _ Hn)).
  unfold IsVar. rewrite Hd. simpl.
  unfold lift at 1. unfold bind at 1. unfold Var at 1. rewrite Hd.
  destruct (var_persistable v) eqn:Hp; [by eexists |].
  unfold read at 1. unfold bind at 1.
  destruct (bool_decide (y ∈ vars_shape_nhwc s)); [by eexists |].
  eapply InsertLayoutTransOp_succeeds; try done; [by left |].
  exists n, v. auto.
Qed.

Lemma restore_input_succeeds (n0 : nat) (b x y : nat) (s : State) :
  is_Some (blocks s !! b) → cache_wf n0 s → recorded_ranked s →
  is_var_at (nodes s) y → is_op_at (nodes s) x →
  ∃ s', restore_input layout_int (Some b) x y s = (Ok tt, s').
Proof.
  intros Hb Hwf Hrec (n & Hn & Hvar) Hx. unfold restore_input.
  rewrite (bind_eq _ _ _ _ _ (get_node_eq _ _ _ Hn)).
  unfold IsVar. unfold IsOp in Hvar. destruct (desc n) eqn:Hd; [done |]. simpl.
  unfold read at 1. unfold bind at 1.
  destruct (bool_decide (y ∈ vars_shape_nhwc s)) eqn:Hy; simpl; [| by eexists].
  apply bool_decide_eq_true in Hy.
  eapply InsertLayoutTransOp_succeeds; try done; [by right | by apply Hrec].
Qed.

Lemma steady_transfer_input (block_desc : option nat) (x y : nat) :
  steady x (transfer_input layout_int block_desc x y).
Proof.
  pose proof steady_InsertLayoutTransOp. unfold transfer_input. repeat steady_step.
Qed.

Lemma steady_restore_input (block_desc : option nat) (x y : nat) :
  steady x (restore_input layout_int block_desc x y).
Proof.
  pose proof steady_InsertLayoutTransOp. unfold restore_input. repeat steady_step.
Qed.

(** The attributes are all that lines 218-229 write of a descriptor. *)
Lemma commit_attrs_keeps_inputs (x : nat) (s s' : State) (n : Node) (d : OpDesc) :
  nodes s !! x = Some n → desc n = NOp d →
  commit_attrs use_cutlass x s = (Ok tt, s') →
  ∃ n' d', nodes s' !! x = Some n' ∧ desc n' = NOp d' ∧ inputs_ d' = inputs_ d.
Proof.
  intros Hn Hd H.
  set (P := λ s : State,
         ∃ n' d', nodes s !! x = Some n' ∧ desc n' = NOp d'
                  ∧ inputs_ d' = inputs_ d).
  assert (Hset : ∀ key a s1 s2,
            update_op x (λ d, SetAttr d key a) s1 = (Ok tt, s2) → P s1 → P s2).
  { intros key a s1 s2 Hrun (n1 & d1 & Hn1 & Hd1 & Hi1).
    apply update_op_inv in Hrun as (n2 & d2 & Hn2 & Hd2 & ->).
    assert (n2 = n1) as -> by congruence.
    assert (d2 = d1) as -> by congruence.
    eexists _, _. simpl. rewrite list_lookup_alter_eq, Hn1. simpl.
    split; [done |]. unfold map_op. rewrite Hd1. simpl. done. }
  assert (Hwhen : ∀ b key a s1 s2,
            when b (update_op x (λ d, SetAttr d key a)) s1 = (Ok tt, s2) →
            P s1 → P s2).
  { intros b key a s1 s2 Hrun HP. destruct b; simpl in Hrun; [by eapply Hset |].
    unfold ret in Hrun. by simplify_eq. }
  assert (HP : P s) by (by exists n, d).
  unfold commit_attrs in H.
  apply bind_ok_inv in H as (n0 & s1 & Hm & H). apply get_node_inv in Hm as [-> _].
  apply bind_ok_inv in H as (d0 & s1 & Hm & H). apply lift_inv in Hm as [-> _].
  apply bind_ok_inv in H as (c & s1 & Hm & H). apply read_inv in Hm as [-> _].
  apply bind_ok_inv in H as ([] & s1 & Hm & H).
  eapply Hset; [exact H |].
  destruct c; [by eapply Hwhen |].
  apply bind_ok_inv in Hm as (b & s2 & Hm' & Hm). apply read_inv in Hm' as [-> _].
  destruct b; [by eapply Hwhen |]. unfold ret in Hm. by simplify_eq.
Qed.

(** The commit of a ready operator of the final set runs through. *)
Lemma commit_valid_succeeds (n0 b x : nat) (s : State) (n : Node) (d : OpDesc)
    (fs : list string) :
  cache_wf n0 s → (n0 ≤ length (nodes s))%nat → is_Some (blocks s !! b) →
  nodes s !! x = Some n → desc n = NOp d →
  attrs_ d !! "use_cudnn" = None
  ∨ (∃ c, attrs_ d !! "use_cudnn" = Some (AttrBool c)) →
  inputs_ d !! "Filter" = Some fs →
  (∀ f, f ∈ fs → filter_ok s f) →
  (∀ y, y ∈ inputs n → input_ok fs s y) →
  (∀ y, y ∈ outputs n → output_ok s y) →
  ∃ s',
    (commit_attrs use_cutlass x ;;
     let* n := get_node x in
     let* op_desc := lift (Op n) in
     let* filter_names := lift (Input op_desc "Filter") in
     for_each filter_names (transfer_weight x) ;;
     let* n := get_node x in
     for_each (outputs n) transfer_output ;;
     let* n := get_node x in
     for_each (inputs n) (transfer_input layout_int (Some b) x)) s
    = (Ok tt, s').
Proof.
  intros Hwf Hlen Hb Hn Hd Hcudnn Hfs Htensors Hins Houts.
  set (V := list_to_set (outputs n) : gset nat).
  (* attributes *)
  destruct (commit_attrs_succeeds s x n d fs Hn Hd Hcudnn Hfs Htensors)
    as [s1 Hrun1].
  rewrite (bind_eq _ _ _ _ _ Hrun1).
  pose proof (commit_attrs_settled use_cutlass x V _ _ _ Hrun1) as S1.
  pose proof (steady_commit_attrs x _ _ _ Hrun1) as T1.
  destruct (commit_attrs_keeps_inputs x s s1 n d Hn Hd Hrun1)
    as (n1 & d1 & Hn1 & Hd1 & Hi1).
  rewrite (bind_eq _ _ _ _ _ (get_node_eq _ _ _ Hn1)).
  unfold lift at 1. unfold bind at 1. unfold Op at 1. rewrite Hd1.
  unfold lift at 1. unfold bind at 1. unfold Input at 1. rewrite Hi1, Hfs.
  (* weights *)
  destruct (for_each_succeeds
              (λ s2, settled V s s2 ∧ stable x s s2) fs (transfer_weight x))
    with (s := s1) as (s2 & Hrun2 & S2 & T2); [| done |].
  { intros f sa Hf [Sa Ta].
    destruct (st_nodes _ _ _ Sa x n Hn) as (na & Hna & _ & Hia & _).
    destruct (transfer_weight_succeeds fs x f na sa Hf) as [sb Hrun];
      [by apply (sb_scope _ _ _ Ta), Htensors | done | |].
    { intros y Hy. rewrite Hia in Hy.
      eapply stable_input_ok; [exact Ta | by apply Hins]. }
    exists sb. split; [done |]. split.
    - eapply settled_trans; [exact Sa | by eapply transfer_weight_settled].
    - eapply stable_trans; [exact Ta | by eapply steady_transfer_weight]. }
  rewrite (bind_eq _ _ _ _ _ Hrun2). clear Hrun1 Hrun2 S1 T1 Hn1 Hd1 Hi1 n1 d1 s1.
  (* outputs *)
  destruct (st_nodes _ _ _ S2 x n Hn) as (n2 & Hn2 & _ & _ & Ho2).
  rewrite (bind_eq _ _ _ _ _ (get_node_eq _ _ _ Hn2)). rewrite Ho2. clear Hn2 Ho2 n2.
  destruct (for_each_succeeds
              (λ s3, settled V s s3 ∧ stable x s s3) (outputs n) transfer_output)
    with (s := s2) as (s3 & Hrun3 & S3 & T3); [| done |].
  { intros y sa Hy [Sa Ta].
    destruct (transfer_output_succeeds y sa) as [sb Hrun].
    { eapply stable_output_ok; [exact Ta | by apply Houts]. }
    exists sb. split; [done |]. split.
    - eapply settled_trans; [exact Sa |].
      eapply settled_weaken; [| by eapply transfer_output_settled].
      unfold V. set_solver.
    - eapply stable_trans; [exact Ta | by eapply steady_transfer_output]. }
  rewrite (bind_eq _ _ _ _ _ Hrun3). clear Hrun3 S2 T2 s2.
  (* inputs *)
  destruct (st_nodes _ _ _ S3 x n Hn) as (n3 & Hn3 & Hk3 & Hi3 & _).
  rewrite (bind_eq _ _ _ _ _ (get_node_eq _ _ _ Hn3)). rewrite Hi3.
  assert (Hx3 : is_op_at (nodes s3) x).
  { exists n3. split; [done |]. rewrite Hk3. unfold IsOp. by rewrite Hd. }
  assert (Hwf3 : cache_wf n0 s3).
  { by apply (tr_wf _ _ _ _ _ _ (settled_tracked n0 x V (λ _, True) s s3 S3)). }
  assert (Hlen3 : (n0 ≤ length (nodes s3))%nat) by (by rewrite (st_length _ _ _ S3)).
  destruct (for_each_succeeds
              (λ s4, cache_wf n0 s4 ∧ (n0 ≤ length (nodes s4))%nat
                     ∧ is_op_at (nodes s4) x ∧ stable x s s4)
              (inputs n) (transfer_input layout_int (Some b) x))
    with (s := s3) as (s4 & Hrun4 & _); [| done | by exists s4].
  intros y sa Hy (Hwfa & Hlena & Hxa & Ta).
  destruct (transfer_input_succeeds n0 fs b x y sa) as [sb Hrun]; try done.
  { by apply (sb_blocks _ _ _ Ta). }
  { eapply stable_input_ok; [exact Ta | by apply Hins]. }
  exists sb. split; [done |].
  pose proof (transfer_input_tracked layout_int n0 x y (Some b) (λ _, True)
                sa sb (Ok tt) Hwfa Hlena ltac:(done) Hrun) as [Hrew Hwfb _ _ _].
  split; [auto |]. split; [destruct Hrew; lia |].
  split; [by eapply rewired_is_op |].
  eapply stable_trans; [exact Ta | by eapply steady_transfer_input].
Qed.

(** The visit of a ready operator outside the final set runs through. *)
Lemma restore_loop_succeeds (n0 b x : nat) (s : State) (n : Node) :
  cache_wf n0 s → (n0 ≤ length (nodes s))%nat → is_Some (blocks s !! b) →
  recorded_ranked s → nodes s !! x = Some n → IsOp n = true →
  (∀ y, y ∈ inputs n → is_var_at (nodes s) y) →
  ∃ s', for_each (inputs n) (restore_input layout_int (Some b) x) s = (Ok tt, s').
Proof.
  intros Hwf Hlen Hb Hrec Hn Hop Hins.
  destruct (for_each_succeeds
              (λ s1, cache_wf n0 s1 ∧ (n0 ≤ length (nodes s1))%nat
                     ∧ is_op_at (nodes s1) x ∧ stable x s s1)
              (inputs n) (restore_input layout_int (Some b) x))
    with (s := s) as (s1 & Hrun & _); [| | by exists s1].
  - intros y sa Hy (Hwfa & Hlena & Hxa & Ta).
    destruct (restore_input_succeeds n0 b x y sa) as [sb Hrun]; try done.
    { by apply (sb_blocks _ _ _ Ta). }
    { by apply (sb_recorded _ _ _ Ta). }
    { eapply stable_is_var; [exact Ta | by apply Hins]. }
    exists sb. split; [done |].
    pose proof (restore_input_tracked layout_int n0 x y (Some b) (λ _, True)
                  sa sb (Ok tt) Hwfa Hlena ltac:(done) Hrun) as [Hrew Hwfb _ _ _].
    split; [auto |]. split; [destruct Hrew; lia |].
    split; [by eapply rewired_is_op |].
    eapply stable_trans; [exact Ta | by eapply steady_restore_input].
  - split; [done |]. split; [done |]. split; [by exists n | apply stable_refl].
Qed.

Lemma op_ready_preserved (n0 x y : nat) (s s' : State) :
  rewired n0 x (nodes s) (nodes s') → stable x s s' →
  y ≠ x → (y < n0)%nat → op_ready s y → op_ready s' y.
Proof.
  intros [_ Hrew] Hst Hne Hy (n & d & Hn & Hd & Hins & Houts & Htarget).
  destruct (Hrew y n Hn) as (n' & Hn' & _ & _ & Hedges).
  assert (Hop : IsOp n = true) by (unfold IsOp; by rewrite Hd).
  destruct (Hedges Hop) as [Ho Hi]. specialize (Hi Hne Hy).
  destruct (stable_op_desc x s s' y n d Hst Hne Hn Hd) as (n'' & Hn'' & Hd'').
  assert (n'' = n') as -> by congruence.
  exists n', d. split; [done |]. split; [done |]. rewrite Hi, Ho.
  split; [intros z Hz; eapply stable_is_var; eauto |].
  split; [intros z Hz; eapply stable_is_var; eauto |].
  intros Ht. destruct (Htarget Ht) as [Hfmt Hnchw]. split; [done |].
  intros Hf. destruct (Hnchw Hf) as [Hcudnn (fs & Hfs & Htensors & Hin & Hout)].
  split; [done |]. exists fs. split; [done |].
  split; [intros f Hfin; by apply (sb_scope _ _ _ Hst), Htensors |].
  split; [intros z Hz; eapply stable_input_ok; eauto |].
  intros z Hz. eapply stable_output_ok; eauto.
Qed.

(** One turn of the third loop on a ready state. *)
Lemma commit_step_runs (valid_ops : gset nat) (n0 b x : nat) (rest : list nat)
    (s : State) :
  x ∉ rest →
  ready valid_ops n0 b (x :: rest) s →
  ∃ s', commit_step layout_int use_cutlass valid_ops (Some b) x s = (Ok tt, s')
        ∧ ready valid_ops n0 b rest s'.
Proof.
  intros Hfresh [Hwf Hlen Hb Hrec Hops Hvalid].
  destruct (Hops x ltac:(by left)) as [Hx0 Hready].
  pose proof Hready as (n & d & Hn & Hd & Hins & Houts & Htarget).
  assert (Hop : IsOp n = true) by (unfold IsOp; by rewrite Hd).
  assert (Hrun : ∃ s', commit_step layout_int use_cutlass valid_ops (Some b) x s
                       = (Ok tt, s')).
  { unfold commit_step.
    rewrite (bind_eq _ _ _ _ _ (get_node_eq _ _ _ Hn)). rewrite Hop. simpl.
    destruct (bool_decide (x ∈ valid_ops)) eqn:Hv.
    - apply bool_decide_eq_true in Hv.
      destruct (Hvalid x ltac:(by left) Hv) as (n' & d' & Hn' & Hd' & Ht & Hfmt).
      assert (n' = n) as -> by congruence.
      assert (d' = d) as -> by congruence.
      destruct (Htarget Ht) as [_ Hnchw].
      destruct (Hnchw Hfmt) as [Hcudnn (fs & Hfs & Htensors & Hin & Hout)].
      by eapply (commit_valid_succeeds n0 b x s n d fs).
    - rewrite (bind_eq _ _ _ _ _ (get_node_eq _ _ _ Hn)).
      by eapply (restore_loop_succeeds n0 b x s n). }
  destruct Hrun as [s' Hrun]. exists s'. split; [done |].
  pose proof (commit_step_tracked layout_int use_cutlass n0 x valid_ops (Some b)
                n s s' (Ok tt) Hwf Hlen Hn Hrun) as [Hrew Hwf' _ _ _].
  pose proof (steady_commit_step valid_ops (Some b) x _ _ _ Hrun) as Hst.
  split.
  - auto.
  - destruct Hrew. lia.
  - by apply (sb_blocks _ _ _ Hst).
  - by apply (sb_recorded _ _ _ Hst).
  - intros y Hy. destruct (Hops y ltac:(by right)) as [Hy0 Hyr].
    split; [done |]. eapply op_ready_preserved; eauto.
    intros ->. done.
  - intros y Hy Hyv.
    destruct (Hvalid y ltac:(by right) Hyv) as (n' & d' & Hn' & Hd' & Ht & Hfmt).
    destruct (stable_op_desc x s s' y n' d' Hst) as (n'' & Hn'' & Hd''); try done.
    { intros ->. done. }
    by exists n'', d'.
Qed.

Lemma commit_loop_runs (valid_ops : gset nat) (n0 b : nat) (op_nodes : list nat) :
  NoDup op_nodes →
  ∀ s, ready valid_ops n0 b op_nodes s →
    ∃ s', for_each op_nodes
            (commit_step layout_int use_cutlass valid_ops (Some b)) s
          = (Ok tt, s').
Proof.
  induction op_nodes as [| x rest IH]; intros Hnd s Hready; simpl.
  - by exists s.
  - apply NoDup_cons in Hnd as [Hfresh Hnd].
    destruct (commit_step_runs valid_ops n0 b x rest s Hfresh Hready)
      as (s1 & Hrun & Hready1).
    rewrite (bind_eq _ _ _ _ _ Hrun). by apply IH.
Qed.

Lemma op_ready_analysable (s : State) (x : nat) : op_ready s x → analysable s x.
Proof.
  intros (n & d & Hn & Hd & _ & _ & Htarget). exists n, d.
  split; [done |]. split; [done |].
  intros Ht. destruct (Htarget Ht) as [Hfmt Hnchw]. split; [done |].
  intros Hf. destruct (Hnchw Hf) as [Hcudnn (fs & Hfs & Htensors & _)].
  split; [| done]. exists fs. done.
Qed.

(** On a runnable graph the pass returns: the three loops run through,
    whatever operators the analysis selects, and the pass reports their
    number. *)
Theorem pass_runs_through (w : World) (g : Graph) (sc : gmap string DenseTensor) :
  w_graph w = Some g → g_main g = true → g_param_scope g = Some sc →
  runnable g sc (w_blocks w) (TopologySortOperations (g_nodes g)) →
  ∃ k w', ApplyImpl layout_int use_cutlass TopologySortOperations w = (Ok k, w').
Proof.
  intros Hg Hmain Hsc [Hnd (first & rest & n & d & b & Hops & Hfirst & Hd & Hblock & Hb) Hready].
  unfold ApplyImpl. rewrite Hg, Hmain, Hsc. simpl.
  set (s0 := initial_state g sc (w_blocks w)) in *.
  destruct (select_ops_total s0 (TopologySortOperations (g_nodes g)))
    as (ws & valid & Hsel).
  { intros p Hp. by apply op_ready_analysable, Hready. }
  destruct (commit_loop_runs valid (length (g_nodes g)) b
              (TopologySortOperations (g_nodes g)) Hnd s0) as [s' Hrun].
  { split.
    - intros p cv Hp. unfold s0 in Hp. simpl in Hp. by rewrite lookup_empty in Hp.
    - done.
    - done.
    - intros y Hy. unfold s0 in Hy. simpl in Hy. by apply elem_of_empty in Hy.
    - intros x Hx. split; [| by apply Hready].
      destruct (Hready x Hx) as (nx & _ & Hnx & _). by eapply lookup_lt_Some.
    - intros x Hx Hv.
      destruct (select_ops_sound _ _ _ _ Hsel x Hv)
        as (_ & nx & dx & Hnx & Hdx & Ht & Hfmt & _).
      by exists nx, dx. }
  rewrite Hops in *.
  rewrite (bind_eq _ _ s0 s0 n) by by apply get_node_eq.
  unfold lift at 1. unfold bind at 1. unfold Op at 1. rewrite Hd, Hblock.
  unfold run_loops.
  rewrite (bind_eq _ _ s0 s0 (ws, valid)) by (unfold read; by rewrite Hsel).
  cbn [snd]. rewrite (bind_eq _ _ _ _ _ Hrun). unfold ret. eauto.
Qed.

(** *** The edges that cross a layout boundary *)

Lemma conserved_persistable_at (E : gset nat) (s s' : State) (y : nat) :
  conserved E s s' → persistable_at s y → persistable_at s' y.
Proof.
  intros Hcons (n & v & Hn & Hd & Hp).
  destruct (cs_nodes _ _ _ Hcons y n Hn) as (n' & Hn' & [_ Hid] & _).
  rewrite Hd in Hid. destruct (desc n') as [| v'] eqn:Hd'; [done |].
  destruct Hid as (_ & _ & Hpers). exists n', v'. rewrite Hpers. done.
Qed.

Lemma cache_fed_wf (n0 : nat) (prev : option nat) (s : State) :
  cache_fed_but prev n0 s → cache_wf n0 s.
Proof.
  intros Hfed p cv Hp.
  destruct (Hfed p cv Hp)
    as (_ & cn & a & rest & an & Hcn & Hvar & Hin & Ha & Han & Hop & _).
  exists cn, a, rest. split; [done |]. split; [done |]. split; [done |].
  split; [done |]. by exists an.
Qed.

Lemma cache_fed_settled (V : gset nat) (n0 : nat) (s s' : State) :
  settled V s s' → cache_fed n0 s → cache_fed n0 s'.
Proof.
  intros [_ Hnodes Hcache _ _ _] Hfed p cv Hp. rewrite Hcache in Hp.
  destruct (Hfed p cv Hp)
    as (Hge & cn & a & rest & an & Hcn & Hvar & Hin & Ha & Han & Hop & Hread).
  destruct (Hnodes cv cn Hcn) as (cn' & Hcn' & Hk & Hi & _).
  destruct (Hnodes a an Han) as (an' & Han' & Hk' & Hi' & _).
  split; [done |]. exists cn', a, rest, an'.
  split; [done |]. split; [congruence |]. split; [congruence |].
  split; [done |]. split; [done |]. split; [congruence |].
  intros Hne. rewrite Hi'. by apply Hread.
Qed.

(** Lines 54-78, when they run through: the operator and the variable are
    appended and linked, and the cache maps the producer to the variable. *)
Lemma create_transfer_ok_inv (prev b : nat) (from_layout to_layout : DataLayout)
    (in_var_name out_var_name : string) (s s' : State) :
  create_transfer layout_int prev from_layout to_layout b in_var_name out_var_name s
  = (Ok tt, s') →
  ∃ opn varn bs,
    IsOp opn = true ∧ IsOp varn = false ∧ inputs varn = []
    ∧ s' = mkState (with_transfer (nodes s) opn varn) bs (scope s)
             (<[prev := S (length (nodes s))]> (cache s))
             (vars_shape_nhwc s) (requests s).
Proof.
  intros H. unfold create_transfer in H.
  unfold CreateOpNode at 1 in H. unfold bind at 1 in H.
  set (opn := mkNode _ _ [] []) in H.
  assert (Hstart : set_nodes (nodes s ++ [opn]) s
                   = set_blocks (blocks s) (set_nodes (nodes s ++ [opn]) s))
    by done.
  rewrite Hstart in H. clear Hstart. generalize dependent (blocks s). intros bs0 H.
  apply bind_ok_inv in H as ([] & s1 & Hm & H).
  apply BlockVar_inv in Hm as [bs1 ->].
  apply bind_ok_inv in H as ([] & s1 & Hm & H).
  apply update_block_var_inv in Hm as [bs2 ->].
  apply bind_ok_inv in H as (pn & s1 & Hm & H). apply get_node_inv in Hm as [-> _].
  apply bind_ok_inv in H as (pv & s1 & Hm & H). apply lift_inv in Hm as [-> _].
  apply bind_ok_inv in H as ([] & s1 & Hm & H).
  apply update_block_var_inv in Hm as [bs3 ->].
  apply bind_ok_inv in H as (pn' & s1 & Hm & H). apply get_node_inv in Hm as [-> _].
  apply bind_ok_inv in H as (pv' & s1 & Hm & H). apply lift_inv in Hm as [-> _].
  apply bind_ok_inv in H as (shp & s1 & Hm & H). apply lift_inv in Hm as [-> _].
  apply bind_ok_inv in H as ([] & s1 & Hm & H).
  apply update_block_var_inv in Hm as [bs4 ->].
  apply bind_ok_inv in H as (vd & s1 & Hm & H). apply read_inv in Hm as [-> _].
  unfold CreateVarNode at 1 in H. unfold bind at 1 in H. simpl in H.
  set (varn := mkNode (var_name vd) (NVar vd) [] []) in H.
  set (ns2 := (nodes s ++ [opn]) ++ [varn]) in H.
  assert (Hlen2 : length ns2 = S (S (length (nodes s)))).
  { unfold ns2. rewrite !length_app. simpl. lia. }
  assert (Hlen1 : length (nodes s ++ [opn]) = S (length (nodes s))).
  { rewrite length_app. simpl. lia. }
  rewrite Hlen1 in H.
  apply bind_ok_inv in H as ([] & s1 & Hm & H).
  rewrite IR_NODE_LINK_TO_eq in Hm; simpl.
  2:{ apply lookup_lt_is_Some. rewrite Hlen2. lia. }
  2:{ apply lookup_lt_is_Some. rewrite Hlen2. lia. }
  simplify_eq. unfold cache_insert, modify in H. simplify_eq.
  exists opn, varn, bs4. done.
Qed.

(** Lines 80-85, when they run through on a cache whose entries are fed,
    the one of [prev] possibly excepted: afterwards every entry is fed, and
    the consumer has lost the producer and gained the cached conversion
    output. *)
Lemma relink_ok_fed (n0 x prev : nat) (s s' : State) :
  cache_fed_but (Some prev) n0 s →
  (x < n0)%nat → (prev < n0)%nat → is_var_at (nodes s) prev →
  relink prev x s = (Ok tt, s') →
  cache_fed n0 s' ∧ cache s' = cache s
  ∧ ∃ nx nx' cv,
      nodes s !! x = Some nx ∧ nodes s' !! x = Some nx'
      ∧ cache s !! prev = Some cv
      ∧ inputs nx' = filter (λ y, y ≠ prev) (inputs nx ++ [cv]).
Proof.
  intros Hfed Hx Hprev (pn & Hpn & Hpvar) H. pose proof H as Hrun.
  unfold relink in H.
  apply bind_ok_inv in H as (pn' & s1 & Hm & H). apply get_node_inv in Hm as [-> _].
  apply bind_ok_inv in H as (cv & s1 & Hm & H). apply cache_at_inv in Hm as [-> Hcv].
  apply bind_ok_inv in H as (cn' & s1 & Hm & H). apply get_node_inv in Hm as [-> _].
  apply bind_ok_inv in H as ([] & s1 & Hm & _).
  apply update_op_inv in Hm as (nx & nd & Hnx & Hnd & _).
  destruct (Hfed prev cv Hcv)
    as (Hcv0 & cn & a & rest & an & Hcn & Hcvar & Hin & Ha & Han & Haop & _).
  rewrite (relink_eq s prev x cv a pn cn nx nd rest) in Hrun by eauto.
  injection Hrun as <-. simpl.
  assert (Hxp : x ≠ prev).
  { intros ->. unfold IsOp in Hpvar. assert (pn = nx) as -> by congruence.
    by rewrite Hnd in Hpvar. }
  assert (Hcva : cv ≠ a) by (intros ->; congruence).
  split; [| split; [done |]].
  - intros p cvp Hp. simpl in Hp.
    destruct (Hfed p cvp Hp)
      as (Hge & cnp & ap & restp & anp & Hcnp & Hvarp & Hinp & Hap & Hanp & Hopp
          & Hread).
    split; [done |].
    assert (Hcvpa : cvp ≠ a) by (intros ->; congruence).
    assert (Hapcv : ap ≠ cv) by (intros ->; congruence).
    assert (∃ cnp', rewire prev cv a x (name_ pn) (name_ cn) (nodes s) !! cvp
                    = Some cnp'
                    ∧ IsOp cnp' = false ∧ inputs cnp' = ap :: restp)
      as (cnp' & Hcnp' & Hvarp' & Hinp').
    { destruct (decide (cvp = cv)) as [-> | Hne].
      - rewrite rewire_lookup_out, Hcnp by lia. simpl. eauto.
      - rewrite rewire_lookup_other, Hcnp by lia. eauto. }
    assert (∃ anp', rewire prev cv a x (name_ pn) (name_ cn) (nodes s) !! ap
                    = Some anp'
                    ∧ IsOp anp' = true ∧ p ∈ inputs anp')
      as (anp' & Hanp' & Hopp' & Hread').
    { destruct (decide (ap = a)) as [-> | Hne].
      - rewrite rewire_lookup_op, Hanp by lia. simpl.
        eexists. split; [done |]. split; [done |]. simpl.
        apply elem_of_app. destruct (decide (p = prev)) as [-> | Hpp].
        + right. by left.
        + left. apply Hread. congruence.
      - rewrite rewire_lookup_other, Hanp by lia.
        exists anp. split; [done |]. split; [done |].
        apply Hread. intros [= ->].
        assert (cvp = cv) as -> by congruence.
        assert (cnp = cn) as -> by congruence.
        rewrite Hin in Hinp. by simplify_eq. }
    exists cnp', ap, restp, anp'. done.
  - exists nx. eexists _, cv.
    rewrite rewire_lookup_next, Hnx by lia. simpl.
    split; [done |]. split; [done |]. split; [done |].
    unfold map_op. by destruct (desc nx).
Qed.

(** A request that is served takes the producer out of the inputs of the
    consumer and puts the cached conversion output in its place; the cache
    keeps its entries and stays fed. *)
Lemma InsertLayoutTransOp_ok_effect (n0 : nat) (s s' : State) (x prev : nat)
    (from_layout to_layout : DataLayout) (block_desc : option nat) :
  cache_fed n0 s → (n0 ≤ length (nodes s))%nat →
  (x < n0)%nat → (prev < n0)%nat →
  valid_direction from_layout to_layout →
  InsertLayoutTransOp layout_int prev x from_layout to_layout block_desc s
  = (Ok tt, s') →
  cache_fed n0 s'
  ∧ (∀ p cv, cache s !! p = Some cv → cache s' !! p = Some cv)
  ∧ ∃ nx nx' cv,
      nodes s !! x = Some nx ∧ nodes s' !! x = Some nx'
      ∧ cache s' !! prev = Some cv ∧ (n0 ≤ cv)%nat
      ∧ inputs nx' = filter (λ y, y ≠ prev) (inputs nx ++ [cv]).
Proof.
  intros Hfed Hlen Hx Hprevlt Hdir H.
  unfold InsertLayoutTransOp, log_request in H.
  unfold modify at 1 in H. unfold bind at 1 in H.
  set (sL := set_requests _ s) in H.
  assert (Hbody : ∀ out_suffix,
            (let* pn := get_node prev in
             let* pv := lift (Var pn) in
             do_insert layout_int prev x from_layout to_layout block_desc
                       (var_name pv) (var_name pv +:+ out_suffix)) sL = (Ok tt, s') →
            cache_fed n0 s'
            ∧ (∀ p cv, cache s !! p = Some cv → cache s' !! p = Some cv)
            ∧ ∃ nx nx' cv,
                nodes s !! x = Some nx ∧ nodes s' !! x = Some nx'
                ∧ cache s' !! prev = Some cv ∧ (n0 ≤ cv)%nat
                ∧ inputs nx' = filter (λ y, y ≠ prev) (inputs nx ++ [cv])).
  { intros sfx Hb.
    apply bind_ok_inv in Hb as (pn & s1 & Hm & Hb).
    apply get_node_inv in Hm as [-> Hpn].
    apply bind_ok_inv in Hb as (pv & s1 & Hm & Hb).
    apply lift_inv in Hm as [-> Hpv].
    assert (Hpvar : IsOp pn = false).
    { unfold Var in Hpv. unfold IsOp. by destruct (desc pn). }
    unfold do_insert in Hb.
    apply bind_ok_inv in Hb as (b & s1 & Hm & Hb). apply lift_inv in Hm as [-> _].
    apply bind_ok_inv in Hb as (hit & s1 & Hm & Hb). apply read_inv in Hm as [-> Hhit].
    apply bind_ok_inv in Hb as ([] & s1 & Hm & Hb).
    assert (Hmid : cache_fed_but (Some prev) n0 s1
                   ∧ (∀ p cv, cache s !! p = Some cv → cache s1 !! p = Some cv)
                   ∧ (∀ q n, nodes s !! q = Some n → nodes s1 !! q = Some n)).
    { destruct hit as [cv0 |].
      - unfold ret in Hm. simplify_eq.
        split; [| done]. intros p cv Hp.
        destruct (Hfed p cv Hp)
          as (Hge & cn & a & rest & an & Hcn & Hvar & Hin & Ha & Han & Hop & Hread).
        split; [done |]. exists cn, a, rest, an.
        split; [done |]. split; [done |]. split; [done |]. split; [done |].
        split; [done |]. split; [done |]. intros _. by apply Hread.
      - apply create_transfer_ok_inv in Hm
          as (opn & varn & bs & Hopn & Hvarn & Hvin & ->).
        simplify_eq. simpl in *.
        assert (Hold : ∀ q n, nodes s !! q = Some n →
                  with_transfer (nodes s) opn varn !! q = Some n).
        { intros q n Hq. rewrite with_transfer_lookup_old; [done |].
          by eapply lookup_lt_Some. }
        split; [| split; [| done]].
        + intros p cv Hp. simpl in Hp.
          destruct (decide (p = prev)) as [-> | Hne].
          * rewrite lookup_insert_eq in Hp. simplify_eq. split; [lia |].
            eexists _, (length (nodes s)), [], _. simpl.
            rewrite with_transfer_lookup_var, with_transfer_lookup_op.
            split; [done |]. split; [done |].
            split; [simpl; by rewrite Hvin |]. split; [done |].
            split; [done |]. split; [done |]. intros Hne. done.
          * rewrite lookup_insert_ne in Hp by done.
            destruct (Hfed p cv Hp)
              as (Hge & cn & a & rest & an & Hcn & Hvar & Hin & Ha & Han & Hop
                  & Hread).
            split; [done |]. exists cn, a, rest, an. simpl.
            split; [by apply Hold |]. split; [done |]. split; [done |].
            split; [done |]. split; [by apply Hold |]. split; [done |].
            intros _. by apply Hread.
        + intros p cv Hp. simpl. rewrite lookup_insert_ne; [done |].
          intros <-. simpl in Hhit. congruence. }
    destruct Hmid as (Hfed1 & Hmono1 & Hold1).
    destruct (relink_ok_fed n0 x prev s1 s' Hfed1 Hx Hprevlt)
      as (Hfed' & Hcache' & nx1 & nx' & cv & Hnx1 & Hnx' & Hcv & Hi);
      [exists pn; split; [by apply Hold1 | done] | done |].
    split; [done |].
    split; [intros p c Hp; rewrite Hcache'; by apply Hmono1 |].
    assert (Hlt : (x < length (nodes s))%nat) by lia.
    destruct (lookup_lt_is_Some_2 (nodes s) x Hlt) as [nx Hnx].
    assert (nx1 = nx) as -> by (apply Hold1 in Hnx; congruence).
    exists nx, nx', cv. split; [done |]. split; [done |].
    split; [by rewrite Hcache' |]. split; [| done].
    by destruct (Hfed1 prev cv Hcv) as [? _]. }
  destruct Hdir as [[-> ->] | [-> ->]].
  - rewrite decide_True in H by done. by eapply Hbody.
  - rewrite decide_False in H by (intros [? ?]; done).
    rewrite decide_True in H by done. by eapply Hbody.
Qed.

Lemma transfer_input_ok_cases (block_desc : option nat) (x y : nat) (s s' : State) :
  transfer_input layout_int block_desc x y s = (Ok tt, s') →
  (s' = s ∧ (y ∈ vars_shape_nhwc s ∨ persistable_at s y))
  ∨ InsertLayoutTransOp layout_int y x kNCHW kNHWC block_desc s = (Ok tt, s').
Proof.
  intros H. unfold transfer_input in H.
  apply bind_ok_inv in H as (n & s1 & Hm & H). apply get_node_inv in Hm as [-> Hn].
  destruct (negb (IsVar n)); [done |].
  apply bind_ok_inv in H as (v & s1 & Hm & H). apply lift_inv in Hm as [-> Hv].
  destruct (var_persistable v) eqn:Hp.
  { unfold ret in H. simplify_eq. left. split; [done |]. right.
    exists n, v. unfold Var in Hv. destruct (desc n); by simplify_eq. }
  apply bind_ok_inv in H as (rec & s1 & Hm & H). apply read_inv in Hm as [-> Hrec].
  simplify_eq.
  destruct (bool_decide (y ∈ vars_shape_nhwc s)) eqn:Hy; [| by right].
  apply bool_decide_eq_true in Hy. unfold ret in H. simplify_eq. left. auto.
Qed.

Lemma restore_input_ok_cases (block_desc : option nat) (x y : nat) (s s' : State) :
  restore_input layout_int block_desc x y s = (Ok tt, s') →
  (s' = s ∧ y ∉ vars_shape_nhwc s)
  ∨ InsertLayoutTransOp layout_int y x kNHWC kNCHW block_desc s = (Ok tt, s').
Proof.
  intros H. unfold restore_input in H.
  apply bind_ok_inv in H as (n & s1 & Hm & H). apply get_node_inv in Hm as [-> Hn].
  destruct (negb (IsVar n)); [done |].
  apply bind_ok_inv in H as (rec & s1 & Hm & H). apply read_inv in Hm as [-> Hrec].
  simplify_eq.
  destruct (bool_decide (y ∈ vars_shape_nhwc s)) eqn:Hy; simpl in H; [by right |].
  apply bool_decide_eq_false in Hy. unfold ret in H. simplify_eq. left. auto.
Qed.

Lemma for_each_ok_prefix {A} (I : list A → State → Prop) (body : A → M unit)
    (l0 : list A) :
  (∀ pre y post s s', l0 = pre ++ y :: post →
     I pre s → body y s = (Ok tt, s') → I (pre ++ [y]) s') →
  ∀ post pre s s', l0 = pre ++ post →
    I pre s → for_each post body s = (Ok tt, s') → I l0 s'.
Proof.
  intros Hbody. induction post as [| y post IH]; intros pre s s' Hsplit HI H.
  - simpl in H. unfold ret in H. simplify_eq. by rewrite app_nil_r.
  - apply for_each_cons_ok in H as (s1 & H1 & H2).
    apply (IH (pre ++ [y]) s1 s'); [by rewrite <- app_assoc | | exact H2].
    by eapply Hbody.
Qed.

Lemma request_loop_boundary (P : State → nat → Prop) (body : nat → M unit)
    (block_desc : option nat) (s0 : State) (x : nat) (ins0 : list nat)
    (c0 : gmap nat nat) :
  (x < length (nodes s0))%nat →
  (∀ y, y ∈ ins0 → (y < length (nodes s0))%nat) →
  (∀ y s1 s2, body y s1 = (Ok tt, s2) →
     (s2 = s1 ∧ P s1 y)
     ∨ ∃ from_layout to_layout,
         valid_direction from_layout to_layout
         ∧ InsertLayoutTransOp layout_int y x from_layout to_layout block_desc s1
           = (Ok tt, s2)) →
  (∀ prev from_layout to_layout s1 s2 y,
     cache_wf (length (nodes s0)) s1 → (length (nodes s0) ≤ length (nodes s1))%nat →
     InsertLayoutTransOp layout_int prev x from_layout to_layout block_desc s1
     = (Ok tt, s2) →
     P s1 y → P s2 y) →
  ∀ ins s s',
    (∀ y, y ∈ ins → y ∈ ins0) →
    request_inv P s0 x ins0 c0 [] s →
    for_each ins body s = (Ok tt, s') →
    request_inv P s0 x ins0 c0 ins s'.
Proof.
  intros Hx Hclosed Hbody Hpres ins s s' Hsub Hinv Hrun.
  apply (for_each_ok_prefix (request_inv P s0 x ins0 c0) body ins) with
    (post := ins) (pre := []) (s := s); [| done | done | done].
  clear s s' Hinv Hrun.
  intros done y post s s' Hsplit
    (Hfed & Hlen & Hmono & nx & Hnx & Hins & Hrep) Hrun.
  assert (Hy0 : y ∈ ins0).
  { apply Hsub. rewrite Hsplit. apply elem_of_app. right. by left. }
  pose proof (Hclosed y Hy0) as Hylt.
  destruct (Hbody y s s' Hrun) as [[-> HP] | (fl & tl & Hdir & Hreq)].
  - split; [done |]. split; [done |]. split; [done |].
    exists nx. split; [done |]. split; [| done]. intros y' Hy' Hlt.
    destruct (Hins y' Hy' Hlt) as [Hin0 Hdone]. split; [done |].
    intros Hin. apply elem_of_app in Hin as [Hin | Hin]; [by apply Hdone |].
    apply list_elem_of_singleton in Hin as ->. done.
  - pose proof (cache_fed_wf _ _ _ Hfed) as Hwf.
    pose proof (InsertLayoutTransOp_tracked layout_int (length (nodes s0)) x y fl tl
                  block_desc (λ _, True) s s' (Ok tt) Hwf Hlen I Hreq)
      as [[Hl _] _ _ _ _].
    destruct (InsertLayoutTransOp_ok_effect (length (nodes s0)) s s' x y fl tl
                block_desc Hfed Hlen Hx Hylt Hdir Hreq)
      as (Hfed' & Hmono' & nx1 & nx' & cv & Hnx1 & Hnx' & Hcv & Hge & Hi).
    assert (nx1 = nx) as -> by congruence.
    split; [done |]. split; [lia |]. split; [by auto |].
    exists nx'. split; [done |]. split.
    + intros y' Hy' Hlt.
      rewrite Hi in Hy'. apply list_elem_of_filter in Hy' as [Hne Hy'].
      apply elem_of_app in Hy' as [Hy' | Hy'].
      2:{ apply list_elem_of_singleton in Hy' as ->. lia. }
      destruct (Hins y' Hy' Hlt) as [Hin0 Hdone]. split; [done |].
      intros Hin. apply elem_of_app in Hin as [Hin | Hin].
      * eapply Hpres; [done | done | exact Hreq | by apply Hdone].
      * by apply list_elem_of_singleton in Hin.
    + intros y' Hy'0. pose proof (Hclosed y' Hy'0) as Hy'lt.
      destruct (decide (y' = y)) as [-> | Hne].
      * right. split.
        { rewrite Hi. intros [? _]%list_elem_of_filter. done. }
        exists cv. split; [done |]. rewrite Hi. apply list_elem_of_filter.
        split; [lia |]. apply elem_of_app. right. by left.
      * destruct (Hrep y' Hy'0) as [Hin | (Hnot & cv' & Hc & Hcin)].
        { left. rewrite Hi. apply list_elem_of_filter. split; [done |].
          apply elem_of_app. by left. }
        right. split.
        { rewrite Hi. intros [_ Hin]%list_elem_of_filter.
          apply elem_of_app in Hin as [Hin | Hin]; [done |].
          apply list_elem_of_singleton in Hin. lia. }
        exists cv'. split; [by apply Hmono' |].
        rewrite Hi. apply list_elem_of_filter.
        destruct (Hfed y' cv' Hc) as [Hge' _].
        split; [lia |]. apply elem_of_app. by left.
Qed.

Lemma recorded_or_persistable_kept (n0 x prev y : nat)
    (from_layout to_layout : DataLayout) (block_desc : option nat) (s s' : State) :
  cache_wf n0 s → (n0 ≤ length (nodes s))%nat →
  InsertLayoutTransOp layout_int prev x from_layout to_layout block_desc s
  = (Ok tt, s') →
  (y ∈ vars_shape_nhwc s ∨ persistable_at s y) →
  y ∈ vars_shape_nhwc s' ∨ persistable_at s' y.
Proof.
  intros Hwf Hlen Hreq [Hrec | Hp].
  - left.
    rewrite (tracked_vars_eq n0 x (λ _, True) s s'); [done |].
    by eapply InsertLayoutTransOp_tracked.
  - right. eapply (conserved_persistable_at ∅); [| exact Hp].
    by eapply conservative_InsertLayoutTransOp.
Qed.

Lemma not_recorded_kept (n0 x prev y : nat)
    (from_layout to_layout : DataLayout) (block_desc : option nat) (s s' : State) :
  cache_wf n0 s → (n0 ≤ length (nodes s))%nat →
  InsertLayoutTransOp layout_int prev x from_layout to_layout block_desc s
  = (Ok tt, s') →
  y ∉ vars_shape_nhwc s → y ∉ vars_shape_nhwc s'.
Proof.
  intros Hwf Hlen Hreq Hnot.
  rewrite (tracked_vars_eq n0 x (λ _, True) s s'); [done |].
  by eapply InsertLayoutTransOp_tracked.
Qed.

Lemma request_inv_start (P : State → nat → Prop) (s0 s : State) (x : nat)
    (n : Node) :
  cache_fed (length (nodes s0)) s → (length (nodes s0) ≤ length (nodes s))%nat →
  nodes s !! x = Some n →
  request_inv P s0 x (inputs n) (cache s) [] s.
Proof.
  intros Hfed Hlen Hx. split; [done |]. split; [done |]. split; [done |].
  exists n. split; [done |]. split; [| by left].
  intros y Hy _. split; [done |]. intros Hnil. by apply elem_of_nil in Hnil.
Qed.

(** The commit of the operator [x], when it runs through, leaves a boundary
    that is in order at [x], with every input of [x] kept or rerouted. *)
Lemma commit_step_boundary (valid_ops : gset nat) (block_desc : option nat)
    (s0 s s' : State) (x : nat) (nx0 n : Node) :
  cache_fed (length (nodes s0)) s → (length (nodes s0) ≤ length (nodes s))%nat →
  nodes s0 !! x = Some nx0 →
  (∀ y, y ∈ inputs nx0 → (y < length (nodes s0))%nat) →
  nodes s !! x = Some n → inputs n = inputs nx0 →
  commit_step layout_int use_cutlass valid_ops block_desc x s = (Ok tt, s') →
  boundary_ok valid_ops s0 s' x ∧ replaced_ok s0 s' x
  ∧ cache_fed (length (nodes s0)) s'
  ∧ (∀ p cv, cache s !! p = Some cv → cache s' !! p = Some cv).
Proof.
  intros Hfed Hlen Hx0 Hclosed Hx Hins H.
  assert (Hlt : (x < length (nodes s0))%nat) by by eapply lookup_lt_Some.
  unfold commit_step in H.
  rewrite (bind_eq _ _ _ _ _ (get_node_eq _ _ _ Hx)) in H.
  destruct (negb (IsOp n)); [done |].
  destruct (bool_decide (x ∈ valid_ops)) eqn:Hvalid.
  - apply bool_decide_eq_true in Hvalid.
    set (V := list_to_set (outputs n) : gset nat).
    apply bind_ok_inv in H as ([] & s1 & Hm & H).
    pose proof (commit_attrs_settled _ _ V _ _ _ Hm) as S1. clear Hm.
    apply bind_ok_inv in H as (n1 & s1' & Hm & H). apply get_node_inv in Hm as [-> _].
    apply bind_ok_inv in H as (d1 & s1' & Hm & H). apply lift_inv in Hm as [-> _].
    apply bind_ok_inv in H as (fs & s1' & Hm & H). apply lift_inv in Hm as [-> _].
    apply bind_ok_inv in H as ([] & s2 & Hm & H).
    assert (S2 : settled V s s2).
    { eapply settled_trans; [exact S1 |].
      eapply for_each_settled; [| exact Hm].
      intros. by eapply transfer_weight_settled. }
    clear Hm S1.
    destruct (st_nodes _ _ _ S2 x n Hx) as (n2 & Hx2 & _ & Hi2 & Ho2).
    rewrite (bind_eq _ _ _ _ _ (get_node_eq _ _ _ Hx2)) in H.
    apply bind_ok_inv in H as ([] & s3 & Hm & H).
    assert (S3 : settled V s s3).
    { eapply settled_trans; [exact S2 |].
      eapply for_each_settled; [| exact Hm].
      intros y sa ra sb Hy Hrun.
      eapply settled_weaken; [| by eapply transfer_output_settled].
      unfold V. rewrite <- Ho2. set_solver. }
    clear Hm S2 Hx2 Hi2 Ho2 n2.
    destruct (st_nodes _ _ _ S3 x n Hx) as (n3 & Hx3 & _ & Hi3 & Ho3).
    rewrite (bind_eq _ _ _ _ _ (get_node_eq _ _ _ Hx3)) in H.
    assert (Hfed3 : cache_fed (length (nodes s0)) s3) by by eapply cache_fed_settled.
    assert (Hlen3 : (length (nodes s0) ≤ length (nodes s3))%nat)
      by by rewrite (st_length _ _ _ S3).
    assert (Hi30 : inputs n3 = inputs nx0) by congruence.
    destruct (request_loop_boundary
                (λ s y, y ∈ vars_shape_nhwc s ∨ persistable_at s y)
                (transfer_input layout_int block_desc x) block_desc s0 x
                (inputs n3) (cache s3) Hlt) with (ins := inputs n3) (s := s3) (s' := s')
      as (Hfed' & _ & Hmono' & nx' & Hnx' & Hall & Hrep);
      [by rewrite Hi30 | | | done | by apply request_inv_start | exact H |].
    + intros y s4 s5 Hrun.
      destruct (transfer_input_ok_cases block_desc x y s4 s5 Hrun) as [? | Hreq];
        [by left |].
      right. exists kNCHW, kNHWC. split; [by left | done].
    + intros. by eapply recorded_or_persistable_kept.
    + rewrite (st_cache _ _ _ S3) in Hmono'.
      split; [| split; [| done]].
      * intros nx y Hnx Hy Hylt. assert (nx = nx') as -> by congruence.
        destruct (Hall y Hy Hylt) as [Hin0 HP].
        split; [exists nx0; by rewrite <- Hi30 |]. split; [| done].
        intros _. by apply HP.
      * intros n0x y Hn0x Hy. assert (n0x = nx0) as -> by congruence.
        exists nx'. split; [done |]. apply Hrep. by rewrite Hi30.
  - apply bool_decide_eq_false in Hvalid.
    rewrite (bind_eq _ _ _ _ _ (get_node_eq _ _ _ Hx)) in H.
    destruct (request_loop_boundary
                (λ s y, y ∉ vars_shape_nhwc s)
                (restore_input layout_int block_desc x) block_desc s0 x
                (inputs n) (cache s) Hlt) with (ins := inputs n) (s := s) (s' := s')
      as (Hfed' & _ & Hmono' & nx' & Hnx' & Hall & Hrep);
      [by rewrite Hins | | | done | by apply request_inv_start | exact H |].
    + intros y s4 s5 Hrun.
      destruct (restore_input_ok_cases block_desc x y s4 s5 Hrun) as [? | Hreq];
        [by left |].
      right. exists kNHWC, kNCHW. split; [by right | done].
    + intros. by eapply not_recorded_kept.
    + split; [| split; [| done]].
      * intros nx y Hnx Hy Hylt. assert (nx = nx') as -> by congruence.
        destruct (Hall y Hy Hylt) as [Hin0 HP].
        split; [exists nx0; by rewrite <- Hins |]. split; [done |].
        intros _. by apply HP.
      * intros n0x y Hn0x Hy. assert (n0x = nx0) as -> by congruence.
        exists nx'. split; [done |]. apply Hrep. by rewrite Hins.
Qed.

Lemma boundary_inv_step (valid_ops : gset nat) (block_desc : option nat)
    (s0 s s' : State) (op_nodes pre post : list nat) (x : nat) :
  NoDup op_nodes →
  (∀ op, op ∈ op_nodes → is_op_at (nodes s0) op) →
  topological (nodes s0) op_nodes →
  closed_ops (nodes s0) op_nodes →
  op_nodes = pre ++ x :: post →
  boundary_inv valid_ops s0 pre s →
  commit_step layout_int use_cutlass valid_ops block_desc x s = (Ok tt, s') →
  boundary_inv valid_ops s0 (pre ++ [x]) s'.
Proof.
  intros Hnd Hops Htopo Hclosed Hsplit (Hinv & Hfed & Hbound) Hrun.
  pose proof (commit_inv_step layout_int use_cutlass valid_ops block_desc s0 s s'
                op_nodes pre post x (Ok tt) Hnd Hops Htopo Hsplit Hinv Hrun) as Hinv'.
  destruct Hinv as [Hwf Hlen Hnodes _ _].
  assert (Hx_in : x ∈ op_nodes).
  { rewrite Hsplit. apply elem_of_app. right. by left. }
  assert (Hx_pre : x ∉ pre).
  { rewrite Hsplit in Hnd. apply NoDup_app in Hnd as (_ & Hdisj & _).
    intros Hin. apply (Hdisj x Hin). by left. }
  destruct (Hops x Hx_in) as (nx0 & Hx0 & Hop0).
  destruct (Hnodes x nx0 Hx0) as (n & Hx & Hk & Hedges).
  destruct (Hedges Hop0) as [Hout Hin]. specialize (Hin Hx_pre).
  pose proof (commit_step_tracked layout_int use_cutlass (length (nodes s0)) x
                valid_ops block_desc n s s' (Ok tt) Hwf Hlen Hx Hrun)
    as [Hrew _ Hmono Hvbound _].
  pose proof (conservative_commit_step valid_ops block_desc x s (Ok tt) s' Hrun)
    as Hcons.
  destruct (commit_step_boundary valid_ops block_desc s0 s s' x nx0 n Hfed Hlen Hx0
              (λ y Hy, Hclosed x nx0 y Hx_in Hx0 Hy) Hx Hin Hrun)
    as (Hbx & Hrx & Hfed' & Hcmono).
  split; [done |]. split; [done |].
  intros z Hz. apply elem_of_app in Hz as [Hz | Hz].
  2:{ apply list_elem_of_singleton in Hz as ->. done. }
  assert (Hzx : z ≠ x) by (intros ->; done).
  destruct (Hops z) as (nz0 & Hz0 & Hzop).
  { rewrite Hsplit. apply elem_of_app. by left. }
  destruct (Hnodes z nz0 Hz0) as (nz & Hznow & Hzk & _).
  destruct Hrew as [_ Hrew].
  destruct (Hrew z nz Hznow) as (nz' & Hz' & _ & _ & Hzedges).
  destruct (Hzedges ltac:(congruence)) as [_ Hzin].
  assert (Hzlt : (z < length (nodes s0))%nat) by by eapply lookup_lt_Some.
  specialize (Hzin Hzx Hzlt).
  destruct (Hbound z Hz) as [Hbz Hrz].
  split.
  - intros nz'' y Hnz'' Hy Hylt. assert (nz'' = nz') as -> by congruence.
    rewrite Hzin in Hy.
    destruct (Hbz nz y Hznow Hy Hylt) as ((n0z & Hn0z & Hy0) & Hsel & Hunsel).
    split; [by exists n0z |]. split.
    + intros Hzv. destruct (Hsel Hzv) as [Hrec | Hp]; [left; by apply Hmono |].
      right. by eapply conserved_persistable_at.
    + intros Hzv Hrec. apply Hvbound in Hrec.
      apply elem_of_union in Hrec as [Hrec | Hrec]; [by apply (Hunsel Hzv) |].
      destruct (decide (x ∈ valid_ops)); [| set_solver].
      apply elem_of_list_to_set in Hrec. rewrite Hout in Hrec.
      assert (n0z = nz0) as -> by congruence.
      apply list_elem_of_lookup in Hz as [i Hi].
      assert (Hi' : op_nodes !! i = Some z).
      { rewrite Hsplit. by apply lookup_app_l_Some. }
      assert (Hj : op_nodes !! length pre = Some x).
      { rewrite Hsplit. by apply list_lookup_middle. }
      pose proof (Htopo _ _ _ _ _ _ _ Hj Hi' Hx0 Hz0 Hrec Hy0) as Hlt.
      apply lookup_lt_Some in Hi. lia.
  - intros n0z y Hn0z Hy.
    destruct (Hrz n0z y Hn0z Hy) as (nz1 & Hnz1 & Hcase).
    assert (nz1 = nz) as -> by congruence.
    exists nz'. split; [done |]. unfold rerouted in *. rewrite Hzin.
    destruct Hcase as [? | (Hnot & cv & Hc & Hcin)]; [by left |].
    right. split; [done |]. exists cv. split; [by apply Hcmono | done].
Qed.

(** When the third loop runs through on a graph whose operators come in
    topological order and read nodes of the graph, then for every visited
    operator: every edge left from a variable of that graph into the
    operator was there before the pass; into an operator that runs NHWC it
    comes from a recorded variable or a persistable one, and into an
    operator that stays NCHW it comes from a variable that is not recorded;
    and every input that the operator had before the pass either is still
    its input or has been replaced by the output of a created
    [transfer_layout] operator that reads it. *)
Theorem remaining_inputs_match_the_layout (s0 s' : State) (op_nodes : list nat)
    (valid_ops : gset nat) (block_desc : option nat) :
  NoDup op_nodes →
  (∀ op, op ∈ op_nodes → is_op_at (nodes s0) op) →
  topological (nodes s0) op_nodes →
  closed_ops (nodes s0) op_nodes →
  cache s0 = ∅ → vars_shape_nhwc s0 = ∅ → requests s0 = [] →
  for_each op_nodes (commit_step layout_int use_cutlass valid_ops block_desc) s0
  = (Ok tt, s') →
  ∀ x, x ∈ op_nodes →
    boundary_ok valid_ops s0 s' x
    ∧ ∀ n0x y, nodes s0 !! x = Some n0x → y ∈ inputs n0x →
        ∃ nx, nodes s' !! x = Some nx
          ∧ (y ∈ inputs nx ∨ converted_for (length (nodes s0)) s' nx y).
Proof.
  intros Hnd Hops Htopo Hclosed Hc Hv Hr Hrun.
  assert (Hfinal : boundary_inv valid_ops s0 op_nodes s').
  { apply (for_each_ok_prefix (boundary_inv valid_ops s0)
             (commit_step layout_int use_cutlass valid_ops block_desc) op_nodes)
      with (post := op_nodes) (pre := []) (s := s0); [| done | | done].
    - intros pre y post s s1 Hsplit Hinv Hstep. by eapply boundary_inv_step.
    - split; [by apply commit_inv_start |]. split.
      + intros p cv Hp. rewrite Hc in Hp. by rewrite lookup_empty in Hp.
      + intros z Hz. by apply elem_of_nil in Hz. }
  destruct Hfinal as (_ & Hfed & Hall).
  assert (Hcons : conserved valid_ops s0 s').
  { eapply conservative_for_each; [| exact Hrun].
    intros y. apply conservative_commit_step. }
  intros x Hx. destruct (Hall x Hx) as [Hbx Hrx]. split; [done |].
  intros n0x y Hn0x Hy. destruct (Hrx n0x y Hn0x Hy) as (nx & Hnx & Hcase).
  exists nx. split; [done |].
  destruct Hcase as [? | (Hnot & cv & Hcv & Hcin)]; [by left |].
  right. split; [done |].
  destruct (Hfed y cv Hcv)
    as (Hge & cn & a & rest & an & Hcn & Hvar & Hin & Ha & Han & Hop & Hread).
  pose proof (cs_created _ _ _ Hcons a an Han Ha) as Hmade.
  unfold created in Hmade. unfold IsOp in Hop.
  destruct (desc an) as [ad |] eqn:Had; [| done].
  exists cv, cn, a, rest, an, ad.
  split; [done |]. split; [done |]. split; [done |]. split; [done |].
  split; [unfold IsVar; unfold IsOp in Hvar; by destruct (desc cn) |].
  split; [done |]. split; [done |]. split; [done |]. split; [done |].
  split; [done |]. by apply Hread.
Qed.

End PassBehaviour.

(** *** Instances on the example inputs *)

Lemma one_conversion_for_all_consumers_witness :
  ∃ s' opn od varn,
    for_each [1; 2]
      (λ c, InsertLayoutTransOp example_layout_int 0 c kNCHW kNHWC (Some 0)) fanout_state
    = (Ok tt, s')
    ∧ drop (length (nodes fanout_state)) (nodes s') = [opn; varn]
    ∧ desc opn = NOp od ∧ type_ od = "transfer_layout"
    ∧ IsVar varn = true
    ∧ cache s' = <[0 := S (length (nodes fanout_state))]> (cache fanout_state)
    ∧ ∀ c nn nd, c ∈ [1; 2] → nodes fanout_state !! c = Some nn → desc nn = NOp nd →
        ∃ nn' nd', nodes s' !! c = Some nn' ∧ desc nn' = NOp nd'
          ∧ renamed_slots "x" (name_ varn) (inputs_ nd) (inputs_ nd').
Proof.
  apply (one_conversion_for_all_consumers example_layout_int fanout_state 0 0
           kNCHW kNHWC ∅ (var_node "x" [1; 16; 32; 32]%Z false [] [1; 2])
           (mkVarDesc "x" [1; 16; 32; 32]%Z 5 false) [1; 32; 32; 16]%Z [1; 2]).
  - left. done.
  - reflexivity.
  - reflexivity.
  - reflexivity.
  - reflexivity.
  - reflexivity.
  - discriminate.
  - apply (bool_decide_unpack _). vm_compute. exact I.
  - intros c Hc. apply elem_of_cons in Hc as [-> | Hc].
    + eexists. split; reflexivity.
    + apply elem_of_cons in Hc as [-> | Hc].
      * eexists. split; reflexivity.
      * by apply elem_of_nil in Hc.
Defined.

(** The two consumers of the example after the two requests: both name the
    one conversion output where they named the producer. *)
Example fanout_consumers_are_renamed :
  slot_of (nodes (snd (for_each [1; 2]
                         (λ c, InsertLayoutTransOp example_layout_int 0 c kNCHW kNHWC
                                 (Some 0)) fanout_state))) 1 "Input"
  = Some ["x_nchw_to_nhwc"]
  ∧ slot_of (nodes (snd (for_each [1; 2]
                           (λ c, InsertLayoutTransOp example_layout_int 0 c kNCHW kNHWC
                                   (Some 0)) fanout_state))) 2 "Input"
    = Some ["x_nchw_to_nhwc"]
  ∧ name_ <$> nodes (snd (for_each [1; 2]
                            (λ c, InsertLayoutTransOp example_layout_int 0 c kNCHW kNHWC
                                    (Some 0)) fanout_state)) !! 4
    = Some "x_nchw_to_nhwc".
Proof. repeat split; vm_compute; reflexivity. Qed.

Lemma parallel_edges_per_request_witness :
  ∃ s' pn' opn varn,
    for_each [1; 2]
      (λ c, InsertLayoutTransOp example_layout_int 0 c kNHWC kNCHW (Some 0)) fanout_state
    = (Ok tt, s')
    ∧ nodes s' !! 0 = Some pn'
    ∧ nodes s' !! length (nodes fanout_state) = Some opn
    ∧ nodes s' !! S (length (nodes fanout_state)) = Some varn
    ∧ IsOp opn = true
    ∧ inputs opn = replicate (length [1; 2]) 0
    ∧ outputs pn'
      = filter (λ x, x ∉ [1; 2]) [1; 2]
        ++ replicate (length [1; 2]) (length (nodes fanout_state))
    ∧ outputs varn = [1; 2]
    ∧ ∀ c nn, c ∈ [1; 2] → nodes fanout_state !! c = Some nn →
        ∃ nn', nodes s' !! c = Some nn'
               ∧ inputs nn'
                 = filter (λ x, x ≠ 0) (inputs nn) ++ [S (length (nodes fanout_state))].
Proof.
  apply (parallel_edges_per_request example_layout_int fanout_state 0 0
           kNHWC kNCHW ∅ (var_node "x" [1; 16; 32; 32]%Z false [] [1; 2])
           (mkVarDesc "x" [1; 16; 32; 32]%Z 5 false) [1; 32; 16; 32]%Z [1; 2]).
  - right. done.
  - reflexivity.
  - reflexivity.
  - reflexivity.
  - reflexivity.
  - reflexivity.
  - discriminate.
  - apply (bool_decide_unpack _). vm_compute. exact I.
  - intros c Hc. apply elem_of_cons in Hc as [-> | Hc].
    + eexists. split; reflexivity.
    + apply elem_of_cons in Hc as [-> | Hc].
      * eexists. split; reflexivity.
      * by apply elem_of_nil in Hc.
Defined.

Lemma precondition_violation_leaves_world_witness :
  ∃ e, precondition_error e
       ∧ ApplyImpl example_layout_int false (fixed_order [0]) (mkWorld None [∅])
         = (Raise e, mkWorld None [∅]).
Proof.
  apply (precondition_violation_leaves_world example_layout_int false
           (fixed_order [0]) (mkWorld None [∅])).
  left. reflexivity.
Defined.

Lemma empty_operator_list_is_unguarded_witness :
  ApplyImpl example_layout_int false (fixed_order []) (world_with empty_graph)
  = (Raise Undefined, world_with empty_graph)
  ∧ ¬ precondition_error Undefined.
Proof.
  apply (empty_operator_list_is_unguarded example_layout_int false
           (fixed_order []) (world_with empty_graph) empty_graph ∅);
    reflexivity.
Defined.

Lemma classification_is_eligibility_witness :
  0 ∈ ({[0]} : gset nat)
  ↔ 0 ∈ [0]
    ∧ eligible false
        (initial_state single_conv_graph {[ "W" := mkTensor [16; 16; 3; 3]%Z kNCHW ]} [∅]) 0.
Proof.
  apply (classification_is_eligibility false
           (initial_state single_conv_graph {[ "W" := mkTensor [16; 16; 3; 3]%Z kNCHW ]} [∅])
           [0] {[ "W" := [0] ]} {[0]}).
  vm_compute. reflexivity.
Defined.

(** C2, on the chained example: after the first two loops the group of the
    filter F1 is the operators 0 and 1, of which only 0 is left in
    [valid_ops]; the single pass of the second loop removed operator 1 on
    account of F2 after it had accepted operator 0 on account of F1. *)
Lemma chained_sharing_ends_mixed :
  ∃ weights_shared valid_ops,
    select_ops true (initial_state chain_graph chain_scope [∅]) [0; 1; 2]
    = Ok (weights_shared, valid_ops)
    ∧ weights_shared !! "F1" = Some [0; 1]
    ∧ (0 ∈ valid_ops) ∧ (1 ∉ valid_ops)
    ∧ ¬ consistent_sharing weights_shared valid_ops.
Proof.
  exists {[ "F1" := [0; 1]; "F2" := [1; 2] ]}, {[0]}.
  split; [vm_compute; reflexivity |].
  split; [vm_compute; reflexivity |].
  split; [set_solver |]. split; [set_solver |].
  intros Hcons. destruct (Hcons "F1" [0; 1] ltac:(vm_compute; reflexivity)) as [Hall | Hnone].
  - specialize (Hall 1 ltac:(set_solver)). set_solver.
  - specialize (Hnone 0 ltac:(set_solver)). set_solver.
Qed.

Lemma commit_attrs_by_path_witness :
  ∃ d', nodes (snd (commit_attrs false 0 shared_filter_state)) !! 0
        = Some (with_desc (NOp d')
                  (conv_node "x0" ["W"] [("use_cudnn", AttrBool false)] [2; 5] [3]))
    ∧ attrs_ d' !! "use_cudnn" = Some (AttrBool true)
    ∧ attrs_ d' !! "fuse_alpha" = None
    ∧ attrs_ d' !! "data_format" = Some (AttrString "NHWC").
Proof.
  destruct (commit_attrs_by_path false shared_filter_state
              (snd (commit_attrs false 0 shared_filter_state)) 0
              (conv_node "x0" ["W"] [("use_cudnn", AttrBool false)] [2; 5] [3])
              (mkOpDesc "fused_conv2d_add_act"
                 {[ "Filter" := ["W"]; "Input" := ["x0"] ]} ∅
                 (list_to_map [("data_format", AttrString "NCHW");
                               ("use_cudnn", AttrBool false)]) (Some 0)))
    as (d' & Hn & Hfmt & _ & Hfuse & Hcudnn).
  - reflexivity.
  - reflexivity.
  - vm_compute. reflexivity.
  - assert (HP2 : ¬ P2 false
             (mkOpDesc "fused_conv2d_add_act"
                {[ "Filter" := ["W"]; "Input" := ["x0"] ]} ∅
                (list_to_map [("data_format", AttrString "NCHW");
                              ("use_cudnn", AttrBool false)]) (Some 0))).
    { intros [_ ?]. discriminate. }
    exists d'. split; [exact Hn |]. split.
    + apply (Hcudnn (scope shared_filter_state)); [exact HP2 | | done | by eexists].
      exists ["W"]. split; [reflexivity |].
      intros f Hf. apply list_elem_of_singleton in Hf as ->.
      exists (mkTensor [16; 16; 3; 3]%Z kNCHW), 16%Z, 16%Z.
      repeat split; by exists 2%Z.
    + split; [| exact Hfmt]. rewrite (Hfuse HP2). reflexivity.
Defined.

(** C5 as stated fails on an operator that satisfies both P1 and P2: it is
    in the final eligible set, P1 holds of it and [use_cudnn] is present,
    yet the pass leaves [use_cudnn] false and adds [fuse_alpha]. *)
Lemma both_predicates_leave_use_cudnn_false :
  (∃ weights_shared, select_ops true both_paths_state [0] = Ok (weights_shared, {[0]}))
  ∧ (∃ n d, nodes both_paths_state !! 0 = Some n ∧ desc n = NOp d
            ∧ P1 (scope both_paths_state) d ∧ P2 true d
            ∧ is_Some (attrs_ d !! "use_cudnn"))
  ∧ fst (ApplyImpl example_layout_int true (fixed_order [0]) (world_with both_paths_graph))
    = Ok 1
  ∧ attr_of (nodes_after (ApplyImpl example_layout_int true (fixed_order [0])
                            (world_with both_paths_graph))) 0 "use_cudnn"
    = Some (AttrBool false)
  ∧ attr_of (nodes_after (ApplyImpl example_layout_int true (fixed_order [0])
                            (world_with both_paths_graph))) 0 "fuse_alpha"
    = Some (AttrFloat 0).
Proof.
  split.
  { eexists. vm_compute. reflexivity. }
  split.
  { eexists _, _. split; [reflexivity |]. split; [reflexivity |].
    split; [| split; [split; reflexivity | by eexists]].
    exists ["W"]. split; [reflexivity |].
    intros f Hf. apply list_elem_of_singleton in Hf as ->.
    exists (mkTensor [16; 16; 3; 3]%Z kNCHW), 16%Z, 16%Z.
    repeat split; by exists 2%Z. }
  repeat split; vm_compute; reflexivity.
Qed.

(** The second of two operators that share a converted filter: when it is
    committed, [cuDNNIsValid] reads the permuted dimensions [16,3,3,16] of
    the buffer, finds 3 where the input channels were, and [use_cudnn] is
    not set. *)
Example shared_filter_second_operator_keeps_use_cudnn :
  (∃ weights_shared,
     select_ops false shared_filter_state [0; 1] = Ok (weights_shared, {[0; 1]}))
  ∧ attr_of (nodes_after (ApplyImpl example_layout_int false (fixed_order [0; 1])
                            (world_with shared_filter_graph))) 0 "use_cudnn"
    = Some (AttrBool true)
  ∧ attr_of (nodes_after (ApplyImpl example_layout_int false (fixed_order [0; 1])
                            (world_with shared_filter_graph))) 1 "use_cudnn"
    = Some (AttrBool false)
  ∧ attr_of (nodes_after (ApplyImpl example_layout_int false (fixed_order [0; 1])
                            (world_with shared_filter_graph))) 1 "data_format"
    = Some (AttrString "NHWC").
Proof.
  split.
  { eexists. vm_compute. reflexivity. }
  repeat split; vm_compute; reflexivity.
Qed.

Lemma transfer_weight_converts_or_skips_witness :
  ∃ t, scope two_filter_nodes_state !! "W" = Some t
    ∧ (layout t = kNHWC →
         snd (transfer_weight 0 "W" two_filter_nodes_state) = two_filter_nodes_state)
    ∧ (layout t ≠ kNHWC →
        ∃ d0 d1 d2 d3, dims t = [d0; d1; d2; d3]
          ∧ scope (snd (transfer_weight 0 "W" two_filter_nodes_state))
            = <["W" := mkTensor [d0; d2; d3; d1] kNHWC]> (scope two_filter_nodes_state)
          ∧ (∀ v vn vd, count_occ Nat.eq_dec [2; 5] v = 1 →
               nodes two_filter_nodes_state !! v = Some vn →
               desc vn = NVar vd →
               var_persistable vd = true → var_name vd = "W" →
               ∃ e0 e1 e2 e3,
                 var_shape vd !! 0 = Some e0 ∧ var_shape vd !! 1 = Some e1
                 ∧ var_shape vd !! 2 = Some e2 ∧ var_shape vd !! 3 = Some e3
                 ∧ nodes (snd (transfer_weight 0 "W" two_filter_nodes_state)) !! v
                   = Some (with_desc (NVar (SetShape vd [e0; e2; e3; e1])) vn))
          ∧ (∀ v vn vd, nodes two_filter_nodes_state !! v = Some vn →
               desc vn = NVar vd →
               v ∉ [2; 5] ∨ var_persistable vd = false ∨ var_name vd ≠ "W" →
               nodes (snd (transfer_weight 0 "W" two_filter_nodes_state)) !! v
               = Some vn)).
Proof.
  apply (transfer_weight_converts_or_skips two_filter_nodes_state
           (snd (transfer_weight 0 "W" two_filter_nodes_state)) 0
           (conv_node "x0" ["W"] [] [2; 5] [3]) "W").
  - reflexivity.
  - vm_compute. reflexivity.
Defined.

(** The edit of lines 249-257 runs once for each time a variable node is
    listed: a filter node listed twice ends with its sizes permuted twice,
    [16,8,3,5] -> [16,3,5,8] -> [16,5,8,3], while the buffer is converted
    once. *)
Example filter_node_listed_twice :
  fst (transfer_weight 0 "W" twice_listed_state) = Ok tt
  ∧ scope (snd (transfer_weight 0 "W" twice_listed_state)) !! "W"
    = Some (mkTensor [16; 3; 5; 8]%Z kNHWC)
  ∧ shape_of (nodes (snd (transfer_weight 0 "W" twice_listed_state))) 2
    = Some [16; 5; 8; 3]%Z.
Proof. repeat split; vm_compute; reflexivity. Qed.

(** C4 as stated fails when two committed operators read one filter through
    two variable nodes: both operators are eligible, the buffer starts in
    NCHW, the first operator converts it and permutes its own variable
    node 5; the second finds the buffer in NHWC and skips the shape edit of
    its variable node 6, which keeps [16,16,3,3]. *)
Lemma second_filter_node_keeps_its_shape :
  (∃ weights_shared,
     select_ops false two_filter_nodes_state [0; 1] = Ok (weights_shared, {[0; 1]}))
  ∧ scope two_filter_nodes_state !! "W" = Some (mkTensor [16; 16; 3; 3]%Z kNCHW)
  ∧ nodes two_filter_nodes_state !! 6 = Some (var_node "W" [16; 16; 3; 3]%Z true [] [1])
  ∧ 6 ∈ inputs (conv_node "x1" ["W"] [] [3; 6] [4])
  ∧ fst (ApplyImpl example_layout_int false (fixed_order [0; 1])
           (world_with two_filter_nodes_graph)) = Ok 2
  ∧ scope_after (ApplyImpl example_layout_int false (fixed_order [0; 1])
                   (world_with two_filter_nodes_graph)) !! "W"
    = Some (mkTensor [16; 3; 3; 16]%Z kNHWC)
  ∧ attr_of (nodes_after (ApplyImpl example_layout_int false (fixed_order [0; 1])
                            (world_with two_filter_nodes_graph))) 1 "data_format"
    = Some (AttrString "NHWC")
  ∧ shape_of (nodes_after (ApplyImpl example_layout_int false (fixed_order [0; 1])
                             (world_with two_filter_nodes_graph))) 5
    = Some [16; 3; 3; 16]%Z
  ∧ shape_of (nodes_after (ApplyImpl example_layout_int false (fixed_order [0; 1])
                             (world_with two_filter_nodes_graph))) 6
    = Some [16; 16; 3; 3]%Z.
Proof.
  split.
  { eexists. vm_compute. reflexivity. }
  split; [reflexivity |]. split; [reflexivity |].
  split; [simpl; set_solver |].
  repeat split; vm_compute; reflexivity.
Qed.

Lemma chain_is_topological : topological (nodes chain_state) [0; 1; 2].
Proof.
  intros i j x y nx ny v Hi Hj Hx Hy Hout Hin.
  destruct i as [| [| [| i]]]; simpl in Hi; try discriminate;
    injection Hi as <-;
    (destruct j as [| [| [| j]]]; simpl in Hj; try discriminate;
     injection Hj as <-);
    try lia; exfalso;
    simpl in Hx, Hy; injection Hx as <-; injection Hy as <-;
    simpl in Hout, Hin;
    repeat match goal with
      | H : _ ∈ [] |- _ => by apply elem_of_nil in H
      | H : _ ∈ _ :: _ |- _ =>
          apply elem_of_cons in H as [? | H]; [subst; try lia |]
      end.
Qed.

Lemma request_directions_are_settled_witness :
  (∀ rq,
     rq ∈ requests (snd (for_each [0; 1; 2]
                           (commit_step example_layout_int true {[0]} (Some 0))
                           chain_state)) →
     direction_settled {[0]}
       (vars_shape_nhwc (snd (for_each [0; 1; 2]
                                (commit_step example_layout_int true {[0]} (Some 0))
                                chain_state))) rq)
  ∧ (∀ rq1 rq2,
       rq1 ∈ requests (snd (for_each [0; 1; 2]
                              (commit_step example_layout_int true {[0]} (Some 0))
                              chain_state)) →
       rq2 ∈ requests (snd (for_each [0; 1; 2]
                              (commit_step example_layout_int true {[0]} (Some 0))
                              chain_state)) →
       rq_prev rq1 = rq_prev rq2 →
       rq_from rq1 = rq_from rq2 ∧ rq_to rq1 = rq_to rq2).
Proof.
  apply (request_directions_are_settled example_layout_int true chain_state
           (snd (for_each [0; 1; 2]
                   (commit_step example_layout_int true {[0]} (Some 0)) chain_state))
           [0; 1; 2] {[0]} (Some 0)
           (fst (for_each [0; 1; 2]
                   (commit_step example_layout_int true {[0]} (Some 0)) chain_state))).
  - apply (bool_decide_unpack _). vm_compute. exact I.
  - intros op Hop.
    apply elem_of_cons in Hop as [-> | Hop]; [eexists; split; reflexivity |].
    apply elem_of_cons in Hop as [-> | Hop]; [eexists; split; reflexivity |].
    apply elem_of_cons in Hop as [-> | Hop]; [eexists; split; reflexivity |].
    by apply elem_of_nil in Hop.
  - exact chain_is_topological.
  - reflexivity.
  - reflexivity.
  - reflexivity.
  - apply surjective_pairing.
Defined.

(** The requests of the chained example: one from NCHW to NHWC for the
    input of the first operator, one from NHWC to NCHW for its output. *)
Example chain_requests :
  requests (snd (for_each [0; 1; 2]
                   (commit_step example_layout_int true {[0]} (Some 0)) chain_state))
  = [mkRequest 3 0 kNCHW kNHWC; mkRequest 4 1 kNHWC kNCHW]
  ∧ fst (for_each [0; 1; 2]
           (commit_step example_layout_int true {[0]} (Some 0)) chain_state)
    = Ok tt.
Proof. split; vm_compute; reflexivity. Qed.

(** ** Instances of the further properties *)

Ltac list_cases H :=
  repeat (apply elem_of_cons in H as [-> | H]); [.. | by apply elem_of_nil in H].

Lemma analysis_failure_leaves_world_witness :
  ∃ e', ApplyImpl example_layout_int false (fixed_order [0])
          (world_with missing_filter_graph)
        = (Raise e', world_with missing_filter_graph).
Proof.
  apply (analysis_failure_leaves_world example_layout_int false (fixed_order [0])
           (world_with missing_filter_graph) missing_filter_graph ∅ Undefined).
  - reflexivity.
  - reflexivity.
  - reflexivity.
  - vm_compute. reflexivity.
Defined.

Lemma committed_operators_are_eligible_witness :
  0 ∈ [0] ∧ eligible false single_conv_state 0.
Proof.
  refine (committed_operators_are_eligible false single_conv_state [0]
            {[ "W" := [0] ]} {[0]} _ 0 _).
  - vm_compute. reflexivity.
  - set_solver.
Defined.

Lemma nothing_eligible_nothing_changes_witness :
  ApplyImpl example_layout_int true (fixed_order [1; 2]) (world_with fanout_graph)
  = (Ok 0, world_with fanout_graph).
Proof.
  apply (nothing_eligible_nothing_changes example_layout_int true (fixed_order [1; 2])
           (world_with fanout_graph) fanout_graph ∅ ∅ ∅).
  - reflexivity.
  - reflexivity.
  - reflexivity.
  - discriminate.
  - vm_compute. reflexivity.
  - intros p Hp (n & d & Hn & Hd & Ht & _).
    unfold fixed_order in Hp. list_cases Hp.
    + injection Hn as <-. injection Hd as <-. discriminate Ht.
    + injection Hn as <-. injection Hd as <-. discriminate Ht.
  - intros x Hx. unfold fixed_order in Hx. list_cases Hx.
    + eexists. split; [reflexivity |]. split; [reflexivity |].
      intros y Hy. simpl in Hy. list_cases Hy. eexists. split; reflexivity.
    + eexists. split; [reflexivity |]. split; [reflexivity |].
      intros y Hy. simpl in Hy. list_cases Hy. eexists. split; reflexivity.
Defined.

Lemma sharing_index_lists_readers_witness :
  0 ∈ shared_by {[ "W" := [0] ]} "W"
  ↔ 0 ∈ [0] ∧ reads_filter single_conv_state 0 "W".
Proof.
  refine (sharing_index_lists_readers false single_conv_state [0]
            {[ "W" := [0] ]} {[0]} _ "W" 0).
  vm_compute. reflexivity.
Defined.

Lemma sharing_without_chains_is_consistent_witness :
  consistent_sharing {[ "W" := [0; 1] ]} {[0; 1]}.
Proof.
  apply (sharing_without_chains_is_consistent false shared_filter_state [0; 1]
           {[ "W" := [0; 1] ]} {[0; 1]}).
  - intros p n d fs f f' Hp Hn Hd Hfs Hf Hf'. list_cases Hp.
    + injection Hn as <-. injection Hd as <-. injection Hfs as <-.
      list_cases Hf. by list_cases Hf'.
    + injection Hn as <-. injection Hd as <-. injection Hfs as <-.
      list_cases Hf. by list_cases Hf'.
  - vm_compute. reflexivity.
Defined.

Lemma nodes_keep_their_identity_witness :
  ∃ n', nodes_after (ApplyImpl example_layout_int false (fixed_order [0])
                       (world_with single_conv_graph)) !! 0
        = Some n'
        ∧ same_identity (conv_node "x" ["W"] [] [1; 2] [3]) n'.
Proof.
  apply (nodes_keep_their_identity example_layout_int false (fixed_order [0])
           (world_with single_conv_graph) single_conv_graph 0);
    reflexivity.
Defined.

Lemma added_nodes_are_conversions_witness :
  ∃ n', nodes_after (ApplyImpl example_layout_int false (fixed_order [0])
                       (world_with single_conv_graph)) !! 4
        = Some n'
        ∧ created n'.
Proof.
  eexists. split; [vm_compute; reflexivity |].
  apply (added_nodes_are_conversions example_layout_int false (fixed_order [0])
           (world_with single_conv_graph) single_conv_graph 4).
  - reflexivity.
  - vm_compute. reflexivity.
  - simpl. lia.
Defined.

Lemma tensors_are_converted_at_most_once_witness :
  converted_once {[ "W" := mkTensor [16; 16; 3; 3]%Z kNCHW ]}
    (scope_after (ApplyImpl example_layout_int false (fixed_order [0])
                    (world_with single_conv_graph))) "W".
Proof.
  apply (tensors_are_converted_at_most_once example_layout_int false (fixed_order [0])
           (world_with single_conv_graph) single_conv_graph "W").
  reflexivity.
Defined.

Lemma unselected_operators_keep_their_attributes_witness :
  ∃ n' d',
    nodes_after (ApplyImpl example_layout_int true (fixed_order [0; 1; 2])
                   (world_with chain_graph)) !! 1
    = Some n'
    ∧ desc n' = NOp d'
    ∧ attrs_ d' = list_to_map [("data_format", AttrString "NCHW");
                               ("use_cudnn", AttrBool false)].
Proof.
  refine (unselected_operators_keep_their_attributes example_layout_int true
            (fixed_order [0; 1; 2]) (world_with chain_graph) chain_graph 1
            (conv_node "x1" ["F1"; "F2"] [("use_cudnn", AttrBool false)] [4; 7; 8] [5])
            (mkOpDesc "fused_conv2d_add_act"
               {[ "Filter" := ["F1"; "F2"]; "Input" := ["x1"] ]} ∅
               (list_to_map [("data_format", AttrString "NCHW");
                             ("use_cudnn", AttrBool false)]) (Some 0%nat))
            _ _ _ _).
  - reflexivity.
  - reflexivity.
  - reflexivity.
  - intros ws valid_ops Hsel.
    assert (Hs : select_ops true
                   (initial_state chain_graph (default ∅ (g_param_scope chain_graph))
                      (w_blocks (world_with chain_graph)))
                   (fixed_order [0; 1; 2] (g_nodes chain_graph))
                 = Ok ({[ "F1" := [0; 1]; "F2" := [1; 2] ]}, {[0]}))
      by (vm_compute; reflexivity).
    rewrite Hs in Hsel. injection Hsel as <- <-. set_solver.
Defined.

Lemma block_variables_are_never_removed_witness :
  length (w_blocks (snd (ApplyImpl example_layout_int false (fixed_order [0])
                           declared_world)))
  = length (w_blocks declared_world)
  ∧ ∃ vars',
      w_blocks (snd (ApplyImpl example_layout_int false (fixed_order [0])
                       declared_world)) !! 0
      = Some vars'
      ∧ dom declared_vars ⊆ dom vars'.
Proof.
  apply (block_variables_are_never_removed example_layout_int false (fixed_order [0])
           declared_world 0 declared_vars).
  reflexivity.
Defined.

(** On that block the pass runs through and declares the conversion output
    beside the three variables, which it leaves as they were declared. *)
Example declared_block_after_the_pass :
  fst (ApplyImpl example_layout_int false (fixed_order [0]) declared_world) = Ok 1
  ∧ ∃ vars',
      w_blocks (snd (ApplyImpl example_layout_int false (fixed_order [0])
                       declared_world)) = [vars']
      ∧ vars' !! "x_nchw_to_nhwc"
        = Some (mkVarDesc "x_nchw_to_nhwc" [1; 32; 32; 16]%Z 5 false)
      ∧ vars' !! "x" = declared_vars !! "x"
      ∧ vars' !! "W" = declared_vars !! "W"
      ∧ vars' !! "y" = declared_vars !! "y".
Proof.
  split; [vm_compute; reflexivity |].
  eexists. split; [vm_compute; reflexivity |].
  repeat split; vm_compute; reflexivity.
Qed.

Lemma producers_and_outputs_are_kept_witness :
  ∃ n', nodes_after (ApplyImpl example_layout_int false (fixed_order [0])
                       (world_with single_conv_graph)) !! 3
        = Some n'
        ∧ IsOp n' = IsOp (var_node "y" [1; 16; 32; 32]%Z false [0] [])
        ∧ (IsOp (var_node "y" [1; 16; 32; 32]%Z false [0] []) = false →
           inputs n' = inputs (var_node "y" [1; 16; 32; 32]%Z false [0] []))
        ∧ (IsOp (var_node "y" [1; 16; 32; 32]%Z false [0] []) = true →
           outputs n' = outputs (var_node "y" [1; 16; 32; 32]%Z false [0] [])).
Proof.
  apply (producers_and_outputs_are_kept example_layout_int false (fixed_order [0])
           (world_with single_conv_graph) single_conv_graph 3);
    reflexivity.
Defined.

Lemma analysis_runs_through_witness :
  ∃ ws valid, select_ops false single_conv_state [0] = Ok (ws, valid).
Proof.
  apply (analysis_runs_through false single_conv_state [0]).
  intros p Hp. list_cases Hp.
  eexists _, _. split; [reflexivity |]. split; [reflexivity |].
  intros _. split; [right; eexists; vm_compute; reflexivity |].
  intros _. split.
  - eexists. split; [vm_compute; reflexivity |].
    intros f Hf. list_cases Hf. eexists. split; [vm_compute; reflexivity | reflexivity].
  - left. vm_compute. reflexivity.
Defined.

Lemma cached_conversion_serves_any_direction_witness :
  ∃ s1 s2,
    InsertLayoutTransOp example_layout_int 0 1 kNCHW kNHWC (Some 0) fanout_state
    = (Ok tt, s1)
    ∧ InsertLayoutTransOp example_layout_int 0 2 kNHWC kNCHW (Some 0) s1 = (Ok tt, s2)
    ∧ blocks s2 = blocks s1
    ∧ length (nodes s2) = length (nodes s1)
    ∧ cache s2 = cache s1
    ∧ served fanout_state 0
        (update_op_desc example_layout_int kNCHW kNHWC
           (mkOpDesc "" ∅ ∅ ∅ (Some 0)) "x" ("x" +:+ direction_suffix kNCHW))
        (out_var_desc ∅ ("x" +:+ direction_suffix kNCHW) 5 [1; 32; 32; 16]%Z)
        "x" [1; 2] s2
    ∧ ∃ cv varn n1' n2' d1' d2',
        cache s2 !! 0 = Some cv ∧ nodes s2 !! cv = Some varn
        ∧ nodes s2 !! 1 = Some n1' ∧ desc n1' = NOp d1'
        ∧ nodes s2 !! 2 = Some n2' ∧ desc n2' = NOp d2'
        ∧ cv ∈ inputs n1' ∧ cv ∈ inputs n2'
        ∧ renamed_slots "x" (name_ varn)
            {[ "Filter" := []; "Input" := ["x"] ]} (inputs_ d1')
        ∧ renamed_slots "x" (name_ varn)
            {[ "Filter" := []; "Input" := ["x"] ]} (inputs_ d2').
Proof.
  refine (cached_conversion_serves_any_direction example_layout_int fanout_state
            0 1 2 0 0 kNCHW kNHWC kNHWC kNCHW ∅
            (var_node "x" [1; 16; 32; 32]%Z false [] [1; 2])
            (op_node "relu" "x" [] [] [0] []) (op_node "relu" "x" [] [] [0] [])
            (mkVarDesc "x" [1; 16; 32; 32]%Z 5 false)
            (mkOpDesc "relu" {[ "Filter" := []; "Input" := ["x"] ]} ∅
               (list_to_map []) (Some 0%nat))
            (mkOpDesc "relu" {[ "Filter" := []; "Input" := ["x"] ]} ∅
               (list_to_map []) (Some 0%nat))
            [1; 32; 32; 16]%Z _ _ _ _ _ _ _ _ _ _ _ _).
  - left. done.
  - right. done.
  - reflexivity.
  - reflexivity.
  - reflexivity.
  - reflexivity.
  - reflexivity.
  - reflexivity.
  - reflexivity.
  - reflexivity.
  - reflexivity.
  - discriminate.
Defined.

Lemma null_block_aborts_supported_requests_witness :
  ∃ r s',
    InsertLayoutTransOp example_layout_int 0 1 kNCHW kNHWC None fanout_state = (r, s')
    ∧ nodes s' = nodes fanout_state ∧ blocks s' = blocks fanout_state
    ∧ cache s' = cache fanout_state
    ∧ (valid_direction kNCHW kNHWC → r = Raise CheckFailed)
    ∧ (¬ valid_direction kNCHW kNHWC → r = Ok tt).
Proof.
  apply (null_block_aborts_supported_requests example_layout_int fanout_state 0 1
           kNCHW kNHWC (var_node "x" [1; 16; 32; 32]%Z false [] [1; 2])
           (mkVarDesc "x" [1; 16; 32; 32]%Z 5 false));
    reflexivity.
Defined.

Lemma short_shape_aborts_first_request_witness :
  fst (InsertLayoutTransOp example_layout_int 0 1 kNCHW kNHWC (Some 0)
         short_shape_state)
  = Raise Undefined.
Proof.
  apply (short_shape_aborts_first_request example_layout_int short_shape_state 0 1 0
           kNCHW kNHWC ∅ (var_node "x" [1; 16]%Z false [] [1])
           (mkVarDesc "x" [1; 16]%Z 5 false)).
  - left. done.
  - reflexivity.
  - reflexivity.
  - reflexivity.
  - reflexivity.
  - simpl. lia.
Defined.

Lemma conversion_is_declared_from_the_producer_witness :
  ∃ s' opn od varn vd,
    InsertLayoutTransOp example_layout_int 0 1 kNCHW kNHWC (Some 0) fanout_state
    = (Ok tt, s')
    ∧ nodes s' !! length (nodes fanout_state) = Some opn
    ∧ name_ opn = "transfer_layout" ∧ desc opn = NOp od
    ∧ type_ od = "transfer_layout" ∧ block_ od = Some 0
    ∧ inputs_ od = {[ "X" := ["x"] ]}
    ∧ outputs_ od = {[ "Out" := ["x" +:+ direction_suffix kNCHW] ]}
    ∧ attrs_ od = {[ "src_layout" := AttrInt (example_layout_int kNCHW);
                     "dst_layout" := AttrInt (example_layout_int kNHWC) ]}
    ∧ nodes s' !! S (length (nodes fanout_state)) = Some varn
    ∧ name_ varn = var_name vd ∧ desc varn = NVar vd
    ∧ var_persistable vd = false ∧ var_dtype vd = 5%Z
    ∧ var_shape vd = [1; 32; 32; 16]%Z
    ∧ ((∅ : BlockDesc) !! ("x" +:+ direction_suffix kNCHW) = None →
       var_name vd = "x" +:+ direction_suffix kNCHW).
Proof.
  apply (conversion_is_declared_from_the_producer example_layout_int fanout_state
           0 1 0 kNCHW kNHWC ∅
           (var_node "x" [1; 16; 32; 32]%Z false [] [1; 2])
           (op_node "relu" "x" [] [] [0] [])
           (mkVarDesc "x" [1; 16; 32; 32]%Z 5 false)
           (mkOpDesc "relu" {[ "Filter" := []; "Input" := ["x"] ]} ∅
              (list_to_map []) (Some 0%nat))
           [1; 32; 32; 16]%Z).
  - left. done.
  - reflexivity.
  - reflexivity.
  - reflexivity.
  - reflexivity.
  - reflexivity.
  - reflexivity.
  - reflexivity.
Defined.

Lemma committed_operators_declare_nhwc_witness :
  1 = size ({[0]} : gset nat)
  ∧ ∀ p, p ∈ ({[0]} : gset nat) →
      attr_of (nodes_after (ApplyImpl example_layout_int false (fixed_order [0])
                              (world_with single_conv_graph)))
              p "data_format"
      = Some (AttrString "NHWC").
Proof.
  apply (committed_operators_declare_nhwc example_layout_int false (fixed_order [0])
           (world_with single_conv_graph) single_conv_graph {[ "W" := [0] ]} {[0]} 1).
  - reflexivity.
  - vm_compute. reflexivity.
  - vm_compute. reflexivity.
Defined.

Lemma two_nodes_for_every_converted_producer_witness :
  length (nodes (snd (for_each [0]
                        (commit_step example_layout_int false {[0]} (Some 0))
                        single_conv_state)))
  = (length (nodes single_conv_state)
     + 2 * size (cache (snd (for_each [0]
                               (commit_step example_layout_int false {[0]} (Some 0))
                               single_conv_state))))%nat.
Proof.
  apply (two_nodes_for_every_converted_producer example_layout_int false {[0]}
           (Some 0) [0] single_conv_state).
  - reflexivity.
  - vm_compute. reflexivity.
Defined.

Lemma unrelated_activations_keep_their_shape_witness :
  ∃ n', nodes_after (ApplyImpl example_layout_int false (fixed_order [0])
                       (world_with single_conv_graph)) !! 1
        = Some n'
        ∧ desc n' = NVar (mkVarDesc "x" [1; 16; 32; 32]%Z 5 false).
Proof.
  refine (unrelated_activations_keep_their_shape example_layout_int false
            (fixed_order [0]) (world_with single_conv_graph) single_conv_graph 1
            (var_node "x" [1; 16; 32; 32]%Z false [] [0])
            (mkVarDesc "x" [1; 16; 32; 32]%Z 5 false) _ _ _ _ _).
  - reflexivity.
  - reflexivity.
  - reflexivity.
  - reflexivity.
  - intros ws valid_ops x nx Hsel Hx Hnx.
    assert (Hs : select_ops false
                   (initial_state single_conv_graph
                      (default ∅ (g_param_scope single_conv_graph))
                      (w_blocks (world_with single_conv_graph)))
                   (fixed_order [0] (g_nodes single_conv_graph))
                 = Ok ({[ "W" := [0] ]}, {[0]}))
      by (vm_compute; reflexivity).
    rewrite Hs in Hsel. injection Hsel as <- <-.
    apply elem_of_singleton in Hx as ->.
    injection Hnx as <-. simpl. intros Hin.
    apply list_elem_of_singleton in Hin. discriminate.
Defined.

Lemma pass_runs_through_witness :
  ∃ k w', ApplyImpl example_layout_int false (fixed_order [0])
            (world_with single_conv_graph)
          = (Ok k, w').
Proof.
  refine (pass_runs_through example_layout_int false (fixed_order [0])
            (world_with single_conv_graph) single_conv_graph
            {[ "W" := mkTensor [16; 16; 3; 3]%Z kNCHW ]} _ _ _ _).
  - reflexivity.
  - reflexivity.
  - reflexivity.
  - split.
    + apply (bool_decide_unpack _). vm_compute. exact I.
    + eexists 0, [], _, _, 0. split; [reflexivity |]. split; [reflexivity |].
      split; [reflexivity |]. split; [reflexivity |]. by eexists.
    + intros x Hx. unfold fixed_order in Hx. list_cases Hx.
      eexists _, _. split; [reflexivity |]. split; [reflexivity |].
      split.
      { intros y Hy. simpl in Hy. list_cases Hy; eexists; split; reflexivity. }
      split.
      { intros y Hy. simpl in Hy. list_cases Hy; eexists; split; reflexivity. }
      intros _. split; [right; eexists; vm_compute; reflexivity |].
      intros _. split; [left; vm_compute; reflexivity |].
      eexists. split; [vm_compute; reflexivity |].
      split.
      { intros f Hf. list_cases Hf. eexists. split; [vm_compute; reflexivity | reflexivity]. }
      split.
      { intros y Hy. simpl in Hy.
        list_cases Hy; (eexists _, _; split; [reflexivity |]; split; [reflexivity |];
                        intros _; simpl; lia). }
      intros y Hy. simpl in Hy.
      list_cases Hy; (eexists _, _; split; [reflexivity |]; split; [reflexivity |];
                      intros _; simpl; lia).
Defined.

Lemma chain_is_closed : closed_ops (nodes chain_state) [0; 1; 2].
Proof.
  intros x n y Hx Hn Hy.
  list_cases Hx; simpl in Hn; injection Hn as <-; simpl in Hy; list_cases Hy;
    simpl; lia.
Qed.

Lemma chain_commit_runs :
  fst (for_each [0; 1; 2]
         (commit_step example_layout_int true {[0]} (Some 0)) chain_state)
  = Ok tt.
Proof. vm_compute. reflexivity. Qed.

Lemma remaining_inputs_match_the_layout_witness :
  boundary_ok {[0]} chain_state
    (snd (for_each [0; 1; 2]
            (commit_step example_layout_int true {[0]} (Some 0)) chain_state))
    1
  ∧ ∃ nx, nodes (snd (for_each [0; 1; 2]
                        (commit_step example_layout_int true {[0]} (Some 0))
                        chain_state)) !! 1 = Some nx
      ∧ (4 ∈ inputs nx
         ∨ converted_for (length (nodes chain_state))
             (snd (for_each [0; 1; 2]
                     (commit_step example_layout_int true {[0]} (Some 0))
                     chain_state)) nx 4).
Proof.
  destruct (remaining_inputs_match_the_layout example_layout_int true chain_state
              (snd (for_each [0; 1; 2]
                      (commit_step example_layout_int true {[0]} (Some 0)) chain_state))
              [0; 1; 2] {[0]} (Some 0)) with (x := 1) as [Hb Hr].
  - apply (bool_decide_unpack _). vm_compute. exact I.
  - intros op Hop. list_cases Hop; eexists; split; reflexivity.
  - exact chain_is_topological.
  - exact chain_is_closed.
  - reflexivity.
  - reflexivity.
  - reflexivity.
  - rewrite <- chain_commit_runs. apply surjective_pairing.
  - apply (bool_decide_unpack _). vm_compute. exact I.
  - split; [exact Hb |].
    apply (Hr (conv_node "x1" ["F1"; "F2"] [("use_cudnn", AttrBool false)]
                 [4; 7; 8] [5]) 4).
    + reflexivity.
    + apply (bool_decide_unpack _). vm_compute. exact I.
Defined.

(** The chained example after the third loop: the first operator reads the
    conversion of its activation (node 10 for node 3) beside its filter,
    the second the conversion of the recorded node 4 (node 12) beside its
    two filters, the third its unrecorded input and its filter. *)
Example chain_inputs_after_the_loop :
  inputs <$> nodes (snd (for_each [0; 1; 2]
                           (commit_step example_layout_int true {[0]} (Some 0))
                           chain_state))
  = [[7; 10]; [7; 8; 12]; [5; 8]; []; [0]; [1]; [2]; []; []; [3]; [9]; [4]; [11]]
  ∧ cache (snd (for_each [0; 1; 2]
                  (commit_step example_layout_int true {[0]} (Some 0))
                  chain_state)) !! 3 = Some 10
  ∧ cache (snd (for_each [0; 1; 2]
                  (commit_step example_layout_int true {[0]} (Some 0))
                  chain_state)) !! 4 = Some 12.
Proof. repeat split; vm_compute; reflexivity. Qed.
